(** * Warp2Api: token pool and upstream streaming engine

    A shallow embedding of [warp2protobuf/core/token_pool.py], of
    [warp2protobuf/warp/api_client.py] and of the codec of server message
    data in [server.py], with the properties of the specification stated
    and settled against it.

    Conventions.
    - Python [str] is [string] (a sequence of 8-bit code points), Python
      [bytes] is [list byte], Python [int] is [Z].
    - A finite [float], such as a timestamp of [time.time()], is the
      rational [Q] that it stands for.  Comparisons of floats are exact;
      the sum in [time.time() + 120] is rounded to binary64
      ([float_add]).
    - A [TokenInfo] object is referred to by its position in
      [TokenPool._tokens]: records are only ever appended, so a position
      denotes the same object for the whole life of the pool.
    - Logging is left out; everything else that the Python code does to
      its state is written out. *)

From Stdlib Require Import ZArith QArith Qpower Lia Lqa Ascii.
From Stdlib.Strings Require Import Byte.
From stdpp Require Import base gmap sets list strings sorting.

Set Warnings "-register-all".

Local Open Scope Z_scope.

(** ** Python strings *)

Module PyStr.

(** [str.isspace] on a single code point below 256; this is also what
    [\s] matches in a [str] pattern of the [re] module. *)
Definition is_space (c : ascii) : bool :=
  match c with
  | "009" | "010" | "011" | "012" | "013"
  | "028" | "029" | "030" | "031" | " " | "133" | "160" => true
  | _ => false
  end%char.

Fixpoint lstrip (s : string) : string :=
  match s with
  | String c s' => if is_space c then lstrip s' else s
  | EmptyString => EmptyString
  end.

Definition rstrip (s : string) : string :=
  String.rev (lstrip (String.rev s)).

(** [s.strip()] *)
Definition strip (s : string) : string := rstrip (lstrip s).

(** [s.startswith(p)] *)
Definition startswith (p s : string) : bool := String.prefix p s.

(** [p in s] for two strings *)
Fixpoint contains (p s : string) : bool :=
  String.prefix p s ||
  match s with
  | String _ s' => contains p s'
  | EmptyString => false
  end.

(** [s[n:]] *)
Fixpoint drop (n : nat) (s : string) : string :=
  match n, s with
  | O, _ => s
  | S n', String _ s' => drop n' s'
  | S _, EmptyString => EmptyString
  end.

(** [s[:n]] *)
Fixpoint take (n : nat) (s : string) : string :=
  match n, s with
  | S n', String c s' => String c (take n' s')
  | _, _ => EmptyString
  end.

(** [s.split(sep)] for a one-character separator: the fields between
    the separators, empty ones included. *)
Fixpoint split_go (sep : ascii) (cur : string) (s : string) : list string :=
  match s with
  | EmptyString => [String.rev cur]
  | String c s' =>
      if Ascii.eqb c sep
      then String.rev cur :: split_go sep EmptyString s'
      else split_go sep (String c cur) s'
  end.

Definition split (sep : ascii) (s : string) : list string :=
  split_go sep EmptyString s.

(** [re.sub(r"\s+", "", s)] *)
Fixpoint remove_spaces (s : string) : string :=
  match s with
  | EmptyString => EmptyString
  | String c s' =>
      if is_space c then remove_spaces s' else String c (remove_spaces s')
  end.

Definition eqb (a b : string) : bool := bool_decide (a = b).

(** truth value of a string *)
Definition nonempty (s : string) : bool :=
  match s with EmptyString => false | _ => true end.

Definition digit (n : Z) : ascii :=
  ascii_of_N (Z.to_N (48 + n mod 10)).

(** [f"{n:04d}"] for [0 <= n < 10000] *)
Definition fmt04 (n : Z) : string :=
  String (digit (n / 1000)) (String (digit (n / 100))
    (String (digit (n / 10)) (String (digit n) EmptyString))).

(** [str(n)] for a natural number given with enough fuel. *)
Fixpoint dec_go (fuel : nat) (n : Z) (acc : string) : string :=
  match fuel with
  | O => acc
  | S fuel' =>
      let acc' := String (digit n) acc in
      if n / 10 =? 0 then acc' else dec_go fuel' (n / 10) acc'
  end.

Definition str_of_Z (n : Z) : string :=
  if n <? 0 then String "-"%char (dec_go (Z.to_nat (Z.log2 (- n) + 1)) (- n) EmptyString)
  else dec_go (Z.to_nat (Z.log2 n + 1)) n EmptyString.

End PyStr.

(** ** Rational timestamps *)

Definition Qltb (x y : Q) : bool :=
  match (x ?= y)%Q with Lt => true | _ => false end.

(** ** Sums of floats

    A Python float that is finite stands here as the rational it is.
    The sum of two floats is the exact sum rounded to the nearest value
    of binary64, of two nearest values to the one whose significand is
    even, and to an infinity when the rounded value is beyond the
    largest.  The sign of a zero is left out: no comparison tells the two
    zeros apart. *)

Inductive binary64 :=
| B64 (q : Q)
| B64_inf (negative : bool).

(** [2^e <= a / d], for positive [a] and [d]. *)
Definition pow2_le_quot (e a d : Z) : bool :=
  if 0 <=? e then d * 2 ^ e <=? a else d <=? a * 2 ^ (- e).

(** The integer nearest to [n / d], of two nearest ones the even one. *)
Definition div_nearest_even (n d : Z) : Z :=
  let q := n / d in
  let r := n mod d in
  if 2 * r <? d then q
  else if d <? 2 * r then q + 1
  else if Z.even q then q else q + 1.

(** The exponent [e] of [a / d]: [2^e <= a / d < 2^(e+1)]. *)
Definition binary64_exponent (a d : Z) : Z :=
  let e0 := Z.log2 a - Z.log2 d in
  if pow2_le_quot e0 a d then e0 else e0 - 1.

(** [a / d] in units of [2^u], rounded to an integer. *)
Definition binary64_significand (a d u : Z) : Z :=
  if 0 <=? u then div_nearest_even a (d * 2 ^ u)
  else div_nearest_even (a * 2 ^ (- u)) d.

(** [n * 2^u] *)
Definition binary64_value (n u : Z) : Q :=
  Qred (if 0 <=? u then inject_Z (n * 2 ^ u) else Qmake n (Z.to_pos (2 ^ (- u)))).

(** Rounding to binary64: [u] is the exponent of the last place of a
    significand of 53 bits (never below -1074, where the subnormal values
    lie) and [m] the significand; a value of [2^1024] or more is beyond
    the largest float. *)
Definition round_binary64 (x : Q) : binary64 :=
  let x := Qred x in
  let a := Z.abs (Qnum x) in
  let d := Zpos (Qden x) in
  if a =? 0 then B64 0
  else
    let u := Z.max (binary64_exponent a d - 52) (-1074) in
    let m := binary64_significand a d u in
    if 2 ^ (1024 - u) <=? m then B64_inf (Qnum x <? 0)
    else B64 (binary64_value (Z.sgn (Qnum x) * m) u).

(** [x + y] on floats *)
Definition float_add (x y : Q) : binary64 := round_binary64 (x + y).

(** [y > x] for a float or an integer [y] and a sum [x] *)
Definition float_lt (x : binary64) (y : Q) : bool :=
  match x with
  | B64 q => Qltb q y
  | B64_inf negative => negative
  end.

(** The rationals that are values of binary64: those that rounding gives
    back. *)
Definition is_binary64 (x : Q) : bool :=
  match round_binary64 x with
  | B64 q => Qeq_bool q x
  | B64_inf _ => false
  end.

(** ** Exceptions

    [exn] holds the exceptions that are instances of [Exception]: every
    handler of the code is an [except Exception], and these are what it
    catches.  What is no [Exception] ([asyncio.CancelledError] at an
    [await], [KeyboardInterrupt], [SystemExit]) passes every handler and
    ends the task; it is not part of this development. *)

Inductive exn :=
| KeyError | IndexError | TypeError | AttributeError | ValueError
| UnicodeDecodeError | NetworkError (msg : string) | OtherError (msg : string).

Inductive result (A : Type) :=
| Ok (a : A)
| Raise (e : exn).
Arguments Ok {A} a.
Arguments Raise {A} e.

(** ** Hexadecimal and base64 text, as [bytes.hex], [bytes.fromhex] and
    [binascii] have them *)

Module Codec.

Definition byte_of_N (n : N) : byte :=
  match Byte.of_N (n mod 256) with Some b => b | None => x00 end.

(** The value of a hex digit, [None] for any other character. *)
Definition hex_value (c : ascii) : option N :=
  let n := N_of_ascii c in
  if ((48 <=? n) && (n <=? 57))%N then Some (n - 48)%N
  else if ((97 <=? n) && (n <=? 102))%N then Some (n - 87)%N
  else if ((65 <=? n) && (n <=? 70))%N then Some (n - 55)%N
  else None.

Definition is_hex (c : ascii) : bool :=
  match hex_value c with Some _ => true | None => false end.

Fixpoint all_hex (s : string) : bool :=
  match s with
  | EmptyString => true
  | String c s' => is_hex c && all_hex s'
  end.

(** [re.fullmatch(r"[0-9a-fA-F]+", s)] *)
Definition fullmatch_hex (s : string) : bool :=
  PyStr.nonempty s && all_hex s.

(** The whitespace that [bytes.fromhex] skips between two bytes. *)
Definition is_ascii_space (c : ascii) : bool :=
  match c with
  | "009" | "010" | "011" | "012" | "013" | " " => true
  | _ => false
  end%char.

(** [bytes.fromhex(s)]; [None] stands for [ValueError]. *)
Fixpoint bytes_fromhex (s : string) : option (list byte) :=
  match s with
  | EmptyString => Some []
  | String c s1 =>
      if is_ascii_space c then bytes_fromhex s1
      else
        match s1 with
        | EmptyString => None
        | String d s2 =>
            match hex_value c, hex_value d with
            | Some h, Some l =>
                match bytes_fromhex s2 with
                | Some r => Some (byte_of_N (16 * h + l) :: r)
                | None => None
                end
            | _, _ => None
            end
        end
  end.

Definition hex_char (n : N) : ascii :=
  if (n <? 10)%N then ascii_of_N (48 + n) else ascii_of_N (87 + n).

(** [b.hex()] *)
Fixpoint bytes_hex (b : list byte) : string :=
  match b with
  | [] => EmptyString
  | x :: r =>
      String (hex_char (Byte.to_N x / 16))
        (String (hex_char (Byte.to_N x mod 16)) (bytes_hex r))
  end.

(** The base64 alphabet of RFC 4648, section 4. *)
Definition b64_char (v : N) : ascii :=
  if (v <? 26)%N then ascii_of_N (65 + v)
  else if (v <? 52)%N then ascii_of_N (97 + (v - 26))
  else if (v <? 62)%N then ascii_of_N (48 + (v - 52))
  else if (v =? 62)%N then "+"%char
  else "/"%char.

(** [table_a2b_base64]: the value of a character of the alphabet, [None]
    for every other character. *)
Definition table_a2b_base64 (c : ascii) : option N :=
  let n := N_of_ascii c in
  if ((65 <=? n) && (n <=? 90))%N then Some (n - 65)%N
  else if ((97 <=? n) && (n <=? 122))%N then Some (n - 97 + 26)%N
  else if ((48 <=? n) && (n <=? 57))%N then Some (n - 48 + 52)%N
  else if (n =? 43)%N then Some 62%N
  else if (n =? 47)%N then Some 63%N
  else None.

(** The characters of [binascii.b2a_base64(b)], padding left out. *)
Fixpoint b64_chars (b : list byte) : string :=
  match b with
  | [] => EmptyString
  | [x] =>
      let x := Byte.to_N x in
      String (b64_char (N.shiftr x 2))
        (String (b64_char (N.shiftl (N.land x 3) 4)) EmptyString)
  | [x; y] =>
      let x := Byte.to_N x in
      let y := Byte.to_N y in
      String (b64_char (N.shiftr x 2))
        (String (b64_char (N.lor (N.shiftl (N.land x 3) 4) (N.shiftr y 4)))
           (String (b64_char (N.shiftl (N.land y 15) 2)) EmptyString))
  | x :: y :: z :: r =>
      let x := Byte.to_N x in
      let y := Byte.to_N y in
      let z := Byte.to_N z in
      String (b64_char (N.shiftr x 2))
        (String (b64_char (N.lor (N.shiftl (N.land x 3) 4) (N.shiftr y 4)))
           (String (b64_char (N.lor (N.shiftl (N.land y 15) 2) (N.shiftr z 6)))
              (String (b64_char (N.land z 63)) (b64_chars r))))
  end.

Fixpoint pad_string (n : nat) : string :=
  match n with
  | O => EmptyString
  | S n' => String "="%char (pad_string n')
  end.

(** ["=" * ((4 - (len(s) % 4)) % 4)] *)
Definition pad_for (s : string) : string :=
  pad_string (Z.to_nat ((4 - Z.of_nat (String.length s) mod 4) mod 4)).

(** [base64.b64encode(b)] *)
Definition b64encode (b : list byte) : string :=
  let s := b64_chars b in s +:+ pad_for s.

Definition urlsafe_encode_char (c : ascii) : ascii :=
  match c with
  | "+" => "-"
  | "/" => "_"
  | _ => c
  end%char.

Definition urlsafe_decode_char (c : ascii) : ascii :=
  match c with
  | "-" => "+"
  | "_" => "/"
  | _ => c
  end%char.

Fixpoint translate (f : ascii -> ascii) (s : string) : string :=
  match s with
  | EmptyString => EmptyString
  | String c s' => String (f c) (translate f s')
  end.

(** [base64.urlsafe_b64encode(b)] *)
Definition urlsafe_b64encode (b : list byte) : string :=
  translate urlsafe_encode_char (b64encode b).

(** [s.rstrip("=")] *)
Fixpoint rstrip_eq (s : string) : string :=
  match s with
  | EmptyString => EmptyString
  | String c s' =>
      match rstrip_eq s' with
      | EmptyString => if Ascii.eqb c "="%char then EmptyString else String c EmptyString
      | r => String c r
      end
  end.

(** The URL-safe base64 text of [b] with its padding stripped. *)
Definition urlsafe_b64encode_nopad (b : list byte) : string :=
  rstrip_eq (urlsafe_b64encode b).

(** [binascii.a2b_base64(s, strict_mode=False)] as CPython 3.11 and later
    have it: characters outside the alphabet are skipped, a pad sequence
    that completes a quad ends the input, and input that stops inside a
    quad is an error ([None]).  The bytes come out in front of the result
    of the rest instead of through an output buffer. *)
Fixpoint a2b_base64 (s : string) (quad_pos : nat) (leftchar : N) (pads : nat)
  : option (list byte) :=
  match s with
  | EmptyString =>
      match quad_pos with
      | O => Some []
      | _ => None
      end
  | String c s' =>
      if Ascii.eqb c "="%char then
        if (2 <=? quad_pos)%nat then
          if (4 <=? quad_pos + S pads)%nat then Some []
          else a2b_base64 s' quad_pos leftchar (S pads)
        else a2b_base64 s' quad_pos leftchar pads
      else
        match table_a2b_base64 c with
        | None => a2b_base64 s' quad_pos leftchar pads
        | Some this_ch =>
            match quad_pos with
            | 0%nat => a2b_base64 s' 1 this_ch 0
            | 1%nat =>
                cons (byte_of_N (N.lor (N.shiftl leftchar 2) (N.shiftr this_ch 4)))
                  <$> a2b_base64 s' 2 (N.land this_ch 15) 0
            | 2%nat =>
                cons (byte_of_N (N.lor (N.shiftl leftchar 4) (N.shiftr this_ch 2)))
                  <$> a2b_base64 s' 3 (N.land this_ch 3) 0
            | _ =>
                cons (byte_of_N (N.lor (N.shiftl leftchar 6) this_ch))
                  <$> a2b_base64 s' 0 0%N 0
            end
        end
  end.

Fixpoint is_ascii_str (s : string) : bool :=
  match s with
  | EmptyString => true
  | String c s' => (N_of_ascii c <? 128)%N && is_ascii_str s'
  end.

(** [base64.b64decode(s)] on a [str]: the text must be ASCII. *)
Definition b64decode (s : string) : option (list byte) :=
  if is_ascii_str s then a2b_base64 s 0 0%N 0 else None.

(** [base64.urlsafe_b64decode(s)] on a [str] *)
Definition urlsafe_b64decode (s : string) : option (list byte) :=
  if is_ascii_str s then b64decode (translate urlsafe_decode_char s) else None.

(** [_parse_payload_bytes] of [send_protobuf_to_warp_api]; the body of
    [_parse_payload_bytes2] of [send_protobuf_to_warp_api_parsed] is the
    same text. *)
Definition _parse_payload_bytes (data_str : string) : option (list byte) :=
  let s := PyStr.remove_spaces data_str in
  if negb (PyStr.nonempty s) then None
  else
    match (if fullmatch_hex s then bytes_fromhex s else None) with
    | Some b => Some b
    | None =>
        let pad := pad_for s in
        match urlsafe_b64decode (s +:+ pad) with
        | Some b => Some b
        | None => b64decode (s +:+ pad)
        end
    end.

Definition _parse_payload_bytes2 (data_str : string) : option (list byte) :=
  _parse_payload_bytes data_str.

End Codec.

(** ** The token pool ([warp2protobuf/core/token_pool.py]) *)

Inductive TokenPriority := ANONYMOUS | SHARED | PERSONAL.

#[global] Instance TokenPriority_eq_dec : EqDecision TokenPriority.
Proof. solve_decision. Defined.

(** [priority.value] *)
Definition priority_value (p : TokenPriority) : Z :=
  match p with ANONYMOUS => 1 | SHARED => 2 | PERSONAL => 3 end.

(** [priority.name] *)
Definition priority_name (p : TokenPriority) : string :=
  match p with
  | ANONYMOUS => "ANONYMOUS"
  | SHARED => "SHARED"
  | PERSONAL => "PERSONAL"
  end.

#[global] Instance TokenPriority_countable : Countable TokenPriority.
Proof.
  refine (inj_countable' (fun p => Z.to_nat (priority_value p))
            (fun n => match n with
                      | 1%nat => ANONYMOUS
                      | 2%nat => SHARED
                      | _ => PERSONAL
                      end) _).
  intros []; reflexivity.
Defined.

Record TokenInfo := mkTokenInfo {
  refresh_token : string;
  priority : TokenPriority;
  name : string;
  last_used : Q;
  failure_count : Z;
  is_active : bool;
  last_jwt : string;
  last_jwt_expiry : Q
}.

Definition set_last_used (v : Q) (t : TokenInfo) : TokenInfo :=
  mkTokenInfo (refresh_token t) (priority t) (name t) v (failure_count t)
    (is_active t) (last_jwt t) (last_jwt_expiry t).

Definition set_failure_count (v : Z) (t : TokenInfo) : TokenInfo :=
  mkTokenInfo (refresh_token t) (priority t) (name t) (last_used t) v
    (is_active t) (last_jwt t) (last_jwt_expiry t).

Definition set_is_active (v : bool) (t : TokenInfo) : TokenInfo :=
  mkTokenInfo (refresh_token t) (priority t) (name t) (last_used t)
    (failure_count t) v (last_jwt t) (last_jwt_expiry t).

Definition set_last_jwt (jwt : string) (expiry : Q) (t : TokenInfo) : TokenInfo :=
  mkTokenInfo (refresh_token t) (priority t) (name t) (last_used t)
    (failure_count t) (is_active t) jwt expiry.

Record TokenPool := mkTokenPool {
  _tokens : list TokenInfo;
  _current_index : gmap TokenPriority Z;
  _last_used_index : gmap TokenPriority Z;
  _failed_tokens : gset string;
  _initialized : bool
}.

Definition set_tokens (v : list TokenInfo) (p : TokenPool) : TokenPool :=
  mkTokenPool v (_current_index p) (_last_used_index p) (_failed_tokens p)
    (_initialized p).

Definition set_current_index (v : gmap TokenPriority Z) (p : TokenPool) : TokenPool :=
  mkTokenPool (_tokens p) v (_last_used_index p) (_failed_tokens p)
    (_initialized p).

Definition set_last_used_index (v : gmap TokenPriority Z) (p : TokenPool) : TokenPool :=
  mkTokenPool (_tokens p) (_current_index p) v (_failed_tokens p)
    (_initialized p).

Definition set_failed_tokens (v : gset string) (p : TokenPool) : TokenPool :=
  mkTokenPool (_tokens p) (_current_index p) (_last_used_index p) v
    (_initialized p).

Definition set_initialized (v : bool) (p : TokenPool) : TokenPool :=
  mkTokenPool (_tokens p) (_current_index p) (_last_used_index p)
    (_failed_tokens p) v.

(** [self._max_failures = 3], never assigned again. *)
Definition _max_failures : Z := 3.

(** [TokenPool.__init__] *)
Definition TokenPool_init : TokenPool :=
  mkTokenPool []
    (<[PERSONAL := 0]> (<[SHARED := 0]> (<[ANONYMOUS := 0]> ∅)))
    (<[PERSONAL := 0]> (<[SHARED := 0]> (<[ANONYMOUS := 0]> ∅)))
    ∅ false.

(** What the pool reads from outside itself: the process environment,
    the constant [REFRESH_TOKEN_B64] of [config.settings], the UTF-8
    decoder and the string hash of the interpreter (it differs from one
    process to the next). *)
Record Platform := mkPlatform {
  getenv : string -> option string;
  REFRESH_TOKEN_B64 : string;
  decode_utf8 : list byte -> option string;
  py_hash : string -> Z
}.

(** The text after the first occurrence of [sep] in [s]. *)
Fixpoint after_first (sep s : string) : option string :=
  if String.prefix sep s then Some (PyStr.drop (String.length sep) s)
  else
    match s with
    | EmptyString => None
    | String _ s' => after_first sep s'
    end.

(** The text before the first occurrence of [sep] in [s], all of [s]
    when there is none. *)
Fixpoint before_first (sep s : string) : string :=
  if String.prefix sep s then EmptyString
  else
    match s with
    | EmptyString => EmptyString
    | String c s' => String c (before_first sep s')
    end.

Section Pool.

Variable E : Platform.

(** The truth value of an optional string: neither [None] nor empty. *)
Definition truthy_opt (o : option string) : bool :=
  match o with
  | Some s => PyStr.nonempty s
  | None => false
  end.

(** [TokenPool._load_personal_tokens] *)
Definition _load_personal_tokens : list string :=
  let tokens :=
    match getenv E "WARP_REFRESH_TOKEN" with
    | Some personal_token =>
        if PyStr.nonempty personal_token
           && PyStr.nonempty (PyStr.strip personal_token)
           && negb (PyStr.eqb personal_token "your_warp_refresh_token_here")
        then [PyStr.strip personal_token]
        else []
    | None => []
    end in
  match getenv E "WARP_PERSONAL_TOKENS" with
  | Some personal_tokens_str =>
      if PyStr.nonempty personal_tokens_str then
        foldl (fun tokens token =>
                 let token := PyStr.strip token in
                 if PyStr.nonempty token && negb (bool_decide (token ∈ tokens))
                 then tokens ++ [token] else tokens)
          tokens (PyStr.split ","%char personal_tokens_str)
      else tokens
  | None => tokens
  end.

(** [TokenPool._load_shared_tokens] *)
Definition _load_shared_tokens : list string :=
  match getenv E "WARP_SHARED_TOKENS" with
  | Some shared_tokens_str =>
      if PyStr.nonempty shared_tokens_str then
        foldl (fun tokens token =>
                 let token := PyStr.strip token in
                 if PyStr.nonempty token then tokens ++ [token] else tokens)
          [] (PyStr.split ","%char shared_tokens_str)
      else []
  | None => []
  end.

(** [TokenPool._load_anonymous_token]; every exception of the built-in
    path is caught there and gives [None]. *)
Definition _load_anonymous_token : option string :=
  let builtin :=
    match Codec.b64decode (REFRESH_TOKEN_B64 E) with
    | Some raw =>
        match decode_utf8 E raw with
        | Some decoded =>
            match after_first "refresh_token=" decoded with
            | Some rest => Some (before_first "refresh_token=" rest)
            | None => None
            end
        | None => None
        end
    | None => None
    end in
  match getenv E "WARP_ANONYMOUS_TOKEN" with
  | Some anon_token =>
      if PyStr.nonempty anon_token && PyStr.nonempty (PyStr.strip anon_token)
      then Some (PyStr.strip anon_token)
      else builtin
  | None => builtin
  end.

(** [TokenInfo(refresh_token=..., priority=...)] with [__post_init__] *)
Definition TokenInfo_new (refresh_token : string) (priority : TokenPriority) : TokenInfo :=
  mkTokenInfo refresh_token priority
    (priority_name priority +:+ "_" +:+ PyStr.fmt04 (py_hash E refresh_token mod 10000))
    0%Q 0 true "" 0%Q.

(** [TokenPool._add_token_internal] *)
Definition _add_token_internal (refresh_token0 : string) (priority : TokenPriority)
  (p : TokenPool) : TokenPool :=
  if existsb (fun token_info => PyStr.eqb (refresh_token token_info) refresh_token0)
       (_tokens p)
  then p
  else set_tokens (_tokens p ++ [TokenInfo_new refresh_token0 priority]) p.

(** [TokenPool.add_token] *)
Definition add_token (refresh_token : string) (priority : TokenPriority)
  (p : TokenPool) : TokenPool :=
  _add_token_internal refresh_token priority p.

(** [TokenPool.initialize] *)
Definition initialize (p : TokenPool) : TokenPool :=
  if _initialized p then p
  else
    let p1 :=
      match _load_anonymous_token with
      | Some anonymous_token =>
          if PyStr.nonempty anonymous_token
          then _add_token_internal anonymous_token ANONYMOUS p
          else p
      | None => p
      end in
    let p2 := foldl (fun q token => _add_token_internal token SHARED q)
                p1 _load_shared_tokens in
    let p3 := foldl (fun q token => _add_token_internal token PERSONAL q)
                p2 _load_personal_tokens in
    set_initialized true p3.

(** A record can be selected when it is active and its refresh token is
    not in the failed set. *)
Definition selectable (p : TokenPool) (t : TokenInfo) : bool :=
  is_active t && negb (bool_decide (refresh_token t ∈ _failed_tokens p)).

(** The positions, from [i] on, of the records of [ts] that satisfy [f]:
    the list comprehensions over [self._tokens]. *)
Fixpoint positions (f : TokenInfo -> bool) (i : nat) (ts : list TokenInfo) : list nat :=
  match ts with
  | [] => []
  | t :: ts' =>
      if f t then i :: positions f (S i) ts' else positions f (S i) ts'
  end.

Definition of_priority (p : TokenPool) (prio : TokenPriority) (t : TokenInfo) : bool :=
  bool_decide (priority t = prio) && selectable p t.

(** [TokenPool._get_token_by_priority] *)
Definition _get_token_by_priority (prio : TokenPriority) (p : TokenPool)
  : result (option nat) * TokenPool :=
  let priority_tokens := positions (of_priority p prio) 0 (_tokens p) in
  match priority_tokens with
  | [] => (Ok None, p)
  | _ =>
      match _current_index p !! prio with
      | None => (Raise KeyError, p)
      | Some current_idx =>
          let len := Z.of_nat (length priority_tokens) in
          match priority_tokens !! Z.to_nat (current_idx mod len) with
          | None => (Raise IndexError, p)
          | Some token =>
              (Ok (Some token),
               set_current_index
                 (<[prio := (current_idx + 1) mod len]> (_current_index p)) p)
          end
      end
  end.

(** [token.last_used = now] on the record at position [i] *)
Definition touch (now : Q) (i : nat) (p : TokenPool) : TokenPool :=
  set_tokens (alter (set_last_used now) i (_tokens p)) p.

Fixpoint get_next_token_loop (now : Q) (prios : list TokenPriority) (p : TokenPool)
  : result (option nat) * TokenPool :=
  match prios with
  | [] => (Ok None, p)
  | prio :: rest =>
      match _get_token_by_priority prio p with
      | (Ok (Some token), p') => (Ok (Some token), touch now token p')
      | (Ok None, p') => get_next_token_loop now rest p'
      | (Raise e, p') => (Raise e, p')
      end
  end.

(** [TokenPool.get_next_token]; [now] is what [time.time()] returns. *)
Definition get_next_token (now : Q) (p : TokenPool) : result (option nat) * TokenPool :=
  get_next_token_loop now [ANONYMOUS; SHARED; PERSONAL] (initialize p).

(** [TokenPool.get_last_used_token] *)
Definition get_last_used_token (p : TokenPool) : option nat :=
  fst (foldl (fun '(most_recent, i) token =>
                (if Qltb 0 (last_used token) then
                   match most_recent with
                   | None => Some i
                   | Some j =>
                       match _tokens p !! j with
                       | Some m =>
                           if Qltb (last_used m) (last_used token)
                           then Some i else most_recent
                       | None => most_recent
                       end
                   end
                 else most_recent, S i))
         (None, 0%nat) (_tokens p)).

Definition not_excluded (exclude_token : option string) (t : TokenInfo) : bool :=
  match exclude_token with
  | None => true
  | Some e => negb (PyStr.eqb (refresh_token t) e)
  end.

Fixpoint get_next_token_excluding_loop (now : Q) (exclude_token : option string)
  (prios : list TokenPriority) (p : TokenPool) : result (option nat) * TokenPool :=
  match prios with
  | [] => (Ok None, p)
  | prio :: rest =>
      let priority_tokens :=
        positions (fun t => of_priority p prio t && not_excluded exclude_token t)
          0 (_tokens p) in
      match priority_tokens with
      | [] => get_next_token_excluding_loop now exclude_token rest p
      | _ =>
          let p1 :=
            match _last_used_index p !! prio with
            | None => set_last_used_index (<[prio := 0]> (_last_used_index p)) p
            | Some _ => p
            end in
          match _last_used_index p1 !! prio with
          | None => (Raise KeyError, p1)
          | Some last =>
              let len := Z.of_nat (length priority_tokens) in
              let idx := last mod len in
              match priority_tokens !! Z.to_nat idx with
              | None => (Raise IndexError, p1)
              | Some token =>
                  (Ok (Some token),
                   touch now token
                     (set_last_used_index
                        (<[prio := (idx + 1) mod len]> (_last_used_index p1)) p1))
              end
          end
      end
  end.

(** [TokenPool.get_next_token_excluding] *)
Definition get_next_token_excluding (now : Q) (exclude_token : option string)
  (p : TokenPool) : result (option nat) * TokenPool :=
  get_next_token_excluding_loop now exclude_token [ANONYMOUS; SHARED; PERSONAL]
    (initialize p).

(** [TokenPool.mark_token_failed] *)
Definition mark_token_failed (token_info : nat) (p : TokenPool) : TokenPool :=
  match _tokens p !! token_info with
  | None => p
  | Some t =>
      let t1 := set_failure_count (failure_count t + 1) t in
      if _max_failures <=? failure_count t1 then
        set_failed_tokens ({[refresh_token t1]} ∪ _failed_tokens p)
          (set_tokens (<[token_info := set_is_active false t1]> (_tokens p)) p)
      else
        set_tokens (<[token_info := t1]> (_tokens p)) p
  end.

(** [TokenPool.mark_token_success] *)
Definition mark_token_success (token_info : nat) (jwt : string) (jwt_expiry : Q)
  (p : TokenPool) : TokenPool :=
  match _tokens p !! token_info with
  | None => p
  | Some t =>
      let t1 := set_failure_count 0 t in
      let failed :=
        if bool_decide (refresh_token t1 ∈ _failed_tokens p)
        then _failed_tokens p ∖ {[refresh_token t1]}
        else _failed_tokens p in
      let t2 := if PyStr.nonempty jwt then set_last_jwt jwt jwt_expiry t1 else t1 in
      set_failed_tokens failed (set_tokens (<[token_info := t2]> (_tokens p)) p)
  end.

(** The loop of [TokenPool.recover_failed_tokens] over [self._tokens]. *)
Fixpoint recover_loop (ts : list TokenInfo) (failed : gset string) (recovered : Z)
  : list TokenInfo * gset string * Z :=
  match ts with
  | [] => ([], failed, recovered)
  | token_info :: rest =>
      if negb (is_active token_info) && (_max_failures <=? failure_count token_info)
      then
        let t' := set_is_active true (set_failure_count 0 token_info) in
        let failed' :=
          if bool_decide (refresh_token token_info ∈ failed)
          then failed ∖ {[refresh_token token_info]}
          else failed in
        let '(rest', failed'', n) := recover_loop rest failed' (recovered + 1) in
        (t' :: rest', failed'', n)
      else
        let '(rest', failed'', n) := recover_loop rest failed recovered in
        (token_info :: rest', failed'', n)
  end.

(** [TokenPool.recover_failed_tokens] *)
Definition recover_failed_tokens (p : TokenPool) : Z * TokenPool :=
  let '(ts, failed, recovered) := recover_loop (_tokens p) (_failed_tokens p) 0 in
  (recovered, set_failed_tokens failed (set_tokens ts p)).

(** The part of [TokenPool.get_pool_stats] that the client reads. *)
Definition count_active (f : TokenInfo -> bool) (p : TokenPool) : Z :=
  Z.of_nat (length (positions (fun t => f t && is_active t) 0 (_tokens p))).

Record PoolStats := mkPoolStats {
  total_tokens : Z;
  active_tokens : Z;
  failed_tokens : Z;
  personal_tokens : Z;
  shared_tokens : Z;
  anonymous_tokens : Z
}.

Definition get_pool_stats (p : TokenPool) : PoolStats :=
  mkPoolStats
    (Z.of_nat (length (_tokens p)))
    (count_active (fun _ => true) p)
    (Z.of_nat (size (_failed_tokens p)))
    (count_active (fun t => bool_decide (priority t = PERSONAL)) p)
    (count_active (fun t => bool_decide (priority t = SHARED)) p)
    (count_active (fun t => bool_decide (priority t = ANONYMOUS)) p).

(** [get_token_pool]: the process-wide pool, made and initialised on
    first use.  A pool that has not been made yet is [TokenPool_init]. *)
Definition get_token_pool (p : TokenPool) : TokenPool := initialize p.

End Pool.

(** ** A state monad with exceptions

    A computation changes the state and either returns or raises; what
    it did to the state before raising stays done, as in Python. *)

Definition M (S A : Type) : Type := S -> result A * S.

Definition ret {S A : Type} (a : A) : M S A := fun s => (Ok a, s).

Definition bind {S A B : Type} (m : M S A) (f : A -> M S B) : M S B :=
  fun s =>
    match m s with
    | (Ok a, s') => f a s'
    | (Raise e, s') => (Raise e, s')
    end.

Definition raise {S A : Type} (e : exn) : M S A := fun s => (Raise e, s).

Definition lift {S A : Type} (r : result A) : M S A := fun s => (r, s).

Definition gets {S A : Type} (f : S -> A) : M S A := fun s => (Ok (f s), s).

Definition modify {S : Type} (f : S -> S) : M S unit := fun s => (Ok tt, f s).

(** [try: m  except Exception as e: h e], for the exceptions of [exn] *)
Definition try_except {S A : Type} (m : M S A) (h : exn -> M S A) : M S A :=
  fun s =>
    match m s with
    | (Ok a, s') => (Ok a, s')
    | (Raise e, s') => h e s'
    end.

Fixpoint for_each {S A : Type} (l : list A) (body : A -> M S unit) : M S unit :=
  match l with
  | [] => ret tt
  | x :: rest => bind (body x) (fun _ => for_each rest body)
  end.

Notation "x <- m ;; k" := (bind m (fun x => k))
  (at level 90, m at level 80, right associativity).
Notation "m ;;; k" := (bind m (fun _ => k))
  (at level 90, right associativity).

(** ** Decoded protobuf messages: the values of [protobuf_to_dict] *)

Inductive pyval :=
| PNone
| PBool (b : bool)
| PInt (n : Z)
| PFloat (q : Q)
| PStr (s : string)
| PList (l : list pyval)
| PDict (d : list (string * pyval)).

Module Py.

Fixpoint dict_lookup (k : string) (d : list (string * pyval)) : option pyval :=
  match d with
  | [] => None
  | (k', v) :: rest => if PyStr.eqb k' k then Some v else dict_lookup k rest
  end.

Definition truthy (v : pyval) : bool :=
  match v with
  | PNone => false
  | PBool b => b
  | PInt n => negb (n =? 0)
  | PFloat q => negb (Qeq_bool q 0)
  | PStr s => PyStr.nonempty s
  | PList l => match l with [] => false | _ => true end
  | PDict d => match d with [] => false | _ => true end
  end.

(** [isinstance(v, dict)] *)
Definition is_dict (v : pyval) : bool :=
  match v with PDict _ => true | _ => false end.

(** [v is not None] *)
Definition is_not_none (v : pyval) : bool :=
  match v with PNone => false | _ => true end.

Definition is_str (k : string) (v : pyval) : bool :=
  match v with PStr s => PyStr.eqb s k | _ => false end.

(** [k in v] for a string [k] *)
Definition contains (k : string) (v : pyval) : result bool :=
  match v with
  | PDict d => Ok (match dict_lookup k d with Some _ => true | None => false end)
  | PList l => Ok (existsb (is_str k) l)
  | PStr s => Ok (PyStr.contains k s)
  | _ => Raise TypeError
  end.

(** [v[k]] for a string [k] *)
Definition getitem (v : pyval) (k : string) : result pyval :=
  match v with
  | PDict d => match dict_lookup k d with Some x => Ok x | None => Raise KeyError end
  | _ => Raise TypeError
  end.

(** [v.get(k, default)] *)
Definition get (v : pyval) (k : string) (default : pyval) : result pyval :=
  match v with
  | PDict d => Ok (match dict_lookup k d with Some x => x | None => default end)
  | _ => Raise AttributeError
  end.

(** [v or default] *)
Definition or (v default : pyval) : pyval :=
  if truthy v then v else default.

Fixpoint chars (s : string) : list pyval :=
  match s with
  | EmptyString => []
  | String c s' => PStr (String c EmptyString) :: chars s'
  end.

(** The items that [for x in v] goes through. *)
Definition iter (v : pyval) : result (list pyval) :=
  match v with
  | PList l => Ok l
  | PDict d => Ok (map (fun kv => PStr (fst kv)) d)
  | PStr s => Ok (chars s)
  | _ => Raise TypeError
  end.

(** [list(v.keys())], evaluated for a log line *)
Definition keys (v : pyval) : result unit :=
  match v with PDict _ => Ok tt | _ => Raise AttributeError end.

(** [v[:100]], evaluated for a log line *)
Definition slice (v : pyval) : result unit :=
  match v with PStr _ | PList _ => Ok tt | _ => Raise TypeError end.

(** [sep.join(l)] *)
Fixpoint join (sep : string) (l : list pyval) : result string :=
  match l with
  | [] => Ok EmptyString
  | [PStr s] => Ok s
  | PStr s :: rest =>
      match join sep rest with
      | Ok r => Ok (s +:+ sep +:+ r)
      | Raise e => Raise e
      end
  | _ => Raise TypeError
  end.

End Py.

(** ** Event streams ([warp2protobuf/warp/api_client.py]) *)

(** The module-level [_get]: the value at the first of [names] that is in
    [d]. *)
Fixpoint _get (d : pyval) (names : list string) : result pyval :=
  match names with
  | [] => Ok PNone
  | name :: rest =>
      match Py.contains name d with
      | Ok true => Py.getitem d name
      | Ok false => _get d rest
      | Raise e => Raise e
      end
  end.

(** The [_get] that both senders define inside their loops: the same, for
    dictionaries only, and [None] for everything else. *)
Fixpoint _get_local (d : pyval) (names : list string) : pyval :=
  match names with
  | [] => PNone
  | n :: rest =>
      match d with
      | PDict kv =>
          match Py.dict_lookup n kv with
          | Some v => v
          | None => _get_local d rest
          end
      | _ => _get_local d rest
      end
  end.

Definition rbind {A B : Type} (r : result A) (f : A -> result B) : result B :=
  match r with
  | Ok a => f a
  | Raise e => Raise e
  end.

Fixpoint action_types (actions : list pyval) : result (list pyval) :=
  match actions with
  | [] => Ok []
  | action :: rest =>
      rbind (_get action ["create_task"; "createTask"]) (fun a1 =>
      rbind (if Py.is_not_none a1 then Ok "CREATE_TASK" else
        rbind (_get action ["append_to_message_content"; "appendToMessageContent"]) (fun a2 =>
        if Py.is_not_none a2 then Ok "APPEND_CONTENT" else
        rbind (_get action ["add_messages_to_task"; "addMessagesToTask"]) (fun a3 =>
        if Py.is_not_none a3 then Ok "ADD_MESSAGE" else
        rbind (_get action ["tool_call"; "toolCall"]) (fun a4 =>
        if Py.is_not_none a4 then Ok "TOOL_CALL" else
        rbind (_get action ["tool_response"; "toolResponse"]) (fun a5 =>
        if Py.is_not_none a5 then Ok "TOOL_RESPONSE" else Ok "UNKNOWN_ACTION")))))
        (fun ty =>
      rbind (action_types rest) (fun tys => Ok (PStr ty :: tys))))
  end.

(** [_get_event_type] *)
Definition _get_event_type (event_data : pyval) : result string :=
  rbind (Py.contains "init" event_data) (fun has_init =>
  if has_init then Ok "INITIALIZATION" else
  rbind (_get event_data ["client_actions"; "clientActions"]) (fun client_actions =>
  if Py.is_dict client_actions then
    rbind (_get client_actions ["actions"; "Actions"]) (fun a =>
    let actions := Py.or a (PList []) in
    if negb (Py.truthy actions) then Ok "CLIENT_ACTIONS_EMPTY" else
    rbind (Py.iter actions) (fun items =>
    rbind (action_types items) (fun tys =>
    rbind (Py.join ", " tys) (fun joined =>
    Ok ("CLIENT_ACTIONS(" +:+ joined +:+ ")")))))
  else
    rbind (Py.contains "finished" event_data) (fun has_finished =>
    if has_finished then Ok "FINISHED" else Ok "UNKNOWN_EVENT"))).

(** One entry of [all_events] or of [parsed_events]. *)
Record event_entry := mkEvent {
  event_number : Z;
  event_type : string;
  event_payload : pyval
}.

(** The variables of a sender that its stream loop assigns. *)
Record sse := mkSse {
  conversation_id : pyval;
  task_id : pyval;
  complete_response : list pyval;
  events : list event_entry;
  event_count : Z;
  current_data : string
}.

Definition sse_init : sse := mkSse PNone PNone [] [] 0 "".

Definition set_conversation_id (v : pyval) (s : sse) : sse :=
  mkSse v (task_id s) (complete_response s) (events s) (event_count s) (current_data s).

Definition set_task_id (v : pyval) (s : sse) : sse :=
  mkSse (conversation_id s) v (complete_response s) (events s) (event_count s) (current_data s).

Definition append_response (v : pyval) (s : sse) : sse :=
  mkSse (conversation_id s) (task_id s) (complete_response s ++ [v]) (events s)
    (event_count s) (current_data s).

Definition append_event (e : event_entry) (s : sse) : sse :=
  mkSse (conversation_id s) (task_id s) (complete_response s) (events s ++ [e])
    (event_count s) (current_data s).

Definition incr_event_count (s : sse) : sse :=
  mkSse (conversation_id s) (task_id s) (complete_response s) (events s)
    (event_count s + 1) (current_data s).

Definition set_current_data (v : string) (s : sse) : sse :=
  mkSse (conversation_id s) (task_id s) (complete_response s) (events s)
    (event_count s) v.

(** [text_content = agent_output.get("text", ""); if text_content: ...] *)
Definition take_text (agent_output : pyval) : M sse unit :=
  text_content <- lift (Py.get agent_output "text" (PStr "")) ;;
  if Py.truthy text_content then
    modify (append_response text_content) ;;;
    lift (Py.slice text_content)
  else ret tt.

(** The body of [for j, message in enumerate(messages)] *)
Definition on_message (message : pyval) : M sse unit :=
  lift (Py.keys message) ;;;
  if Py.is_not_none (_get_local message ["agent_output"; "agentOutput"]) then
    take_text (Py.or (_get_local message ["agent_output"; "agentOutput"]) (PDict []))
  else ret tt.

(** The body of [for i, action in enumerate(actions)] *)
Definition on_action (action : pyval) : M sse unit :=
  lift (Py.keys action) ;;;
  let append_data :=
    _get_local action ["append_to_message_content"; "appendToMessageContent"] in
  (if Py.is_dict append_data then
     message <- lift (Py.get append_data "message" (PDict [])) ;;
     take_text (Py.or (_get_local message ["agent_output"; "agentOutput"]) (PDict []))
   else ret tt) ;;;
  let messages_data :=
    _get_local action ["add_messages_to_task"; "addMessagesToTask"] in
  if Py.is_dict messages_data then
    messages <- lift (Py.get messages_data "messages" (PList [])) ;;
    old <- gets task_id ;;
    camel <- lift (Py.get messages_data "taskId" old) ;;
    new_task <- lift (Py.get messages_data "task_id" camel) ;;
    modify (set_task_id new_task) ;;;
    items <- lift (Py.iter messages) ;;
    for_each items on_message
  else ret tt.

(** [client_actions = _get(event_data, ...)] and what follows it *)
Definition on_client_actions (event_data : pyval) : M sse unit :=
  let client_actions := _get_local event_data ["client_actions"; "clientActions"] in
  if Py.is_dict client_actions then
    items <- lift (Py.iter (Py.or (_get_local client_actions ["actions"; "Actions"]) (PList []))) ;;
    for_each items on_action
  else ret tt.

(** [init_data = event_data["init"]] and the two assignments after it *)
Definition on_init (event_data : pyval) : M sse unit :=
  init_data <- lift (Py.getitem event_data "init") ;;
  old_conv <- gets conversation_id ;;
  conv <- lift (Py.get init_data "conversation_id" old_conv) ;;
  modify (set_conversation_id conv) ;;;
  old_task <- gets task_id ;;
  task <- lift (Py.get init_data "task_id" old_task) ;;
  modify (set_task_id task).

Section Stream.

(** [protobuf_to_dict(raw_bytes, "warp.multi_agent.v1.ResponseEvent")] of
    [core.protobuf_utils]. *)
Variable protobuf_to_dict : list byte -> result pyval.

(** What [send_protobuf_to_warp_api] does with a decoded event: the client
    actions are read only inside [if "init" in event_data]. *)
Definition on_event (show_all_events : bool) (event_data : pyval) : M sse unit :=
  modify incr_event_count ;;;
  event_type <- lift (_get_event_type event_data) ;;
  n <- gets event_count ;;
  (if show_all_events then modify (append_event (mkEvent n event_type event_data))
   else ret tt) ;;;
  has_init <- lift (Py.contains "init" event_data) ;;
  if has_init then
    on_init event_data ;;;
    on_client_actions event_data
  else ret tt.

(** What [send_protobuf_to_warp_api_parsed] does with a decoded event. *)
Definition on_event_parsed (event_data : pyval) : M sse unit :=
  modify incr_event_count ;;;
  event_type <- lift (_get_event_type event_data) ;;
  n <- gets event_count ;;
  modify (append_event (mkEvent n event_type event_data)) ;;;
  has_init <- lift (Py.contains "init" event_data) ;;
  (if has_init then on_init event_data else ret tt) ;;;
  on_client_actions event_data.

(** A blank line after some data, in [send_protobuf_to_warp_api]. *)
Definition on_chunk (show_all_events : bool) : M sse unit :=
  data <- gets current_data ;;
  modify (set_current_data "") ;;;
  match Codec._parse_payload_bytes data with
  | None => ret tt
  | Some raw_bytes =>
      match protobuf_to_dict raw_bytes with
      | Raise _ => ret tt
      | Ok event_data => on_event show_all_events event_data
      end
  end.

(** A blank line after some data, in [send_protobuf_to_warp_api_parsed]:
    decoding and routing are in one [try]. *)
Definition on_chunk_parsed : M sse unit :=
  data <- gets current_data ;;
  modify (set_current_data "") ;;;
  match Codec._parse_payload_bytes2 data with
  | None => ret tt
  | Some raw_bytes =>
      try_except
        (event_data <- lift (protobuf_to_dict raw_bytes) ;;
         on_event_parsed event_data)
        (fun _ => ret tt)
  end.

(** [async for line in response.aiter_lines()], with [chunk] for what a
    blank line after some data does. *)
Fixpoint sse_lines (chunk : M sse unit) (lines : list string) : M sse unit :=
  match lines with
  | [] => ret tt
  | line :: rest =>
      if PyStr.startswith "data:" line then
        let payload := PyStr.strip (PyStr.drop 5 line) in
        if negb (PyStr.nonempty payload) then sse_lines chunk rest
        else if PyStr.eqb payload "[DONE]" then ret tt
        else
          modify (fun s => set_current_data (current_data s +:+ payload) s) ;;;
          sse_lines chunk rest
      else
        data <- gets current_data ;;
        if PyStr.eqb (PyStr.strip line) "" && PyStr.nonempty data then
          chunk ;;; sse_lines chunk rest
        else sse_lines chunk rest
  end.

(** What a sender returns. [send_protobuf_to_warp_api] returns the first
    three components; [events_of] is [None] there. *)
Record reply := mkReply {
  text : string;
  conversation : pyval;
  task : pyval;
  events_of : option (list event_entry)
}.

(** The stream loop of [send_protobuf_to_warp_api] and its return. *)
Definition read_stream (show_all_events : bool) (lines : list string) : result reply :=
  match sse_lines (on_chunk show_all_events) lines sse_init with
  | (Raise e, _) => Raise e
  | (Ok _, s) =>
      match Py.join "" (complete_response s) with
      | Raise e => Raise e
      | Ok full_response =>
          if PyStr.nonempty full_response
          then Ok (mkReply full_response (conversation_id s) (task_id s) None)
          else Ok (mkReply "Warning: No response content received"
                     (conversation_id s) (task_id s) None)
      end
  end.

(** The stream loop of [send_protobuf_to_warp_api_parsed] and its return. *)
Definition read_stream_parsed (lines : list string) : result reply :=
  match sse_lines on_chunk_parsed lines sse_init with
  | (Raise e, _) => Raise e
  | (Ok _, s) =>
      match Py.join "" (complete_response s) with
      | Raise e => Raise e
      | Ok full_response =>
          Ok (mkReply full_response (conversation_id s) (task_id s) (Some (events s)))
      end
  end.

End Stream.

(** ** The upstream client ([warp2protobuf/warp/api_client.py]) *)

(** What comes back from [client.stream("POST", ...)]: the status, the
    body that [aread()] gives for a status other than 200, and the lines
    that [aiter_lines()] gives for a status of 200. *)
Record response := mkResponse {
  status_code : Z;
  body : list byte;
  lines : list string
}.

(** The calls that leave the client, in the order they are made. *)
Inductive call :=
| CallRefresh (token_info : nat)
| CallGetValidJwt
| CallAcquireAnonymous
| CallPost (jwt : string).

(** The collaborators of the client that are outside this development:
    the clock, the functions of [core.auth] (they may change the pool),
    the HTTP/2 connection and the protobuf decoder.  [W] is whatever
    state they keep. *)
Record Upstream (W : Type) := mkUpstream {
  time_time : W -> Q;
  refresh_jwt_token_with_token_info :
    nat -> TokenPool -> W -> result (option string) * TokenPool * W;
  get_valid_jwt : TokenPool -> W -> result string * TokenPool * W;
  acquire_anonymous_access_token : TokenPool -> W -> result string * TokenPool * W;
  stream_post : string -> list byte -> W -> result response * W;
  protobuf_to_dict : list byte -> result pyval
}.
Arguments time_time {W} _ _.
Arguments refresh_jwt_token_with_token_info {W} _ _ _ _.
Arguments get_valid_jwt {W} _ _ _.
Arguments acquire_anonymous_access_token {W} _ _ _.
Arguments stream_post {W} _ _ _ _.
Arguments protobuf_to_dict {W} _ _.

(** The state a request runs in. *)
Record cstate (W : Type) := mkCstate {
  world : W;
  pool : TokenPool;
  log : list call
}.
Arguments mkCstate {W} _ _ _.
Arguments world {W} _.
Arguments pool {W} _.
Arguments log {W} _.

(** How one pass through the body of [for attempt in range(2)] ends:
    with [continue], with [return], or by running off the end of a
    [try] block. *)
Inductive flow :=
| Continue (jwt : string) (current_token_refresh : option string)
| Return (r : reply)
| Fall.

Section Client.

Variable E : Platform.
Context {W : Type}.
Variable U : Upstream W.

Abbreviation C := (M (cstate W)).

(** [time.time()]: the clock of the world; it moves when the world does,
    that is, across the calls to the collaborators. *)
Definition now : C Q := gets (fun s => time_time U (world s)).

(** [pool = await get_token_pool()] *)
Definition the_pool : C unit :=
  modify (fun s => mkCstate (world s) (get_token_pool E (pool s)) (log s)).

(** A method of the pool, run on the pool of the state. *)
Definition on_pool {A : Type} (f : TokenPool -> result A * TokenPool) : C A :=
  fun s =>
    let '(r, p) := f (pool s) in
    (r, mkCstate (world s) p (log s)).

(** [await pool.get_next_token()] *)
Definition next_token : C (option nat) :=
  t <- now ;; on_pool (get_next_token E t).

(** [await pool.get_next_token_excluding(exclude_token)] *)
Definition next_token_excluding (exclude_token : option string) : C (option nat) :=
  t <- now ;; on_pool (get_next_token_excluding E t exclude_token).

(** The record behind a [TokenInfo] reference, as it is now. *)
Definition token (i : nat) : C TokenInfo :=
  fun s =>
    match _tokens (pool s) !! i with
    | Some t => (Ok t, s)
    | None => (Raise IndexError, s)
    end.

(** [await refresh_jwt_token_with_token_info(token_info)], reduced to
    [token_data["access_token"]] when [token_data] is not empty and has
    that key. *)
Definition refresh (i : nat) : C (option string) :=
  fun s =>
    let '(r, p, w) := refresh_jwt_token_with_token_info U i (pool s) (world s) in
    (r, mkCstate w p (log s ++ [CallRefresh i])).

(** [await get_valid_jwt()] *)
Definition valid_jwt : C string :=
  fun s =>
    let '(r, p, w) := get_valid_jwt U (pool s) (world s) in
    (r, mkCstate w p (log s ++ [CallGetValidJwt])).

(** [await acquire_anonymous_access_token()] *)
Definition acquire : C string :=
  fun s =>
    let '(r, p, w) := acquire_anonymous_access_token U (pool s) (world s) in
    (r, mkCstate w p (log s ++ [CallAcquireAnonymous])).

(** [client.stream("POST", warp_url, headers=headers, content=protobuf_bytes)] *)
Definition post (jwt : string) (protobuf_bytes : list byte) : C response :=
  fun s =>
    let '(r, w) := stream_post U jwt protobuf_bytes (world s) in
    (r, mkCstate w (pool s) (log s ++ [CallPost jwt])).

(** [last_jwt and last_jwt_expiry > time.time() + 120]; the sum is a sum
    of floats. *)
Definition cached_jwt_valid (t : TokenInfo) (time : Q) : bool :=
  PyStr.nonempty (last_jwt t)
  && float_lt (float_add time 120) (last_jwt_expiry t).

(** The credential for the record that [get_next_token] gave: the cached
    one, or a refreshed one, or the one of the environment. *)
Definition initial_jwt (current_token_info : nat) : C string :=
  t <- token current_token_info ;;
  cached <- (if PyStr.nonempty (last_jwt t)
             then time <- now ;; ret (cached_jwt_valid t time)
             else ret false) ;;
  if (cached : bool) then ret (last_jwt t)
  else
    token_data <- refresh current_token_info ;;
    match token_data with
    | Some access_token => ret access_token
    | None => valid_jwt
    end.

(** The first request: the lines before [for attempt in range(2)], which
    are the same in both senders.  The result is [jwt] and
    [current_token_refresh]. *)
Definition select_initial : C (string * option string) :=
  the_pool ;;;
  current_token_info <- next_token ;;
  match current_token_info with
  | Some i =>
      jwt <- initial_jwt i ;;
      t <- token i ;;
      ret (jwt, Some (refresh_token t))
  | None =>
      jwt <- valid_jwt ;;
      ret (jwt, None)
  end.

(** [if current_token_refresh is None: last_used = pool.get_last_used_token() ...] *)
Definition or_last_used (current_token_refresh : option string) : C (option string) :=
  match current_token_refresh with
  | Some _ => ret current_token_refresh
  | None =>
      last_used <- gets (fun s => get_last_used_token (pool s)) ;;
      match last_used with
      | Some j => t <- token j ;; ret (Some (refresh_token t))
      | None => ret None
      end
  end.

(** [f"❌ Warp API Error (HTTP {response.status_code}): {error_content}", None, None] *)
Definition error_reply (parsed : bool) (status : Z) (error_content : string) : reply :=
  mkReply ("❌ Warp API Error (HTTP " +:+ PyStr.str_of_Z status +:+ "): " +:+ error_content)
    PNone PNone (if parsed then Some [] else None).

(** The [try] block of the 429 branch.  [parsed] tells the two senders
    apart: only [send_protobuf_to_warp_api_parsed] asks for an anonymous
    token once more when the refresh of the next record gave nothing. *)
Definition rotate_on_quota (parsed : bool) (status : Z) (error_content : string)
  (current_token_refresh : option string) : C flow :=
  the_pool ;;;
  _stats <- gets (fun s => get_pool_stats (pool s)) ;;
  current_token_refresh <- or_last_used current_token_refresh ;;
  token_info <- next_token_excluding current_token_refresh ;;
  match token_info with
  | None =>
      r <- try_except
             (new_jwt <- acquire ;;
              if PyStr.nonempty new_jwt then ret (Continue new_jwt None) else ret Fall)
             (fun _ => ret Fall) ;;
      match r with
      | Fall => ret (Return (error_reply parsed status error_content))
      | _ => ret r
      end
  | Some i =>
      t <- token i ;;
      if PyStr.nonempty (last_jwt t) then
        ret (Continue (last_jwt t) (Some (refresh_token t)))
      else
        token_data <- refresh i ;;
        match token_data with
        | Some access_token =>
            t' <- token i ;;
            ret (Continue access_token (Some (refresh_token t')))
        | None =>
            if parsed then
              new_jwt <- acquire ;;
              if PyStr.nonempty new_jwt
              then ret (Continue new_jwt current_token_refresh)
              else ret Fall
            else ret Fall
        end
  end.

(** The [try] block of the 500 branch. *)
Definition rotate_on_server_error (current_token_refresh : option string) : C flow :=
  the_pool ;;;
  current_token_refresh <- or_last_used current_token_refresh ;;
  token_info <- next_token_excluding current_token_refresh ;;
  match token_info with
  | Some i =>
      t <- token i ;;
      token_data <- refresh i ;;
      match token_data with
      | Some access_token => ret (Continue access_token (Some (refresh_token t)))
      | None => ret Fall
      end
  | None => ret Fall
  end.

(** [error_text.decode('utf-8') if error_text else "No error content"] *)
Definition error_content_of (error_text : list byte) : result string :=
  match error_text with
  | [] => Ok "No error content"
  | _ =>
      match decode_utf8 E error_text with
      | Some s => Ok s
      | None => Raise UnicodeDecodeError
      end
  end.

Definition is_quota_message (error_content : string) : bool :=
  PyStr.contains "No remaining quota" error_content
  || PyStr.contains "No AI requests remaining" error_content.

(** The body of [for attempt in range(2)]. *)
Definition attempt_body (parsed show_all_events : bool) (protobuf_bytes : list byte)
  (attempt : Z) (jwt : string) (current_token_refresh : option string) : C flow :=
  resp <- post jwt protobuf_bytes ;;
  if negb (status_code resp =? 200) then
    error_content <- lift (error_content_of (body resp)) ;;
    if (status_code resp =? 429) && (attempt =? 0) && is_quota_message error_content
    then
      r <- try_except
             (rotate_on_quota parsed (status_code resp) error_content current_token_refresh)
             (fun _ => ret Fall) ;;
      match r with
      | Fall => ret (Return (error_reply parsed (status_code resp) error_content))
      | _ => ret r
      end
    else
      r <- (if (status_code resp =? 500) && (attempt =? 0)
            then try_except (rotate_on_server_error current_token_refresh)
                   (fun _ => ret Fall)
            else ret Fall) ;;
      match r with
      | Continue j c => ret (Continue j c)
      | _ => ret (Return (error_reply parsed (status_code resp) error_content))
      end
  else
    r <- lift (if parsed
               then read_stream_parsed (protobuf_to_dict U) (lines resp)
               else read_stream (protobuf_to_dict U) show_all_events (lines resp)) ;;
    ret (Return r).

(** [for attempt in range(2)]; a loop that runs out returns [None]. *)
Fixpoint attempts (parsed show_all_events : bool) (protobuf_bytes : list byte)
  (range : list Z) (jwt : string) (current_token_refresh : option string)
  : C (option reply) :=
  match range with
  | [] => ret None
  | attempt :: rest =>
      f <- attempt_body parsed show_all_events protobuf_bytes attempt jwt
             current_token_refresh ;;
      match f with
      | Continue jwt' current' =>
          attempts parsed show_all_events protobuf_bytes rest jwt' current'
      | Return r => ret (Some r)
      | Fall => ret None
      end
  end.

(** [send_protobuf_to_warp_api] *)
Definition send_protobuf_to_warp_api (protobuf_bytes : list byte)
  (show_all_events : bool) : C (option reply) :=
  sel <- select_initial ;;
  attempts false show_all_events protobuf_bytes [0; 1] (fst sel) (snd sel).

(** [send_protobuf_to_warp_api_parsed] *)
Definition send_protobuf_to_warp_api_parsed (protobuf_bytes : list byte)
  : C (option reply) :=
  sel <- select_initial ;;
  attempts true true protobuf_bytes [0; 1] (fst sel) (snd sel).

End Client.

(** ** Definitions that the statements below use *)

Import Codec.

(** *** The pool *)

Definition other_selectable (p : TokenPool) (t0 : string) (prio : TokenPriority) : Prop :=
  ∃ j r, _tokens p !! j = Some r ∧ priority r = prio ∧ selectable p r = true
         ∧ refresh_token r ≠ t0.

Definition recoverable (r : TokenInfo) : bool :=
  negb (is_active r) && (_max_failures <=? failure_count r).

Definition recovered_record (r : TokenInfo) : TokenInfo :=
  set_is_active true (set_failure_count 0 r).

(** *** Bytes and the base64 alphabet *)

Definition all_bytes : list byte :=
  omap Byte.of_N (N.of_nat <$> seq 0 256).

Definition sextet1 (x : byte) : N := N.shiftr (Byte.to_N x) 2.
Definition sextet2 (x y : byte) : N :=
  N.lor (N.shiftl (N.land (Byte.to_N x) 3) 4) (N.shiftr (Byte.to_N y) 4).
Definition sextet3 (y z : byte) : N :=
  N.lor (N.shiftl (N.land (Byte.to_N y) 15) 2) (N.shiftr (Byte.to_N z) 6).
Definition sextet4 (z : byte) : N := N.land (Byte.to_N z) 63.

Definition byte_eqb (a b : byte) : bool := Byte.eqb a b.

Definition pair_check (x y : byte) : bool :=
  (sextet1 x <? 64)%N && (sextet2 x y <? 64)%N && (sextet3 x y <? 64)%N
  && (sextet4 x <? 64)%N
  && Byte.eqb (byte_of_N (N.lor (N.shiftl (sextet1 x) 2) (N.shiftr (sextet2 x y) 4))) x
  && (N.land (sextet2 x y) 15 =? N.shiftr (Byte.to_N y) 4)%N
  && (N.shiftr (sextet3 x y) 2 =? N.land (Byte.to_N x) 15)%N
  && (N.land (sextet3 x y) 3 =? N.shiftr (Byte.to_N y) 6)%N
  && Byte.eqb (byte_of_N (N.lor (N.shiftl (N.shiftr (Byte.to_N x) 4) 4) (N.land (Byte.to_N x) 15))) x
  && Byte.eqb (byte_of_N (N.lor (N.shiftl (N.shiftr (Byte.to_N x) 6) 6) (sextet4 x))) x.

Definition is_b64 (c : ascii) : bool :=
  match table_a2b_base64 c with Some _ => true | None => false end.

Fixpoint all_b64 (s : string) : bool :=
  match s with
  | EmptyString => true
  | String c s' => is_b64 c && all_b64 s'
  end.

Definition b64_char_check (c : ascii) : bool :=
  negb (is_b64 c)
  || (negb (Ascii.eqb c "=") && negb (Ascii.eqb (urlsafe_encode_char c) "=")
      && Ascii.eqb (urlsafe_decode_char (urlsafe_encode_char c)) c
      && negb (PyStr.is_space (urlsafe_encode_char c))
      && (N_of_ascii (urlsafe_encode_char c) <? 128)%N
      && (N_of_ascii c <? 128)%N).

Definition sextet_check (n : nat) : bool :=
  match table_a2b_base64 (b64_char (N.of_nat n)) with
  | Some v => (v =? N.of_nat n)%N
  | None => false
  end.

Definition hex_byte_check (x : byte) : bool :=
  let hi := hex_char (Byte.to_N x / 16) in
  let lo := hex_char (Byte.to_N x mod 16) in
  is_hex hi && is_hex lo && negb (is_ascii_space hi) && negb (PyStr.is_space hi)
  && negb (PyStr.is_space lo)
  && match hex_value hi, hex_value lo with
     | Some h, Some l => Byte.eqb (byte_of_N (16 * h + l)) x
     | _, _ => false
     end.

(** *** Event streams *)

(** The lines after the last blank line that found data: lines that add
    to the chunk or are ignored, up to the end of the stream or to the
    [[DONE]] sentinel (what comes after the sentinel is never read). *)
Inductive trailing : list string -> Prop :=
| trailing_end : trailing []
| trailing_done (line : string) (rest : list string) :
    PyStr.startswith "data:" line = true →
    PyStr.strip (PyStr.drop 5 line) = "[DONE]" →
    trailing (line :: rest)
| trailing_data (line : string) (rest : list string) :
    PyStr.startswith "data:" line = true →
    PyStr.strip (PyStr.drop 5 line) ≠ "[DONE]" →
    trailing rest →
    trailing (line :: rest)
| trailing_other (line : string) (rest : list string) :
    PyStr.startswith "data:" line = false →
    PyStr.strip line ≠ "" →
    trailing rest →
    trailing (line :: rest).

(** A state of the stream loop without its pending chunk. *)
Definition without_chunk (s : sse) : sse := set_current_data "" s.

(** *** The log of calls *)

Definition is_post (c : call) : bool :=
  match c with CallPost _ => true | _ => false end.

(** The number of upstream POST transactions in a log. *)
Definition posts (l : list call) : nat := length (List.filter is_post l).

(** A computation that adds at most [n] POST transactions to the log. *)
Definition post_budget {W A : Type} (n : nat) (m : M (cstate W) A) : Prop :=
  ∀ s, (posts (log (snd (m s))) <= posts (log s) + n)%nat.

(** *** What a request keeps of the pool *)

(** A property of the pool that its own selection operations keep. *)
Definition kept_by_selection (E : Platform) (P : TokenPool -> Prop) : Prop :=
  (∀ p, P p → P (initialize E p))
  ∧ (∀ time p, P p → P (snd (get_next_token E time p)))
  ∧ (∀ time x p, P p → P (snd (get_next_token_excluding E time x p))).

(** The failure count, the activity and the cached credential of the
    record at position [i], and whether its token is in the failed set. *)
Definition accounting (i : nat) (p : TokenPool)
  : option (Z * bool * string * Q * bool) :=
  (fun t => (failure_count t, is_active t, last_jwt t, last_jwt_expiry t,
             bool_decide (refresh_token t ∈ _failed_tokens p)))
    <$> _tokens p !! i.

(** Every record of [p] is in [p'] with the accounting it had. *)
Definition keeps_accounting (p p' : TokenPool) : Prop :=
  ∀ j a, accounting j p = Some a → accounting j p' = Some a.

(** How the pool comes from one state to another while the calls [l]
    are made: by steps that keep the accounting of every record, by a
    POST, which leaves the pool alone, and by what the functions of
    [core.auth] do to the pool when they are called. *)
Inductive evolves {W : Type} (U : Upstream W)
  : list call -> TokenPool -> TokenPool -> Prop :=
| evolves_keep (p p' : TokenPool) :
    keeps_accounting p p' → evolves U [] p p'
| evolves_post (jwt : string) (p : TokenPool) :
    evolves U [CallPost jwt] p p
| evolves_refresh (i : nat) (p : TokenPool) (w : W) :
    evolves U [CallRefresh i] p
      (snd (fst (refresh_jwt_token_with_token_info U i p w)))
| evolves_get_valid_jwt (p : TokenPool) (w : W) :
    evolves U [CallGetValidJwt] p (snd (fst (get_valid_jwt U p w)))
| evolves_acquire (p : TokenPool) (w : W) :
    evolves U [CallAcquireAnonymous] p
      (snd (fst (acquire_anonymous_access_token U p w)))
| evolves_app (l1 l2 : list call) (p1 p2 p3 : TokenPool) :
    evolves U l1 p1 p2 → evolves U l2 p2 p3 → evolves U (l1 ++ l2) p1 p3.

(** A computation whose calls are all in the log and whose pool evolves
    by these calls. *)
Definition traced {W A : Type} (U : Upstream W) (m : M (cstate W) A) : Prop :=
  ∀ s, ∃ l, log (snd (m s)) = log s ++ l
            ∧ evolves U l (pool s) (pool (snd (m s))).

(** *** Concrete scenarios *)

Definition ascii_text (bs : list byte) : option string :=
  Some (String.string_of_list_byte bs).

(** An environment with one personal token and no other. *)
Definition env_personal : Platform :=
  mkPlatform
    (fun k => if PyStr.eqb k "WARP_REFRESH_TOKEN" then Some "personal-token" else None)
    "" ascii_text (fun _ => 0).

(** An environment whose [WARP_REFRESH_TOKEN] is the placeholder of the
    example configuration behind a space. *)
Definition env_padded_placeholder : Platform :=
  mkPlatform
    (fun k => if PyStr.eqb k "WARP_REFRESH_TOKEN"
              then Some " your_warp_refresh_token_here" else None)
    "" ascii_text (fun _ => 0).

(** The pool of [env_personal] once its record holds a credential that
    is good until time 5000. *)
Definition pool_cached : TokenPool :=
  mark_token_success 0 "cached-jwt" 5000%Q (initialize env_personal TokenPool_init).

(** The same pool after one failure has been marked on the record. *)
Definition pool_one_failure : TokenPool := mark_token_failed 0 pool_cached.

(** The same pool after three failures: the record is deactivated. *)
Definition pool_deactivated : TokenPool :=
  mark_token_failed 0 (mark_token_failed 0 (mark_token_failed 0 pool_cached)).

(** A deactivated record on which a success was marked afterwards. *)
Definition pool_success_after_deactivation : TokenPool :=
  mark_token_success 0 "" 0%Q pool_deactivated.

Definition hello_event : pyval :=
  PDict
    [("init", PDict [("conversation_id", PStr "c-1")]);
     ("client_actions",
      PDict
        [("actions",
          PList
            [PDict
               [("append_to_message_content",
                 PDict
                   [("message",
                     PDict [("agent_output", PDict [("text", PStr "hello")])])])]])])].

(** An upstream that answers every POST with [status] and, for 200, with
    one event framed as hex; its clock stands at 1000 and no credential
    can be had from it. *)
Definition upstream_answering (status : Z) : Upstream unit :=
  mkUpstream unit
    (fun _ => 1000%Q)
    (fun _ p w => (Ok None, p, w))
    (fun p w => (Ok "", p, w))
    (fun p w => (Ok "", p, w))
    (fun _ _ w => (Ok (mkResponse status [] ["data: 0a00"; ""]), w))
    (fun _ => Ok hello_event).

Definition run_send (E : Platform) (U : Upstream unit) (p : TokenPool)
  : result (option reply) * cstate unit :=
  send_protobuf_to_warp_api E U [] true (mkCstate tt p []).

(** A stream with one complete event and a chunk that no blank line
    follows. *)
Definition lines_with_trailing_chunk : list string :=
  ["data: 0a00"; ""; "data: 0a01"].

(** What [send_protobuf_to_warp_api] returns for the event of
    [upstream_answering]. *)
Definition hello_reply : reply := mkReply "hello" (PStr "c-1") PNone None.

(** The record of [pool_cached], as [get_next_token] leaves it at time
    1000. *)
Definition record_selected : TokenInfo :=
  mkTokenInfo "personal-token" PERSONAL "PERSONAL_0000" 1000%Q 0 true
    "cached-jwt" 5000%Q.

Definition pool_selected : TokenPool :=
  snd (get_next_token env_personal 1000%Q pool_cached).

(** *** Reports of the pool and runs of selections *)

(** One entry of [stats["by_priority"]] in [TokenPool.get_pool_stats]. *)
Module ByPriority.

Record t := mk {
  total : Z;
  active : Z;
  inactive : Z
}.

End ByPriority.

(** [stats["by_priority"][priority.name]] of [TokenPool.get_pool_stats] *)
Definition by_priority (p : TokenPool) (priority0 : TokenPriority)
  : ByPriority.t :=
  let priority_tokens :=
    List.filter (fun t => bool_decide (priority t = priority0)) (_tokens p) in
  let active_count := Z.of_nat (length (List.filter is_active priority_tokens)) in
  ByPriority.mk (Z.of_nat (length priority_tokens)) active_count
    (Z.of_nat (length priority_tokens) - active_count).

(** One entry of [results["tokens"]] in [TokenPool.health_check];
    [jwt_expires_in] is [None] when the key is not set. *)
Record token_status := mkTokenStatus {
  status_name : string;
  status_priority : string;
  status_is_active : bool;
  is_healthy : bool;
  status_failure_count : Z;
  status_last_used : Q;
  has_cached_jwt : bool;
  jwt_expires_in : option Q
}.

(** What [TokenPool.health_check] returns. *)
Record health := mkHealth {
  timestamp : Q;
  health_total_tokens : Z;
  healthy_tokens : Z;
  unhealthy_tokens : Z;
  health_tokens : list token_status
}.

(** [max(0, x)] *)
Definition max0 (x : Q) : Q := if Qltb 0 x then x else 0%Q.

(** The body of [for token_info in self._tokens] in [health_check].
    [time_time k] is what the [k]-th call of [time.time()] returns;
    [reads] counts the calls made so far. *)
Definition health_check_step (time_time : nat -> Q) (p : TokenPool)
  (acc : nat * Z * Z * list token_status) (token_info : TokenInfo)
  : nat * Z * Z * list token_status :=
  let '(reads, healthy, unhealthy, statuses) := acc in
  let healthy_now :=
    is_active token_info
    && negb (bool_decide (refresh_token token_info ∈ _failed_tokens p)) in
  let expiring := Qltb 0 (last_jwt_expiry token_info) in
  let token_status :=
    mkTokenStatus (name token_info) (priority_name (priority token_info))
      (is_active token_info) healthy_now (failure_count token_info)
      (last_used token_info) (PyStr.nonempty (last_jwt token_info))
      (if expiring
       then Some (max0 (last_jwt_expiry token_info - time_time reads))
       else None) in
  (if expiring then S reads else reads,
   if healthy_now then healthy + 1 else healthy,
   if healthy_now then unhealthy else unhealthy + 1,
   statuses ++ [token_status]).

(** [TokenPool.health_check] *)
Definition health_check (time_time : nat -> Q) (p : TokenPool) : health :=
  let '(_, healthy, unhealthy, statuses) :=
    foldl (health_check_step time_time p) (1%nat, 0, 0, []) (_tokens p) in
  mkHealth (time_time 0%nat) (Z.of_nat (length (_tokens p))) healthy unhealthy statuses.

(** [get_next_token] called once for every reading of the clock in
    [times]: the records returned, in order, and the pool afterwards. *)
Fixpoint get_next_tokens (E : Platform) (times : list Q) (p : TokenPool)
  : list (result (option nat)) * TokenPool :=
  match times with
  | [] => ([], p)
  | now :: rest =>
      let '(r, p1) := get_next_token E now p in
      let '(rs, p2) := get_next_tokens E rest p1 in
      (r :: rs, p2)
  end.

(** The records that [_get_token_by_priority] chooses from. *)
Definition candidates (p : TokenPool) (prio : TokenPriority) : list nat :=
  positions (of_priority p prio) 0 (_tokens p).

(** An environment with two shared tokens and no other. *)
Definition env_two_shared : Platform :=
  mkPlatform
    (fun k => if PyStr.eqb k "WARP_SHARED_TOKENS" then Some "first, second" else None)
    "" ascii_text (fun _ => 0).

Definition pool_two_shared : TokenPool := initialize env_two_shared TokenPool_init.

(** The record of [pool_cached]. *)
Definition record_cached : TokenInfo :=
  mkTokenInfo "personal-token" PERSONAL "PERSONAL_0000" 0%Q 0 true
    "cached-jwt" 5000%Q.

(** An event that appends text and has no [init]. *)
Definition text_event : pyval :=
  PDict
    [("client_actions",
      PDict
        [("actions",
          PList
            [PDict
               [("append_to_message_content",
                 PDict
                   [("message",
                     PDict [("agent_output", PDict [("text", PStr "hello")])])])]])])].

(** The pool of [env_two_shared] whose second record holds a credential
    that expired at time 10. *)
Definition pool_expired_jwt : TokenPool :=
  mark_token_success 1 "old-jwt" 10%Q pool_two_shared.

(** *** Server message data ([server.py]) *)

(** A byte as the integer that [buf[i]] gives, and back. *)
Definition byte_to_Z (b : byte) : Z := Z.of_N (Byte.to_N b).

Definition byte_of_Z (n : Z) : byte := byte_of_N (Z.to_N n).

(** [_b64url_decode_padded]; [None] stands for the exception of
    [base64.b64decode]. *)
Definition _b64url_decode_padded (s : string) : option (list byte) :=
  let t := translate urlsafe_decode_char s in
  let pad := (- Z.of_nat (String.length t)) mod 4 in
  b64decode (if pad =? 0 then t else t +:+ pad_string (Z.to_nat pad)).

(** [_b64url_encode_nopad] *)
Definition _b64url_encode_nopad (b : list byte) : string :=
  rstrip_eq (urlsafe_b64encode b).

(** The loop of [_read_varint] over the bytes from position [i] on. *)
Fixpoint _read_varint_loop (rest : list byte) (i : nat) (shift val : Z)
  : result (Z * nat) :=
  match rest with
  | [] => Raise ValueError
  | b :: rest' =>
      let val := Z.lor val (Z.shiftl (Z.land (byte_to_Z b) 127) shift) in
      if Z.land (byte_to_Z b) 128 =? 0 then Ok (val, S i)
      else
        let shift := shift + 7 in
        if 63 <? shift then Raise ValueError
        else _read_varint_loop rest' (S i) shift val
  end.

(** [_read_varint(buf, i)] *)
Definition _read_varint (buf : list byte) (i : nat) : result (Z * nat) :=
  _read_varint_loop (drop i buf) i 0 0.

(** [_write_varint(v)] run for at most [fuel] passes of its [while True];
    [None] when it has not returned by then. *)
Fixpoint _write_varint (fuel : nat) (vv : Z) : option (list byte) :=
  match fuel with
  | O => None
  | S fuel' =>
      let to_write := Z.land vv 127 in
      let vv := Z.shiftr vv 7 in
      if negb (vv =? 0) then
        cons (byte_of_Z (Z.lor to_write 128)) <$> _write_varint fuel' vv
      else Some [byte_of_Z to_write]
  end.

(** [_make_key(field_no, wire_type)] *)
Definition _make_key (fuel : nat) (field_no wire_type : Z) : option (list byte) :=
  _write_varint fuel (Z.lor (Z.shiftl field_no 3) wire_type).

(** The passes of [while i < len(buf)] in [_decode_timestamp].  Every
    pass moves [i] forward, so [fuel] passes are enough when [fuel] is at
    least the number of bytes from [i] on. *)
Fixpoint _decode_timestamp_loop (fuel : nat) (buf : list byte) (i : nat)
  (seconds nanos : option Z) : result (option Z * option Z) :=
  match fuel with
  | O => Ok (seconds, nanos)
  | S fuel' =>
      if (i <? length buf)%nat then
        match _read_varint buf i with
        | Raise e => Raise e
        | Ok (key, i) =>
            let field_no := Z.shiftr key 3 in
            let wt := Z.land key 7 in
            if wt =? 0 then
              match _read_varint buf i with
              | Raise e => Raise e
              | Ok (val, i) =>
                  if field_no =? 1
                  then _decode_timestamp_loop fuel' buf i (Some val) nanos
                  else if field_no =? 2
                  then _decode_timestamp_loop fuel' buf i seconds (Some val)
                  else _decode_timestamp_loop fuel' buf i seconds nanos
              end
            else if wt =? 2 then
              match _read_varint buf i with
              | Raise e => Raise e
              | Ok (ln, i2) =>
                  _decode_timestamp_loop fuel' buf (i2 + Z.to_nat ln) seconds nanos
              end
            else if wt =? 1 then _decode_timestamp_loop fuel' buf (i + 8) seconds nanos
            else if wt =? 5 then _decode_timestamp_loop fuel' buf (i + 4) seconds nanos
            else Ok (seconds, nanos)
        end
      else Ok (seconds, nanos)
  end.

(** [_decode_timestamp(buf)] *)
Definition _decode_timestamp (buf : list byte) : result (option Z * option Z) :=
  _decode_timestamp_loop (length buf) buf 0 None None.

(** [_encode_timestamp(seconds, nanos)], with [fuel] for every call of
    [_write_varint]. *)
Definition _encode_timestamp (fuel : nat) (seconds nanos : option Z)
  : option (list byte) :=
  parts1 ← match seconds with
           | Some seconds =>
               key ← _make_key fuel 1 0;
               v ← _write_varint fuel seconds;
               Some (key ++ v)
           | None => Some []
           end;
  parts2 ← match nanos with
           | Some nanos =>
               key ← _make_key fuel 2 0;
               v ← _write_varint fuel nanos;
               Some (key ++ v)
           | None => Some []
           end;
  Some (parts1 ++ parts2).

(** What [decode_server_message_data] returns: the dictionary with
    [error] and [raw_b64url] when the text is not base64, else the
    dictionary with those of [uuid], [seconds] and [nanos] that were
    found. *)
Inductive server_message_data :=
| DecodeFailed (raw_b64url : string)
| Decoded (uuid : option string) (seconds nanos : option Z).

Section ServerMessageData.

(** [str.encode("utf-8")] and [bytes.decode("utf-8")], [None] for
    [UnicodeDecodeError]. *)
Variable encode_utf8 : string -> list byte.
Variable decode_utf8 : list byte -> option string.

(** The passes of [while i < len(raw)] in [decode_server_message_data];
    as in [_decode_timestamp_loop], every pass moves [i] forward. *)
Fixpoint decode_server_message_data_loop (fuel : nat) (raw : list byte) (i : nat)
  (uuid : option string) (seconds nanos : option Z)
  : result (option string * option Z * option Z) :=
  match fuel with
  | O => Ok (uuid, seconds, nanos)
  | S fuel' =>
      if (i <? length raw)%nat then
        match _read_varint raw i with
        | Raise e => Raise e
        | Ok (key, i) =>
            let field_no := Z.shiftr key 3 in
            let wt := Z.land key 7 in
            if wt =? 2 then
              match _read_varint raw i with
              | Raise e => Raise e
              | Ok (ln, i2) =>
                  let data := take (Z.to_nat ln) (drop i2 raw) in
                  let i := (i2 + Z.to_nat ln)%nat in
                  if field_no =? 1 then
                    decode_server_message_data_loop fuel' raw i (decode_utf8 data)
                      seconds nanos
                  else if field_no =? 3 then
                    match _decode_timestamp data with
                    | Raise e => Raise e
                    | Ok (seconds, nanos) =>
                        decode_server_message_data_loop fuel' raw i uuid seconds nanos
                    end
                  else decode_server_message_data_loop fuel' raw i uuid seconds nanos
              end
            else if wt =? 0 then
              match _read_varint raw i with
              | Raise e => Raise e
              | Ok (_, i) =>
                  decode_server_message_data_loop fuel' raw i uuid seconds nanos
              end
            else if wt =? 1 then
              decode_server_message_data_loop fuel' raw (i + 8) uuid seconds nanos
            else if wt =? 5 then
              decode_server_message_data_loop fuel' raw (i + 4) uuid seconds nanos
            else Ok (uuid, seconds, nanos)
        end
      else Ok (uuid, seconds, nanos)
  end.

(** [decode_server_message_data(b64url)] *)
Definition decode_server_message_data (b64url : string) : result server_message_data :=
  match _b64url_decode_padded b64url with
  | None => Ok (DecodeFailed b64url)
  | Some raw =>
      match decode_server_message_data_loop (length raw) raw 0 None None None with
      | Raise e => Raise e
      | Ok (uuid, seconds, nanos) => Ok (Decoded uuid seconds nanos)
      end
  end.

(** [encode_server_message_data(uuid, seconds, nanos)], with [fuel] for
    every call of [_write_varint]. *)
Definition encode_server_message_data (fuel : nat) (uuid : option string)
  (seconds nanos : option Z) : option string :=
  parts1 ← (if truthy_opt uuid then
              let b := encode_utf8 (default "" uuid) in
              key ← _make_key fuel 1 2;
              len ← _write_varint fuel (Z.of_nat (length b));
              Some (key ++ len ++ b)
            else Some []);
  parts2 ← (match seconds, nanos with
            | None, None => Some []
            | _, _ =>
                ts ← _encode_timestamp fuel seconds nanos;
                key ← _make_key fuel 3 2;
                len ← _write_varint fuel (Z.of_nat (length ts));
                Some (key ++ len ++ ts)
            end);
  Some (_b64url_encode_nopad (parts1 ++ parts2)).

End ServerMessageData.

(** *** What the pool operations keep *)

(** What a selection leaves of the pool [p]: everything but the two
    cursors ([_current_index] and [_last_used_index]) and, of the record
    returned, the time of its last use. *)
Definition selected_from (now : Q) (p : TokenPool) (r : result (option nat))
  (p' : TokenPool) : Prop :=
  _tokens p'
  = match r with
    | Ok (Some i) => alter (set_last_used now) i (_tokens p)
    | _ => _tokens p
    end
  ∧ _failed_tokens p' = _failed_tokens p
  ∧ _initialized p' = _initialized p.

(** [mr] is what the loop of [get_last_used_token] holds after the first
    [k] records of [ts]: the first of the records used last among them,
    if any of them has been used at all. *)
Definition most_recent_of (ts : list TokenInfo) (k : nat) (mr : option nat) : Prop :=
  match mr with
  | None => ∀ j t, (j < k)%nat → ts !! j = Some t → ¬ (0 < last_used t)%Q
  | Some i =>
      (i < k)%nat
      ∧ ∃ t, ts !! i = Some t ∧ (0 < last_used t)%Q
          ∧ (∀ j t', (j < k)%nat → ts !! j = Some t' →
                     (last_used t' <= last_used t)%Q)
          ∧ (∀ j t', (j < i)%nat → ts !! j = Some t' →
                     (last_used t' < last_used t)%Q)
  end.

(** The entry [s] of a health report describes the record [t] of the
    pool [p], with the clock [time_time] read for its expiry. *)
Definition reports (time_time : nat -> Q) (p : TokenPool) (t : TokenInfo)
  (s : token_status) : Prop :=
  status_name s = name t
  ∧ status_priority s = priority_name (priority t)
  ∧ status_is_active s = is_active t
  ∧ is_healthy s = selectable p t
  ∧ status_failure_count s = failure_count t
  ∧ status_last_used s = last_used t
  ∧ has_cached_jwt s = PyStr.nonempty (last_jwt t)
  ∧ match jwt_expires_in s with
    | Some v =>
        (0 < last_jwt_expiry t)%Q ∧ (0 <= v)%Q
        ∧ ∃ k, (1 <= k)%nat ∧ v = max0 (last_jwt_expiry t - time_time k)
    | None => ¬ (0 < last_jwt_expiry t)%Q
    end.

(** The pools that the methods of [TokenPool] make of a new pool, with
    records referred to by their positions. *)
Inductive reachable (E : Platform) : TokenPool -> Prop :=
| reach_new : reachable E TokenPool_init
| reach_initialize (p : TokenPool) :
    reachable E p → reachable E (initialize E p)
| reach_add_token (tok : string) (prio : TokenPriority) (p : TokenPool) :
    reachable E p → reachable E (add_token E tok prio p)
| reach_get_next_token (now : Q) (p : TokenPool) :
    reachable E p → reachable E (snd (get_next_token E now p))
| reach_get_next_token_excluding (now : Q) (x : option string) (p : TokenPool) :
    reachable E p → reachable E (snd (get_next_token_excluding E now x p))
| reach_mark_token_failed (i : nat) (p : TokenPool) :
    reachable E p → reachable E (mark_token_failed i p)
| reach_mark_token_success (i : nat) (jwt : string) (jwt_expiry : Q) (p : TokenPool) :
    reachable E p → reachable E (mark_token_success i jwt jwt_expiry p)
| reach_recover_failed_tokens (p : TokenPool) :
    reachable E p → reachable E (snd (recover_failed_tokens p)).

(** What every such pool satisfies. *)
Definition pool_invariant (p : TokenPool) : Prop :=
  NoDup (refresh_token <$> _tokens p)
  ∧ (∀ q, is_Some (_current_index p !! q))
  ∧ (∀ j t, _tokens p !! j = Some t → refresh_token t ∈ _failed_tokens p →
            is_active t = false)
  ∧ (∀ tok, tok ∈ _failed_tokens p → tok ∈ refresh_token <$> _tokens p)
  ∧ (∀ j t, _tokens p !! j = Some t → 0 ≤ failure_count t).

(** The records that [_add_token_internal] makes for tokens of [toks]
    that the pool did not hold: new, of priority [prio], and for a token
    that is not among [old]. *)
Definition added (E : Platform) (prio : TokenPriority) (toks old : list string)
  (news : list TokenInfo) : Prop :=
  Forall (fun t => t = TokenInfo_new E (refresh_token t) prio
                   ∧ refresh_token t ∈ toks
                   ∧ refresh_token t ∉ old) news.

(** A token as the loaders keep it: not empty, and without white space
    at either end. *)
Definition trimmed (tok : string) : Prop := tok ≠ "" ∧ PyStr.strip tok = tok.

(** *** What the stream loops keep *)

(** A line that the stream loop passes over: one that neither starts
    with [data:] nor is blank, or a [data:] line without a payload. *)
Definition ignored (line : string) : Prop :=
  (PyStr.startswith "data:" line = false ∧ PyStr.strip line ≠ "")
  ∨ (PyStr.startswith "data:" line = true ∧ PyStr.strip (PyStr.drop 5 line) = "").

(** A computation of the stream loop whose final state is related to
    its initial state by [R], also when it raises. *)
Definition sse_kept {A : Type} (R : sse -> sse -> Prop) (m : M sse A) : Prop :=
  ∀ s, R s (snd (m s)).

(** The events recorded, their count and the pending chunk are the same. *)
Definition same_events (s s' : sse) : Prop :=
  events s' = events s ∧ event_count s' = event_count s
  ∧ current_data s' = current_data s.

(** The identifiers and the text collected are the same. *)
Definition same_text (s s' : sse) : Prop :=
  conversation_id s' = conversation_id s ∧ task_id s' = task_id s
  ∧ complete_response s' = complete_response s.

(** Events as [send_protobuf_to_warp_api_parsed] records them when it
    has counted [count] events: each with a number from 1 to [count], in
    strictly increasing order, with the type that [_get_event_type] gives
    for its data, and with data that the decoder returned. *)
Definition numbered (protobuf_to_dict : list byte -> result pyval) (count : Z)
  (evs : list event_entry) : Prop :=
  Forall (fun e => 1 ≤ event_number e ≤ count
                   ∧ _get_event_type (event_payload e) = Ok (event_type e)
                   ∧ ∃ raw_bytes, protobuf_to_dict raw_bytes = Ok (event_payload e))
    evs
  ∧ StronglySorted (fun a b => event_number a < event_number b) evs.

(** The state of the loop records its events as [numbered] says. *)
Definition recorded (protobuf_to_dict : list byte -> result pyval) (s : sse) : Prop :=
  0 ≤ event_count s ∧ numbered protobuf_to_dict (event_count s) (events s).

(** *** Base64 texts of a byte string *)

(** The base64 texts of [b]: in the standard or in the URL-safe
    alphabet, with the padding or with the padding stripped. *)
Definition base64_text_of (b : list byte) (s : string) : Prop :=
  s = b64encode b ∨ s = urlsafe_b64encode b
  ∨ s = rstrip_eq (b64encode b) ∨ s = urlsafe_b64encode_nopad b.

(** *** Error replies *)

(** Whether a sender goes on to another request after a response that is
    not a 200: only in its first pass, and only for a 429 that tells of a
    used-up quota or for a 500. *)
Definition retried (attempt status : Z) (error_content : string) : bool :=
  (attempt =? 0)
  && (((status =? 429) && is_quota_message error_content) || (status =? 500)).

(** A computation whose result, when it returns one, satisfies [P]. *)
Definition yields {S A : Type} (P : A -> Prop) (m : M S A) : Prop :=
  ∀ s a s', m s = (Ok a, s') → P a.

(** How a rotation can end: without a credential, with one for another
    request, or with the error of the upstream. *)
Definition rotation_end (parsed : bool) (status : Z) (error_content : string)
  (f : flow) : Prop :=
  f = Fall ∨ (∃ jwt current_token_refresh, f = Continue jwt current_token_refresh)
  ∨ f = Return (error_reply parsed status error_content).

(** *** Scenarios with a refresh that caches *)

(** The body of a 429 that tells of a used-up quota. *)
Definition quota_body : list byte :=
  String.list_byte_of_string "No remaining quota".

(** An upstream that answers the first POST with a 429 for a used-up
    quota and every later one with 200 and one event.  Its world counts
    the POSTs and its clock stands at 1000.  Its refresh marks a success
    on the record with a credential that is good until 9000, as a refresh
    that caches what it got does. *)
Definition upstream_quota_once : Upstream nat :=
  mkUpstream nat
    (fun _ => 1000%Q)
    (fun i p w => (Ok (Some "fresh-jwt"), mark_token_success i "fresh-jwt" 9000%Q p, w))
    (fun p w => (Ok "", p, w))
    (fun p w => (Ok "", p, w))
    (fun _ _ w =>
       (Ok (match w with
            | O => mkResponse 429 quota_body []
            | S _ => mkResponse 200 [] ["data: 0a00"; ""]
            end), S w))
    (fun _ => Ok hello_event).

(** An upstream that answers every POST with [status]; its clock stands
    at [time] and its refresh caches as that of [upstream_quota_once]
    does. *)
Definition upstream_caching (time : Q) (status : Z) : Upstream unit :=
  mkUpstream unit
    (fun _ => time)
    (fun i p w => (Ok (Some "fresh-jwt"), mark_token_success i "fresh-jwt" 9000%Q p, w))
    (fun p w => (Ok "", p, w))
    (fun p w => (Ok "", p, w))
    (fun _ _ w => (Ok (mkResponse status [] ["data: 0a00"; ""]), w))
    (fun _ => Ok hello_event).

(** The pool of [env_two_shared] with a credential on both records: that
    of the first is good until 5000, that of the second ran out at 10. *)
Definition pool_two_cached : TokenPool :=
  mark_token_success 1 "old-jwt" 10%Q
    (mark_token_success 0 "first-jwt" 5000%Q pool_two_shared).

(** The pool of [env_personal] with a credential that is good until
    [expiry]. *)
Definition pool_cached_until (expiry : Q) : TokenPool :=
  mark_token_success 0 "cached-jwt" expiry (initialize env_personal TokenPool_init).

(** A time a little after 1000 and an expiry a little more than 120
    seconds after it.  Both are values of binary64; the exact sum of the
    time and 120 lies half-way between two such values and is rounded to
    the upper one, which is the expiry. *)
Definition time_after_1000 : Q := 1000 + (3 # 8796093022208).

Definition expiry_after_1120 : Q := 1120 + (1 # 2199023255552).

(** * Properties *)

(** ** The token pool *)

Lemma elem_of_positions (f : TokenInfo -> bool) (ts : list TokenInfo) (i j : nat) :
  j ∈ positions f i ts ↔
  ∃ t, (i <= j)%nat ∧ ts !! (j - i)%nat = Some t ∧ f t = true.
Proof.
  revert i. induction ts as [|t ts IH]; intros i; simpl.
  - split; [intros H; inversion H | intros (t & _ & H & _); discriminate].
  - destruct (f t) eqn:Hf.
    + rewrite elem_of_cons, IH. split.
      * intros [-> | (t' & Hle & Hl & Hft)].
        -- exists t. rewrite Nat.sub_diag. auto.
        -- exists t'. split; [lia|]. split; [|done].
           replace (j - i)%nat with (S (j - S i)) by lia. done.
      * intros (t' & Hle & Hl & Hft).
        destruct (decide (j = i)) as [->|Hne]; [by left|right].
        exists t'. split; [lia|]. split; [|done].
        replace (j - i)%nat with (S (j - S i)) in Hl by lia. done.
    + rewrite IH. split.
      * intros (t' & Hle & Hl & Hft). exists t'. split; [lia|]. split; [|done].
        replace (j - i)%nat with (S (j - S i)) by lia. done.
      * intros (t' & Hle & Hl & Hft).
        destruct (decide (j = i)) as [->|Hne].
        { rewrite Nat.sub_diag in Hl. simpl in Hl. congruence. }
        exists t'. split; [lia|]. split; [|done].
        replace (j - i)%nat with (S (j - S i)) in Hl by lia. done.
Qed.

Lemma elem_of_positions_0 (f : TokenInfo -> bool) (ts : list TokenInfo) (j : nat) :
  j ∈ positions f 0 ts ↔ ∃ t, ts !! j = Some t ∧ f t = true.
Proof.
  rewrite elem_of_positions. rewrite Nat.sub_0_r.
  split; [intros (t & _ & H); eauto | intros (t & H); exists t; split; [lia|done]].
Qed.

Lemma positions_nil (f : TokenInfo -> bool) (ts : list TokenInfo) :
  positions f 0 ts = [] ↔ ∀ j t, ts !! j = Some t → f t = false.
Proof.
  split.
  - intros Hnil j t Hj. destruct (f t) eqn:Hf; [|done].
    assert (j ∈ positions f 0 ts) as Hin by (apply elem_of_positions_0; eauto).
    rewrite Hnil in Hin. inversion Hin.
  - intros H. destruct (positions f 0 ts) as [|j l] eqn:Hp; [done|].
    assert (j ∈ positions f 0 ts) as Hin by (rewrite Hp; left).
    apply elem_of_positions_0 in Hin as (t & Hj & Hf).
    rewrite (H _ _ Hj) in Hf. discriminate.
Qed.

Lemma lookup_mod_length {A : Type} (l : list A) (k : Z) :
  l ≠ [] → is_Some (l !! Z.to_nat (k mod Z.of_nat (length l))).
Proof.
  intros Hl. apply lookup_lt_is_Some.
  assert (0 < length l)%nat by (destruct l; [done | simpl; lia]).
  pose proof (Z.mod_pos_bound k (Z.of_nat (length l))). lia.
Qed.

Lemma Qltb_lt (x y : Q) : Qltb x y = true <-> (x < y)%Q.
Proof.
  unfold Qltb. rewrite Qlt_alt. destruct (x ?= y)%Q; split; congruence.
Qed.

Lemma eqb_true (a b : string) : PyStr.eqb a b = true ↔ a = b.
Proof. unfold PyStr.eqb. apply bool_decide_eq_true. Qed.

Lemma eqb_false (a b : string) : PyStr.eqb a b = false ↔ a ≠ b.
Proof. unfold PyStr.eqb. apply bool_decide_eq_false. Qed.

Lemma excluded_filter_true (p : TokenPool) (prio : TokenPriority) (t0 : string) (r : TokenInfo) :
  of_priority p prio r && not_excluded (Some t0) r = true ↔
  priority r = prio ∧ selectable p r = true ∧ refresh_token r ≠ t0.
Proof.
  unfold of_priority, not_excluded.
  rewrite !andb_true_iff, bool_decide_eq_true, negb_true_iff, eqb_false. tauto.
Qed.

Lemma tokens_touch (now : Q) (i : nat) (p : TokenPool) (j : nat) :
  _tokens (touch now i p) !! j =
  if decide (i = j) then set_last_used now <$> _tokens p !! j else _tokens p !! j.
Proof.
  unfold touch. simpl. rewrite list_lookup_alter.
  destruct (decide (i = j)) as [->|Hne]; done.
Qed.

Lemma excluding_loop_spec (now : Q) (t0 : string) (prios : list TokenPriority)
  (p : TokenPool) :
  match get_next_token_excluding_loop now (Some t0) prios p with
  | (Ok (Some i), p') =>
      ∃ r pre post,
        prios = pre ++ priority r :: post
        ∧ _tokens p !! i = Some r
        ∧ _tokens p' !! i = Some (set_last_used now r)
        ∧ _failed_tokens p' = _failed_tokens p
        ∧ refresh_token r ≠ t0
        ∧ selectable p r = true
        ∧ ∀ q, q ∈ pre → ¬ other_selectable p t0 q
  | (Ok None, p') => p' = p ∧ ∀ q, q ∈ prios → ¬ other_selectable p t0 q
  | (Raise _, _) => False
  end.
Proof.
  induction prios as [|prio rest IH]; simpl.
  - split; [done|]. intros q Hq. inversion Hq.
  - destruct (positions _ 0 (_tokens p)) as [|j0 l0] eqn:Hpos.
    + assert (¬ other_selectable p t0 prio) as Hno.
      { intros (j & r & Hj & Hp & Hs & Hne).
        pose proof (proj1 (positions_nil _ _) Hpos j r Hj) as Hf.
        assert (of_priority p prio r && not_excluded (Some t0) r = true) as Ht
          by (apply excluded_filter_true; done).
        simpl in Hf, Ht. congruence. }
      destruct (get_next_token_excluding_loop now (Some t0) rest p)
        as [[[i|]|e] p'] eqn:Hrec; [| |done].
      * destruct IH as (r & pre & post & -> & Hi & Hi' & Hfl & Hne & Hsel & Hpre).
        exists r, (prio :: pre), post. repeat split; try done.
        intros q [->|Hq]%elem_of_cons; auto.
      * destruct IH as [-> Hall]. split; [done|].
        intros q [->|Hq]%elem_of_cons; auto.
    + rewrite <- Hpos. clear IH.
      set (f := fun t => of_priority p prio t && negb (PyStr.eqb (refresh_token t) t0)) in *.
      set (p1 := match _last_used_index p !! prio with
                 | Some _ => p
                 | None => set_last_used_index (<[prio:=0]> (_last_used_index p)) p
                 end).
      assert (_tokens p1 = _tokens p ∧ _failed_tokens p1 = _failed_tokens p) as [Ht1 Hf1].
      { unfold p1. by destruct (_last_used_index p !! prio). }
      assert (is_Some (_last_used_index p1 !! prio)) as [last Hlast].
      { unfold p1. destruct (_last_used_index p !! prio) eqn:Hl; [by rewrite Hl|].
        simpl. rewrite lookup_insert_eq. done. }
      rewrite Hlast.
      destruct (lookup_mod_length (positions f 0 (_tokens p)) last) as [i Hi].
      { rewrite Hpos. done. }
      rewrite Hi.
      assert (i ∈ positions f 0 (_tokens p)) as Hin
        by (apply list_elem_of_lookup; eauto).
      apply elem_of_positions_0 in Hin as (r & Hr & Hfr).
      apply excluded_filter_true in Hfr as (Hp & Hs & Hne).
      exists r, [], rest. subst prio. repeat split; try done.
      * rewrite tokens_touch. rewrite decide_True by done. simpl.
        rewrite Ht1, Hr. done.
      * intros q Hq. inversion Hq.
Qed.

Lemma priority_order_split (pre post : list TokenPriority) (x q : TokenPriority) :
  [ANONYMOUS; SHARED; PERSONAL] = pre ++ x :: post → q ∉ pre →
  priority_value x ≤ priority_value q.
Proof.
  intros Heq Hnot.
  destruct pre as [|a [|b [|c pre]]]; simpl in Heq.
  - injection Heq as <- _. destruct q; simpl; lia.
  - injection Heq as <- <- _. destruct q; simpl; try lia.
    exfalso. apply Hnot. set_solver.
  - injection Heq as <- <- <- _. destruct q; simpl; try lia;
      exfalso; apply Hnot; set_solver.
  - injection Heq as _ _ _ Heq. destruct pre; discriminate.
Qed.

(** C6. [get_next_token_excluding] with a token [t] never raises and
    never gives a record whose refresh token is [t]: what it gives is a
    selectable record other than [t]'s of the first class, in the order
    anonymous, shared, personal, that has one (a class whose only
    selectable record is [t]'s is passed over), and it gives nothing, and
    leaves the pool alone, exactly when no selectable record other than
    [t]'s exists in any class. *)
Theorem C6_get_next_token_excluding (E : Platform) (now : Q) (t : string) (p : TokenPool) :
  let p0 := initialize E p in
  match get_next_token_excluding E now (Some t) p with
  | (Ok (Some i), p') =>
      ∃ r, _tokens p0 !! i = Some r
        ∧ _tokens p' !! i = Some (set_last_used now r)
        ∧ refresh_token r ≠ t
        ∧ selectable p0 r = true
        ∧ ∀ j r', _tokens p0 !! j = Some r' → selectable p0 r' = true →
                  refresh_token r' ≠ t →
                  priority_value (priority r) ≤ priority_value (priority r')
  | (Ok None, p') =>
      p' = p0
      ∧ ∀ j r', _tokens p0 !! j = Some r' → selectable p0 r' = true →
                refresh_token r' = t
  | (Raise _, _) => False
  end.
Proof.
  intros p0. unfold get_next_token_excluding. fold p0.
  pose proof (excluding_loop_spec now t [ANONYMOUS; SHARED; PERSONAL] p0) as H.
  destruct (get_next_token_excluding_loop now (Some t) _ p0) as [[[i|]|e] p'];
    [| |done].
  - destruct H as (r & pre & post & Hsplit & Hi & Hi' & _ & Hne & Hsel & Hpre).
    exists r. repeat split; try done.
    intros j r' Hj Hsel' Hne'.
    assert (priority r' ∉ pre) as Hnot.
    { intros Hin. apply (Hpre _ Hin). exists j, r'. done. }
    by eapply priority_order_split.
  - destruct H as [-> Hall]. split; [done|].
    intros j r' Hj Hsel'.
    destruct (decide (refresh_token r' = t)) as [|Hne]; [done|].
    exfalso. apply (Hall (priority r')).
    + destruct (priority r'); set_solver.
    + exists j, r'. done.
Qed.

Lemma failed_without (failed : gset string) (tok : string) :
  let failed' := if bool_decide (tok ∈ failed) then failed ∖ {[tok]} else failed in
  failed' ⊆ failed ∧ tok ∉ failed'.
Proof.
  simpl. destruct (bool_decide (tok ∈ failed)) eqn:Hd.
  - split; [apply subseteq_difference_l; reflexivity|].
    apply not_elem_of_difference. right. by apply elem_of_singleton.
  - apply bool_decide_eq_false in Hd. split; [reflexivity | exact Hd].
Qed.

Lemma recover_loop_spec (ts : list TokenInfo) (failed : gset string) (n : Z) :
  match recover_loop ts failed n with
  | (ts', failed', n') =>
      length ts' = length ts
      ∧ failed' ⊆ failed
      ∧ n' = n + Z.of_nat (length (List.filter recoverable ts))
      ∧ (∀ i r, ts !! i = Some r → recoverable r = true →
           ts' !! i = Some (recovered_record r) ∧ refresh_token r ∉ failed')
      ∧ (∀ i r, ts !! i = Some r → recoverable r = false → ts' !! i = Some r)
  end.
Proof.
  revert failed n. induction ts as [|t ts IH]; intros failed n; simpl.
  - split; [done|]. split; [done|]. split; [lia|]. split; intros i r Hi; inversion Hi.
  - fold (recoverable t). destruct (recoverable t) eqn:Hrec.
    + destruct (failed_without failed (refresh_token t)) as [Hsub Hnin].
      set (failed1 := if bool_decide (refresh_token t ∈ failed)
                      then failed ∖ {[refresh_token t]} else failed) in *.
      specialize (IH failed1 (n + 1)).
      destruct (recover_loop ts failed1 (n + 1)) as [[ts' failed'] n'].
      destruct IH as (Hlen & Hsub' & Hn & Hyes & Hno).
      split; [simpl; by rewrite Hlen|].
      split; [by etrans|].
      split; [simpl; lia|].
      split.
      * intros [|i] r Hi Hr; simpl in Hi.
        -- injection Hi as <-. split; [done|].
           intros Hin. apply Hnin. by apply Hsub'.
        -- by apply Hyes.
      * intros [|i] r Hi Hr; simpl in Hi.
        -- injection Hi as <-. congruence.
        -- by apply Hno.
    + specialize (IH failed n).
      destruct (recover_loop ts failed n) as [[ts' failed'] n'].
      destruct IH as (Hlen & Hsub' & Hn & Hyes & Hno).
      split; [simpl; by rewrite Hlen|].
      split; [done|].
      split; [done|].
      split.
      * intros [|i] r Hi Hr; simpl in Hi.
        -- injection Hi as <-. congruence.
        -- by apply Hyes.
      * intros [|i] r Hi Hr; simpl in Hi.
        -- by injection Hi as <-.
        -- by apply Hno.
Qed.

Lemma recover_failed_tokens_spec (p : TokenPool) :
  match recover_failed_tokens p with
  | (recovered, p') =>
      (∀ i r, _tokens p !! i = Some r → recoverable r = true →
              _tokens p' !! i = Some (recovered_record r)
              ∧ refresh_token r ∉ _failed_tokens p')
      ∧ (∀ i r, _tokens p !! i = Some r → recoverable r = false →
                _tokens p' !! i = Some r)
      ∧ recovered = Z.of_nat (length (List.filter recoverable (_tokens p)))
  end.
Proof.
  unfold recover_failed_tokens.
  pose proof (recover_loop_spec (_tokens p) (_failed_tokens p) 0) as H.
  destruct (recover_loop (_tokens p) (_failed_tokens p) 0) as [[ts' failed'] n'].
  destruct H as (Hlen & Hsub & Hn & Hyes & Hno). simpl.
  split; [done|]. split; [done|]. lia.
Qed.

Lemma recoverable_true (r : TokenInfo) :
  recoverable r = true ↔ is_active r = false ∧ _max_failures ≤ failure_count r.
Proof.
  unfold recoverable. rewrite andb_true_iff, negb_true_iff, Z.leb_le. done.
Qed.

Lemma recoverable_false (r : TokenInfo) :
  recoverable r = false ↔ is_active r = true ∨ failure_count r < _max_failures.
Proof.
  unfold recoverable. rewrite andb_false_iff, negb_false_iff, Z.leb_gt. done.
Qed.

(** C7, as amended. After [recover_failed_tokens], every record that was
    inactive with a failure count of at least three has a failure count
    of zero, is active and is out of the failed set; every other record,
    an inactive one with a lower failure count included, is as it was;
    and the number returned is the number of records of the first kind. *)
Theorem C7_recover_failed_tokens (p : TokenPool) :
  match recover_failed_tokens p with
  | (recovered, p') =>
      (∀ i r, _tokens p !! i = Some r →
              is_active r = false → _max_failures ≤ failure_count r →
              ∃ r', _tokens p' !! i = Some r'
                    ∧ failure_count r' = 0
                    ∧ is_active r' = true
                    ∧ refresh_token r' = refresh_token r
                    ∧ (refresh_token r' ∉ _failed_tokens p'))
      ∧ (∀ i r, _tokens p !! i = Some r →
                is_active r = true ∨ failure_count r < _max_failures →
                _tokens p' !! i = Some r)
      ∧ recovered = Z.of_nat (length (List.filter recoverable (_tokens p)))
  end.
Proof.
  pose proof (recover_failed_tokens_spec p) as H.
  destruct (recover_failed_tokens p) as [recovered p'].
  destruct H as (Hyes & Hno & Hn).
  split; [|split; [|done]].
  - intros i r Hi Hact Hcnt.
    destruct (Hyes i r Hi) as [Hi' Hnin]; [by apply recoverable_true|].
    exists (recovered_record r). done.
  - intros i r Hi Hor. apply Hno; [done|]. by apply recoverable_false.
Qed.

Lemma C7_witness :
  fst (recover_failed_tokens pool_deactivated) = 1
  ∧ ∃ r', _tokens (snd (recover_failed_tokens pool_deactivated)) !! 0%nat = Some r'
          ∧ failure_count r' = 0
          ∧ is_active r' = true
          ∧ refresh_token r' = "personal-token"
          ∧ (refresh_token r' ∉ _failed_tokens (snd (recover_failed_tokens pool_deactivated))).
Proof.
  pose proof (C7_recover_failed_tokens pool_deactivated) as H.
  destruct (recover_failed_tokens pool_deactivated) as [n p'].
  destruct H as (Hyes & _ & Hn). split.
  - rewrite Hn. vm_compute. reflexivity.
  - apply (Hyes 0%nat (mkTokenInfo "personal-token" PERSONAL "PERSONAL_0000" 0%Q 3
                         false "cached-jwt" 5000%Q)).
    + vm_compute. reflexivity.
    + reflexivity.
    + vm_compute. discriminate.
Defined.

Lemma C7_counterexample :
  is_active <$> _tokens pool_success_after_deactivation = [false]
  ∧ fst (recover_failed_tokens pool_success_after_deactivation) = 0
  ∧ is_active <$> _tokens (snd (recover_failed_tokens pool_success_after_deactivation))
    = [false].
Proof. vm_compute. done. Qed.

Section PoolFacts.

Variable E : Platform.

Lemma add_token_lookup (tok : string) (prio : TokenPriority) (p : TokenPool)
  (i : nat) (r : TokenInfo) :
  _tokens p !! i = Some r → _tokens (_add_token_internal E tok prio p) !! i = Some r.
Proof.
  intros Hi. unfold _add_token_internal.
  destruct (existsb _ _); [done|]. simpl.
  by apply lookup_app_l_Some.
Qed.

Lemma add_token_failed (tok : string) (prio : TokenPriority) (p : TokenPool) :
  _failed_tokens (_add_token_internal E tok prio p) = _failed_tokens p.
Proof. unfold _add_token_internal. by destruct (existsb _ _). Qed.

Lemma add_tokens_lookup (prio : TokenPriority) (toks : list string) (p : TokenPool)
  (i : nat) (r : TokenInfo) :
  _tokens p !! i = Some r →
  _tokens (foldl (fun q tok => _add_token_internal E tok prio q) p toks) !! i = Some r.
Proof.
  revert p. induction toks as [|tok toks IH]; intros p Hi; simpl; [done|].
  apply IH. by apply add_token_lookup.
Qed.

Lemma add_tokens_failed (prio : TokenPriority) (toks : list string) (p : TokenPool) :
  _failed_tokens (foldl (fun q tok => _add_token_internal E tok prio q) p toks)
  = _failed_tokens p.
Proof.
  revert p. induction toks as [|tok toks IH]; intros p; simpl; [done|].
  rewrite IH. apply add_token_failed.
Qed.

Lemma initialize_lookup (p : TokenPool) (i : nat) (r : TokenInfo) :
  _tokens p !! i = Some r → _tokens (initialize E p) !! i = Some r.
Proof.
  intros Hi. unfold initialize. destruct (_initialized p); [done|]. simpl.
  do 2 apply add_tokens_lookup.
  destruct (_load_anonymous_token E) as [a|]; [|done].
  destruct (PyStr.nonempty a); [|done]. by apply add_token_lookup.
Qed.

Lemma initialize_failed (p : TokenPool) :
  _failed_tokens (initialize E p) = _failed_tokens p.
Proof.
  unfold initialize. destruct (_initialized p); [done|]. simpl.
  rewrite !add_tokens_failed.
  destruct (_load_anonymous_token E) as [a|]; [|done].
  destruct (PyStr.nonempty a); [|done]. apply add_token_failed.
Qed.

Lemma get_token_by_priority_spec (prio : TokenPriority) (p : TokenPool) (i : nat)
  (p' : TokenPool) :
  _get_token_by_priority prio p = (Ok (Some i), p') →
  _tokens p' = _tokens p ∧ _failed_tokens p' = _failed_tokens p
  ∧ ∃ r, _tokens p !! i = Some r ∧ priority r = prio ∧ selectable p r = true.
Proof.
  unfold _get_token_by_priority.
  destruct (positions _ 0 (_tokens p)) as [|j0 l0] eqn:Hpos; [discriminate|].
  rewrite <- Hpos.
  destruct (_current_index p !! prio) as [cur|]; [|discriminate].
  destruct (positions _ 0 (_tokens p) !! _) as [j|] eqn:Hj; [|discriminate].
  intros [= <- <-]. simpl. split; [done|]. split; [done|].
  assert (j ∈ positions (of_priority p prio) 0 (_tokens p)) as Hin
    by (apply list_elem_of_lookup; eauto).
  apply elem_of_positions_0 in Hin as (r & Hr & Hf).
  unfold of_priority in Hf. apply andb_true_iff in Hf as [Hp Hs].
  apply bool_decide_eq_true in Hp. eauto.
Qed.

Lemma get_token_by_priority_none (prio : TokenPriority) (p p' : TokenPool) :
  _get_token_by_priority prio p = (Ok None, p') → p' = p.
Proof.
  unfold _get_token_by_priority.
  destruct (positions _ 0 (_tokens p)) as [|j0 l0]; [by intros [= <-]|].
  destruct (_current_index p !! prio) as [cur|]; [|discriminate].
  destruct (_ !! _); discriminate.
Qed.

Lemma get_next_token_loop_spec (now : Q) (prios : list TokenPriority)
  (p : TokenPool) (i : nat) (p' : TokenPool) :
  get_next_token_loop now prios p = (Ok (Some i), p') →
  ∃ r, _tokens p !! i = Some r ∧ selectable p r = true
       ∧ _tokens p' !! i = Some (set_last_used now r)
       ∧ _failed_tokens p' = _failed_tokens p.
Proof.
  revert p. induction prios as [|prio rest IH]; intros p; simpl; [discriminate|].
  destruct (_get_token_by_priority prio p) as [[[j|]|e] q] eqn:Hget.
  - intros [= <- <-].
    apply get_token_by_priority_spec in Hget as (Ht & Hf & r & Hr & _ & Hs).
    exists r. repeat split; try done.
    rewrite tokens_touch, decide_True by done. by rewrite Ht, Hr.
  - apply get_token_by_priority_none in Hget as ->. apply IH.
  - discriminate.
Qed.

Lemma get_next_token_selectable (now : Q) (p : TokenPool) (i : nat) (p' : TokenPool) :
  get_next_token E now p = (Ok (Some i), p') →
  ∃ r, _tokens (initialize E p) !! i = Some r ∧ selectable (initialize E p) r = true.
Proof.
  unfold get_next_token. intros H.
  apply get_next_token_loop_spec in H as (r & Hr & Hs & _). eauto.
Qed.

Lemma mark_token_success_lookup (i : nat) (jwt : string) (exp : Q) (p : TokenPool)
  (r : TokenInfo) :
  _tokens p !! i = Some r →
  ∃ r1, _tokens (mark_token_success i jwt exp p) !! i = Some r1
        ∧ failure_count r1 = 0
        ∧ is_active r1 = is_active r
        ∧ refresh_token r1 = refresh_token r
        ∧ priority r1 = priority r
        ∧ (refresh_token r1 ∉ _failed_tokens (mark_token_success i jwt exp p))
        ∧ (jwt ≠ "" → last_jwt r1 = jwt ∧ last_jwt_expiry r1 = exp)
        ∧ (jwt = "" → last_jwt r1 = last_jwt r ∧ last_jwt_expiry r1 = last_jwt_expiry r).
Proof.
  intros Hi. unfold mark_token_success. rewrite Hi. simpl.
  rewrite list_lookup_insert_eq by (by eapply lookup_lt_Some).
  destruct (failed_without (_failed_tokens p) (refresh_token r)) as [_ Hnin].
  eexists. split; [done|].
  destruct jwt as [|c jwt]; simpl; repeat split; done.
Qed.

Lemma mark_token_success_other (i j : nat) (jwt : string) (exp : Q) (p : TokenPool) :
  i ≠ j → _tokens (mark_token_success i jwt exp p) !! j = _tokens p !! j.
Proof.
  intros Hne. unfold mark_token_success.
  destruct (_tokens p !! i); [|done]. simpl. by apply list_lookup_insert_ne.
Qed.

Lemma mark_token_success_is_active (i j : nat) (jwt : string) (exp : Q) (p : TokenPool) :
  is_active <$> _tokens (mark_token_success i jwt exp p) !! j
  = is_active <$> _tokens p !! j.
Proof.
  destruct (decide (i = j)) as [<-|Hne].
  - destruct (_tokens p !! i) as [r|] eqn:Hi.
    + destruct (mark_token_success_lookup i jwt exp p r Hi)
        as (r1 & Hr1 & _ & Hact & _). rewrite Hr1. simpl. by rewrite Hact.
    + unfold mark_token_success. rewrite Hi. by rewrite Hi.
  - by rewrite mark_token_success_other.
Qed.

End PoolFacts.

(** C10. [mark_token_success] changes [is_active] of no record, whether
    the record it is applied to is active or not.  On a deactivated
    record it zeroes the failure count and takes the record out of the
    failed set while the record stays inactive: after it
    [get_next_token] never gives that record, and [recover_failed_tokens]
    leaves it inactive. *)
Theorem C10_mark_token_success_keeps_is_active (E : Platform) (p : TokenPool)
  (i : nat) (jwt : string) (jwt_expiry : Q) :
  let p1 := mark_token_success i jwt jwt_expiry p in
  (∀ j, is_active <$> _tokens p1 !! j = is_active <$> _tokens p !! j)
  ∧ (∀ r, _tokens p !! i = Some r → is_active r = false →
       (∃ r1, _tokens p1 !! i = Some r1
              ∧ failure_count r1 = 0
              ∧ is_active r1 = false
              ∧ (refresh_token r1 ∉ _failed_tokens p1))
       ∧ (∀ now, fst (get_next_token E now p1) ≠ Ok (Some i))
       ∧ (∃ r2, _tokens (snd (recover_failed_tokens p1)) !! i = Some r2
                ∧ is_active r2 = false)).
Proof.
  intros p1. split; [intros j; apply mark_token_success_is_active|].
  intros r Hi Hact.
  destruct (mark_token_success_lookup i jwt jwt_expiry p r Hi)
    as (r1 & Hr1 & Hcnt & Hact1 & _ & _ & Hnin & _).
  fold p1 in Hr1, Hnin. rewrite Hact in Hact1.
  split; [|split].
  - exists r1. done.
  - intros now Hsel.
    destruct (get_next_token E now p1) as [res p'] eqn:Hget. simpl in Hsel. subst res.
    apply get_next_token_selectable in Hget as (r' & Hr' & Hs).
    rewrite (initialize_lookup E p1 i r1 Hr1) in Hr'. simplify_eq.
    unfold selectable in Hs. rewrite Hact1 in Hs. discriminate.
  - exists r1. split; [|done].
    pose proof (recover_failed_tokens_spec p1) as H.
    destruct (recover_failed_tokens p1) as [n p2]. simpl.
    destruct H as (_ & Hno & _). apply Hno; [done|].
    apply recoverable_false. right. rewrite Hcnt. unfold _max_failures. lia.
Qed.

Lemma C10_witness :
  is_active <$> _tokens (mark_token_success 0 "fresh-jwt" 9000%Q pool_cached) !! 0%nat
  = Some true
  ∧ ∃ r2, _tokens (snd (recover_failed_tokens
                          (mark_token_success 0 "fresh-jwt" 9000%Q pool_deactivated)))
            !! 0%nat = Some r2
          ∧ is_active r2 = false.
Proof.
  split.
  - exact (proj1 (C10_mark_token_success_keeps_is_active env_personal pool_cached
                    0%nat "fresh-jwt" 9000%Q) 0%nat).
  - refine (proj2 (proj2 (proj2
              (C10_mark_token_success_keeps_is_active env_personal pool_deactivated
                 0%nat "fresh-jwt" 9000%Q)
              (mkTokenInfo "personal-token" PERSONAL "PERSONAL_0000" 0%Q 3 false
                 "cached-jwt" 5000%Q) _ _))).
    + vm_compute. reflexivity.
    + reflexivity.
Defined.

(** ** The chunk decoder *)

Lemma elem_of_all_bytes (x : byte) : x ∈ all_bytes.
Proof.
  unfold all_bytes. apply list_elem_of_omap. exists (Byte.to_N x).
  split; [|apply Byte.of_to_N].
  apply list_elem_of_fmap. exists (N.to_nat (Byte.to_N x)).
  split; [by rewrite N2Nat.id|].
  apply elem_of_seq. pose proof (Byte.to_N_bounded x). lia.
Qed.

Lemma forall_bytes (P : byte -> bool) :
  forallb P all_bytes = true → ∀ x, P x = true.
Proof.
  intros H x. rewrite forallb_forall in H. apply H.
  apply list_elem_of_In, elem_of_all_bytes.
Qed.

Lemma pair_check_ok (x y : byte) : pair_check x y = true.
Proof.
  revert y. apply forall_bytes. revert x. apply forall_bytes.
  vm_compute. reflexivity.
Qed.

Lemma b64_char_check_ok (c : ascii) : b64_char_check c = true.
Proof. destruct c as [[] [] [] [] [] [] [] []]; vm_compute; reflexivity. Qed.

Lemma sextet_check_ok (v : N) :
  (v < 64)%N → table_a2b_base64 (b64_char v) = Some v.
Proof.
  intros Hv.
  assert (forallb sextet_check (seq 0 64) = true) as H by (vm_compute; reflexivity).
  rewrite forallb_forall in H.
  specialize (H (N.to_nat v)). unfold sextet_check in H. rewrite N2Nat.id in H.
  destruct (table_a2b_base64 (b64_char v)) as [w|].
  - f_equal. apply N.eqb_eq. apply H. apply in_seq. lia.
  - discriminate H. apply in_seq. lia.
Qed.

Lemma hex_byte_check_ok (x : byte) : hex_byte_check x = true.
Proof. revert x. apply forall_bytes. vm_compute. reflexivity. Qed.

Ltac split_andb :=
  repeat match goal with
         | H : _ && _ = true |- _ => apply andb_true_iff in H as [? ?]
         | H : negb _ = true |- _ => apply negb_true_iff in H
         end.

Ltac rewrite_bools :=
  repeat match goal with
         | H : ?a = true |- context [?a] => rewrite H
         | H : ?a = false |- context [?a] => rewrite H
         end.

Lemma byte_eqb_eq (a b : byte) : Byte.eqb a b = true → a = b.
Proof. apply Byte.byte_dec_bl. Qed.

Lemma append_cons (c : ascii) (s t : string) :
  String c s +:+ t = String c (s +:+ t).
Proof. reflexivity. Qed.

Lemma append_nil (t : string) : EmptyString +:+ t = t.
Proof. reflexivity. Qed.

(** *** Hexadecimal text *)

Lemma all_hex_bytes_hex (b : list byte) : all_hex (bytes_hex b) = true.
Proof.
  induction b as [|x b IH]; simpl; [done|].
  pose proof (hex_byte_check_ok x) as H. unfold hex_byte_check in H.
  split_andb. rewrite_bools. done.
Qed.

Lemma remove_spaces_bytes_hex (b : list byte) :
  PyStr.remove_spaces (bytes_hex b) = bytes_hex b.
Proof.
  induction b as [|x b IH]; simpl; [done|].
  pose proof (hex_byte_check_ok x) as H. unfold hex_byte_check in H.
  split_andb. rewrite_bools. by rewrite IH.
Qed.

Lemma bytes_fromhex_bytes_hex (b : list byte) : bytes_fromhex (bytes_hex b) = Some b.
Proof.
  induction b as [|x b IH]; simpl; [done|].
  pose proof (hex_byte_check_ok x) as H. unfold hex_byte_check in H.
  split_andb. rewrite_bools.
  destruct (hex_value (hex_char (to_N x / 16))) as [h|]; [|discriminate].
  destruct (hex_value (hex_char (to_N x mod 16))) as [l|]; [|discriminate].
  rewrite IH. f_equal. f_equal. by apply byte_eqb_eq.
Qed.

Lemma parse_hex_roundtrip (b : list byte) :
  b ≠ [] → _parse_payload_bytes (bytes_hex b) = Some b.
Proof.
  intros Hb. unfold _parse_payload_bytes.
  rewrite remove_spaces_bytes_hex.
  assert (PyStr.nonempty (bytes_hex b) = true) as Hne by (by destruct b).
  unfold fullmatch_hex. rewrite Hne, all_hex_bytes_hex. simpl.
  by rewrite bytes_fromhex_bytes_hex.
Qed.

(** *** Base64 text *)

Lemma b64_char_facts (c : ascii) :
  is_b64 c = true →
  Ascii.eqb c "=" = false
  ∧ Ascii.eqb (urlsafe_encode_char c) "=" = false
  ∧ urlsafe_decode_char (urlsafe_encode_char c) = c
  ∧ PyStr.is_space (urlsafe_encode_char c) = false
  ∧ (N_of_ascii (urlsafe_encode_char c) <? 128)%N = true
  ∧ (N_of_ascii c <? 128)%N = true.
Proof.
  intros Hc. pose proof (b64_char_check_ok c) as H. unfold b64_char_check in H.
  rewrite Hc in H. simpl in H. split_andb.
  repeat split; try done. by apply Ascii.eqb_eq.
Qed.

Lemma is_b64_b64_char (v : N) : (v < 64)%N → is_b64 (b64_char v) = true.
Proof. intros Hv. unfold is_b64. by rewrite sextet_check_ok. Qed.

Lemma translate_app (f : ascii -> ascii) (s t : string) :
  translate f (s +:+ t) = translate f s +:+ translate f t.
Proof. induction s as [|c s IH]; [done|]. rewrite !append_cons. simpl. by rewrite IH. Qed.

Lemma translate_encode_pad (n : nat) :
  translate urlsafe_encode_char (pad_string n) = pad_string n.
Proof. induction n as [|n IH]; simpl; [done|]. by rewrite IH. Qed.

Lemma translate_decode_pad (n : nat) :
  translate urlsafe_decode_char (pad_string n) = pad_string n.
Proof. induction n as [|n IH]; simpl; [done|]. by rewrite IH. Qed.

Lemma length_translate (f : ascii -> ascii) (s : string) :
  String.length (translate f s) = String.length s.
Proof. induction s as [|c s IH]; simpl; [done|]. by rewrite IH. Qed.

Lemma translate_decode_encode (s : string) :
  all_b64 s = true →
  translate urlsafe_decode_char (translate urlsafe_encode_char s) = s.
Proof.
  induction s as [|c s IH]; simpl; [done|].
  intros [Hc Hs]%andb_true_iff.
  destruct (b64_char_facts c Hc) as (_ & _ & -> & _). by rewrite IH.
Qed.

Lemma remove_spaces_encode (s : string) :
  all_b64 s = true →
  PyStr.remove_spaces (translate urlsafe_encode_char s) = translate urlsafe_encode_char s.
Proof.
  induction s as [|c s IH]; simpl; [done|].
  intros [Hc Hs]%andb_true_iff.
  destruct (b64_char_facts c Hc) as (_ & _ & _ & -> & _). by rewrite IH.
Qed.

Lemma is_ascii_pad (n : nat) : is_ascii_str (pad_string n) = true.
Proof. induction n as [|n IH]; simpl; done. Qed.

Lemma is_ascii_b64 (s : string) (n : nat) :
  all_b64 s = true → is_ascii_str (s +:+ pad_string n) = true.
Proof.
  induction s as [|c s IH]; [intros _; apply is_ascii_pad|].
  rewrite append_cons. simpl. intros [Hc Hs]%andb_true_iff.
  destruct (b64_char_facts c Hc) as (_ & _ & _ & _ & _ & ->). by rewrite IH.
Qed.

Lemma is_ascii_encode (s : string) (n : nat) :
  all_b64 s = true →
  is_ascii_str (translate urlsafe_encode_char s +:+ pad_string n) = true.
Proof.
  induction s as [|c s IH]; [intros _; apply is_ascii_pad|].
  simpl translate. rewrite append_cons. simpl. intros [Hc Hs]%andb_true_iff.
  destruct (b64_char_facts c Hc) as (_ & _ & _ & _ & -> & _). by rewrite IH.
Qed.

Lemma rstrip_eq_pad (n : nat) : rstrip_eq (pad_string n) = EmptyString.
Proof. induction n as [|n IH]; simpl; [done|]. by rewrite IH. Qed.

Lemma rstrip_eq_encode (s : string) (n : nat) :
  all_b64 s = true →
  rstrip_eq (translate urlsafe_encode_char s +:+ pad_string n)
  = translate urlsafe_encode_char s.
Proof.
  induction s as [|c s IH]; [intros _; apply rstrip_eq_pad|].
  simpl translate. rewrite append_cons. simpl. intros [Hc Hs]%andb_true_iff.
  rewrite (IH Hs).
  destruct (b64_char_facts c Hc) as (_ & -> & _).
  by destruct (translate urlsafe_encode_char s).
Qed.

Lemma sextet_bounds (x y : byte) :
  (sextet1 x < 64)%N ∧ (sextet2 x y < 64)%N ∧ (sextet3 x y < 64)%N
  ∧ (sextet4 x < 64)%N.
Proof.
  pose proof (pair_check_ok x y) as H. unfold pair_check in H. split_andb.
  repeat split; by apply N.ltb_lt.
Qed.

Lemma tail_sextet_bounds (x : byte) :
  (N.shiftl (N.land (Byte.to_N x) 3) 4 < 64)%N
  ∧ (N.shiftl (N.land (Byte.to_N x) 15) 2 < 64)%N.
Proof.
  pose proof (sextet_bounds x x00) as (_ & H2 & _).
  pose proof (sextet_bounds x00 x) as (_ & _ & _).
  pose proof (sextet_bounds x x00) as (_ & _ & H3 & _).
  unfold sextet2, sextet3 in *. simpl in H2, H3.
  rewrite N.lor_0_r in H2, H3. done.
Qed.

Lemma all_b64_b64_chars (b : list byte) : all_b64 (b64_chars b) = true.
Proof.
  revert b. fix IH 1. intros [|x [|y [|z r]]].
  - done.
  - destruct (sextet_bounds x x) as (H1 & _).
    destruct (tail_sextet_bounds x) as (H2 & _).
    simpl. fold (sextet1 x). by rewrite !is_b64_b64_char.
  - destruct (sextet_bounds x y) as (H1 & H2 & _).
    destruct (tail_sextet_bounds y) as (_ & H3).
    simpl. fold (sextet1 x) (sextet2 x y). by rewrite !is_b64_b64_char.
  - destruct (sextet_bounds x y) as (H1 & H2 & _).
    destruct (sextet_bounds y z) as (_ & _ & H3 & _).
    destruct (sextet_bounds z z) as (_ & _ & _ & H4).
    simpl. fold (sextet1 x) (sextet2 x y) (sextet3 y z) (sextet4 z).
    rewrite !is_b64_b64_char by done. simpl. apply IH.
Qed.

Lemma a2b_base64_step (v : N) (s : string) (quad_pos : nat) (leftchar : N) (pads : nat) :
  (v < 64)%N →
  a2b_base64 (String (b64_char v) s) quad_pos leftchar pads =
  match quad_pos with
  | 0%nat => a2b_base64 s 1 v 0
  | 1%nat =>
      cons (byte_of_N (N.lor (N.shiftl leftchar 2) (N.shiftr v 4)))
        <$> a2b_base64 s 2 (N.land v 15) 0
  | 2%nat =>
      cons (byte_of_N (N.lor (N.shiftl leftchar 4) (N.shiftr v 2)))
        <$> a2b_base64 s 3 (N.land v 3) 0
  | _ =>
      cons (byte_of_N (N.lor (N.shiftl leftchar 6) v))
        <$> a2b_base64 s 0 0%N 0
  end.
Proof.
  intros Hv. simpl.
  destruct (b64_char_facts _ (is_b64_b64_char v Hv)) as (-> & _).
  by rewrite (sextet_check_ok v Hv).
Qed.

Lemma pad_for_cons4 (c1 c2 c3 c4 : ascii) (s : string) :
  pad_for (String c1 (String c2 (String c3 (String c4 s)))) = pad_for s.
Proof.
  unfold pad_for. simpl String.length.
  rewrite !Nat2Z.inj_succ.
  replace (Z.succ (Z.succ (Z.succ (Z.succ (Z.of_nat (String.length s))))))
    with (Z.of_nat (String.length s) + 1 * 4) by lia.
  by rewrite Z_mod_plus_full.
Qed.

Lemma decoded_bytes (x y z : byte) :
  byte_of_N (N.lor (N.shiftl (sextet1 x) 2) (N.shiftr (sextet2 x y) 4)) = x
  ∧ byte_of_N (N.lor (N.shiftl (N.land (sextet2 x y) 15) 4) (N.shiftr (sextet3 y z) 2)) = y
  ∧ byte_of_N (N.lor (N.shiftl (N.land (sextet3 y z) 3) 6) (sextet4 z)) = z.
Proof.
  pose proof (pair_check_ok x y) as Hxy. pose proof (pair_check_ok y z) as Hyz.
  pose proof (pair_check_ok z z) as Hzz.
  unfold pair_check in *. split_andb.
  repeat match goal with H : (_ =? _)%N = true |- _ => apply N.eqb_eq in H end.
  repeat match goal with H : Byte.eqb _ _ = true |- _ => apply byte_eqb_eq in H end.
  split; [done|]. split; congruence.
Qed.

Lemma a2b_base64_b64_chars (b : list byte) (leftchar : N) :
  a2b_base64 (b64_chars b +:+ pad_for (b64_chars b)) 0 leftchar 0 = Some b.
Proof.
  revert b leftchar. fix IH 1. intros [|x [|y [|z r]]] leftchar.
  - done.
  - destruct (sextet_bounds x x) as (H1 & _).
    destruct (tail_sextet_bounds x) as (H2 & _).
    destruct (decoded_bytes x x00 x00) as (Hx & _).
    simpl b64_chars. fold (sextet1 x). rewrite !append_cons.
    rewrite !a2b_base64_step by done.
    unfold sextet2 in Hx. simpl in Hx. rewrite N.lor_0_r in Hx. rewrite Hx.
    reflexivity.
  - destruct (sextet_bounds x y) as (H1 & H2 & _).
    destruct (tail_sextet_bounds y) as (_ & H3).
    destruct (decoded_bytes x y x00) as (Hx & Hy & _).
    simpl b64_chars. fold (sextet1 x) (sextet2 x y). rewrite !append_cons.
    rewrite !a2b_base64_step by done.
    unfold sextet3 in Hy. simpl in Hy. rewrite N.lor_0_r in Hy. rewrite Hx, Hy.
    reflexivity.
  - destruct (sextet_bounds x y) as (H1 & H2 & _).
    destruct (sextet_bounds y z) as (_ & _ & H3 & _).
    destruct (sextet_bounds z z) as (_ & _ & _ & H4).
    destruct (decoded_bytes x y z) as (Hx & Hy & Hz).
    simpl b64_chars. fold (sextet1 x) (sextet2 x y) (sextet3 y z) (sextet4 z).
    rewrite !append_cons, pad_for_cons4.
    rewrite !a2b_base64_step by done.
    rewrite Hx, Hy, Hz, IH. reflexivity.
Qed.

Lemma urlsafe_b64encode_nopad_chars (b : list byte) :
  urlsafe_b64encode_nopad b = translate urlsafe_encode_char (b64_chars b).
Proof.
  unfold urlsafe_b64encode_nopad, urlsafe_b64encode, b64encode, pad_for.
  rewrite translate_app, translate_encode_pad.
  apply rstrip_eq_encode, all_b64_b64_chars.
Qed.

Lemma pad_for_translate (f : ascii -> ascii) (s : string) :
  pad_for (translate f s) = pad_for s.
Proof. unfold pad_for. by rewrite length_translate. Qed.

Lemma urlsafe_b64decode_encoded (b : list byte) :
  let s := urlsafe_b64encode_nopad b in
  urlsafe_b64decode (s +:+ pad_for s) = Some b.
Proof.
  intros s. unfold s. rewrite urlsafe_b64encode_nopad_chars, pad_for_translate.
  pose proof (all_b64_b64_chars b) as Hb.
  unfold urlsafe_b64decode, b64decode, pad_for.
  rewrite is_ascii_encode by done.
  rewrite translate_app, translate_decode_pad, translate_decode_encode by done.
  rewrite is_ascii_b64 by done.
  apply a2b_base64_b64_chars.
Qed.

Lemma is_hex_not_space (c : ascii) : is_hex c = true → is_ascii_space c = false.
Proof. destruct c as [[] [] [] [] [] [] [] []]; vm_compute; congruence. Qed.

Lemma bytes_fromhex_odd (s : string) :
  all_hex s = true → Nat.even (String.length s) = false → bytes_fromhex s = None.
Proof.
  revert s. fix IH 1. intros [|c [|d s]].
  - discriminate.
  - simpl. intros Hc _. apply andb_true_iff in Hc as [Hc _].
    by rewrite (is_hex_not_space c Hc).
  - intros Hall Hodd. simpl in Hall. split_andb.
    change (Nat.even (String.length s) = false) in Hodd.
    simpl. rewrite (is_hex_not_space c) by done.
    rewrite (IH s) by done.
    by destruct (hex_value c), (hex_value d).
Qed.

Lemma parse_b64_roundtrip (b : list byte) :
  b ≠ [] →
  fullmatch_hex (urlsafe_b64encode_nopad b)
    && Nat.even (String.length (urlsafe_b64encode_nopad b)) = false →
  _parse_payload_bytes (urlsafe_b64encode_nopad b) = Some b.
Proof.
  intros Hb Hhex. unfold _parse_payload_bytes.
  assert (PyStr.remove_spaces (urlsafe_b64encode_nopad b) = urlsafe_b64encode_nopad b)
    as ->.
  { rewrite urlsafe_b64encode_nopad_chars.
    apply remove_spaces_encode, all_b64_b64_chars. }
  assert (PyStr.nonempty (urlsafe_b64encode_nopad b) = true) as ->.
  { rewrite urlsafe_b64encode_nopad_chars. by destruct b as [|x [|y [|z r]]]. }
  simpl negb. cbv iota.
  assert ((if fullmatch_hex (urlsafe_b64encode_nopad b)
           then bytes_fromhex (urlsafe_b64encode_nopad b) else None) = None) as ->.
  { destruct (fullmatch_hex (urlsafe_b64encode_nopad b)) eqn:Hf; [|done].
    simpl in Hhex. apply bytes_fromhex_odd; [|done].
    unfold fullmatch_hex in Hf. by apply andb_true_iff in Hf as [_ Hf]. }
  by rewrite urlsafe_b64decode_encoded.
Qed.

(** The order of the three decodings. *)
Lemma parse_precedence (data_str : string) :
  let s := PyStr.remove_spaces data_str in
  let hex := if fullmatch_hex s then bytes_fromhex s else None in
  (s = EmptyString → _parse_payload_bytes data_str = None)
  ∧ (s ≠ EmptyString →
     match hex with
     | Some b => _parse_payload_bytes data_str = Some b
     | None =>
         match urlsafe_b64decode (s +:+ pad_for s) with
         | Some b => _parse_payload_bytes data_str = Some b
         | None => _parse_payload_bytes data_str = b64decode (s +:+ pad_for s)
         end
     end).
Proof.
  intros s hex. unfold _parse_payload_bytes. fold s. fold hex. split.
  - by intros ->.
  - intros Hs. assert (PyStr.nonempty s = true) as -> by (by destruct s).
    simpl. destruct hex; [done|].
    by destruct (urlsafe_b64decode (s +:+ pad_for s)).
Qed.

(** C5, as amended. For every non-empty byte string [b] the chunk decoder
    gives [b] back from the hex text of [b], and it gives [b] back from
    the URL-safe base64 text of [b] without padding whenever that text is
    not itself a string of hex digits of even length.  The decoder takes
    the hex reading first, then URL-safe base64 with the padding put back,
    then standard base64; the decoder of the parsed sender is the same
    function. *)
Theorem C5_payload_decoder (b : list byte) :
  b ≠ [] →
  _parse_payload_bytes (bytes_hex b) = Some b
  ∧ (fullmatch_hex (urlsafe_b64encode_nopad b)
       && Nat.even (String.length (urlsafe_b64encode_nopad b)) = false →
     _parse_payload_bytes (urlsafe_b64encode_nopad b) = Some b)
  ∧ (∀ data_str,
       let s := PyStr.remove_spaces data_str in
       s ≠ EmptyString →
       match (if fullmatch_hex s then bytes_fromhex s else None) with
       | Some d => _parse_payload_bytes data_str = Some d
       | None =>
           match urlsafe_b64decode (s +:+ pad_for s) with
           | Some d => _parse_payload_bytes data_str = Some d
           | None => _parse_payload_bytes data_str = b64decode (s +:+ pad_for s)
           end
       end)
  ∧ (∀ data_str, _parse_payload_bytes2 data_str = _parse_payload_bytes data_str).
Proof.
  intros Hb. split; [by apply parse_hex_roundtrip|].
  split; [by apply parse_b64_roundtrip|].
  split; [|done].
  intros data_str s Hs. by apply (proj2 (parse_precedence data_str)).
Qed.

Lemma C5_witness :
  _parse_payload_bytes (bytes_hex [xfb; xff]) = Some [xfb; xff]
  ∧ _parse_payload_bytes (urlsafe_b64encode_nopad [xfb; xff]) = Some [xfb; xff].
Proof.
  assert ([xfb; xff] ≠ []) as Hne by discriminate.
  split.
  - exact (proj1 (C5_payload_decoder [xfb; xff] Hne)).
  - apply (proj1 (proj2 (C5_payload_decoder [xfb; xff] Hne))).
    vm_compute. reflexivity.
Defined.

Lemma C5_counterexample :
  urlsafe_b64encode_nopad [x69; xb7; x1d] = "abcd"
  ∧ _parse_payload_bytes (urlsafe_b64encode_nopad [x69; xb7; x1d]) = Some [xab; xcd]
  ∧ _parse_payload_bytes (bytes_hex []) = None.
Proof. vm_compute. done. Qed.

(** ** The stream loop *)

Section StreamFacts.

Variable chunk : M sse unit.

Lemma sse_lines_trailing (tr : list string) :
  trailing tr →
  ∀ s, ∃ s', sse_lines chunk tr s = (Ok tt, s') ∧ without_chunk s' = without_chunk s.
Proof.
  induction 1 as [|line rest Hd Hp|line rest Hd Hp Htr IH|line rest Hd Hp Htr IH];
    intros s; cbn [sse_lines].
  - unfold ret. eauto.
  - rewrite Hd, Hp. unfold ret. simpl. eauto.
  - rewrite Hd.
    destruct (PyStr.nonempty (PyStr.strip (PyStr.drop 5 line))); cbn [negb]; [|apply IH].
    assert (PyStr.eqb (PyStr.strip (PyStr.drop 5 line)) "[DONE]" = false) as ->
      by (by apply eqb_false).
    unfold bind, modify.
    destruct (IH (set_current_data
                    (current_data s +:+ PyStr.strip (PyStr.drop 5 line)) s))
      as (s' & -> & Hs').
    exists s'. split; [done|]. rewrite Hs'. done.
  - rewrite Hd. unfold bind, gets.
    assert (PyStr.eqb (PyStr.strip line) "" = false) as -> by (by apply eqb_false).
    cbn [andb]. apply IH.
Qed.

Lemma sse_lines_app_trailing (ls tr : list string) :
  trailing tr →
  ∀ s, ∃ s', sse_lines chunk (ls ++ tr) s = (fst (sse_lines chunk ls s), s')
             ∧ without_chunk s' = without_chunk (snd (sse_lines chunk ls s)).
Proof.
  intros Htr. induction ls as [|line ls IH]; intros s.
  - cbn [sse_lines app]. unfold ret. cbn [fst snd].
    destruct (sse_lines_trailing tr Htr s) as (s' & Hs' & Heq). eauto.
  - rewrite <- app_comm_cons. cbn [sse_lines].
    destruct (PyStr.startswith "data:" line).
    + destruct (negb (PyStr.nonempty (PyStr.strip (PyStr.drop 5 line)))); [apply IH|].
      destruct (PyStr.eqb (PyStr.strip (PyStr.drop 5 line)) "[DONE]");
        [unfold ret; cbn [fst snd]; eauto|].
      unfold bind, modify. apply IH.
    + unfold bind at 1 3 5. unfold gets.
      destruct (PyStr.eqb (PyStr.strip line) "" && PyStr.nonempty (current_data s));
        [|apply IH].
      unfold bind. destruct (chunk s) as [[[]|e] s1]; [apply IH|cbn [fst snd]; eauto].
Qed.

End StreamFacts.

(** C8. Lines that follow the last blank line that found data, up to the
    end of the stream or to the [[DONE]] sentinel, change nothing in what
    either sender returns: the chunk they build up is never decoded and
    adds no event and no text. *)
Theorem C8_trailing_chunk_is_discarded (protobuf_to_dict : list byte -> result pyval)
  (show_all_events : bool) (ls tr : list string) :
  trailing tr →
  read_stream protobuf_to_dict show_all_events (ls ++ tr)
  = read_stream protobuf_to_dict show_all_events ls
  ∧ read_stream_parsed protobuf_to_dict (ls ++ tr)
    = read_stream_parsed protobuf_to_dict ls.
Proof.
  intros Htr. unfold read_stream, read_stream_parsed. split.
  - destruct (sse_lines_app_trailing (on_chunk protobuf_to_dict show_all_events)
                ls tr Htr sse_init) as (s' & -> & Hs').
    destruct (sse_lines _ ls sse_init) as [[[]|e] s]; simpl in *; [|done].
    injection Hs' as -> -> -> _ _. done.
  - destruct (sse_lines_app_trailing (on_chunk_parsed protobuf_to_dict)
                ls tr Htr sse_init) as (s' & -> & Hs').
    destruct (sse_lines _ ls sse_init) as [[[]|e] s]; simpl in *; [|done].
    injection Hs' as -> -> -> -> _. done.
Qed.

Lemma C8_witness :
  trailing ["data: 0a01"]
  ∧ read_stream (fun _ => Ok hello_event) true lines_with_trailing_chunk
    = Ok hello_reply
  ∧ read_stream_parsed (fun _ => Ok hello_event) lines_with_trailing_chunk
    = read_stream_parsed (fun _ => Ok hello_event) ["data: 0a00"; ""].
Proof.
  assert (trailing ["data: 0a01"]) as Htr.
  { apply trailing_data; [reflexivity | discriminate | apply trailing_end]. }
  split; [exact Htr|].
  destruct (C8_trailing_chunk_is_discarded (fun _ => Ok hello_event) true
              ["data: 0a00"; ""] ["data: 0a01"] Htr) as [H1 H2].
  split.
  - change lines_with_trailing_chunk with (["data: 0a00"; ""] ++ ["data: 0a01"]).
    rewrite H1. vm_compute. reflexivity.
  - exact H2.
Defined.

(** ** Sums of floats *)

(** Values that are known of binary64: the float next to one tenth; a
    tie that goes to the even significand, downwards and upwards; the
    largest float and the first value that is rounded to an infinity; the
    smallest float, the half of it, which is rounded to zero, and three
    halves of it, which are rounded to its double; a negative value. *)
Lemma round_binary64_values :
  round_binary64 (1 # 10) = B64 (3602879701896397 # 36028797018963968)
  ∧ round_binary64 (inject_Z (2 ^ 53 + 1)) = B64 (inject_Z (2 ^ 53))
  ∧ round_binary64 (inject_Z (2 ^ 53 + 3)) = B64 (inject_Z (2 ^ 53 + 4))
  ∧ is_binary64 (inject_Z (2 ^ 1024 - 2 ^ 971)) = true
  ∧ round_binary64 (inject_Z (2 ^ 1024 - 2 ^ 970 - 1))
    = B64 (inject_Z (2 ^ 1024 - 2 ^ 971))
  ∧ round_binary64 (inject_Z (2 ^ 1024 - 2 ^ 970)) = B64_inf false
  ∧ is_binary64 (1 # Z.to_pos (2 ^ 1074)) = true
  ∧ round_binary64 (1 # Z.to_pos (2 ^ 1075)) = B64 0
  ∧ round_binary64 (3 # Z.to_pos (2 ^ 1075)) = B64 (1 # Z.to_pos (2 ^ 1073))
  ∧ round_binary64 (- (5 # 3)) = B64 (- (7505999378950827 # 4503599627370496))
  ∧ float_add 1000 120 = B64 1120
  ∧ float_add time_after_1000 120 = B64 (Qred expiry_after_1120).
Proof. vm_compute. repeat split; reflexivity. Qed.

(** *** Powers of two *)

Lemma pow2_nonneg (k : Z) : 0 ≤ k → (Qpower 2 k == inject_Z (2 ^ k))%Q.
Proof. intros Hk. symmetry. apply (Zpower_Qpower 2 k Hk). Qed.

Lemma pow2_neg (k : Z) : k < 0 → (Qpower 2 k == 1 # Z.to_pos (2 ^ (- k)))%Q.
Proof.
  intros Hk. replace k with (- - k) at 1 by lia.
  rewrite Qpower_opp, pow2_nonneg by lia.
  assert (0 < 2 ^ (- k)) as Hpos by (apply Z.pow_pos_nonneg; lia).
  destruct (2 ^ (- k)) as [|p|p] eqn:Hp; try lia.
  simpl. reflexivity.
Qed.

Lemma pow2_pos (k : Z) : (0 < Qpower 2 k)%Q.
Proof. by apply Qpower_0_lt. Qed.

Lemma pow2_add (j k : Z) : (Qpower 2 (j + k) == Qpower 2 j * Qpower 2 k)%Q.
Proof. by apply Qpower_plus. Qed.

Lemma pow2_lt_inv (j k : Z) : (Qpower 2 j < Qpower 2 k)%Q → j < k.
Proof. intros H. by apply (Qpower_lt_compat_l_inv 2 j k H). Qed.

Lemma pow2_le_quot_spec (e a : Z) (d : positive) :
  pow2_le_quot e a (Zpos d) = true ↔ (Qpower 2 e <= a # d)%Q.
Proof.
  unfold pow2_le_quot. destruct (Z.leb_spec 0 e) as [He|He].
  - rewrite pow2_nonneg by done. unfold Qle. simpl. rewrite Z.leb_le. lia.
  - rewrite pow2_neg by done. unfold Qle. simpl. rewrite Z.leb_le.
    assert (0 < 2 ^ (- e)) as Hpos by (apply Z.pow_pos_nonneg; lia).
    rewrite Z2Pos.id by done. lia.
Qed.

Lemma inject_pos_lt (a : Z) : 0 < a → (0 < inject_Z a)%Q.
Proof. intros H. change (inject_Z 0 < inject_Z a)%Q. by rewrite <- Zlt_Qlt. Qed.

Lemma log2_bounds (a : Z) :
  0 < a →
  (Qpower 2 (Z.log2 a) <= inject_Z a)%Q ∧ (inject_Z a < Qpower 2 (Z.log2 a + 1))%Q.
Proof.
  intros Ha. destruct (Z.log2_spec a Ha) as [H1 H2].
  pose proof (Z.log2_nonneg a) as Hn.
  rewrite !pow2_nonneg by lia. split.
  - by rewrite <- Zle_Qle.
  - rewrite <- Zlt_Qlt. by rewrite <- Z.add_1_r in H2.
Qed.

Lemma exponent_spec (a : Z) (d : positive) :
  0 < a →
  let e := binary64_exponent a (Zpos d) in
  (Qpower 2 e <= a # d)%Q ∧ (a # d < Qpower 2 (e + 1))%Q.
Proof.
  intros Ha. unfold binary64_exponent.
  set (la := Z.log2 a). set (ld := Z.log2 (Zpos d)).
  destruct (log2_bounds a Ha) as [Ha1 Ha2]. fold la in Ha1, Ha2.
  destruct (log2_bounds (Zpos d) ltac:(lia)) as [Hd1 Hd2]. fold ld in Hd1, Hd2.
  pose proof (inject_pos_lt (Zpos d) ltac:(lia)) as Hdpos.
  assert (Hq : (a # d == inject_Z a / inject_Z (Zpos d))%Q) by apply Qmake_Qdiv.
  assert (Hup : (a # d < Qpower 2 (la - ld + 1))%Q).
  { rewrite Hq. apply Qlt_shift_div_r; [done|].
    eapply Qlt_le_trans; [exact Ha2|].
    replace (la + 1) with ((la - ld + 1) + ld) by lia. rewrite pow2_add.
    apply Qmult_le_l; [apply pow2_pos|done]. }
  assert (Hlow : (Qpower 2 (la - ld - 1) < a # d)%Q).
  { rewrite Hq. apply Qlt_shift_div_l; [done|].
    eapply Qlt_le_trans; [|exact Ha1].
    replace la with ((la - ld - 1) + (ld + 1)) at 2 by lia. rewrite pow2_add.
    apply Qmult_lt_l; [apply pow2_pos|done]. }
  destruct (pow2_le_quot (la - ld) a (Zpos d)) eqn:Hb; simpl.
  - apply pow2_le_quot_spec in Hb. done.
  - split; [by apply Qlt_le_weak|].
    replace (la - ld - 1 + 1) with (la - ld) by lia.
    apply Qnot_le_lt. intros H. apply pow2_le_quot_spec in H. congruence.
Qed.

Lemma div_nearest_even_lower (n d : Z) : n / d ≤ div_nearest_even n d.
Proof.
  unfold div_nearest_even.
  destruct (2 * (n mod d) <? d); [lia|].
  destruct (d <? 2 * (n mod d)); [lia|].
  destruct (Z.even (n / d)); lia.
Qed.

(** An integer that is not above [a / (d * 2^u)] is not above the
    significand. *)
Lemma significand_lower (a : Z) (d : positive) (u K : Z) :
  (inject_Z K * Qpower 2 u <= a # d)%Q → K ≤ binary64_significand a (Zpos d) u.
Proof.
  intros H. unfold binary64_significand. destruct (Z.leb_spec 0 u) as [Hu|Hu].
  - rewrite pow2_nonneg in H by done.
    assert (0 < 2 ^ u) as Hpos by (apply Z.pow_pos_nonneg; lia).
    etrans; [|apply div_nearest_even_lower].
    apply Z.div_le_lower_bound; [lia|].
    unfold Qle in H. simpl in H. lia.
  - rewrite pow2_neg in H by done.
    assert (0 < 2 ^ (- u)) as Hpos by (apply Z.pow_pos_nonneg; lia).
    etrans; [|apply div_nearest_even_lower].
    apply Z.div_le_lower_bound; [lia|].
    unfold Qle in H. simpl in H. rewrite Pos.mul_1_l, Z2Pos.id in H by done. lia.
Qed.

Lemma value_spec (n u : Z) : (binary64_value n u == inject_Z n * Qpower 2 u)%Q.
Proof.
  unfold binary64_value. rewrite Qred_correct. destruct (Z.leb_spec 0 u) as [Hu|Hu].
  - rewrite pow2_nonneg by done. by rewrite inject_Z_mult.
  - rewrite pow2_neg by done. unfold Qeq. simpl. lia.
Qed.

(** What rounding does with a positive rational. *)
Lemma round_binary64_pos (x : Q) :
  (0 < x)%Q →
  ∃ a d, (x == a # d)%Q ∧ 0 < a
         ∧ round_binary64 x
           = let u := Z.max (binary64_exponent a (Zpos d) - 52) (-1074) in
             let m := binary64_significand a (Zpos d) u in
             if 2 ^ (1024 - u) <=? m then B64_inf false
             else B64 (binary64_value m u).
Proof.
  intros Hx. unfold round_binary64.
  pose proof (Qred_correct x) as Hred.
  destruct (Qred x) as [a d] eqn:Hr. simpl.
  assert (0 < a) as Ha.
  { rewrite <- Hred in Hx. unfold Qlt in Hx. simpl in Hx. lia. }
  exists a, d. split; [by symmetry|]. split; [done|].
  rewrite (Z.abs_eq a) by lia.
  destruct (Z.eqb_spec a 0) as [->|_]; [lia|].
  assert ((a <? 0) = false) as -> by lia.
  assert (Z.sgn a = 1) as -> by lia.
  cbv zeta. by rewrite Z.mul_1_l.
Qed.

Lemma significand_nonneg (a : Z) (d : positive) (u : Z) :
  0 < a → 0 ≤ binary64_significand a (Zpos d) u.
Proof.
  intros Ha. apply significand_lower.
  change (inject_Z 0) with 0%Q. rewrite Qmult_0_l. unfold Qle. simpl. lia.
Qed.

(** A positive value of binary64 is a multiple of the power of two that
    goes with its exponent. *)
Lemma binary64_pos_form (y : Q) :
  (0 < y)%Q → is_binary64 y = true →
  ∃ m e, (y == inject_Z m * Qpower 2 (Z.max (e - 52) (-1074)))%Q
         ∧ (y < Qpower 2 (e + 1))%Q.
Proof.
  intros Hy Hb. unfold is_binary64 in Hb.
  destruct (round_binary64_pos y Hy) as (a & d & Hyd & Ha & Hround).
  rewrite Hround in Hb. cbv zeta in Hb.
  set (e := binary64_exponent a (Zpos d)) in *.
  set (u := Z.max (e - 52) (-1074)) in *.
  set (m := binary64_significand a (Zpos d) u) in *.
  destruct (2 ^ (1024 - u) <=? m); [done|].
  apply Qeq_bool_iff in Hb. rewrite value_spec in Hb.
  exists m, e. split; [by symmetry|].
  rewrite Hyd. apply (exponent_spec a d Ha).
Qed.

(** Rounding does not go below a value of binary64 that the rational is
    not below. *)
Lemma round_binary64_above (x y : Q) :
  (0 < x)%Q → is_binary64 y = true → (y <= x)%Q →
  float_lt (round_binary64 x) y = false.
Proof.
  intros Hx Hb Hyx.
  destruct (round_binary64_pos x Hx) as (a & d & Hxd & Ha & ->). cbv zeta.
  set (e := binary64_exponent a (Zpos d)).
  set (u := Z.max (e - 52) (-1074)).
  set (m := binary64_significand a (Zpos d) u).
  destruct (2 ^ (1024 - u) <=? m); [done|]. simpl.
  destruct (Qltb (binary64_value m u) y) eqn:Hlt; [|done]. exfalso.
  apply Qltb_lt in Hlt. rewrite value_spec in Hlt.
  pose proof (significand_nonneg a d u Ha) as Hm. fold m in Hm.
  destruct (exponent_spec a d Ha) as [Hlow _]. fold e in Hlow.
  assert (Hy : (0 < y)%Q).
  { eapply Qle_lt_trans; [|exact Hlt].
    apply Qmult_le_0_compat; [|apply Qlt_le_weak, pow2_pos].
    change 0%Q with (inject_Z 0). by rewrite <- Zle_Qle. }
  destruct (binary64_pos_form y Hy Hb) as (my & ey & Hform & Hup).
  set (uy := Z.max (ey - 52) (-1074)) in *.
  assert (Hu : u ≤ uy).
  { destruct (Z.le_gt_cases (e - 52) (-1074)) as [Hsub|Hnorm].
    - unfold u, uy. lia.
    - assert (u = e - 52) as Hue by (unfold u; lia).
      assert (H52 : 2 ^ 52 ≤ m).
      { apply significand_lower. rewrite <- pow2_nonneg by lia.
        rewrite <- pow2_add. replace (52 + u) with e by lia. exact Hlow. }
      assert (Hq : (Qpower 2 e <= inject_Z m * Qpower 2 u)%Q).
      { replace e with (52 + u) at 1 by lia. rewrite pow2_add.
        apply Qmult_le_r; [apply pow2_pos|].
        rewrite pow2_nonneg by lia. by rewrite <- Zle_Qle. }
      assert (e < ey + 1).
      { apply pow2_lt_inv. eapply Qle_lt_trans; [exact Hq|].
        by eapply Qlt_trans. }
      unfold uy. lia. }
  set (K := my * 2 ^ (uy - u)).
  assert (HK : (y == inject_Z K * Qpower 2 u)%Q).
  { rewrite Hform. unfold K. rewrite inject_Z_mult.
    rewrite <- pow2_nonneg by lia. rewrite <- Qmult_assoc, <- pow2_add.
    by replace (uy - u + u) with uy by lia. }
  assert (K ≤ m).
  { apply significand_lower. rewrite <- HK, <- Hxd. exact Hyx. }
  rewrite HK in Hlt. apply Qmult_lt_r in Hlt; [|apply pow2_pos].
  rewrite <- Zlt_Qlt in Hlt. lia.
Qed.

(** With a time that is not negative and an expiry that is a value of
    binary64, the test passes only if the expiry is more than 120 seconds
    away. *)
Lemma float_lt_sum_only_if (time expiry : Q) :
  (0 <= time)%Q → is_binary64 expiry = true →
  float_lt (float_add time 120) expiry = true → (120 < expiry - time)%Q.
Proof.
  intros Ht Hb Hlt. apply Qnot_le_lt. intros Hle. unfold float_add in Hlt.
  rewrite (round_binary64_above (time + 120) expiry) in Hlt; [done|lra|done|lra].
Qed.

(** Rounding does not tell apart two ways of writing one rational, and a
    sum that is a value of binary64 is not rounded away from it. *)
Lemma round_binary64_eq (x y : Q) : (x == y)%Q → round_binary64 x = round_binary64 y.
Proof. intros H. unfold round_binary64. by rewrite (Qred_complete x y H). Qed.

Lemma float_lt_exact_sum (time expiry : Q) :
  (expiry - time == 120)%Q → is_binary64 expiry = true →
  float_lt (float_add time 120) expiry = false.
Proof.
  intros Heq Hb. unfold float_add.
  rewrite (round_binary64_eq (time + 120) expiry) by lra.
  unfold is_binary64 in Hb. destruct (round_binary64 expiry) as [q|neg]; [|done].
  apply Qeq_bool_iff in Hb. simpl. unfold Qltb.
  apply Qeq_alt in Hb. by rewrite Hb.
Qed.

(** ** The request loop *)

Section MonadFacts.

Context {S A B : Type}.

Lemma bind_ret (a : A) (f : A -> M S B) (s : S) : bind (ret a) f s = f a s.
Proof. reflexivity. Qed.

Lemma bind_gets (g : S -> A) (f : A -> M S B) (s : S) :
  bind (gets g) f s = f (g s) s.
Proof. reflexivity. Qed.

Lemma bind_modify (g : S -> S) (f : unit -> M S B) (s : S) :
  bind (modify g) f s = f tt (g s).
Proof. reflexivity. Qed.

Lemma bind_ok (m : M S A) (f : A -> M S B) (s s' : S) (a : A) :
  m s = (Ok a, s') → bind m f s = f a s'.
Proof. intros H. unfold bind. by rewrite H. Qed.

Lemma bind_raise (m : M S A) (f : A -> M S B) (s s' : S) (e : exn) :
  m s = (Raise e, s') → bind m f s = (Raise e, s').
Proof. intros H. unfold bind. by rewrite H. Qed.

Lemma try_except_ok (m : M S A) (h : exn -> M S A) (s s' : S) (a : A) :
  m s = (Ok a, s') → try_except m h s = (Ok a, s').
Proof. intros H. unfold try_except. by rewrite H. Qed.

End MonadFacts.

Lemma posts_app (l : list call) (c : call) :
  posts (l ++ [c]) = (posts l + if is_post c then 1 else 0)%nat.
Proof.
  unfold posts. rewrite List.filter_app, length_app. simpl.
  by destruct (is_post c).
Qed.

Create HintDb budget.

Section Budget.

Variable E : Platform.
Context {W : Type}.
Variable U : Upstream W.

Lemma budget_ret {A : Type} (a : A) : post_budget (W := W) 0 (ret a).
Proof. intros s. simpl. lia. Qed.

Lemma budget_raise {A : Type} (e : exn) : post_budget (W := W) (A := A) 0 (raise e).
Proof. intros s. simpl. lia. Qed.

Lemma budget_lift {A : Type} (r : result A) : post_budget (W := W) 0 (lift r).
Proof. intros s. simpl. lia. Qed.

Lemma budget_gets {A : Type} (f : cstate W -> A) : post_budget 0 (gets f).
Proof. intros s. simpl. lia. Qed.

Lemma budget_bind {A B : Type} (a b : nat) (m : M (cstate W) A)
  (f : A -> M (cstate W) B) :
  post_budget a m → (∀ x, post_budget b (f x)) → post_budget (a + b) (bind m f).
Proof.
  intros Hm Hf s. unfold bind. specialize (Hm s).
  destruct (m s) as [[x|e] s1]; simpl in *.
  - specialize (Hf x s1). lia.
  - lia.
Qed.

Lemma budget_try_except {A : Type} (a b : nat) (m : M (cstate W) A)
  (h : exn -> M (cstate W) A) :
  post_budget a m → (∀ e, post_budget b (h e)) → post_budget (a + b) (try_except m h).
Proof.
  intros Hm Hh s. unfold try_except. specialize (Hm s).
  destruct (m s) as [[x|e] s1]; simpl in *.
  - lia.
  - specialize (Hh e s1). lia.
Qed.

Lemma budget_now : post_budget 0 (now U).
Proof. intros s. simpl. lia. Qed.

Lemma budget_the_pool : post_budget (W := W) 0 (the_pool E).
Proof. intros s. simpl. lia. Qed.

Lemma budget_on_pool {A : Type} (f : TokenPool -> result A * TokenPool) :
  post_budget (W := W) 0 (on_pool f).
Proof. intros s. unfold on_pool. destruct (f (pool s)). simpl. lia. Qed.

Lemma budget_token (i : nat) : post_budget (W := W) 0 (token i).
Proof. intros s. unfold token. destruct (_ !! _); simpl; lia. Qed.

Lemma budget_refresh (i : nat) : post_budget 0 (refresh U i).
Proof.
  intros s. unfold refresh.
  destruct (refresh_jwt_token_with_token_info U i (pool s) (world s)) as [[r p] w].
  simpl. rewrite posts_app. simpl. lia.
Qed.

Lemma budget_valid_jwt : post_budget 0 (valid_jwt U).
Proof.
  intros s. unfold valid_jwt.
  destruct (get_valid_jwt U (pool s) (world s)) as [[r p] w].
  simpl. rewrite posts_app. simpl. lia.
Qed.

Lemma budget_acquire : post_budget 0 (acquire U).
Proof.
  intros s. unfold acquire.
  destruct (acquire_anonymous_access_token U (pool s) (world s)) as [[r p] w].
  simpl. rewrite posts_app. simpl. lia.
Qed.

Lemma budget_post (jwt : string) (protobuf_bytes : list byte) :
  post_budget 1 (post U jwt protobuf_bytes).
Proof.
  intros s. unfold post.
  destruct (stream_post U jwt protobuf_bytes (world s)) as [r w].
  simpl. rewrite posts_app. simpl. lia.
Qed.

Hint Resolve budget_ret budget_raise budget_lift budget_gets budget_now
  budget_the_pool budget_on_pool budget_token budget_refresh budget_valid_jwt
  budget_acquire : budget.

(** Goals about computations that make no POST: split binds, branch on
    the tests, and close the leaves with the lemmas above. *)
Ltac budget0 :=
  repeat (intros;
    match goal with
    | |- post_budget 0 (bind _ _) => apply (budget_bind 0 0)
    | |- post_budget 0 (try_except _ _) => apply (budget_try_except 0 0)
    | |- post_budget 0 (if ?b then _ else _) => destruct b
    | |- post_budget 0 (match ?x with _ => _ end) => destruct x
    | |- post_budget 0 _ => solve [eauto with budget]
    end).

Lemma budget_next_token : post_budget 0 (next_token E U).
Proof. unfold next_token. budget0. Qed.

Lemma budget_next_token_excluding (x : option string) :
  post_budget 0 (next_token_excluding E U x).
Proof. unfold next_token_excluding. budget0. Qed.

Hint Resolve budget_next_token budget_next_token_excluding : budget.

Lemma budget_initial_jwt (i : nat) : post_budget 0 (initial_jwt U i).
Proof. unfold initial_jwt. budget0. Qed.

Hint Resolve budget_initial_jwt : budget.

Lemma budget_select_initial : post_budget 0 (select_initial E U).
Proof. unfold select_initial. budget0. Qed.

Lemma budget_or_last_used (x : option string) :
  post_budget (W := W) 0 (or_last_used x).
Proof. unfold or_last_used. budget0. Qed.

Hint Resolve budget_or_last_used : budget.

Lemma budget_rotate_on_quota (parsed : bool) (status : Z) (content : string)
  (x : option string) :
  post_budget 0 (rotate_on_quota E U parsed status content x).
Proof. unfold rotate_on_quota. budget0. Qed.

Lemma budget_rotate_on_server_error (x : option string) :
  post_budget 0 (rotate_on_server_error E U x).
Proof. unfold rotate_on_server_error. budget0. Qed.

Hint Resolve budget_rotate_on_quota budget_rotate_on_server_error : budget.

Lemma budget_attempt_body (parsed show_all_events : bool) (protobuf_bytes : list byte)
  (attempt : Z) (jwt : string) (x : option string) :
  post_budget 1
    (attempt_body E U parsed show_all_events protobuf_bytes attempt jwt x).
Proof.
  unfold attempt_body. apply (budget_bind 1 0); [apply budget_post|].
  budget0.
Qed.

Lemma budget_attempts (parsed show_all_events : bool) (protobuf_bytes : list byte)
  (range : list Z) (jwt : string) (x : option string) :
  post_budget (length range)
    (attempts E U parsed show_all_events protobuf_bytes range jwt x).
Proof.
  revert jwt x. induction range as [|attempt rest IH]; intros jwt x; simpl.
  - apply budget_ret.
  - apply (budget_bind 1 (length rest)); [apply budget_attempt_body|].
    intros [jwt' x'|r|]; [apply IH| |]; intros s; simpl; lia.
Qed.

End Budget.

(** C1. Whatever the collaborators answer and whichever branches are
    taken (quota rotation, rotation on a 500, provisioning of an anonymous
    identity), one call of [send_protobuf_to_warp_api] or of
    [send_protobuf_to_warp_api_parsed] adds at most two POST transactions
    to the log of calls. *)
Theorem C1_at_most_two_posts (E : Platform) (W : Type) (U : Upstream W)
  (protobuf_bytes : list byte) (show_all_events : bool) (s : cstate W) :
  (posts (log (snd (send_protobuf_to_warp_api E U protobuf_bytes show_all_events s)))
   <= posts (log s) + 2)%nat
  ∧ (posts (log (snd (send_protobuf_to_warp_api_parsed E U protobuf_bytes s)))
     <= posts (log s) + 2)%nat.
Proof.
  split.
  - apply (budget_bind 0 2); [apply budget_select_initial|].
    intros sel. apply (budget_attempts E U false show_all_events protobuf_bytes [0; 1]).
  - apply (budget_bind 0 2); [apply budget_select_initial|].
    intros sel. apply (budget_attempts E U true true protobuf_bytes [0; 1]).
Qed.

Section Steps.

Variable E : Platform.
Context {W : Type}.
Variable U : Upstream W.

Lemma now_eq (s : cstate W) : now U s = (Ok (time_time U (world s)), s).
Proof. reflexivity. Qed.

Lemma on_pool_eq {A : Type} (f : TokenPool -> result A * TokenPool) (s : cstate W)
  (r : result A) (p : TokenPool) :
  f (pool s) = (r, p) → on_pool f s = (r, mkCstate (world s) p (log s)).
Proof. intros H. unfold on_pool. by rewrite H. Qed.

Lemma token_eq (i : nat) (s : cstate W) (t : TokenInfo) :
  _tokens (pool s) !! i = Some t → token i s = (Ok t, s).
Proof. intros H. unfold token. by rewrite H. Qed.

Lemma post_eq (jwt : string) (b : list byte) (s : cstate W) (r : result response) (w : W) :
  stream_post U jwt b (world s) = (r, w) →
  post U jwt b s = (r, mkCstate w (pool s) (log s ++ [CallPost jwt])).
Proof. intros H. unfold post. by rewrite H. Qed.

Lemma nonempty_true (x : string) : x ≠ "" → PyStr.nonempty x = true.
Proof. by destruct x. Qed.

Lemma cached_jwt_valid_spec (t : TokenInfo) (time : Q) :
  last_jwt t ≠ "" →
  cached_jwt_valid t time = float_lt (float_add time 120) (last_jwt_expiry t).
Proof. intros Hj. unfold cached_jwt_valid. by rewrite (nonempty_true _ Hj). Qed.

Lemma cached_jwt_valid_nonempty (t : TokenInfo) (time : Q) :
  cached_jwt_valid t time = true → last_jwt t ≠ "".
Proof.
  unfold cached_jwt_valid. intros H Hj. rewrite Hj in H. discriminate H.
Qed.

Lemma refresh_log (i : nat) (s : cstate W) :
  log (snd (refresh U i s)) = log s ++ [CallRefresh i].
Proof.
  unfold refresh.
  by destruct (refresh_jwt_token_with_token_info U i (pool s) (world s)) as [[r p] w].
Qed.

Lemma valid_jwt_log (s : cstate W) :
  log (snd (valid_jwt U s)) = log s ++ [CallGetValidJwt].
Proof.
  unfold valid_jwt. by destruct (get_valid_jwt U (pool s) (world s)) as [[r p] w].
Qed.

(** With a cached credential that passes the test, the credential is
    the cached one and nothing is called. *)
Lemma initial_jwt_cached (i : nat) (s : cstate W) (t : TokenInfo) :
  _tokens (pool s) !! i = Some t →
  cached_jwt_valid t (time_time U (world s)) = true →
  initial_jwt U i s = (Ok (last_jwt t), s).
Proof.
  intros Hi Hc. unfold initial_jwt.
  rewrite (bind_ok _ _ _ _ _ (token_eq i s t Hi)).
  rewrite (nonempty_true _ (cached_jwt_valid_nonempty t _ Hc)).
  unfold bind at 1. unfold bind at 1. rewrite (now_eq s).
  unfold ret at 1. by rewrite Hc.
Qed.

(** Otherwise the record is refreshed, and the credential is the access
    token of the refresh or, when there is none, that of
    [get_valid_jwt]. *)
Lemma initial_jwt_refreshed (i : nat) (s : cstate W) (t : TokenInfo) :
  _tokens (pool s) !! i = Some t →
  cached_jwt_valid t (time_time U (world s)) = false →
  initial_jwt U i s
  = (token_data <- refresh U i ;;
     match token_data with
     | Some access_token => ret access_token
     | None => valid_jwt U
     end) s.
Proof.
  intros Hi Hc. unfold initial_jwt.
  rewrite (bind_ok _ _ _ _ _ (token_eq i s t Hi)).
  destruct (PyStr.nonempty (last_jwt t)).
  - unfold bind at 1. unfold bind at 1. rewrite (now_eq s).
    unfold ret at 1. by rewrite Hc.
  - by rewrite bind_ret.
Qed.

Lemma refreshed_log (i : nat) (s : cstate W) :
  ∃ l, log (snd ((token_data <- refresh U i ;;
                  match token_data with
                  | Some access_token => ret access_token
                  | None => valid_jwt U
                  end) s))
       = log s ++ CallRefresh i :: l.
Proof.
  unfold bind.
  pose proof (refresh_log i s) as Hlog.
  destruct (refresh U i s) as [[[a|]|e] s1]; simpl in Hlog; simpl.
  - exists []. done.
  - pose proof (valid_jwt_log s1) as Hlog2.
    destruct (valid_jwt U s1) as [r s2]. simpl in *.
    exists [CallGetValidJwt]. rewrite Hlog2, Hlog. by rewrite <- app_assoc.
  - exists []. done.
Qed.

End Steps.

Section Paths.

Variable E : Platform.
Context {W : Type}.
Variable U : Upstream W.

Lemma add_token_initialized (tok : string) (prio : TokenPriority) (p : TokenPool) :
  _initialized (_add_token_internal E tok prio p) = _initialized p.
Proof. unfold _add_token_internal. by destruct (existsb _ _). Qed.

Lemma initialize_initialized (p : TokenPool) : _initialized (initialize E p) = true.
Proof. unfold initialize. by destruct (_initialized p) eqn:H. Qed.

Lemma initialize_idempotent (p : TokenPool) :
  _initialized p = true → initialize E p = p.
Proof. intros H. unfold initialize. by rewrite H. Qed.

Lemma get_token_by_priority_initialized (prio : TokenPriority) (p p' : TokenPool)
  (r : result (option nat)) :
  _get_token_by_priority prio p = (r, p') → _initialized p' = _initialized p.
Proof.
  unfold _get_token_by_priority.
  destruct (positions _ 0 (_tokens p)) as [|j0 l0]; [by intros [= _ <-]|].
  destruct (_current_index p !! prio) as [cur|]; [|by intros [= _ <-]].
  destruct (_ !! _); by intros [= _ <-].
Qed.

Lemma get_next_token_loop_initialized (time : Q) (prios : list TokenPriority)
  (p p' : TokenPool) (r : result (option nat)) :
  get_next_token_loop time prios p = (r, p') → _initialized p' = _initialized p.
Proof.
  revert p. induction prios as [|prio rest IH]; intros p; simpl.
  - by intros [= _ <-].
  - destruct (_get_token_by_priority prio p) as [[[j|]|e] q] eqn:Hget;
      apply get_token_by_priority_initialized in Hget.
    + by intros [= _ <-].
    + intros H. apply IH in H. congruence.
    + by intros [= _ <-].
Qed.

Lemma get_next_token_initialized (time : Q) (p p' : TokenPool)
  (r : result (option nat)) :
  get_next_token E time p = (r, p') → _initialized p' = true.
Proof.
  unfold get_next_token. intros H.
  apply get_next_token_loop_initialized in H.
  by rewrite H, initialize_initialized.
Qed.

(** The record that [get_next_token] gives is the one that was there,
    with its [last_used] set. *)
Lemma get_next_token_record (time : Q) (p p' : TokenPool) (i : nat) :
  get_next_token E time p = (Ok (Some i), p') →
  ∃ r, _tokens (initialize E p) !! i = Some r
       ∧ _tokens p' !! i = Some (set_last_used time r)
       ∧ _failed_tokens p' = _failed_tokens p.
Proof.
  unfold get_next_token. intros H.
  apply get_next_token_loop_spec in H as (r & Hr & _ & Hr' & Hf).
  exists r. by rewrite Hf, initialize_failed.
Qed.

(** When every record that can be selected carries the excluded token,
    [get_next_token_excluding] gives nothing and leaves the pool alone. *)
Lemma get_next_token_excluding_none (time : Q) (tok : string) (p : TokenPool) :
  _initialized p = true →
  (∀ j r, _tokens p !! j = Some r → selectable p r = true → refresh_token r = tok) →
  get_next_token_excluding E time (Some tok) p = (Ok None, p).
Proof.
  intros Hinit Hall. unfold get_next_token_excluding.
  rewrite (initialize_idempotent p Hinit).
  pose proof (excluding_loop_spec time tok [ANONYMOUS; SHARED; PERSONAL] p) as H.
  destruct (get_next_token_excluding_loop time (Some tok) _ p) as [[[i|]|e] p'].
  - destruct H as (r & _ & _ & _ & Hr & _ & _ & Hne & Hs & _).
    destruct Hne. by eapply Hall.
  - by destruct H as [-> _].
  - done.
Qed.

Lemma select_initial_cached (s : cstate W) (i : nat) (p1 : TokenPool) (t : TokenInfo) :
  get_next_token E (time_time U (world s)) (get_token_pool E (pool s))
  = (Ok (Some i), p1) →
  _tokens p1 !! i = Some t →
  cached_jwt_valid t (time_time U (world s)) = true →
  select_initial E U s
  = (Ok (last_jwt t, Some (refresh_token t)), mkCstate (world s) p1 (log s)).
Proof.
  intros Hget Hi Hc. unfold select_initial, the_pool.
  rewrite bind_modify. unfold next_token.
  set (s0 := mkCstate (world s) (get_token_pool E (pool s)) (log s)).
  assert (next_eq : (t <- now U ;; on_pool (get_next_token E t)) s0
                    = (Ok (Some i), mkCstate (world s) p1 (log s))).
  { rewrite (bind_ok _ _ _ _ _ (now_eq U s0)).
    by apply (on_pool_eq (get_next_token E (time_time U (world s))) s0). }
  rewrite (bind_ok _ _ _ _ _ next_eq).
  rewrite (bind_ok _ _ _ _ _
             (initial_jwt_cached U i (mkCstate (world s) p1 (log s)) t Hi Hc)).
  by rewrite (bind_ok _ _ _ _ _ (token_eq i (mkCstate (world s) p1 (log s)) t Hi)).
Qed.

Lemma attempt_body_ok (parsed show_all_events : bool) (protobuf_bytes : list byte)
  (attempt : Z) (jwt : string) (cur : option string) (s : cstate W)
  (resp : response) (w : W) (rep : reply) :
  stream_post U jwt protobuf_bytes (world s) = (Ok resp, w) →
  status_code resp = 200 →
  (if parsed
   then read_stream_parsed (protobuf_to_dict U) (lines resp)
   else read_stream (protobuf_to_dict U) show_all_events (lines resp)) = Ok rep →
  attempt_body E U parsed show_all_events protobuf_bytes attempt jwt cur s
  = (Ok (Return rep), mkCstate w (pool s) (log s ++ [CallPost jwt])).
Proof.
  intros Hpost Hst Hread. unfold attempt_body.
  rewrite (bind_ok _ _ _ _ _ (post_eq U jwt protobuf_bytes s _ w Hpost)).
  assert (negb (status_code resp =? 200) = false) as -> by (by rewrite Hst).
  unfold bind. by rewrite Hread.
Qed.

Lemma attempt_body_server_error (parsed show_all_events : bool)
  (protobuf_bytes : list byte) (jwt tok content : string) (s : cstate W)
  (resp : response) (w : W) :
  stream_post U jwt protobuf_bytes (world s) = (Ok resp, w) →
  status_code resp = 500 →
  error_content_of E (body resp) = Ok content →
  _initialized (pool s) = true →
  (∀ j r, _tokens (pool s) !! j = Some r → selectable (pool s) r = true →
          refresh_token r = tok) →
  attempt_body E U parsed show_all_events protobuf_bytes 0 jwt (Some tok) s
  = (Ok (Return (error_reply parsed 500 content)),
     mkCstate w (pool s) (log s ++ [CallPost jwt])).
Proof.
  intros Hpost Hst Hbody Hinit Hall. unfold attempt_body.
  rewrite (bind_ok _ _ _ _ _ (post_eq U jwt protobuf_bytes s _ w Hpost)).
  assert (negb (status_code resp =? 200) = true) as -> by (by rewrite Hst).
  assert ((status_code resp =? 429) = false) as -> by (by rewrite Hst).
  assert ((status_code resp =? 500) = true) as -> by (by rewrite Hst).
  rewrite Hst, Hbody. unfold lift at 1. unfold bind at 1.
  change (0 =? 0) with true. cbn [andb].
  set (s1 := mkCstate w (pool s) (log s ++ [CallPost jwt])).
  assert (rot : rotate_on_server_error E U (Some tok) s1 = (Ok Fall, s1)).
  { unfold rotate_on_server_error, the_pool. rewrite bind_modify.
    unfold get_token_pool. simpl pool. rewrite (initialize_idempotent _ Hinit).
    unfold or_last_used. rewrite bind_ret. unfold next_token_excluding.
    erewrite bind_ok; [|erewrite bind_ok; [|by apply now_eq]; apply on_pool_eq;
                        simpl pool; by apply get_next_token_excluding_none].
    done. }
  erewrite bind_ok; [|by apply try_except_ok]. done.
Qed.

Lemma next_token_excluding_eq (x : option string) (s : cstate W)
  (r : result (option nat)) (p1 : TokenPool) :
  get_next_token_excluding E (time_time U (world s)) x (pool s) = (r, p1) →
  next_token_excluding E U x s = (r, mkCstate (world s) p1 (log s)).
Proof.
  intros H. unfold next_token_excluding.
  rewrite (bind_ok _ _ _ _ _ (now_eq U s)). by apply on_pool_eq.
Qed.

Lemma rotate_on_quota_cached (parsed : bool) (status : Z) (content tok : string)
  (s : cstate W) (i : nat) (p1 : TokenPool) (t : TokenInfo) :
  get_next_token_excluding E (time_time U (world s)) (Some tok)
    (get_token_pool E (pool s)) = (Ok (Some i), p1) →
  _tokens p1 !! i = Some t →
  last_jwt t ≠ "" →
  rotate_on_quota E U parsed status content (Some tok) s
  = (Ok (Continue (last_jwt t) (Some (refresh_token t))),
     mkCstate (world s) p1 (log s)).
Proof.
  intros Hget Hi Hjwt. unfold rotate_on_quota, the_pool. rewrite bind_modify.
  rewrite bind_gets. unfold or_last_used. rewrite bind_ret.
  set (s0 := mkCstate (world s) (get_token_pool E (pool s)) (log s)).
  rewrite (bind_ok _ _ _ _ _ (next_token_excluding_eq (Some tok) s0 _ p1 Hget)).
  rewrite (bind_ok _ _ _ _ _ (token_eq i (mkCstate (world s) p1 (log s)) t Hi)).
  by rewrite (nonempty_true _ Hjwt).
Qed.

End Paths.

(** ** What a request keeps of the pool *)

Section Accounting.

Variable E : Platform.

Lemma accounting_add_token (tok : string) (prio : TokenPriority) (p : TokenPool)
  (i : nat) (a : Z * bool * string * Q * bool) :
  accounting i p = Some a → accounting i (_add_token_internal E tok prio p) = Some a.
Proof.
  unfold accounting. destruct (_tokens p !! i) as [t|] eqn:Hi; [|discriminate].
  rewrite (add_token_lookup E tok prio p i t Hi), add_token_failed. done.
Qed.

Lemma accounting_add_tokens (prio : TokenPriority) (toks : list string)
  (p : TokenPool) (i : nat) (a : Z * bool * string * Q * bool) :
  accounting i p = Some a →
  accounting i (foldl (fun q tok => _add_token_internal E tok prio q) p toks) = Some a.
Proof.
  revert p. induction toks as [|tok toks IH]; intros p H; simpl; [done|].
  apply IH. by apply accounting_add_token.
Qed.

Lemma accounting_initialize (p : TokenPool) (i : nat)
  (a : Z * bool * string * Q * bool) :
  accounting i p = Some a → accounting i (initialize E p) = Some a.
Proof.
  intros H. unfold accounting in *.
  destruct (_tokens p !! i) as [t|] eqn:Hi; [|discriminate].
  rewrite (initialize_lookup E p i t Hi), initialize_failed. done.
Qed.

Lemma accounting_touch (time : Q) (j : nat) (p : TokenPool) (i : nat) :
  accounting i (touch time j p) = accounting i p.
Proof.
  unfold accounting. rewrite tokens_touch.
  destruct (decide (j = i)) as [->|]; [|done].
  by destruct (_tokens p !! i).
Qed.

Lemma accounting_get_token_by_priority (prio : TokenPriority) (p : TokenPool) (i : nat) :
  accounting i (snd (_get_token_by_priority prio p)) = accounting i p.
Proof.
  unfold _get_token_by_priority.
  destruct (positions _ 0 (_tokens p)) as [|j0 l0]; [done|].
  destruct (_current_index p !! prio) as [cur|]; [|done].
  by destruct (_ !! _).
Qed.

Lemma accounting_get_next_token_loop (time : Q) (prios : list TokenPriority)
  (p : TokenPool) (i : nat) :
  accounting i (snd (get_next_token_loop time prios p)) = accounting i p.
Proof.
  revert p. induction prios as [|prio rest IH]; intros p; simpl; [done|].
  pose proof (accounting_get_token_by_priority prio p i) as H.
  destruct (_get_token_by_priority prio p) as [[[j|]|e] q]; simpl in *.
  - by rewrite accounting_touch.
  - by rewrite IH.
  - done.
Qed.

Lemma accounting_excluding_loop (time : Q) (x : option string)
  (prios : list TokenPriority) (p : TokenPool) (i : nat) :
  accounting i (snd (get_next_token_excluding_loop time x prios p)) = accounting i p.
Proof.
  induction prios as [|prio rest IH]; simpl; [done|].
  destruct (positions _ 0 (_tokens p)) as [|j0 l0]; [exact IH|].
  set (p1 := match _last_used_index p !! prio with
             | Some _ => p
             | None => set_last_used_index (<[prio:=0]> (_last_used_index p)) p
             end).
  assert (accounting i p1 = accounting i p) as H1
    by (unfold p1; by destruct (_last_used_index p !! prio)).
  clearbody p1.
  destruct (_last_used_index p1 !! prio) as [last|]; [|exact H1].
  destruct ((j0 :: l0) !! _) as [tok|]; [|exact H1].
  simpl. rewrite accounting_touch. exact H1.
Qed.

(** Selection changes [last_used] and the cursors, and nothing of the
    accounting of a record. *)
Lemma accounting_kept_by_selection (i : nat) (a : Z * bool * string * Q * bool) :
  kept_by_selection E (fun p => accounting i p = Some a).
Proof.
  split; [|split].
  - intros p. apply accounting_initialize.
  - intros time p H. unfold get_next_token.
    rewrite accounting_get_next_token_loop. by apply accounting_initialize.
  - intros time x p H. unfold get_next_token_excluding.
    rewrite accounting_excluding_loop. by apply accounting_initialize.
Qed.

End Accounting.

Lemma mark_token_failed_lookup (i : nat) (p : TokenPool) (r : TokenInfo) :
  _tokens p !! i = Some r →
  ∃ r1, _tokens (mark_token_failed i p) !! i = Some r1
        ∧ failure_count r1 = failure_count r + 1
        ∧ refresh_token r1 = refresh_token r
        ∧ is_active r1
          = (if _max_failures <=? failure_count r + 1 then false else is_active r).
Proof.
  intros Hi. unfold mark_token_failed. rewrite Hi. simpl.
  destruct (_max_failures <=? failure_count r + 1); simpl;
    rewrite list_lookup_insert_eq by (by eapply lookup_lt_Some);
    eexists; split; done.
Qed.

Create HintDb traced.

Section Trace.

Variable E : Platform.
Context {W : Type}.
Variable U : Upstream W.

Lemma keeps_accounting_refl (p : TokenPool) : keeps_accounting p p.
Proof. by intros j a. Qed.

Lemma keeps_accounting_trans (p1 p2 p3 : TokenPool) :
  keeps_accounting p1 p2 → keeps_accounting p2 p3 → keeps_accounting p1 p3.
Proof. intros H1 H2 j a Ha. by apply H2, H1. Qed.

Lemma keeps_accounting_initialize (p : TokenPool) :
  keeps_accounting p (initialize E p).
Proof. intros j a. apply accounting_initialize. Qed.

Lemma keeps_accounting_get_next_token (time : Q) (p : TokenPool) :
  keeps_accounting p (snd (get_next_token E time p)).
Proof. intros j a. apply (proj1 (proj2 (accounting_kept_by_selection E j a))). Qed.

Lemma keeps_accounting_excluding (time : Q) (x : option string) (p : TokenPool) :
  keeps_accounting p (snd (get_next_token_excluding E time x p)).
Proof. intros j a. apply (proj2 (proj2 (accounting_kept_by_selection E j a))). Qed.

(** A step that makes no call and keeps the accounting. *)
Lemma traced_keep {A : Type} (m : M (cstate W) A) :
  (∀ s, log (snd (m s)) = log s ∧ keeps_accounting (pool s) (pool (snd (m s)))) →
  traced U m.
Proof.
  intros H s. destruct (H s) as [Hlog Hkeep]. exists [].
  rewrite Hlog, app_nil_r. split; [done|]. by apply evolves_keep.
Qed.

Lemma traced_still {A : Type} (m : M (cstate W) A) :
  (∀ s, snd (m s) = s) → traced U m.
Proof.
  intros H. apply traced_keep. intros s. rewrite H.
  split; [done|apply keeps_accounting_refl].
Qed.

Lemma traced_ret {A : Type} (a : A) : traced U (ret a).
Proof. by apply traced_still. Qed.

Lemma traced_lift {A : Type} (r : result A) : traced U (lift r).
Proof. by apply traced_still. Qed.

Lemma traced_gets {A : Type} (f : cstate W -> A) : traced U (gets f).
Proof. by apply traced_still. Qed.

Lemma traced_now : traced U (now U).
Proof. by apply traced_still. Qed.

Lemma traced_token (i : nat) : traced U (token i).
Proof. apply traced_still. intros s. unfold token. by destruct (_ !! _). Qed.

Lemma traced_bind {A B : Type} (m : M (cstate W) A) (f : A -> M (cstate W) B) :
  traced U m → (∀ x, traced U (f x)) → traced U (bind m f).
Proof.
  intros Hm Hf s. destruct (Hm s) as (l1 & Hl1 & He1). unfold bind.
  destruct (m s) as [[x|e] s1]; simpl in *.
  - destruct (Hf x s1) as (l2 & Hl2 & He2). exists (l1 ++ l2).
    split; [by rewrite Hl2, Hl1, app_assoc|by eapply evolves_app].
  - by exists l1.
Qed.

Lemma traced_try_except {A : Type} (m : M (cstate W) A) (h : exn -> M (cstate W) A) :
  traced U m → (∀ e, traced U (h e)) → traced U (try_except m h).
Proof.
  intros Hm Hh s. destruct (Hm s) as (l1 & Hl1 & He1). unfold try_except.
  destruct (m s) as [[x|e] s1]; simpl in *.
  - by exists l1.
  - destruct (Hh e s1) as (l2 & Hl2 & He2). exists (l1 ++ l2).
    split; [by rewrite Hl2, Hl1, app_assoc|by eapply evolves_app].
Qed.

Lemma traced_the_pool : traced U (the_pool E).
Proof.
  apply traced_keep. intros s. split; [done|]. apply keeps_accounting_initialize.
Qed.

Lemma traced_next_token : traced U (next_token E U).
Proof.
  apply traced_keep. intros s. unfold next_token.
  rewrite (bind_ok _ _ _ _ _ (now_eq U s)). unfold on_pool.
  pose proof (keeps_accounting_get_next_token (time_time U (world s)) (pool s)) as H.
  by destruct (get_next_token E _ (pool s)).
Qed.

Lemma traced_next_token_excluding (x : option string) :
  traced U (next_token_excluding E U x).
Proof.
  apply traced_keep. intros s. unfold next_token_excluding.
  rewrite (bind_ok _ _ _ _ _ (now_eq U s)). unfold on_pool.
  pose proof (keeps_accounting_excluding (time_time U (world s)) x (pool s)) as H.
  by destruct (get_next_token_excluding E _ x (pool s)).
Qed.

Lemma traced_refresh (i : nat) : traced U (refresh U i).
Proof.
  intros s. exists [CallRefresh i]. unfold refresh.
  pose proof (evolves_refresh U i (pool s) (world s)) as H.
  by destruct (refresh_jwt_token_with_token_info U i (pool s) (world s)) as [[r p] w].
Qed.

Lemma traced_valid_jwt : traced U (valid_jwt U).
Proof.
  intros s. exists [CallGetValidJwt]. unfold valid_jwt.
  pose proof (evolves_get_valid_jwt U (pool s) (world s)) as H.
  by destruct (get_valid_jwt U (pool s) (world s)) as [[r p] w].
Qed.

Lemma traced_acquire : traced U (acquire U).
Proof.
  intros s. exists [CallAcquireAnonymous]. unfold acquire.
  pose proof (evolves_acquire U (pool s) (world s)) as H.
  by destruct (acquire_anonymous_access_token U (pool s) (world s)) as [[r p] w].
Qed.

Lemma traced_post (jwt : string) (protobuf_bytes : list byte) :
  traced U (post U jwt protobuf_bytes).
Proof.
  intros s. exists [CallPost jwt]. unfold post.
  destruct (stream_post U jwt protobuf_bytes (world s)) as [r w].
  split; [done|apply evolves_post].
Qed.

Hint Resolve traced_ret traced_lift traced_gets traced_now traced_the_pool
  traced_token traced_next_token traced_next_token_excluding traced_refresh
  traced_valid_jwt traced_acquire traced_post : traced.

(** Split binds, branch on the tests, and close the leaves with the
    lemmas above. *)
Ltac traced_steps :=
  repeat (intros;
    match goal with
    | |- traced _ (bind _ _) => apply traced_bind
    | |- traced _ (try_except _ _) => apply traced_try_except
    | |- traced _ (if ?b then _ else _) => destruct b
    | |- traced _ (match ?x with _ => _ end) => destruct x
    | |- traced _ _ => solve [eauto with traced]
    end).

Lemma traced_select_initial : traced U (select_initial E U).
Proof. unfold select_initial, initial_jwt. traced_steps. Qed.

Lemma traced_rotate_on_quota (parsed : bool) (status : Z) (content : string)
  (x : option string) :
  traced U (rotate_on_quota E U parsed status content x).
Proof. unfold rotate_on_quota, or_last_used. traced_steps. Qed.

Lemma traced_rotate_on_server_error (x : option string) :
  traced U (rotate_on_server_error E U x).
Proof. unfold rotate_on_server_error, or_last_used. traced_steps. Qed.

Hint Resolve traced_rotate_on_quota traced_rotate_on_server_error : traced.

Lemma traced_attempt_body (parsed show_all_events : bool) (protobuf_bytes : list byte)
  (attempt : Z) (jwt : string) (x : option string) :
  traced U (attempt_body E U parsed show_all_events protobuf_bytes attempt jwt x).
Proof. unfold attempt_body. traced_steps. Qed.

Lemma traced_attempts (parsed show_all_events : bool) (protobuf_bytes : list byte)
  (range : list Z) (jwt : string) (x : option string) :
  traced U (attempts E U parsed show_all_events protobuf_bytes range jwt x).
Proof.
  revert jwt x. induction range as [|attempt rest IH]; intros jwt x; simpl.
  - apply traced_ret.
  - apply traced_bind; [apply traced_attempt_body|].
    intros [jwt' x'|r|]; [apply IH | apply traced_ret | apply traced_ret].
Qed.

(** The senders do nothing to the accounting of their own: every call
    they make is in the log, and the pool evolves by these calls. *)
Lemma senders_traced (protobuf_bytes : list byte) (show_all_events : bool) :
  traced U (send_protobuf_to_warp_api E U protobuf_bytes show_all_events)
  ∧ traced U (send_protobuf_to_warp_api_parsed E U protobuf_bytes).
Proof.
  split; (apply traced_bind; [apply traced_select_initial|]);
    intros sel; apply traced_attempts.
Qed.

(** Without a call to [core.auth] the accounting stays. *)
Lemma evolves_posts (l : list call) (p p' : TokenPool) :
  evolves U l p p' → Forall (fun c => is_post c = true) l → keeps_accounting p p'.
Proof.
  induction 1 as [p p' Hk|jwt p|i p w|p w|p w|l1 l2 p1 p2 p3 _ IH1 _ IH2]; intros Hl.
  - exact Hk.
  - apply keeps_accounting_refl.
  - apply Forall_cons in Hl as [Hc _]. discriminate Hc.
  - apply Forall_cons in Hl as [Hc _]. discriminate Hc.
  - apply Forall_cons in Hl as [Hc _]. discriminate Hc.
  - apply Forall_app in Hl as [Hl1 Hl2].
    eapply keeps_accounting_trans; [by apply IH1|by apply IH2].
Qed.

(** What both senders leave of the pool. *)
Lemma senders_evolve (protobuf_bytes : list byte) (show_all_events : bool)
  (s s' : cstate W) :
  s' = snd (send_protobuf_to_warp_api E U protobuf_bytes show_all_events s)
  ∨ s' = snd (send_protobuf_to_warp_api_parsed E U protobuf_bytes s) →
  ∃ l, log s' = log s ++ l
       ∧ evolves U l (pool s) (pool s')
       ∧ (Forall (fun c => is_post c = true) l → keeps_accounting (pool s) (pool s')).
Proof.
  destruct (senders_traced protobuf_bytes show_all_events) as [H1 H2].
  intros [-> | ->]; [destruct (H1 s) as (l & Hl & He)|destruct (H2 s) as (l & Hl & He)];
    exists l; (split; [done|]); (split; [done|]); by apply evolves_posts.
Qed.

(** After the credential is there, a 500 with no other record to turn
    to ends the request with the error of the upstream: one POST and no
    other call, and the pool stays as it was. *)
Lemma senders_server_error (protobuf_bytes : list byte) (show_all_events : bool)
  (s s1 : cstate W) (jwt tok content : string) (resp : response) (w : W) :
  select_initial E U s = (Ok (jwt, Some tok), s1) →
  _initialized (pool s1) = true →
  stream_post U jwt protobuf_bytes (world s1) = (Ok resp, w) →
  status_code resp = 500 →
  error_content_of E (body resp) = Ok content →
  (∀ j r, _tokens (pool s1) !! j = Some r → selectable (pool s1) r = true →
          refresh_token r = tok) →
  send_protobuf_to_warp_api E U protobuf_bytes show_all_events s
  = (Ok (Some (error_reply false 500 content)),
     mkCstate w (pool s1) (log s1 ++ [CallPost jwt]))
  ∧ send_protobuf_to_warp_api_parsed E U protobuf_bytes s
    = (Ok (Some (error_reply true 500 content)),
       mkCstate w (pool s1) (log s1 ++ [CallPost jwt])).
Proof.
  intros Hsel Hinit Hpost Hst Hbody Hall. split.
  - unfold send_protobuf_to_warp_api. rewrite (bind_ok _ _ _ _ _ Hsel).
    cbn [fst snd attempts].
    erewrite bind_ok;
      [|by eapply (attempt_body_server_error E U false show_all_events
                     protobuf_bytes jwt tok content s1 resp w)].
    done.
  - unfold send_protobuf_to_warp_api_parsed. rewrite (bind_ok _ _ _ _ _ Hsel).
    cbn [fst snd attempts].
    erewrite bind_ok;
      [|by eapply (attempt_body_server_error E U true true
                     protobuf_bytes jwt tok content s1 resp w)].
    done.
Qed.

(** The first call of a computation stays the first when more is done
    after it. *)
Lemma first_call_bind {A B : Type} (m : M (cstate W) A) (f : A -> M (cstate W) B)
  (c : call) :
  (∀ s, ∃ l, log (snd (m s)) = log s ++ c :: l) →
  (∀ x, traced U (f x)) →
  ∀ s, ∃ l, log (snd (bind m f s)) = log s ++ c :: l.
Proof.
  intros Hm Hf s. destruct (Hm s) as [l1 Hl1]. unfold bind.
  destruct (m s) as [[x|e] s1]; simpl in *.
  - destruct (Hf x s1) as (l2 & Hl2 & _). exists (l1 ++ l2).
    rewrite Hl2, Hl1. by rewrite <- app_assoc.
  - by exists l1.
Qed.

Lemma attempt_body_first_post (parsed show_all_events : bool)
  (protobuf_bytes : list byte) (attempt : Z) (jwt : string) (x : option string)
  (s : cstate W) :
  ∃ l, log (snd (attempt_body E U parsed show_all_events protobuf_bytes attempt jwt
                   x s))
       = log s ++ CallPost jwt :: l.
Proof.
  revert s. unfold attempt_body. apply first_call_bind.
  - intros s. exists []. unfold post.
    by destruct (stream_post U jwt protobuf_bytes (world s)) as [r w].
  - intros resp. traced_steps.
Qed.

(** The first thing that the loop of attempts does is a POST with the
    credential it was given. *)
Lemma attempts_first_post (parsed show_all_events : bool) (protobuf_bytes : list byte)
  (attempt : Z) (rest : list Z) (jwt : string) (x : option string) (s : cstate W) :
  ∃ l, log (snd (attempts E U parsed show_all_events protobuf_bytes (attempt :: rest)
                   jwt x s))
       = log s ++ CallPost jwt :: l.
Proof.
  revert s. cbn [attempts]. apply first_call_bind.
  - apply attempt_body_first_post.
  - intros [j y|r|]; [apply traced_attempts|apply traced_ret|apply traced_ret].
Qed.

(** Either sender. *)
Lemma sender_eq (parsed : bool) (protobuf_bytes : list byte) (show_all_events : bool) :
  (if parsed then send_protobuf_to_warp_api_parsed E U protobuf_bytes
   else send_protobuf_to_warp_api E U protobuf_bytes show_all_events)
  = (sel <- select_initial E U ;;
     attempts E U parsed (if parsed then true else show_all_events) protobuf_bytes
       [0; 1] (fst sel) (snd sel)).
Proof. by destruct parsed. Qed.

(** With a cached credential that passes the test, the first call of a
    request is the POST with that credential. *)
Lemma sender_posts_cached (parsed : bool) (protobuf_bytes : list byte)
  (show_all_events : bool) (s : cstate W) (i : nat) (p1 : TokenPool) (t : TokenInfo) :
  get_next_token E (time_time U (world s)) (get_token_pool E (pool s))
  = (Ok (Some i), p1) →
  _tokens p1 !! i = Some t →
  cached_jwt_valid t (time_time U (world s)) = true →
  ∃ l, log (snd ((if parsed then send_protobuf_to_warp_api_parsed E U protobuf_bytes
                  else send_protobuf_to_warp_api E U protobuf_bytes show_all_events)
                   s))
       = log s ++ CallPost (last_jwt t) :: l.
Proof.
  intros Hget Hi Hc. rewrite sender_eq.
  rewrite (bind_ok _ _ _ _ _ (select_initial_cached E U s i p1 t Hget Hi Hc)).
  apply (attempts_first_post parsed _ protobuf_bytes 0 [1] (last_jwt t)
           (Some (refresh_token t)) (mkCstate (world s) p1 (log s))).
Qed.

(** Otherwise the selection goes on with the refresh of the record. *)
Lemma select_initial_refreshed (s : cstate W) (i : nat) (p1 : TokenPool)
  (t : TokenInfo) :
  get_next_token E (time_time U (world s)) (get_token_pool E (pool s))
  = (Ok (Some i), p1) →
  _tokens p1 !! i = Some t →
  cached_jwt_valid t (time_time U (world s)) = false →
  select_initial E U s
  = (jwt <- (token_data <- refresh U i ;;
             match token_data with
             | Some access_token => ret access_token
             | None => valid_jwt U
             end) ;;
     t' <- token i ;;
     ret (jwt, Some (refresh_token t'))) (mkCstate (world s) p1 (log s)).
Proof.
  intros Hget Hi Hc. unfold select_initial, the_pool.
  rewrite bind_modify. unfold next_token.
  set (s0 := mkCstate (world s) (get_token_pool E (pool s)) (log s)).
  assert (next_eq : (t <- now U ;; on_pool (get_next_token E t)) s0
                    = (Ok (Some i), mkCstate (world s) p1 (log s))).
  { rewrite (bind_ok _ _ _ _ _ (now_eq U s0)).
    by apply (on_pool_eq (get_next_token E (time_time U (world s))) s0). }
  rewrite (bind_ok _ _ _ _ _ next_eq).
  unfold bind at 1 3.
  by rewrite (initial_jwt_refreshed U i (mkCstate (world s) p1 (log s)) t Hi Hc).
Qed.

(** Then the first call of a request is the refresh, and when the
    refresh gives an access token, the POST that follows carries it. *)
Lemma sender_refreshes (parsed : bool) (protobuf_bytes : list byte)
  (show_all_events : bool) (s : cstate W) (i : nat) (p1 : TokenPool) (t : TokenInfo) :
  get_next_token E (time_time U (world s)) (get_token_pool E (pool s))
  = (Ok (Some i), p1) →
  _tokens p1 !! i = Some t →
  cached_jwt_valid t (time_time U (world s)) = false →
  let sender :=
    if parsed then send_protobuf_to_warp_api_parsed E U protobuf_bytes
    else send_protobuf_to_warp_api E U protobuf_bytes show_all_events in
  (∃ l, log (snd (sender s)) = log s ++ CallRefresh i :: l)
  ∧ (∀ access_token p' w' t',
       refresh_jwt_token_with_token_info U i p1 (world s)
       = (Ok (Some access_token), p', w') →
       _tokens p' !! i = Some t' →
       ∃ l, log (snd (sender s))
            = log s ++ CallRefresh i :: CallPost access_token :: l).
Proof.
  intros Hget Hi Hc sender. unfold sender. rewrite sender_eq.
  pose proof (select_initial_refreshed s i p1 t Hget Hi Hc) as Hsel.
  set (s1 := mkCstate (world s) p1 (log s)) in *.
  set (K := fun sel : string * option string =>
              attempts E U parsed (if parsed then true else show_all_events)
                protobuf_bytes [0; 1] (fst sel) (snd sel)).
  split.
  - unfold bind at 1. rewrite Hsel.
    change (∃ l, log (snd (bind
                             (jwt <- (token_data <- refresh U i ;;
                                      match token_data with
                                      | Some access_token => ret access_token
                                      | None => valid_jwt U
                                      end) ;;
                              t' <- token i ;;
                              ret (jwt, Some (refresh_token t'))) K s1))
                 = log s1 ++ CallRefresh i :: l).
    apply first_call_bind; [|intros sel; apply traced_attempts].
    apply first_call_bind; [apply refreshed_log|]. intros jwt. traced_steps.
  - intros access_token p' w' t' Href Hi'.
    set (s2 := mkCstate w' p' (log s ++ [CallRefresh i])).
    assert (Hsel2 : select_initial E U s
                    = (Ok (access_token, Some (refresh_token t')), s2)).
    { rewrite Hsel. unfold bind at 1 2. unfold refresh. simpl.
      rewrite Href. unfold ret at 1. unfold bind.
      by rewrite (token_eq i (mkCstate w' p' (log s ++ [CallRefresh i])) t' Hi'). }
    rewrite (bind_ok _ _ _ _ _ Hsel2).
    destruct (attempts_first_post parsed (if parsed then true else show_all_events)
                protobuf_bytes 0 [1] access_token (Some (refresh_token t')) s2)
      as [l Hl].
    exists l. unfold K. cbn [fst snd]. rewrite Hl. simpl. by rewrite <- app_assoc.
Qed.

End Trace.

(** C4, as amended.  At the first selection of a request, for the record
    that [get_next_token] gave: the cached credential is used and nothing
    is called before the POST that carries it exactly when it is not
    empty and [last_jwt_expiry > time.time() + 120] holds with the sum
    rounded to binary64, as Python computes it.  Otherwise
    the record is refreshed first, and the credential is the access token
    that the refresh gave or, when it gave none, the one of
    [get_valid_jwt]; this is so when the expiry, a float, is exactly 120
    seconds after the current time.  With an expiry that is a float and
    a clock that is not negative, the cached credential is used only if
    the expiry is more than 120 seconds after the current time; the
    converse fails where the rounded sum reaches the expiry. *)
Theorem C4_cached_credential_threshold (E : Platform) (W : Type) (U : Upstream W)
  (protobuf_bytes : list byte) (show_all_events : bool) (s : cstate W) (i : nat)
  (p1 : TokenPool) (t : TokenInfo) :
  get_next_token E (time_time U (world s)) (get_token_pool E (pool s))
  = (Ok (Some i), p1) →
  _tokens p1 !! i = Some t →
  let time := time_time U (world s) in
  let s1 := mkCstate (world s) p1 (log s) in
  let usable :=
    PyStr.nonempty (last_jwt t)
    && float_lt (float_add time 120) (last_jwt_expiry t) in
  (usable = true ↔ initial_jwt U i s1 = (Ok (last_jwt t), s1))
  ∧ (usable = false →
     initial_jwt U i s1
     = (token_data <- refresh U i ;;
        match token_data with
        | Some access_token => ret access_token
        | None => valid_jwt U
        end) s1)
  ∧ ((last_jwt_expiry t - time == 120)%Q → is_binary64 (last_jwt_expiry t) = true →
     usable = false)
  ∧ ((0 <= time)%Q → is_binary64 (last_jwt_expiry t) = true → usable = true →
     (120 < last_jwt_expiry t - time)%Q)
  ∧ (∀ parsed : bool,
       let sender :=
         if parsed then send_protobuf_to_warp_api_parsed E U protobuf_bytes
         else send_protobuf_to_warp_api E U protobuf_bytes show_all_events in
       (usable = true →
        ∃ l, log (snd (sender s)) = log s ++ CallPost (last_jwt t) :: l)
       ∧ (usable = false →
          (∃ l, log (snd (sender s)) = log s ++ CallRefresh i :: l)
          ∧ (∀ access_token p' w' t',
               refresh_jwt_token_with_token_info U i p1 (world s)
               = (Ok (Some access_token), p', w') →
               _tokens p' !! i = Some t' →
               ∃ l, log (snd (sender s))
                    = log s ++ CallRefresh i :: CallPost access_token :: l))).
Proof.
  intros Hget Hi time s1 usable. subst time.
  assert (Hexact : (last_jwt_expiry t - time_time U (world s) == 120)%Q →
                   is_binary64 (last_jwt_expiry t) = true → usable = false).
  { intros Heq Hb. unfold usable.
    rewrite (float_lt_exact_sum _ _ Heq Hb). apply andb_false_r. }
  assert (Honly : (0 <= time_time U (world s))%Q →
                  is_binary64 (last_jwt_expiry t) = true → usable = true →
                  (120 < last_jwt_expiry t - time_time U (world s))%Q).
  { intros Ht Hb [_ Hu]%andb_true_iff. by apply float_lt_sum_only_if. }
  assert (Hspec : cached_jwt_valid t (time_time U (world s)) = usable) by done.
  clearbody usable.
  assert (Hrefresh : usable = false →
                     initial_jwt U i s1
                     = (token_data <- refresh U i ;;
                        match token_data with
                        | Some access_token => ret access_token
                        | None => valid_jwt U
                        end) s1).
  { intros Hu. apply (initial_jwt_refreshed U i s1 t Hi).
    change (cached_jwt_valid t (time_time U (world s)) = false). by rewrite Hspec. }
  split; [split|split; [|split; [|split]]].
  - intros Hu. apply (initial_jwt_cached U i s1 t Hi).
    change (cached_jwt_valid t (time_time U (world s)) = true). by rewrite Hspec.
  - intros Heq. destruct usable; [done|]. exfalso.
    rewrite (Hrefresh eq_refl) in Heq.
    destruct (refreshed_log U i s1) as [l Hl]. rewrite Heq in Hl. simpl in Hl.
    apply (f_equal length) in Hl. rewrite length_app in Hl. simpl in Hl. lia.
  - exact Hrefresh.
  - exact Hexact.
  - exact Honly.
  - intros parsed sender. split.
    + intros Hu. apply (sender_posts_cached E U parsed protobuf_bytes show_all_events
                          s i p1 t Hget Hi). by rewrite Hspec.
    + intros Hu. apply (sender_refreshes E U parsed protobuf_bytes show_all_events
                          s i p1 t Hget Hi). by rewrite Hspec.
Qed.

Lemma C4_witness :
  (∃ l, log (snd (send_protobuf_to_warp_api env_personal (upstream_caching 1000 200)
                    [] true (mkCstate tt (pool_cached_until 1120) [])))
        = [] ++ CallRefresh 0 :: CallPost "fresh-jwt" :: l)
  ∧ (∃ l, log (snd (send_protobuf_to_warp_api env_personal (upstream_caching 1000 200)
                      [] true (mkCstate tt (pool_cached_until 5000) [])))
          = [] ++ CallPost "cached-jwt" :: l)
  ∧ PyStr.nonempty "cached-jwt" && float_lt (float_add 1000 120) 1120 = false
  ∧ (120 < 5000 - 1000)%Q.
Proof.
  pose proof (C4_cached_credential_threshold
                env_personal unit (upstream_caching 1000 200) [] true
                (mkCstate tt (pool_cached_until 1120) []) 0%nat
                (snd (get_next_token env_personal 1000%Q (pool_cached_until 1120)))
                (mkTokenInfo "personal-token" PERSONAL "PERSONAL_0000" 1000%Q 0 true
                   "cached-jwt" 1120%Q)
                ltac:(vm_compute; reflexivity) ltac:(vm_compute; reflexivity))
    as H1120.
  pose proof (C4_cached_credential_threshold
                env_personal unit (upstream_caching 1000 200) [] true
                (mkCstate tt (pool_cached_until 5000) []) 0%nat
                (snd (get_next_token env_personal 1000%Q (pool_cached_until 5000)))
                (mkTokenInfo "personal-token" PERSONAL "PERSONAL_0000" 1000%Q 0 true
                   "cached-jwt" 5000%Q)
                ltac:(vm_compute; reflexivity) ltac:(vm_compute; reflexivity))
    as H5000.
  cbv zeta in H1120, H5000.
  destruct H1120 as (_ & _ & Hexact & _ & Hsend).
  destruct H5000 as (_ & _ & _ & Honly & Hsend').
  assert (Hno : PyStr.nonempty "cached-jwt" && float_lt (float_add 1000 120) 1120
                = false)
    by (apply Hexact; [reflexivity|vm_compute; reflexivity]).
  split; [|split; [|split]].
  - refine (proj2 (proj2 (Hsend false) Hno) "fresh-jwt"
              (mark_token_success 0 "fresh-jwt" 9000%Q
                 (snd (get_next_token env_personal 1000%Q (pool_cached_until 1120))))
              tt
              (mkTokenInfo "personal-token" PERSONAL "PERSONAL_0000" 1000%Q 0 true
                 "fresh-jwt" 9000%Q)
              _ _).
    + vm_compute. reflexivity.
    + vm_compute. reflexivity.
  - apply (proj1 (Hsend' false)). vm_compute. reflexivity.
  - exact Hno.
  - apply Honly; [discriminate|vm_compute; reflexivity|vm_compute; reflexivity].
Defined.

Lemma C4_counterexample :
  (is_binary64 time_after_1000 = true
   ∧ is_binary64 expiry_after_1120 = true
   ∧ (120 < expiry_after_1120 - time_after_1000)%Q
   ∧ log (snd (run_send env_personal (upstream_caching time_after_1000 200)
                 (pool_cached_until expiry_after_1120)))
     = [CallRefresh 0; CallPost "fresh-jwt"])
  ∧ (last_jwt_expiry <$> _tokens pool_two_cached !! 1%nat = Some 10%Q
     ∧ log (snd (send_protobuf_to_warp_api env_two_shared upstream_quota_once [] true
                   (mkCstate 0%nat pool_two_cached [])))
       = [CallPost "first-jwt"; CallPost "old-jwt"]).
Proof. vm_compute. done. Qed.

(** C2, as amended.  Neither sender calls [mark_token_success].  Every
    call that a request makes is in its log, and the pool comes from its
    state before the request to its state after it by steps that keep the
    failure count, the activity, the cached credential with its expiry
    and the place in the failed set of every record, and by what the
    functions of [core.auth] do when they are called; so a request that
    calls none of them, however it ends, leaves all of these as they
    were.  When the record that [get_next_token] gave holds a cached
    credential that passes the test of the first selection and the
    upstream answers 200, the sender returns the decoded stream after one
    POST and leaves the pool exactly as the selection left it: the record
    is the one that was there with only [last_used] set.
    [mark_token_success] with a non-empty credential, when it is called
    on a record, zeroes its failure count, takes it out of the failed set
    and caches the credential and its expiry. *)
Theorem C2_success_leaves_record_as_selected (E : Platform) (W : Type)
  (U : Upstream W) (protobuf_bytes : list byte) (show_all_events : bool)
  (s : cstate W) :
  (∀ s',
     s' = snd (send_protobuf_to_warp_api E U protobuf_bytes show_all_events s)
     ∨ s' = snd (send_protobuf_to_warp_api_parsed E U protobuf_bytes s) →
     ∃ l, log s' = log s ++ l
          ∧ evolves U l (pool s) (pool s')
          ∧ (Forall (fun c => is_post c = true) l →
             keeps_accounting (pool s) (pool s')))
  ∧ (∀ w i p1 t resp rep,
       get_next_token E (time_time U (world s)) (get_token_pool E (pool s))
       = (Ok (Some i), p1) →
       _tokens p1 !! i = Some t →
       cached_jwt_valid t (time_time U (world s)) = true →
       stream_post U (last_jwt t) protobuf_bytes (world s) = (Ok resp, w) →
       status_code resp = 200 →
       read_stream (protobuf_to_dict U) show_all_events (lines resp) = Ok rep →
       send_protobuf_to_warp_api E U protobuf_bytes show_all_events s
       = (Ok (Some rep), mkCstate w p1 (log s ++ [CallPost (last_jwt t)]))
       ∧ (∀ rep', read_stream_parsed (protobuf_to_dict U) (lines resp) = Ok rep' →
            send_protobuf_to_warp_api_parsed E U protobuf_bytes s
            = (Ok (Some rep'), mkCstate w p1 (log s ++ [CallPost (last_jwt t)])))
       ∧ (∃ r, _tokens (initialize E (pool s)) !! i = Some r
               ∧ t = set_last_used (time_time U (world s)) r))
  ∧ (∀ p i t jwt jwt_expiry,
       _tokens p !! i = Some t →
       jwt ≠ "" →
       ∃ r1, _tokens (mark_token_success i jwt jwt_expiry p) !! i = Some r1
             ∧ failure_count r1 = 0
             ∧ (refresh_token r1 ∉ _failed_tokens (mark_token_success i jwt jwt_expiry p))
             ∧ last_jwt r1 = jwt
             ∧ last_jwt_expiry r1 = jwt_expiry).
Proof.
  split; [|split].
  - intros s'. apply senders_evolve.
  - intros w i p1 t resp rep Hget Hi Hc Hpost Hst Hread.
    pose proof (select_initial_cached E U s i p1 t Hget Hi Hc) as Hsel.
    split; [|split].
    + unfold send_protobuf_to_warp_api. rewrite (bind_ok _ _ _ _ _ Hsel).
      cbn [fst snd attempts].
      erewrite bind_ok; [|by eapply (attempt_body_ok E U false)]. done.
    + intros rep' Hread'.
      unfold send_protobuf_to_warp_api_parsed. rewrite (bind_ok _ _ _ _ _ Hsel).
      cbn [fst snd attempts].
      erewrite bind_ok; [|by eapply (attempt_body_ok E U true)]. done.
    + apply get_next_token_record in Hget as (r & Hr & Hr' & _).
      unfold get_token_pool in Hr.
      rewrite (initialize_idempotent E _ (initialize_initialized E _)) in Hr.
      exists r. split; [done|]. congruence.
  - intros p i t jwt jwt_expiry Hi Hjwt.
    destruct (mark_token_success_lookup i jwt jwt_expiry p t Hi)
      as (r1 & Hr1 & Hc & _ & _ & _ & Hnin & Hcache & _).
    destruct (Hcache Hjwt) as [Hc1 Hc2]. exists r1. done.
Qed.

Lemma C2_witness :
  (log (snd (send_protobuf_to_warp_api env_two_shared upstream_quota_once [] true
               (mkCstate 0%nat pool_two_cached [])))
   = [CallPost "first-jwt"; CallPost "old-jwt"]
   ∧ accounting 0 (pool (snd (send_protobuf_to_warp_api env_two_shared
                                upstream_quota_once [] true
                                (mkCstate 0%nat pool_two_cached []))))
     = Some (0, true, "first-jwt", 5000%Q, false)
   ∧ accounting 1 (pool (snd (send_protobuf_to_warp_api env_two_shared
                                upstream_quota_once [] true
                                (mkCstate 0%nat pool_two_cached []))))
     = Some (0, true, "old-jwt", 10%Q, false))
  ∧ send_protobuf_to_warp_api env_personal (upstream_answering 200) [] true
      (mkCstate tt pool_cached [])
    = (Ok (Some hello_reply), mkCstate tt pool_selected [CallPost "cached-jwt"])
  ∧ (∃ r1, _tokens (mark_token_success 0 "fresh-jwt" 9000%Q pool_one_failure) !! 0%nat
           = Some r1
           ∧ failure_count r1 = 0
           ∧ (refresh_token r1
              ∉ _failed_tokens (mark_token_success 0 "fresh-jwt" 9000%Q pool_one_failure))
           ∧ last_jwt r1 = "fresh-jwt"
           ∧ last_jwt_expiry r1 = 9000%Q).
Proof.
  split; [|split].
  - destruct (proj1 (C2_success_leaves_record_as_selected env_two_shared nat
                       upstream_quota_once [] true (mkCstate 0%nat pool_two_cached []))
                _ (or_introl eq_refl)) as (l & Hl & _ & Hkeep).
    assert (l = [CallPost "first-jwt"; CallPost "old-jwt"]) as ->
      by (vm_compute in Hl; symmetry; exact Hl).
    split; [exact Hl|].
    split; apply Hkeep; try (repeat constructor); vm_compute; reflexivity.
  - refine (proj1 (proj1 (proj2 (C2_success_leaves_record_as_selected env_personal
              unit (upstream_answering 200) [] true (mkCstate tt pool_cached [])))
              tt 0%nat pool_selected record_selected
              (mkResponse 200 [] ["data: 0a00"; ""]) hello_reply
              _ _ _ _ _ _)).
    + vm_compute. reflexivity.
    + vm_compute. reflexivity.
    + vm_compute. reflexivity.
    + reflexivity.
    + reflexivity.
    + vm_compute. reflexivity.
  - refine (proj2 (proj2 (C2_success_leaves_record_as_selected env_personal
              unit (upstream_answering 200) [] true (mkCstate tt pool_cached [])))
              pool_one_failure 0%nat
              (mkTokenInfo "personal-token" PERSONAL "PERSONAL_0000" 0%Q 1 true
                 "cached-jwt" 5000%Q)
              "fresh-jwt" 9000%Q _ _).
    + vm_compute. reflexivity.
    + discriminate.
Defined.

Lemma C2_counterexample :
  fst (run_send env_personal (upstream_answering 200) pool_one_failure)
  = Ok (Some hello_reply)
  ∧ log (snd (run_send env_personal (upstream_answering 200) pool_one_failure))
    = [CallPost "cached-jwt"]
  ∧ failure_count
      <$> _tokens (pool (snd (run_send env_personal (upstream_answering 200)
                                pool_one_failure))) !! 0%nat
    = Some 1.
Proof. vm_compute. done. Qed.

(** C3, as amended.  Neither sender calls [mark_token_failed].  Every
    call that a request makes is in its log, and the pool comes from its
    state before the request to its state after it by steps that keep the
    failure count of every record and by what the functions of
    [core.auth] do when they are called; so a request that calls none of
    them, however it ends, an upstream 429 or 5xx included, leaves every
    failure count as it was.  Once the first selection has given a
    credential, cached or refreshed, and the upstream answers 500 while
    no other record can be selected (the scenario with one personal
    identity), both senders return the error reply for status 500 after
    this one POST, call nothing else and leave the pool as it was when the
    credential was there; with a cached credential that passes the test
    this is the pool exactly as the selection left it.
    [mark_token_failed], when it is called on a record, adds exactly one
    to its failure count. *)
Theorem C3_failure_leaves_record_as_selected (E : Platform) (W : Type)
  (U : Upstream W) (protobuf_bytes : list byte) (show_all_events : bool)
  (s : cstate W) :
  (∀ s',
     s' = snd (send_protobuf_to_warp_api E U protobuf_bytes show_all_events s)
     ∨ s' = snd (send_protobuf_to_warp_api_parsed E U protobuf_bytes s) →
     ∃ l, log s' = log s ++ l
          ∧ evolves U l (pool s) (pool s')
          ∧ (Forall (fun c => is_post c = true) l →
             ∀ j t, _tokens (pool s) !! j = Some t →
                    failure_count <$> _tokens (pool s') !! j
                    = Some (failure_count t)))
  ∧ (∀ jwt tok s1 w resp content,
       select_initial E U s = (Ok (jwt, Some tok), s1) →
       _initialized (pool s1) = true →
       stream_post U jwt protobuf_bytes (world s1) = (Ok resp, w) →
       status_code resp = 500 →
       error_content_of E (body resp) = Ok content →
       (∀ j r, _tokens (pool s1) !! j = Some r → selectable (pool s1) r = true →
               refresh_token r = tok) →
       send_protobuf_to_warp_api E U protobuf_bytes show_all_events s
       = (Ok (Some (error_reply false 500 content)),
          mkCstate w (pool s1) (log s1 ++ [CallPost jwt]))
       ∧ send_protobuf_to_warp_api_parsed E U protobuf_bytes s
         = (Ok (Some (error_reply true 500 content)),
            mkCstate w (pool s1) (log s1 ++ [CallPost jwt])))
  ∧ (∀ w i p1 t resp content,
       get_next_token E (time_time U (world s)) (get_token_pool E (pool s))
       = (Ok (Some i), p1) →
       _tokens p1 !! i = Some t →
       cached_jwt_valid t (time_time U (world s)) = true →
       stream_post U (last_jwt t) protobuf_bytes (world s) = (Ok resp, w) →
       status_code resp = 500 →
       error_content_of E (body resp) = Ok content →
       (∀ j r, _tokens p1 !! j = Some r → selectable p1 r = true →
               refresh_token r = refresh_token t) →
       send_protobuf_to_warp_api E U protobuf_bytes show_all_events s
       = (Ok (Some (error_reply false 500 content)),
          mkCstate w p1 (log s ++ [CallPost (last_jwt t)]))
       ∧ send_protobuf_to_warp_api_parsed E U protobuf_bytes s
         = (Ok (Some (error_reply true 500 content)),
            mkCstate w p1 (log s ++ [CallPost (last_jwt t)]))
       ∧ (∃ r, _tokens (initialize E (pool s)) !! i = Some r
               ∧ t = set_last_used (time_time U (world s)) r))
  ∧ (∀ p i t,
       _tokens p !! i = Some t →
       ∃ r1, _tokens (mark_token_failed i p) !! i = Some r1
             ∧ failure_count r1 = failure_count t + 1).
Proof.
  split; [|split; [|split]].
  - intros s' Hs'.
    destruct (senders_evolve E U protobuf_bytes show_all_events s s' Hs')
      as (l & Hl & He & Hkeep).
    exists l. split; [done|]. split; [done|].
    intros Hposts j t Hj.
    assert (Ha : accounting j (pool s)
                 = Some (failure_count t, is_active t, last_jwt t, last_jwt_expiry t,
                         bool_decide (refresh_token t ∈ _failed_tokens (pool s))))
      by (unfold accounting; by rewrite Hj).
    apply (Hkeep Hposts) in Ha. unfold accounting in Ha.
    destruct (_tokens (pool s') !! j) as [t'|]; [|discriminate Ha].
    simpl in *. by injection Ha as -> _.
  - intros jwt tok s1 w resp content Hsel Hinit Hpost Hst Hbody Hall.
    by apply (senders_server_error E U protobuf_bytes show_all_events s s1 jwt tok
                content resp w).
  - intros w i p1 t resp content Hget Hi Hc Hpost Hst Hbody Hall.
    pose proof (select_initial_cached E U s i p1 t Hget Hi Hc) as Hsel.
    pose proof (get_next_token_initialized E _ _ _ _ Hget) as Hinit.
    destruct (senders_server_error E U protobuf_bytes show_all_events s
                (mkCstate (world s) p1 (log s)) (last_jwt t) (refresh_token t)
                content resp w Hsel Hinit Hpost Hst Hbody Hall) as [H1 H2].
    split; [exact H1|]. split; [exact H2|].
    apply get_next_token_record in Hget as (r & Hr & Hr' & _).
    unfold get_token_pool in Hr.
    rewrite (initialize_idempotent E _ (initialize_initialized E _)) in Hr.
    exists r. split; [done|]. congruence.
  - intros p i t Hi.
    destruct (mark_token_failed_lookup i p t Hi) as (r1 & Hr1 & Hc & _).
    exists r1. done.
Qed.

Lemma C3_witness :
  (log (snd (send_protobuf_to_warp_api env_personal (upstream_answering 429) [] true
               (mkCstate tt pool_one_failure [])))
   = [CallPost "cached-jwt"]
   ∧ failure_count
       <$> _tokens (pool (snd (send_protobuf_to_warp_api env_personal
                                 (upstream_answering 429) [] true
                                 (mkCstate tt pool_one_failure [])))) !! 0%nat
     = Some 1)
  ∧ send_protobuf_to_warp_api env_personal (upstream_caching 1000 500) [] true
      (mkCstate tt (initialize env_personal TokenPool_init) [])
    = (Ok (Some (error_reply false 500 "No error content")),
       mkCstate tt
         (mark_token_success 0 "fresh-jwt" 9000%Q
            (snd (get_next_token env_personal 1000%Q
                    (initialize env_personal TokenPool_init))))
         [CallRefresh 0; CallPost "fresh-jwt"])
  ∧ send_protobuf_to_warp_api env_personal (upstream_answering 500) [] true
      (mkCstate tt pool_cached [])
    = (Ok (Some (error_reply false 500 "No error content")),
       mkCstate tt pool_selected [CallPost "cached-jwt"])
  ∧ (∃ r1, _tokens (mark_token_failed 0 pool_one_failure) !! 0%nat = Some r1
           ∧ failure_count r1 = 1 + 1).
Proof.
  split; [|split; [|split]].
  - destruct (proj1 (C3_failure_leaves_record_as_selected env_personal unit
                       (upstream_answering 429) [] true
                       (mkCstate tt pool_one_failure []))
                _ (or_introl eq_refl)) as (l & Hl & _ & Hkeep).
    assert (l = [CallPost "cached-jwt"]) as ->
      by (vm_compute in Hl; symmetry; exact Hl).
    split; [exact Hl|].
    apply (Hkeep ltac:(repeat constructor) 0%nat
             (mkTokenInfo "personal-token" PERSONAL "PERSONAL_0000" 0%Q 1 true
                "cached-jwt" 5000%Q)).
    vm_compute. reflexivity.
  - refine (proj1 (proj1 (proj2 (C3_failure_leaves_record_as_selected env_personal
              unit (upstream_caching 1000 500) [] true
              (mkCstate tt (initialize env_personal TokenPool_init) [])))
              "fresh-jwt" "personal-token"
              (mkCstate tt
                 (mark_token_success 0 "fresh-jwt" 9000%Q
                    (snd (get_next_token env_personal 1000%Q
                            (initialize env_personal TokenPool_init))))
                 [CallRefresh 0])
              tt (mkResponse 500 [] ["data: 0a00"; ""]) "No error content"
              _ _ _ _ _ _)).
    + vm_compute. reflexivity.
    + vm_compute. reflexivity.
    + reflexivity.
    + reflexivity.
    + reflexivity.
    + intros [|j] r Hj Hs.
      * vm_compute in Hj. injection Hj as <-. reflexivity.
      * vm_compute in Hj. destruct j; discriminate Hj.
  - refine (proj1 (proj1 (proj2 (proj2 (C3_failure_leaves_record_as_selected
              env_personal unit (upstream_answering 500) [] true
              (mkCstate tt pool_cached []))))
              tt 0%nat pool_selected record_selected
              (mkResponse 500 [] ["data: 0a00"; ""]) "No error content"
              _ _ _ _ _ _ _)).
    + vm_compute. reflexivity.
    + vm_compute. reflexivity.
    + vm_compute. reflexivity.
    + reflexivity.
    + reflexivity.
    + reflexivity.
    + intros [|j] r Hj Hs.
      * vm_compute in Hj. injection Hj as <-. reflexivity.
      * vm_compute in Hj. destruct j; discriminate Hj.
  - refine (proj2 (proj2 (proj2 (C3_failure_leaves_record_as_selected env_personal
              unit (upstream_answering 500) [] true (mkCstate tt pool_cached []))))
              pool_one_failure 0%nat
              (mkTokenInfo "personal-token" PERSONAL "PERSONAL_0000" 0%Q 1 true
                 "cached-jwt" 5000%Q) _).
    vm_compute. reflexivity.
Defined.

Lemma C3_counterexample :
  fst (run_send env_personal (upstream_answering 500) pool_cached)
  = Ok (Some (error_reply false 500 "No error content"))
  ∧ priority
      <$> _tokens (pool (snd (run_send env_personal (upstream_answering 500)
                                pool_cached)))
    = [PERSONAL]
  ∧ failure_count
      <$> _tokens (pool (snd (run_send env_personal (upstream_answering 500)
                                pool_cached)))
    = [0].
Proof. vm_compute. done. Qed.

(** ** Tokens of the environment *)

Lemma foldl_appends {A : Type} (f : list A -> string -> list A) (l : list string) :
  (∀ acc x, ∃ more, f acc x = acc ++ more) →
  ∀ acc, ∃ rest, foldl f acc l = acc ++ rest.
Proof.
  intros Hf. induction l as [|x l IH]; intros acc; simpl.
  - exists []. by rewrite app_nil_r.
  - destruct (Hf acc x) as [more ->]. destruct (IH (acc ++ more)) as [rest ->].
    exists (more ++ rest). by rewrite app_assoc.
Qed.

(** C9. What [_load_personal_tokens] makes of [WARP_REFRESH_TOKEN]: it
    tests the trimmed value for emptiness and stores the trimmed value,
    but compares the value as it was read with the placeholder.  So the
    value gives a personal token exactly when it is not empty after
    trimming and is not, untrimmed, the placeholder: a placeholder with
    white space around it is loaded as a token.  The tokens of
    [WARP_PERSONAL_TOKENS], when that is set, come after it. *)
Theorem C9_personal_token_from_environment (E : Platform) :
  ∃ rest,
    _load_personal_tokens E
    = match getenv E "WARP_REFRESH_TOKEN" with
      | Some v =>
          if PyStr.nonempty (PyStr.strip v)
             && negb (PyStr.eqb v "your_warp_refresh_token_here")
          then [PyStr.strip v]
          else []
      | None => []
      end ++ rest
    ∧ (getenv E "WARP_PERSONAL_TOKENS" = None → rest = []).
Proof.
  unfold _load_personal_tokens.
  set (first := match getenv E "WARP_REFRESH_TOKEN" with
                | Some v =>
                    if PyStr.nonempty v && PyStr.nonempty (PyStr.strip v)
                       && negb (PyStr.eqb v "your_warp_refresh_token_here")
                    then [PyStr.strip v] else []
                | None => []
                end).
  assert (first = match getenv E "WARP_REFRESH_TOKEN" with
                  | Some v =>
                      if PyStr.nonempty (PyStr.strip v)
                         && negb (PyStr.eqb v "your_warp_refresh_token_here")
                      then [PyStr.strip v] else []
                  | None => []
                  end) as <-.
  { unfold first. destruct (getenv E "WARP_REFRESH_TOKEN") as [v|]; [|done].
    by destruct v. }
  destruct (getenv E "WARP_PERSONAL_TOKENS") as [str|].
  - destruct (PyStr.nonempty str).
    + destruct (foldl_appends
                  (fun tokens token =>
                     if PyStr.nonempty (PyStr.strip token)
                        && negb (bool_decide (PyStr.strip token ∈ tokens))
                     then tokens ++ [PyStr.strip token] else tokens)
                  (PyStr.split ","%char str)) with (acc := first) as [rest Hrest].
      { intros acc x.
        destruct (PyStr.nonempty (PyStr.strip x)
                  && negb (bool_decide (PyStr.strip x ∈ acc)));
          [by eexists | exists []; by rewrite app_nil_r]. }
      exists rest. split; [exact Hrest | discriminate].
    + exists []. split; [by rewrite app_nil_r | discriminate].
  - exists []. split; [by rewrite app_nil_r | done].
Qed.

Lemma C9_counterexample :
  PyStr.strip " your_warp_refresh_token_here" = "your_warp_refresh_token_here"
  ∧ _load_personal_tokens env_padded_placeholder = ["your_warp_refresh_token_here"]
  ∧ (fun t => (refresh_token t, priority t))
      <$> _tokens (initialize env_padded_placeholder TokenPool_init)
    = [("your_warp_refresh_token_here", PERSONAL)].
Proof. vm_compute. done. Qed.

(** ** The token pool: selection, failures, recovery and reports *)

(** ** Selection in the pool *)

Lemma positions_alter (f : TokenInfo -> bool) (g : TokenInfo -> TokenInfo)
  (i k : nat) (ts : list TokenInfo) :
  (∀ t, f (g t) = f t) → positions f k (alter g i ts) = positions f k ts.
Proof.
  intros Hfg. revert i k. induction ts as [|t ts IH]; intros i k; [done|].
  destruct i as [|i].
  - change (alter g 0%nat (t :: ts)) with (g t :: ts). simpl. by rewrite Hfg.
  - change (alter g (S i) (t :: ts)) with (t :: alter g i ts).
    cbn [positions]. by rewrite IH.
Qed.

Lemma positions_ext (f g : TokenInfo -> bool) (k : nat) (ts : list TokenInfo) :
  (∀ t, f t = g t) → positions f k ts = positions g k ts.
Proof.
  intros Hfg. revert k. induction ts as [|t ts IH]; intros k; [done|].
  simpl. by rewrite Hfg, IH.
Qed.

Lemma candidates_touch (now : Q) (i : nat) (p : TokenPool) (prio : TokenPriority) :
  candidates (touch now i p) prio = candidates p prio.
Proof.
  unfold candidates, touch. simpl.
  rewrite positions_alter by done. done.
Qed.

Lemma candidates_set_current_index (m : gmap TokenPriority Z) (p : TokenPool)
  (prio : TokenPriority) :
  candidates (set_current_index m p) prio = candidates p prio.
Proof. done. Qed.

Lemma candidates_set_last_used_index (m : gmap TokenPriority Z) (p : TokenPool)
  (prio : TokenPriority) :
  candidates (set_last_used_index m p) prio = candidates p prio.
Proof. done. Qed.

Lemma get_token_by_priority_empty (prio : TokenPriority) (p : TokenPool) :
  candidates p prio = [] → _get_token_by_priority prio p = (Ok None, p).
Proof. unfold candidates, _get_token_by_priority. by intros ->. Qed.

Lemma get_token_by_priority_step (prio : TokenPriority) (p : TokenPool) (c : Z) :
  candidates p prio ≠ [] →
  _current_index p !! prio = Some c →
  let n := Z.of_nat (length (candidates p prio)) in
  ∃ i, candidates p prio !! Z.to_nat (c mod n) = Some i
       ∧ _get_token_by_priority prio p
         = (Ok (Some i),
            set_current_index (<[prio := (c + 1) mod n]> (_current_index p)) p).
Proof.
  intros Hne Hc. cbv zeta.
  destruct (lookup_mod_length (candidates p prio) c Hne) as [i Hi].
  exists i. split; [done|].
  unfold _get_token_by_priority. fold (candidates p prio).
  destruct (candidates p prio) as [|j l] eqn:Hl; [done|].
  cbv zeta. rewrite Hc, Hi. done.
Qed.

Lemma get_next_token_step (E : Platform) (now : Q) (p : TokenPool)
  (prio : TokenPriority) (c : Z) :
  _initialized p = true →
  candidates p prio ≠ [] →
  (∀ q, priority_value q < priority_value prio → candidates p q = []) →
  _current_index p !! prio = Some c →
  let n := Z.of_nat (length (candidates p prio)) in
  ∃ i, candidates p prio !! Z.to_nat (c mod n) = Some i
       ∧ get_next_token E now p
         = (Ok (Some i),
            touch now i
              (set_current_index (<[prio := (c + 1) mod n]> (_current_index p)) p)).
Proof.
  intros Hinit Hne Hhigher Hc n.
  destruct (get_token_by_priority_step prio p c Hne Hc) as (i & Hi & Hget).
  exists i. split; [done|].
  unfold get_next_token. rewrite (initialize_idempotent E p Hinit).
  destruct prio; simpl.
  - by rewrite Hget.
  - rewrite (get_token_by_priority_empty ANONYMOUS) by (by apply Hhigher).
    by rewrite Hget.
  - rewrite (get_token_by_priority_empty ANONYMOUS) by (by apply Hhigher).
    rewrite (get_token_by_priority_empty SHARED) by (by apply Hhigher).
    by rewrite Hget.
Qed.

(** X1.  Round robin: while the selectable records of the first
    non-empty priority stay the same, successive calls of
    [get_next_token] go through them in the order of the pool, starting
    at the cursor of that priority and wrapping around. *)
Theorem X1_get_next_token_round_robin (E : Platform) (p : TokenPool)
  (prio : TokenPriority) (c : Z) (times : list Q) :
  _initialized p = true →
  candidates p prio ≠ [] →
  (∀ q, priority_value q < priority_value prio → candidates p q = []) →
  _current_index p !! prio = Some c →
  ∀ k, (k < length times)%nat →
    ∃ i, candidates p prio
           !! Z.to_nat ((c + Z.of_nat k) mod Z.of_nat (length (candidates p prio)))
         = Some i
       ∧ fst (get_next_tokens E times p) !! k = Some (Ok (Some i)).
Proof.
  revert p c. induction times as [|now times IH]; intros p c Hinit Hne Hhigher Hc k Hk.
  { simpl in Hk. lia. }
  destruct (get_next_token_step E now p prio c Hinit Hne Hhigher Hc) as (i & Hi & Hstep).
  set (n := Z.of_nat (length (candidates p prio))) in *.
  set (p1 := touch now i (set_current_index (<[prio := (c + 1) mod n]> (_current_index p)) p)) in *.
  assert (Hcand : ∀ q, candidates p1 q = candidates p q).
  { intros q. unfold p1. by rewrite candidates_touch, candidates_set_current_index. }
  simpl. rewrite Hstep.
  destruct (get_next_tokens E times p1) as [rs p2] eqn:Hrest. simpl.
  destruct k as [|k].
  - exists i. split; [|done]. by rewrite Z.add_0_r.
  - simpl in Hk.
    destruct (IH p1 ((c + 1) mod n)) with (k := k) as (j & Hj & Hres).
    + done.
    + by rewrite Hcand.
    + intros q Hq. rewrite Hcand. by apply Hhigher.
    + unfold p1. simpl. by rewrite lookup_insert_eq.
    + lia.
    + exists j. rewrite Hcand in Hj. fold n in Hj. rewrite Hrest in Hres.
      split; [|done].
      rewrite <- Hj. f_equal. f_equal.
      assert (0 < n).
      { unfold n. destruct (candidates p prio); [done|]. simpl. lia. }
      rewrite Zplus_mod_idemp_l. f_equal. lia.
Qed.

Lemma X1_witness :
  ∃ i, candidates pool_two_shared SHARED
         !! Z.to_nat ((0 + Z.of_nat 2)
                      mod Z.of_nat (length (candidates pool_two_shared SHARED)))
       = Some i
     ∧ fst (get_next_tokens env_two_shared [1%Q; 2%Q; 3%Q] pool_two_shared) !! 2%nat
       = Some (Ok (Some i)).
Proof.
  apply (X1_get_next_token_round_robin env_two_shared pool_two_shared SHARED 0
           [1%Q; 2%Q; 3%Q]).
  - reflexivity.
  - vm_compute. discriminate.
  - intros q. destruct q; simpl; intros Hq; try lia. vm_compute. reflexivity.
  - vm_compute. reflexivity.
  - simpl. lia.
Defined.

Lemma get_token_by_priority_frame (prio : TokenPriority) (p : TokenPool) :
  ∃ m, snd (_get_token_by_priority prio p) = set_current_index m p.
Proof.
  unfold _get_token_by_priority.
  destruct (positions _ _ _) as [|j l].
  { exists (_current_index p). by destruct p. }
  destruct (_current_index p !! prio) as [c|].
  2:{ exists (_current_index p). by destruct p. }
  destruct (_ !! _).
  - eexists. done.
  - exists (_current_index p). by destruct p.
Qed.

Lemma get_next_token_loop_frame (now : Q) (prios : list TokenPriority) (p : TokenPool) :
  selected_from now p (fst (get_next_token_loop now prios p))
    (snd (get_next_token_loop now prios p))
  ∧ _last_used_index (snd (get_next_token_loop now prios p)) = _last_used_index p.
Proof.
  revert p. induction prios as [|prio prios IH]; intros p; simpl.
  { by repeat split. }
  destruct (get_token_by_priority_frame prio p) as [m Hm].
  destruct (_get_token_by_priority prio p) as [[[i|]| e] p1]; simpl in Hm; subst p1.
  - simpl. by repeat split.
  - destruct (IH (set_current_index m p)) as [(H1 & H2 & H3) H4].
    split; [|done]. split; [|done]. rewrite H1. by destruct (fst _) as [[?|]|?].
  - simpl. by repeat split.
Qed.

Lemma excluding_loop_frame (now : Q) (x : option string) (prios : list TokenPriority)
  (p : TokenPool) :
  selected_from now p (fst (get_next_token_excluding_loop now x prios p))
    (snd (get_next_token_excluding_loop now x prios p))
  ∧ _current_index (snd (get_next_token_excluding_loop now x prios p))
    = _current_index p.
Proof.
  revert p. induction prios as [|prio prios IH]; intros p.
  { simpl. by repeat split. }
  cbn [get_next_token_excluding_loop].
  destruct (positions _ 0 (_tokens p)) as [|j l]; [apply IH|].
  cbv zeta.
  destruct (_last_used_index p !! prio) as [c|] eqn:Hc.
  - rewrite Hc. destruct ((j :: l) !! _); simpl; by repeat split.
  - simpl. rewrite lookup_insert_eq. destruct ((j :: l) !! _); simpl; by repeat split.
Qed.

(** X2.  A selection changes nothing in the pool but the time of last
    use of the record it returns and the cursor of its own kind:
    [get_next_token] leaves the cursors of [get_next_token_excluding]
    alone and the other way round, and neither touches the failed set, the
    number of records or any other field of a record. *)
Theorem X2_selection_changes_only_last_used (E : Platform) (now : Q)
  (x : option string) (p : TokenPool) :
  let p0 := initialize E p in
  (let '(r, p') := get_next_token E now p in
   _tokens p'
   = match r with
     | Ok (Some i) => alter (set_last_used now) i (_tokens p0)
     | _ => _tokens p0
     end
   ∧ _failed_tokens p' = _failed_tokens p0
   ∧ _last_used_index p' = _last_used_index p0
   ∧ _initialized p' = true)
  ∧ (let '(r, p') := get_next_token_excluding E now x p in
     _tokens p'
     = match r with
       | Ok (Some i) => alter (set_last_used now) i (_tokens p0)
       | _ => _tokens p0
       end
     ∧ _failed_tokens p' = _failed_tokens p0
     ∧ _current_index p' = _current_index p0
     ∧ _initialized p' = true).
Proof.
  intros p0. split.
  - unfold get_next_token. fold p0.
    destruct (get_next_token_loop_frame now [ANONYMOUS; SHARED; PERSONAL] p0)
      as [(H1 & H2 & H3) H4].
    destruct (get_next_token_loop _ _ _) as [r p']. simpl in *.
    repeat split; try done. rewrite H3. apply initialize_initialized.
  - unfold get_next_token_excluding. fold p0.
    destruct (excluding_loop_frame now x [ANONYMOUS; SHARED; PERSONAL] p0)
      as [(H1 & H2 & H3) H4].
    destruct (get_next_token_excluding_loop _ _ _ _) as [r p']. simpl in *.
    repeat split; try done. rewrite H3. apply initialize_initialized.
Qed.

(** ** The record used last *)

Lemma Qltb_ge (x y : Q) : Qltb x y = false ↔ (y <= x)%Q.
Proof.
  split.
  - intros H. apply Qnot_lt_le. intros Hlt. apply Qltb_lt in Hlt. congruence.
  - intros H. destruct (Qltb x y) eqn:Hb; [|done].
    apply Qltb_lt in Hb. exfalso. by apply (Qlt_not_le x y).
Qed.

Lemma get_last_used_token_prefix (p : TokenPool) (k : nat) :
  (k <= length (_tokens p))%nat →
  ∃ mr,
    foldl (fun '(most_recent, i) token =>
             (if Qltb 0 (last_used token) then
                match most_recent with
                | None => Some i
                | Some j =>
                    match _tokens p !! j with
                    | Some m =>
                        if Qltb (last_used m) (last_used token)
                        then Some i else most_recent
                    | None => most_recent
                    end
                end
              else most_recent, S i))
      (None, 0%nat) (take k (_tokens p)) = (mr, k)
    ∧ most_recent_of (_tokens p) k mr.
Proof.
  induction k as [|k IH]; intros Hk.
  { exists None. split; [done|]. intros j t Hj. lia. }
  destruct IH as (mr & Hfold & Hmr); [lia|].
  destruct (lookup_lt_is_Some_2 (_tokens p) k) as [x Hx]; [lia|].
  rewrite (take_S_r _ _ _ Hx), foldl_snoc, Hfold.
  destruct (Qltb 0 (last_used x)) eqn:Hpos.
  - apply Qltb_lt in Hpos. destruct mr as [j|].
    + destruct Hmr as (Hjk & t & Hj & Htpos & Hmax & Hfirst). rewrite Hj.
      destruct (Qltb (last_used t) (last_used x)) eqn:Hnew.
      * apply Qltb_lt in Hnew. exists (Some k). split; [done|].
        split; [lia|]. exists x. split; [done|]. split; [done|]. split.
        -- intros j' t' Hj' Hl'. destruct (decide (j' = k)) as [->|Hne].
           ++ rewrite Hx in Hl'. injection Hl' as <-. apply Qle_refl.
           ++ apply Qlt_le_weak. eapply Qle_lt_trans; [|exact Hnew].
              apply (Hmax j'); [lia|done].
        -- intros j' t' Hj' Hl'. eapply Qle_lt_trans; [|exact Hnew].
           apply (Hmax j'); [lia|done].
      * apply Qltb_ge in Hnew. exists (Some j). split; [done|].
        split; [lia|]. exists t. split; [done|]. split; [done|]. split; [|done].
        intros j' t' Hj' Hl'. destruct (decide (j' = k)) as [->|Hne].
        -- rewrite Hx in Hl'. by injection Hl' as <-.
        -- apply (Hmax j'); [lia|done].
    + exists (Some k). split; [done|]. split; [lia|]. exists x.
      split; [done|]. split; [done|]. split.
      * intros j' t' Hj' Hl'. destruct (decide (j' = k)) as [->|Hne].
        -- rewrite Hx in Hl'. injection Hl' as <-. apply Qle_refl.
        -- apply Qlt_le_weak. eapply Qle_lt_trans; [|exact Hpos].
           apply Qnot_lt_le. apply (Hmr j'); [lia|done].
      * intros j' t' Hj' Hl'. eapply Qle_lt_trans; [|exact Hpos].
        apply Qnot_lt_le. apply (Hmr j'); [lia|done].
  - apply Qltb_ge in Hpos. exists mr. split; [done|].
    destruct mr as [j|].
    + destruct Hmr as (Hjk & t & Hj & Htpos & Hmax & Hfirst).
      split; [lia|]. exists t. split; [done|]. split; [done|]. split; [|done].
      intros j' t' Hj' Hl'. destruct (decide (j' = k)) as [->|Hne].
      * rewrite Hx in Hl'. injection Hl' as <-.
        apply Qlt_le_weak. eapply Qle_lt_trans; [exact Hpos|done].
      * apply (Hmax j'); [lia|done].
    + intros j' t' Hj' Hl'. destruct (decide (j' = k)) as [->|Hne].
      * rewrite Hx in Hl'. injection Hl' as <-. by apply Qle_not_lt.
      * apply (Hmr j'); [lia|done].
Qed.

Lemma get_last_used_token_spec (p : TokenPool) :
  most_recent_of (_tokens p) (length (_tokens p)) (get_last_used_token p).
Proof.
  destruct (get_last_used_token_prefix p (length (_tokens p))) as (mr & Hfold & Hmr);
    [lia|].
  rewrite firstn_all in Hfold. unfold get_last_used_token.
  by rewrite Hfold.
Qed.

(** X3.  [get_last_used_token] returns no record exactly when no record
    of the pool has a positive time of last use; otherwise it returns a
    record whose time of last use is positive and the greatest of the
    pool, and of several such records the first. *)
Theorem X3_get_last_used_token (p : TokenPool) :
  match get_last_used_token p with
  | None => ∀ j t, _tokens p !! j = Some t → ¬ (0 < last_used t)%Q
  | Some i =>
      ∃ t, _tokens p !! i = Some t ∧ (0 < last_used t)%Q
        ∧ (∀ j t', _tokens p !! j = Some t' → (last_used t' <= last_used t)%Q)
        ∧ (∀ j t', (j < i)%nat → _tokens p !! j = Some t' →
                   (last_used t' < last_used t)%Q)
  end.
Proof.
  pose proof (get_last_used_token_spec p) as H.
  destruct (get_last_used_token p) as [i|]; simpl in H.
  - destruct H as (Hi & t & Ht & Hpos & Hmax & Hfirst).
    exists t. split; [done|]. split; [done|]. split; [|done].
    intros j t' Hj. apply (Hmax j); [|done]. by apply lookup_lt_Some in Hj.
  - intros j t Hj. apply (H j); [|done]. by apply lookup_lt_Some in Hj.
Qed.

(** X4.  After [get_next_token] has returned a record at a time that is
    positive and later than every time of last use in the pool,
    [get_last_used_token] returns that record: this is how the client
    finds the record it is using when it has not kept track of it. *)
Theorem X4_last_used_after_get_next_token (E : Platform) (now : Q) (p p' : TokenPool)
  (i : nat) :
  (0 < now)%Q →
  (∀ j t, _tokens (initialize E p) !! j = Some t → (last_used t < now)%Q) →
  get_next_token E now p = (Ok (Some i), p') →
  get_last_used_token p' = Some i.
Proof.
  intros Hnow Hold Hget.
  destruct (get_next_token_record E now p p' i Hget) as (r & Hr & Hr' & _).
  pose proof (X2_frame := get_next_token_loop_frame now [ANONYMOUS; SHARED; PERSONAL]
                            (initialize E p)).
  unfold get_next_token in Hget. rewrite Hget in X2_frame. simpl in X2_frame.
  destruct X2_frame as [(Htok & _ & _) _].
  pose proof (get_last_used_token_spec p') as Hspec.
  destruct (get_last_used_token p') as [j|]; simpl in Hspec.
  - destruct Hspec as (Hj & t & Ht & Hpos & Hmax & _).
    destruct (decide (j = i)) as [->|Hne]; [done|].
    exfalso.
    assert (Hle : (now <= last_used t)%Q).
    { apply (Hmax i (set_last_used now r)); [|done]. by apply lookup_lt_Some in Hr'. }
    rewrite Htok, list_lookup_alter in Ht.
    destruct (decide (i = j)) as [|_]; [by subst|].
    apply Hold in Ht. by apply (Qlt_not_le _ _ Ht).
  - exfalso. apply (Hspec i (set_last_used now r)); [|done|done].
    by apply lookup_lt_Some in Hr'.
Qed.

Lemma X4_witness :
  get_last_used_token (snd (get_next_token env_two_shared 5%Q pool_two_shared))
  = Some 0%nat.
Proof.
  apply (X4_last_used_after_get_next_token env_two_shared 5%Q pool_two_shared).
  - reflexivity.
  - intros j t Hj. apply list_elem_of_lookup_2 in Hj. revert t Hj.
    apply Forall_forall. vm_compute. repeat (constructor; [reflexivity|]). constructor.
  - vm_compute. reflexivity.
Defined.

(** ** Failure and recovery *)

Lemma mark_token_failed_record (i : nat) (p : TokenPool) (r : TokenInfo) :
  _tokens p !! i = Some r →
  let r1 := set_failure_count (failure_count r + 1) r in
  (failure_count r + 1 < _max_failures →
   _tokens (mark_token_failed i p) !! i = Some r1
   ∧ _failed_tokens (mark_token_failed i p) = _failed_tokens p)
  ∧ (_max_failures ≤ failure_count r + 1 →
     _tokens (mark_token_failed i p) !! i = Some (set_is_active false r1)
     ∧ _failed_tokens (mark_token_failed i p)
       = {[refresh_token r]} ∪ _failed_tokens p)
  ∧ (∀ j, j ≠ i → _tokens (mark_token_failed i p) !! j = _tokens p !! j).
Proof.
  intros Hi r1. unfold mark_token_failed. rewrite Hi. fold r1.
  assert (Hlt : (i < length (_tokens p))%nat) by (by apply lookup_lt_Some in Hi).
  change (failure_count r1) with (failure_count r + 1).
  split; [|split].
  - intros Hc. destruct (Z.leb_spec _max_failures (failure_count r + 1)); [lia|].
    simpl. split; [|done]. by apply list_lookup_insert_eq.
  - intros Hc. destruct (Z.leb_spec _max_failures (failure_count r + 1)); [|lia].
    simpl. split; [|done]. by apply list_lookup_insert_eq.
  - intros j Hj.
    destruct (_max_failures <=? failure_count r + 1); simpl;
      by apply list_lookup_insert_ne.
Qed.

Lemma excluding_loop_selectable (now : Q) (x : option string)
  (prios : list TokenPriority) (p p' : TokenPool) (i : nat) :
  get_next_token_excluding_loop now x prios p = (Ok (Some i), p') →
  ∃ r, _tokens p !! i = Some r ∧ selectable p r = true.
Proof.
  revert p. induction prios as [|prio prios IH]; intros p; [done|].
  cbn [get_next_token_excluding_loop].
  destruct (positions _ 0 (_tokens p)) as [|j l] eqn:Hpos; [apply IH|].
  cbv zeta. intros H.
  assert (Hin : i ∈ j :: l).
  { destruct (_last_used_index p !! prio) as [c|] eqn:Hc.
    - rewrite Hc in H. destruct ((j :: l) !! _) as [k|] eqn:Hk; [|done].
      injection H as <- _. by eapply list_elem_of_lookup_2.
    - simpl in H. rewrite lookup_insert_eq in H.
      destruct ((j :: l) !! _) as [k|] eqn:Hk; [|done].
      injection H as <- _. by eapply list_elem_of_lookup_2. }
  rewrite <- Hpos in Hin. apply elem_of_positions_0 in Hin as (t & Ht & Hf).
  exists t. split; [done|].
  apply andb_true_iff in Hf as [Hf _]. unfold of_priority in Hf.
  by apply andb_true_iff in Hf as [_ Hf].
Qed.

Lemma get_next_token_excluding_selectable (E : Platform) (now : Q) (x : option string)
  (p p' : TokenPool) (i : nat) :
  get_next_token_excluding E now x p = (Ok (Some i), p') →
  ∃ r, _tokens (initialize E p) !! i = Some r ∧ selectable (initialize E p) r = true.
Proof. apply excluding_loop_selectable. Qed.

Lemma not_selectable_not_selected (E : Platform) (now : Q) (x : option string)
  (p : TokenPool) (i : nat) (r : TokenInfo) :
  _tokens p !! i = Some r → selectable p r = false →
  fst (get_next_token E now p) ≠ Ok (Some i)
  ∧ fst (get_next_token_excluding E now x p) ≠ Ok (Some i).
Proof.
  intros Hi Hsel.
  assert (Hsel0 : selectable (initialize E p) r = false).
  { unfold selectable in *. by rewrite initialize_failed. }
  pose proof (initialize_lookup E p i r Hi) as Hi0.
  split.
  - destruct (get_next_token E now p) as [res p'] eqn:Hget. simpl. intros ->.
    apply get_next_token_selectable in Hget as (r' & Hr' & Hs). congruence.
  - destruct (get_next_token_excluding E now x p) as [res p'] eqn:Hget. simpl.
    intros ->.
    apply get_next_token_excluding_selectable in Hget as (r' & Hr' & Hs). congruence.
Qed.

(** X5.  [mark_token_failed] deactivates a record exactly when the
    failure it adds is the third or a later one.  Below that the record
    only counts one failure more and the failed set stays as it is; from
    there on the record is inactive, its token is in the failed set, and
    neither [get_next_token] nor [get_next_token_excluding] returns it.
    No other record changes. *)
Theorem X5_mark_token_failed_threshold (E : Platform) (p : TokenPool) (i : nat)
  (r : TokenInfo) :
  _tokens p !! i = Some r →
  let p1 := mark_token_failed i p in
  (failure_count r + 1 < 3 →
   _tokens p1 !! i = Some (set_failure_count (failure_count r + 1) r)
   ∧ _failed_tokens p1 = _failed_tokens p)
  ∧ (3 ≤ failure_count r + 1 →
     (∃ r1, _tokens p1 !! i = Some r1 ∧ is_active r1 = false
            ∧ failure_count r1 = failure_count r + 1
            ∧ refresh_token r1 ∈ _failed_tokens p1)
     ∧ ∀ now x, fst (get_next_token E now p1) ≠ Ok (Some i)
                ∧ fst (get_next_token_excluding E now x p1) ≠ Ok (Some i))
  ∧ (∀ j, j ≠ i → _tokens p1 !! j = _tokens p !! j).
Proof.
  intros Hi p1.
  destruct (mark_token_failed_record i p r Hi) as (Hlow & Hhigh & Hother).
  split; [exact Hlow|]. split; [|exact Hother].
  intros Hc. destruct (Hhigh Hc) as [Hrec Hfailed]. fold p1 in Hrec, Hfailed.
  split.
  - eexists. split; [exact Hrec|]. simpl. split; [done|]. split; [done|].
    rewrite Hfailed. apply elem_of_union_l. by apply elem_of_singleton.
  - intros now x. eapply not_selectable_not_selected; [exact Hrec|done].
Qed.

Lemma X5_witness :
  _tokens (mark_token_failed 0 pool_cached) !! 0%nat
  = Some (set_failure_count (failure_count record_cached + 1) record_cached)
  ∧ _failed_tokens (mark_token_failed 0 pool_cached) = _failed_tokens pool_cached.
Proof.
  pose proof (X5_mark_token_failed_threshold env_personal pool_cached 0 record_cached)
    as H.
  destruct H as [H _]; [vm_compute; reflexivity|].
  apply H. simpl. lia.
Defined.

Lemma recover_loop_nothing (ts : list TokenInfo) (failed : gset string) (n : Z) :
  (∀ i r, ts !! i = Some r → recoverable r = false) →
  recover_loop ts failed n = (ts, failed, n).
Proof.
  revert failed n. induction ts as [|t ts IH]; intros failed n Hno; [done|].
  simpl. pose proof (Hno 0%nat t eq_refl) as Ht. unfold recoverable in Ht.
  rewrite Ht. rewrite IH; [done|].
  intros i r Hi. by apply (Hno (S i)).
Qed.

Lemma recovered_not_recoverable (p : TokenPool) (i : nat) (r : TokenInfo) :
  _tokens (snd (recover_failed_tokens p)) !! i = Some r → recoverable r = false.
Proof.
  unfold recover_failed_tokens.
  pose proof (recover_loop_spec (_tokens p) (_failed_tokens p) 0) as H.
  destruct (recover_loop _ _ _) as [[ts' failed'] n']. simpl.
  destruct H as (Hlen & _ & _ & Hyes & Hno). intros Hi.
  destruct (lookup_lt_is_Some_2 (_tokens p) i) as [r0 Hr0].
  { rewrite <- Hlen. by apply lookup_lt_Some in Hi. }
  destruct (recoverable r0) eqn:Hrec.
  - destruct (Hyes i r0 Hr0 Hrec) as [Hi' _]. rewrite Hi in Hi'.
    injection Hi' as ->. done.
  - rewrite (Hno i r0 Hr0 Hrec) in Hi. by injection Hi as <-.
Qed.

(** X6.  [recover_failed_tokens] is idempotent: called again on the
    pool it left, it recovers nothing, returns 0 and leaves the pool as it
    is. *)
Theorem X6_recover_failed_tokens_idempotent (p : TokenPool) :
  recover_failed_tokens (snd (recover_failed_tokens p))
  = (0, snd (recover_failed_tokens p)).
Proof.
  pose proof (recovered_not_recoverable p) as Hno.
  set (p1 := snd (recover_failed_tokens p)) in *.
  unfold recover_failed_tokens at 1.
  rewrite (recover_loop_nothing _ _ _ Hno). by destruct p1.
Qed.

Lemma recoverable_counted (ts : list TokenInfo) (i : nat) (r : TokenInfo) :
  ts !! i = Some r → recoverable r = true →
  (1 <= length (List.filter recoverable ts))%nat.
Proof.
  revert i. induction ts as [|t ts IH]; intros i Hi Hr; [done|].
  simpl. destruct i as [|i]; simpl in Hi.
  - injection Hi as ->. rewrite Hr. simpl. lia.
  - destruct (recoverable t); simpl; [lia|]. by eapply IH.
Qed.

(** X7.  Three failures and a recovery give a record back as it was.
    For an active record without failures, three calls of
    [mark_token_failed] leave it inactive with three failures and its
    token in the failed set; [recover_failed_tokens] then counts it and
    restores the record exactly, with its token out of the failed set. *)
Theorem X7_three_failures_then_recover (p : TokenPool) (i : nat) (r : TokenInfo) :
  _tokens p !! i = Some r → is_active r = true → failure_count r = 0 →
  let p3 := mark_token_failed i (mark_token_failed i (mark_token_failed i p)) in
  (∃ r3, _tokens p3 !! i = Some r3 ∧ is_active r3 = false ∧ failure_count r3 = 3
         ∧ refresh_token r3 ∈ _failed_tokens p3)
  ∧ 1 ≤ fst (recover_failed_tokens p3)
  ∧ _tokens (snd (recover_failed_tokens p3)) !! i = Some r
  ∧ (refresh_token r ∉ _failed_tokens (snd (recover_failed_tokens p3))).
Proof.
  intros Hi Hact Hfc p3.
  destruct (mark_token_failed_record i p r Hi) as ([H1 _] & _ & _).
  { rewrite Hfc. unfold _max_failures. lia. }
  destruct (mark_token_failed_record i _ _ H1) as ([H2 _] & _ & _).
  { simpl. rewrite Hfc. unfold _max_failures. lia. }
  destruct (mark_token_failed_record i _ _ H2) as (_ & H3 & _).
  destruct H3 as [H3 Hf3].
  { simpl. rewrite Hfc. unfold _max_failures. lia. }
  fold p3 in H3, Hf3. simpl in H3, Hf3. rewrite Hfc in H3. simpl in H3.
  split.
  { eexists. split; [exact H3|]. simpl. split; [done|]. split; [done|].
    rewrite Hf3. apply elem_of_union_l. by apply elem_of_singleton. }
  pose proof (recover_failed_tokens_spec p3) as Hspec.
  destruct (recover_failed_tokens p3) as [n p4]. simpl.
  destruct Hspec as (Hyes & _ & Hn).
  split.
  { subst n. eapply (inj_le 1). by eapply recoverable_counted. }
  destruct (Hyes i _ H3) as [H4 Hnot]; [done|].
  split; [|exact Hnot].
  rewrite H4. f_equal. destruct r. simpl in *. by subst.
Qed.

Lemma X7_witness :
  let p3 :=
    mark_token_failed 0 (mark_token_failed 0 (mark_token_failed 0 pool_cached)) in
  (∃ r3, _tokens p3 !! 0%nat = Some r3 ∧ is_active r3 = false ∧ failure_count r3 = 3
         ∧ refresh_token r3 ∈ _failed_tokens p3)
  ∧ 1 ≤ fst (recover_failed_tokens p3)
  ∧ _tokens (snd (recover_failed_tokens p3)) !! 0%nat = Some record_cached
  ∧ (refresh_token record_cached ∉ _failed_tokens (snd (recover_failed_tokens p3))).
Proof.
  apply (X7_three_failures_then_recover pool_cached 0 record_cached).
  - vm_compute. reflexivity.
  - reflexivity.
  - reflexivity.
Defined.

(** ** Statistics and health *)

Lemma length_positions (f : TokenInfo -> bool) (k : nat) (ts : list TokenInfo) :
  length (positions f k ts) = length (List.filter f ts).
Proof.
  revert k. induction ts as [|t ts IH]; intros k; [done|].
  simpl. destruct (f t); simpl; by rewrite IH.
Qed.

Lemma count_active_filter (f : TokenInfo -> bool) (p : TokenPool) :
  count_active f p
  = Z.of_nat (length (List.filter (fun t => f t && is_active t) (_tokens p))).
Proof. unfold count_active. by rewrite length_positions. Qed.

Lemma filter_filter_active (f : TokenInfo -> bool) (ts : list TokenInfo) :
  List.filter is_active (List.filter f ts)
  = List.filter (fun t => f t && is_active t) ts.
Proof.
  induction ts as [|t ts IH]; [done|].
  simpl. destruct (f t); simpl; [|done]. destruct (is_active t); by rewrite IH.
Qed.

Lemma active_by_priority (ts : list TokenInfo) :
  length (List.filter (fun t => true && is_active t) ts)
  = (length (List.filter (fun t => bool_decide (priority t = ANONYMOUS) && is_active t) ts)
     + length (List.filter (fun t => bool_decide (priority t = SHARED) && is_active t) ts)
     + length (List.filter (fun t => bool_decide (priority t = PERSONAL) && is_active t) ts))%nat.
Proof.
  induction ts as [|t ts IH]; [done|].
  simpl. destruct (priority t), (is_active t);
    repeat case_bool_decide; try done; simpl in *; lia.
Qed.

Lemma total_by_priority (ts : list TokenInfo) :
  length ts
  = (length (List.filter (fun t => bool_decide (priority t = ANONYMOUS)) ts)
     + length (List.filter (fun t => bool_decide (priority t = SHARED)) ts)
     + length (List.filter (fun t => bool_decide (priority t = PERSONAL)) ts))%nat.
Proof.
  induction ts as [|t ts IH]; [done|].
  simpl. destruct (priority t); repeat case_bool_decide; try done; simpl; lia.
Qed.

Lemma length_filter_le (f : TokenInfo -> bool) (ts : list TokenInfo) :
  (length (List.filter f ts) <= length ts)%nat.
Proof.
  induction ts as [|t ts IH]; [done|]. simpl. destruct (f t); simpl; lia.
Qed.

(** X8.  The numbers of [get_pool_stats] add up: the active records are
    the active anonymous, shared and personal ones together and are no
    more than all records; the three counts that the client reads are the
    [active] entries of [by_priority]; for every priority [total] is
    [active] plus [inactive], none of them negative; and the totals of
    the three priorities are all the records. *)
Theorem X8_get_pool_stats_add_up (p : TokenPool) :
  let stats := get_pool_stats p in
  active_tokens stats
  = anonymous_tokens stats + shared_tokens stats + personal_tokens stats
  ∧ 0 ≤ active_tokens stats ≤ total_tokens stats
  ∧ anonymous_tokens stats = ByPriority.active (by_priority p ANONYMOUS)
  ∧ shared_tokens stats = ByPriority.active (by_priority p SHARED)
  ∧ personal_tokens stats = ByPriority.active (by_priority p PERSONAL)
  ∧ (∀ prio,
       ByPriority.total (by_priority p prio)
       = ByPriority.active (by_priority p prio)
         + ByPriority.inactive (by_priority p prio)
       ∧ 0 ≤ ByPriority.active (by_priority p prio)
       ∧ 0 ≤ ByPriority.inactive (by_priority p prio))
  ∧ total_tokens stats
    = ByPriority.total (by_priority p ANONYMOUS)
      + ByPriority.total (by_priority p SHARED)
      + ByPriority.total (by_priority p PERSONAL).
Proof.
  simpl. rewrite !count_active_filter, !filter_filter_active.
  pose proof (active_by_priority (_tokens p)) as Ha.
  pose proof (total_by_priority (_tokens p)) as Ht.
  pose proof (length_filter_le (fun t => true && is_active t) (_tokens p)) as Hle.
  repeat split; try lia.
  - pose proof (length_filter_le is_active
                  (List.filter (fun t => bool_decide (priority t = prio)) (_tokens p))).
    lia.
Qed.

Lemma recover_loop_active (ts : list TokenInfo) (failed : gset string) (n : Z) :
  match recover_loop ts failed n with
  | (ts', _, n') =>
      Z.of_nat (length (List.filter is_active ts'))
      = Z.of_nat (length (List.filter is_active ts)) + (n' - n)
      ∧ length ts' = length ts
  end.
Proof.
  revert failed n. induction ts as [|t ts IH]; intros failed n; simpl; [lia|].
  destruct (is_active t) eqn:Hact; simpl.
  - specialize (IH failed n). destruct (recover_loop ts failed n) as [[ts' f'] n'].
    simpl. rewrite Hact. simpl. lia.
  - destruct (_max_failures <=? failure_count t).
    + match goal with |- context [recover_loop ts ?f ?m] =>
        specialize (IH f m); destruct (recover_loop ts f m) as [[ts' f'] n'] end.
      simpl. lia.
    + specialize (IH failed n). destruct (recover_loop ts failed n) as [[ts' f'] n'].
      simpl. rewrite Hact. simpl. lia.
Qed.

Lemma filter_true_active (ts : list TokenInfo) :
  List.filter (fun t => true && is_active t) ts = List.filter is_active ts.
Proof. done. Qed.

(** X9.  What [recover_failed_tokens] returns is the number of records
    that became active: afterwards [get_pool_stats] reports that many
    active records more, as many records in all, and no more failed
    tokens than before. *)
Theorem X9_recover_failed_tokens_in_stats (p : TokenPool) :
  let '(recovered, p') := recover_failed_tokens p in
  active_tokens (get_pool_stats p') = active_tokens (get_pool_stats p) + recovered
  ∧ total_tokens (get_pool_stats p') = total_tokens (get_pool_stats p)
  ∧ failed_tokens (get_pool_stats p') ≤ failed_tokens (get_pool_stats p)
  ∧ 0 ≤ recovered.
Proof.
  unfold recover_failed_tokens.
  pose proof (recover_loop_active (_tokens p) (_failed_tokens p) 0) as Hact.
  pose proof (recover_loop_spec (_tokens p) (_failed_tokens p) 0) as Hspec.
  destruct (recover_loop _ _ _) as [[ts' failed'] n'].
  destruct Hact as [Hact Hlen]. destruct Hspec as (_ & Hsub & Hn & _).
  simpl. rewrite !count_active_filter, !filter_true_active. simpl.
  change (fun t : TokenInfo => is_active t) with is_active.
  repeat split; try lia.
  apply inj_le. by apply subseteq_size.
Qed.

Lemma max0_nonneg (x : Q) : (0 <= max0 x)%Q.
Proof.
  unfold max0. destruct (Qltb 0 x) eqn:H; [|apply Qle_refl].
  apply Qltb_lt in H. by apply Qlt_le_weak.
Qed.

Lemma health_check_step_reports (time_time : nat -> Q) (p : TokenPool)
  (k : nat) (h u : Z) (st : list token_status) (t : TokenInfo) :
  (1 <= k)%nat →
  ∃ k' s,
    health_check_step time_time p (k, h, u, st) t
    = (k', h + (if selectable p t then 1 else 0),
       u + (if selectable p t then 0 else 1), st ++ [s])
    ∧ (1 <= k')%nat ∧ reports time_time p t s.
Proof.
  intros Hk. unfold health_check_step. fold (selectable p t).
  exists (if Qltb 0 (last_jwt_expiry t) then S k else k).
  destruct (selectable p t) eqn:Hs.
  all: eexists; split; [rewrite ?Z.add_0_r; reflexivity|]; split.
  all: try (destruct (Qltb 0 (last_jwt_expiry t)); lia).
  all: unfold reports; simpl; rewrite Hs; repeat split.
  all: destruct (Qltb 0 (last_jwt_expiry t)) eqn:Hexp.
  all: try (apply Qltb_lt in Hexp; split; [done|]; split; [apply max0_nonneg|];
            exists k; done).
  all: intros Hlt; apply Qltb_lt in Hlt; congruence.
Qed.

Lemma health_check_fold (time_time : nat -> Q) (p : TokenPool) (ts : list TokenInfo)
  (k : nat) (h u : Z) (st : list token_status) :
  (1 <= k)%nat →
  ∃ k' new,
    foldl (health_check_step time_time p) (k, h, u, st) ts
    = (k', h + Z.of_nat (length (List.filter (selectable p) ts)),
       u + (Z.of_nat (length ts) - Z.of_nat (length (List.filter (selectable p) ts))),
       st ++ new)
    ∧ Forall2 (reports time_time p) ts new.
Proof.
  revert k h u st. induction ts as [|t ts IH]; intros k h u st Hk.
  { exists k, []. simpl. rewrite app_nil_r, !Z.add_0_r. by split. }
  destruct (health_check_step_reports time_time p k h u st t Hk)
    as (k1 & s & Hstep & Hk1 & Hs).
  cbn [foldl]. rewrite Hstep.
  destruct (IH k1 (h + (if selectable p t then 1 else 0))
              (u + (if selectable p t then 0 else 1)) (st ++ [s]) Hk1)
    as (k' & new & Hfold & Hall).
  exists k', (s :: new). rewrite Hfold. split; [|by constructor].
  rewrite <- app_assoc.
  assert (h + (if selectable p t then 1 else 0)
          + Z.of_nat (length (List.filter (selectable p) ts))
          = h + Z.of_nat (length (List.filter (selectable p) (t :: ts)))) as ->.
  { simpl. destruct (selectable p t); simpl length; lia. }
  assert (u + (if selectable p t then 0 else 1)
          + (Z.of_nat (length ts) - Z.of_nat (length (List.filter (selectable p) ts)))
          = u + (Z.of_nat (length (t :: ts))
                 - Z.of_nat (length (List.filter (selectable p) (t :: ts))))) as ->.
  { simpl. destruct (selectable p t); simpl length; lia. }
  done.
Qed.

(** X10.  [health_check] reports every record of the pool once and in
    order, with [is_healthy] set for the records that are active and not
    in the failed set; [healthy_tokens] counts those, [unhealthy_tokens]
    the others, and together they are [total_tokens].  An entry has
    [jwt_expires_in] exactly when the expiry of its record is positive,
    and the value is never negative. *)
Theorem X10_health_check (time_time : nat -> Q) (p : TokenPool) :
  let h := health_check time_time p in
  health_total_tokens h = Z.of_nat (length (_tokens p))
  ∧ healthy_tokens h = Z.of_nat (length (List.filter (selectable p) (_tokens p)))
  ∧ healthy_tokens h + unhealthy_tokens h = health_total_tokens h
  ∧ 0 ≤ unhealthy_tokens h
  ∧ timestamp h = time_time 0%nat
  ∧ Forall2 (reports time_time p) (_tokens p) (health_tokens h).
Proof.
  unfold health_check.
  destruct (health_check_fold time_time p (_tokens p) 1 0 0 []) as (k' & new & -> & Hall);
    [lia|].
  simpl. pose proof (length_filter_le (selectable p) (_tokens p)).
  repeat split; try lia. done.
Qed.

Lemma filter_nil_candidates (p : TokenPool) :
  List.filter (selectable p) (_tokens p) = [] ↔ ∀ q, candidates p q = [].
Proof.
  unfold candidates. split.
  - intros Hnil q. apply positions_nil. intros j t Hj.
    unfold of_priority. destruct (selectable p t) eqn:Hs; [|by rewrite andb_false_r].
    assert (t ∈ List.filter (selectable p) (_tokens p)) as Hin.
    { apply list_elem_of_In, filter_In. split; [|done].
      apply list_elem_of_In. by eapply list_elem_of_lookup_2. }
    rewrite Hnil in Hin. inversion Hin.
  - intros Hall. destruct (List.filter (selectable p) (_tokens p)) as [|t l] eqn:Hf; [done|].
    assert (In t (List.filter (selectable p) (_tokens p))) as Hin by (rewrite Hf; left; done).
    apply filter_In in Hin as [Hin Hs].
    apply list_elem_of_In, list_elem_of_lookup in Hin as [j Hj].
    pose proof (Hall (priority t)) as Hq.
    rewrite positions_nil in Hq. specialize (Hq j t Hj).
    unfold of_priority in Hq. rewrite Hs, bool_decide_eq_true_2 in Hq; done.
Qed.

Lemma get_next_token_loop_none (now : Q) (prios : list TokenPriority)
  (p p' : TokenPool) :
  get_next_token_loop now prios p = (Ok None, p') →
  ∀ q, q ∈ prios → candidates p q = [].
Proof.
  revert p. induction prios as [|prio prios IH]; intros p H q Hq.
  { inversion Hq. }
  simpl in H.
  destruct (_get_token_by_priority prio p) as [[[i|]|e] p1] eqn:Hget; try done.
  pose proof (get_token_by_priority_none _ _ _ Hget) as ->.
  apply elem_of_cons in Hq as [->|Hq]; [|by eapply IH].
  unfold _get_token_by_priority in Hget. fold (candidates p prio) in Hget.
  destruct (candidates p prio) as [|j l]; [done|].
  destruct (_current_index p !! prio); [|done].
  by destruct ((j :: l) !! _).
Qed.

(** X11.  [get_next_token] has no record to return exactly when
    [health_check] counts no healthy record in the initialised pool. *)
Theorem X11_no_token_iff_none_healthy (E : Platform) (time_time : nat -> Q) (now : Q)
  (p : TokenPool) :
  fst (get_next_token E now p) = Ok None
  ↔ healthy_tokens (health_check time_time (initialize E p)) = 0.
Proof.
  set (p0 := initialize E p).
  destruct (health_check_fold time_time p0 (_tokens p0) 1 0 0 [])
    as (k' & new & Hfold & _); [lia|].
  assert (Hh : healthy_tokens (health_check time_time p0)
               = Z.of_nat (length (List.filter (selectable p0) (_tokens p0)))).
  { unfold health_check. by rewrite Hfold. }
  rewrite Hh. unfold get_next_token. fold p0. split.
  - intros Hnone.
    destruct (get_next_token_loop now _ p0) as [r p'] eqn:Hloop. simpl in Hnone.
    subst r. pose proof (get_next_token_loop_none _ _ _ _ Hloop) as Hc.
    assert (List.filter (selectable p0) (_tokens p0) = []) as ->; [|done].
    apply filter_nil_candidates. intros q. apply Hc. destruct q; repeat constructor.
  - intros Hz.
    assert (Hnil : List.filter (selectable p0) (_tokens p0) = []).
    { destruct (List.filter _ _); [done|simpl in Hz; lia]. }
    rewrite filter_nil_candidates in Hnil. simpl.
    by rewrite !get_token_by_priority_empty by apply Hnil.
Qed.

(** ** Pools made through the operations of [TokenPool] *)

Lemma invariant_new : pool_invariant TokenPool_init.
Proof.
  unfold pool_invariant. simpl. split; [constructor|]. split.
  { intros []; exists 0; vm_compute; reflexivity. }
  split; [done|]. split; [set_solver|done].
Qed.

Lemma existsb_refresh_token (tok : string) (ts : list TokenInfo) :
  existsb (fun token_info => PyStr.eqb (refresh_token token_info) tok) ts = false →
  tok ∉ refresh_token <$> ts.
Proof.
  induction ts as [|t ts IH]; simpl; [intros _; apply not_elem_of_nil|].
  intros H. apply orb_false_iff in H as [Ht Hts].
  apply eqb_false in Ht. rewrite not_elem_of_cons. split; [done|by apply IH].
Qed.

Lemma invariant_add_token (E : Platform) (tok : string) (prio : TokenPriority)
  (p : TokenPool) :
  pool_invariant p → pool_invariant (_add_token_internal E tok prio p).
Proof.
  intros (Hnd & Hcur & Hfail & Hsub & Hfc). unfold _add_token_internal.
  destruct (existsb _ _) eqn:Hex; [done|].
  apply existsb_refresh_token in Hex.
  unfold pool_invariant. simpl. rewrite fmap_app. simpl.
  split; [|split; [done|split; [|split]]].
  - apply NoDup_app. split; [done|]. split; [|apply NoDup_singleton].
    intros x Hx Hx'. apply list_elem_of_singleton in Hx'. by subst.
  - intros j t Hj Hin. apply lookup_app_Some in Hj as [Hj|[Hlen Hj]]; [by eapply Hfail|].
    apply list_lookup_singleton_Some in Hj as [_ <-]. simpl in Hin.
    exfalso. apply Hex. by apply Hsub.
  - intros x Hx. apply elem_of_app. left. by apply Hsub.
  - intros j t Hj. apply lookup_app_Some in Hj as [Hj|[Hlen Hj]]; [by eapply Hfc|].
    by apply list_lookup_singleton_Some in Hj as [_ <-].
Qed.

Lemma invariant_add_tokens (E : Platform) (prio : TokenPriority) (toks : list string)
  (p : TokenPool) :
  pool_invariant p →
  pool_invariant (foldl (fun q tok => _add_token_internal E tok prio q) p toks).
Proof.
  revert p. induction toks as [|tok toks IH]; intros p Hp; [done|].
  simpl. apply IH. by apply invariant_add_token.
Qed.

Lemma invariant_initialize (E : Platform) (p : TokenPool) :
  pool_invariant p → pool_invariant (initialize E p).
Proof.
  intros Hp. unfold initialize. destruct (_initialized p); [done|].
  match goal with |- pool_invariant (set_initialized true ?q) =>
    assert (pool_invariant q) as Hq end.
  { apply invariant_add_tokens, invariant_add_tokens.
    destruct (_load_anonymous_token E) as [a|]; [|done].
    destruct (PyStr.nonempty a); [|done]. by apply invariant_add_token. }
  exact Hq.
Qed.

Lemma invariant_selected (now : Q) (p p' : TokenPool) (r : result (option nat)) :
  selected_from now p r p' →
  (∀ q, is_Some (_current_index p' !! q)) →
  pool_invariant p → pool_invariant p'.
Proof.
  intros (Htok & Hfailed & _) Hcur' (Hnd & Hcur & Hfail & Hsub & Hfc).
  assert (Hmap : refresh_token <$> _tokens p' = refresh_token <$> _tokens p).
  { rewrite Htok. destruct r as [[i|]|]; try done.
    apply list_eq. intros j. rewrite !list_lookup_fmap, list_lookup_alter.
    destruct (decide (i = j)) as [->|]; [|done]. by destruct (_tokens p !! j). }
  assert (Hrec : ∀ j t, _tokens p' !! j = Some t →
                 ∃ t0, _tokens p !! j = Some t0 ∧ refresh_token t = refresh_token t0
                       ∧ is_active t = is_active t0
                       ∧ failure_count t = failure_count t0).
  { intros j t. rewrite Htok. destruct r as [[i|]|]; eauto.
    rewrite list_lookup_alter. destruct (decide (i = j)) as [->|]; eauto.
    destruct (_tokens p !! j) as [t0|]; [|done]. simpl. intros [= <-]. eauto. }
  unfold pool_invariant. rewrite Hmap, Hfailed.
  split; [done|]. split; [done|]. split; [|split; [done|]].
  - intros j t Hj Hin. destruct (Hrec j t Hj) as (t0 & Hj0 & Ht & Ha & _).
    rewrite Ha. eapply Hfail; [done|]. by rewrite <- Ht.
  - intros j t Hj. destruct (Hrec j t Hj) as (t0 & Hj0 & _ & _ & Hc).
    rewrite Hc. by eapply Hfc.
Qed.

Lemma get_token_by_priority_cursors (prio : TokenPriority) (p : TokenPool) :
  (∀ q, is_Some (_current_index p !! q)) →
  ∀ q, is_Some (_current_index (snd (_get_token_by_priority prio p)) !! q).
Proof.
  intros Hcur q. unfold _get_token_by_priority.
  destruct (positions _ _ _) as [|j l]; [apply Hcur|].
  destruct (_current_index p !! prio) as [c|]; [|apply Hcur].
  destruct ((j :: l) !! _); [|apply Hcur]. simpl.
  destruct (decide (prio = q)) as [->|Hne].
  - rewrite lookup_insert_eq. eauto.
  - rewrite lookup_insert_ne by done. apply Hcur.
Qed.

Lemma get_next_token_loop_cursors (now : Q) (prios : list TokenPriority)
  (p : TokenPool) :
  (∀ q, is_Some (_current_index p !! q)) →
  ∀ q, is_Some (_current_index (snd (get_next_token_loop now prios p)) !! q).
Proof.
  revert p. induction prios as [|prio prios IH]; intros p Hcur; [done|].
  simpl. pose proof (get_token_by_priority_cursors prio p Hcur) as H1.
  destruct (_get_token_by_priority prio p) as [[[i|]|e] p1]; simpl in *.
  - done.
  - by apply IH.
  - done.
Qed.

Lemma invariant_get_next_token (E : Platform) (now : Q) (p : TokenPool) :
  pool_invariant p → pool_invariant (snd (get_next_token E now p)).
Proof.
  intros Hp. apply (invariant_initialize E) in Hp. unfold get_next_token.
  eapply invariant_selected; [apply get_next_token_loop_frame| |done].
  apply get_next_token_loop_cursors. apply Hp.
Qed.

Lemma invariant_get_next_token_excluding (E : Platform) (now : Q) (x : option string)
  (p : TokenPool) :
  pool_invariant p → pool_invariant (snd (get_next_token_excluding E now x p)).
Proof.
  intros Hp. apply (invariant_initialize E) in Hp. unfold get_next_token_excluding.
  destruct (excluding_loop_frame now x [ANONYMOUS; SHARED; PERSONAL] (initialize E p))
    as [Hsel Hcur].
  eapply invariant_selected; [exact Hsel| |done].
  rewrite Hcur. apply Hp.
Qed.

Lemma refresh_tokens_insert (i : nat) (t t' : TokenInfo) (ts : list TokenInfo) :
  ts !! i = Some t → refresh_token t' = refresh_token t →
  refresh_token <$> <[i := t']> ts = refresh_token <$> ts.
Proof.
  intros Hi Ht. rewrite list_fmap_insert, Ht. apply list_insert_id.
  by rewrite list_lookup_fmap, Hi.
Qed.

Lemma refresh_token_position (ts : list TokenInfo) (i j : nat) (t t' : TokenInfo) :
  NoDup (refresh_token <$> ts) →
  ts !! i = Some t → ts !! j = Some t' → refresh_token t = refresh_token t' → i = j.
Proof.
  intros Hnd Hi Hj Heq.
  eapply (NoDup_lookup _ i j (refresh_token t) Hnd).
  - by rewrite list_lookup_fmap, Hi.
  - by rewrite list_lookup_fmap, Hj, Heq.
Qed.

Lemma invariant_mark_token_failed (i : nat) (p : TokenPool) :
  pool_invariant p → pool_invariant (mark_token_failed i p).
Proof.
  intros (Hnd & Hcur & Hfail & Hsub & Hfc). unfold mark_token_failed.
  destruct (_tokens p !! i) as [t|] eqn:Hi; [|done].
  assert (Hlt : (i < length (_tokens p))%nat) by (by apply lookup_lt_Some in Hi).
  pose proof (Hfc i t Hi) as Hfci.
  change (failure_count (set_failure_count (failure_count t + 1) t))
    with (failure_count t + 1).
  destruct (Z.leb_spec _max_failures (failure_count t + 1)) as [Hge|Hlow].
  - unfold pool_invariant. simpl.
    rewrite (refresh_tokens_insert i t) by done.
    split; [done|]. split; [done|]. split; [|split].
    + intros j t' Hj Hin. destruct (decide (j = i)) as [->|Hne].
      * rewrite list_lookup_insert_eq in Hj by done. by injection Hj as <-.
      * rewrite list_lookup_insert_ne in Hj by done.
        apply elem_of_union in Hin as [Hin|Hin]; [|by eapply Hfail].
        apply elem_of_singleton in Hin. exfalso. apply Hne.
        by eapply refresh_token_position.
    + intros tok Hin. apply elem_of_union in Hin as [Hin|Hin]; [|by apply Hsub].
      apply elem_of_singleton in Hin as ->.
      apply list_elem_of_fmap. exists t. split; [done|]. by eapply list_elem_of_lookup_2.
    + intros j t' Hj. destruct (decide (j = i)) as [->|Hne].
      * rewrite list_lookup_insert_eq in Hj by done. injection Hj as <-. simpl. lia.
      * rewrite list_lookup_insert_ne in Hj by done. by eapply Hfc.
  - unfold pool_invariant. simpl.
    rewrite (refresh_tokens_insert i t) by done.
    split; [done|]. split; [done|]. split; [|split; [done|]].
    + intros j t' Hj Hin. destruct (decide (j = i)) as [->|Hne].
      * rewrite list_lookup_insert_eq in Hj by done. injection Hj as <-. simpl.
        by eapply Hfail.
      * rewrite list_lookup_insert_ne in Hj by done. by eapply Hfail.
    + intros j t' Hj. destruct (decide (j = i)) as [->|Hne].
      * rewrite list_lookup_insert_eq in Hj by done. injection Hj as <-. simpl. lia.
      * rewrite list_lookup_insert_ne in Hj by done. by eapply Hfc.
Qed.

Lemma invariant_mark_token_success (i : nat) (jwt : string) (jwt_expiry : Q)
  (p : TokenPool) :
  pool_invariant p → pool_invariant (mark_token_success i jwt jwt_expiry p).
Proof.
  intros (Hnd & Hcur & Hfail & Hsub & Hfc). unfold mark_token_success.
  destruct (_tokens p !! i) as [t|] eqn:Hi; [|done].
  assert (Hlt : (i < length (_tokens p))%nat) by (by apply lookup_lt_Some in Hi).
  change (refresh_token (set_failure_count 0 t)) with (refresh_token t).
  destruct (failed_without (_failed_tokens p) (refresh_token t)) as [Hsubset Hout].
  set (failed := if bool_decide (refresh_token t ∈ _failed_tokens p)
                 then _failed_tokens p ∖ {[refresh_token t]} else _failed_tokens p) in *.
  set (t2 := if PyStr.nonempty jwt
             then set_last_jwt jwt jwt_expiry (set_failure_count 0 t)
             else set_failure_count 0 t).
  assert (Ht2 : refresh_token t2 = refresh_token t ∧ failure_count t2 = 0
                ∧ is_active t2 = is_active t).
  { unfold t2. by destruct (PyStr.nonempty jwt). }
  destruct Ht2 as (Htok & Hcount & Hact).
  unfold pool_invariant. simpl.
  rewrite (refresh_tokens_insert i t) by done.
  split; [done|]. split; [done|]. split; [|split].
  - intros j t' Hj Hin. destruct (decide (j = i)) as [->|Hne].
    + rewrite list_lookup_insert_eq in Hj by done. injection Hj as <-.
      rewrite Htok in Hin. done.
    + rewrite list_lookup_insert_ne in Hj by done. eapply Hfail; [done|].
      by apply Hsubset.
  - intros tok Hin. apply Hsub. by apply Hsubset.
  - intros j t' Hj. destruct (decide (j = i)) as [->|Hne].
    + rewrite list_lookup_insert_eq in Hj by done. injection Hj as <-. lia.
    + rewrite list_lookup_insert_ne in Hj by done. by eapply Hfc.
Qed.

Lemma invariant_recover_failed_tokens (p : TokenPool) :
  pool_invariant p → pool_invariant (snd (recover_failed_tokens p)).
Proof.
  intros (Hnd & Hcur & Hfail & Hsub & Hfc). unfold recover_failed_tokens.
  pose proof (recover_loop_spec (_tokens p) (_failed_tokens p) 0) as Hspec.
  destruct (recover_loop _ _ _) as [[ts' failed'] n'].
  destruct Hspec as (Hlen & Hsubset & _ & Hyes & Hno). simpl.
  assert (Hrec : ∀ j t', ts' !! j = Some t' →
                 ∃ t, _tokens p !! j = Some t
                      ∧ ((recoverable t = true ∧ t' = recovered_record t
                          ∧ refresh_token t ∉ failed')
                         ∨ t' = t)).
  { intros j t' Hj.
    destruct (lookup_lt_is_Some_2 (_tokens p) j) as [t Ht].
    { rewrite <- Hlen. by apply lookup_lt_Some in Hj. }
    exists t. split; [done|]. destruct (recoverable t) eqn:Hr.
    - destruct (Hyes j t Ht Hr) as [Hj' Hout]. rewrite Hj in Hj'.
      injection Hj' as ->. left. done.
    - rewrite (Hno j t Ht Hr) in Hj. injection Hj as <-. by right. }
  assert (Hmap : refresh_token <$> ts' = refresh_token <$> _tokens p).
  { apply list_eq. intros j. rewrite !list_lookup_fmap.
    destruct (ts' !! j) as [t'|] eqn:Hj.
    - destruct (Hrec j t' Hj) as (t & Ht & [(_ & -> & _)| ->]); by rewrite Ht.
    - apply lookup_ge_None in Hj. rewrite Hlen in Hj.
      apply lookup_ge_None in Hj. by rewrite Hj. }
  unfold pool_invariant. simpl. rewrite Hmap.
  split; [done|]. split; [done|]. split; [|split].
  - intros j t' Hj Hin. destruct (Hrec j t' Hj) as (t & Ht & [(_ & -> & Hout)| ->]).
    + done.
    + eapply Hfail; [done|]. by apply Hsubset.
  - intros tok Hin. apply Hsub. by apply Hsubset.
  - intros j t' Hj. destruct (Hrec j t' Hj) as (t & Ht & [(_ & -> & _)| ->]).
    + simpl. lia.
    + by eapply Hfc.
Qed.

Lemma reachable_invariant (E : Platform) (p : TokenPool) :
  reachable E p → pool_invariant p.
Proof.
  induction 1.
  - apply invariant_new.
  - by apply invariant_initialize.
  - by apply invariant_add_token.
  - by apply invariant_get_next_token.
  - by apply invariant_get_next_token_excluding.
  - by apply invariant_mark_token_failed.
  - by apply invariant_mark_token_success.
  - by apply invariant_recover_failed_tokens.
Qed.

Lemma reachable_pool_cached : reachable env_personal pool_cached.
Proof. apply reach_mark_token_success, reach_initialize, reach_new. Qed.

Lemma reachable_pool_deactivated : reachable env_personal pool_deactivated.
Proof. do 3 apply reach_mark_token_failed. apply reachable_pool_cached. Qed.

(** X12.  A pool never holds two records with the same refresh token,
    whatever is added to it and in whatever order its methods are
    called: a refresh token names one record. *)
Theorem X12_refresh_tokens_unique (E : Platform) (p : TokenPool) :
  reachable E p →
  NoDup (refresh_token <$> _tokens p)
  ∧ ∀ i j t t', _tokens p !! i = Some t → _tokens p !! j = Some t' →
                 refresh_token t = refresh_token t' → i = j.
Proof.
  intros Hp. apply reachable_invariant in Hp as (Hnd & _).
  split; [done|]. intros i j t t'. by apply refresh_token_position.
Qed.

Lemma X12_witness :
  NoDup (refresh_token <$> _tokens pool_two_shared)
  ∧ ∀ i j t t', _tokens pool_two_shared !! i = Some t →
                 _tokens pool_two_shared !! j = Some t' →
                 refresh_token t = refresh_token t' → i = j.
Proof.
  apply (X12_refresh_tokens_unique env_two_shared).
  apply reach_initialize, reach_new.
Defined.

(** X13.  In a pool made through its methods the failed set holds only
    tokens of inactive records of the pool, so that a record can be
    selected exactly when it is active; and no failure count is
    negative. *)
Theorem X13_failed_tokens_are_inactive (E : Platform) (p : TokenPool) :
  reachable E p →
  Forall (fun t => selectable p t = is_active t ∧ 0 ≤ failure_count t) (_tokens p)
  ∧ ∀ tok, tok ∈ _failed_tokens p →
           ∃ t, t ∈ _tokens p ∧ refresh_token t = tok ∧ is_active t = false.
Proof.
  intros Hp. apply reachable_invariant in Hp as (_ & _ & Hfail & Hsub & Hfc).
  split.
  - apply Forall_forall. intros t Hin. apply list_elem_of_lookup in Hin as [j Hj].
    split; [|by eapply Hfc]. unfold selectable.
    destruct (is_active t) eqn:Hact; [|done]. simpl.
    case_bool_decide as Hin; [|done].
    pose proof (Hfail j t Hj Hin). congruence.
  - intros tok Hin. pose proof (Hsub tok Hin) as Hmem.
    apply list_elem_of_fmap in Hmem as (t & -> & Ht). exists t.
    split; [done|]. split; [done|].
    apply list_elem_of_lookup in Ht as [j Hj]. by eapply Hfail.
Qed.

Lemma X13_witness :
  Forall (fun t => selectable pool_deactivated t = is_active t ∧ 0 ≤ failure_count t)
    (_tokens pool_deactivated)
  ∧ ∀ tok, tok ∈ _failed_tokens pool_deactivated →
           ∃ t, t ∈ _tokens pool_deactivated ∧ refresh_token t = tok
                ∧ is_active t = false.
Proof.
  apply (X13_failed_tokens_are_inactive env_personal).
  do 3 apply reach_mark_token_failed.
  apply reach_mark_token_success, reach_initialize, reach_new.
Defined.

Lemma get_next_token_loop_returns (now : Q) (prios : list TokenPriority)
  (p : TokenPool) :
  (∀ q, is_Some (_current_index p !! q)) →
  ∃ r, fst (get_next_token_loop now prios p) = Ok r.
Proof.
  revert p. induction prios as [|prio prios IH]; intros p Hcur; [by eexists|].
  simpl. unfold _get_token_by_priority. fold (candidates p prio).
  destruct (candidates p prio) as [|j l] eqn:Hc; [by apply IH|].
  destruct (Hcur prio) as [c ->].
  destruct (lookup_mod_length (j :: l) c) as [i Hi]; [done|].
  rewrite Hi. by eexists.
Qed.

Lemma excluding_loop_returns (now : Q) (x : option string)
  (prios : list TokenPriority) (p : TokenPool) :
  ∃ r, fst (get_next_token_excluding_loop now x prios p) = Ok r.
Proof.
  revert p. induction prios as [|prio prios IH]; intros p; [by eexists|].
  cbn [get_next_token_excluding_loop].
  destruct (positions _ 0 (_tokens p)) as [|j l]; [apply IH|].
  cbv zeta.
  destruct (_last_used_index p !! prio) as [c|] eqn:Hc.
  - rewrite Hc. destruct (lookup_mod_length (j :: l) c) as [i Hi]; [done|].
    rewrite Hi. by eexists.
  - cbn [_last_used_index set_last_used_index]. rewrite lookup_insert_eq.
    destruct (lookup_mod_length (j :: l) 0) as [i Hi]; [done|].
    rewrite Hi. by eexists.
Qed.

(** X14.  The selections never fail: on a pool made through its methods
    [get_next_token] returns a record or [None] and raises nothing, and
    [get_next_token_excluding] does so on any pool at all, because it
    makes up for a missing cursor and both reduce the cursor modulo the
    number of candidates before they use it. *)
Theorem X14_selection_never_raises (E : Platform) (p : TokenPool) (now : Q)
  (x : option string) :
  reachable E p →
  (∃ r, fst (get_next_token E now p) = Ok r)
  ∧ (∀ p', ∃ r, fst (get_next_token_excluding E now x p') = Ok r).
Proof.
  intros Hp. split.
  - apply reachable_invariant, (invariant_initialize E) in Hp.
    apply get_next_token_loop_returns. apply Hp.
  - intros p'. apply excluding_loop_returns.
Qed.

Lemma X14_witness :
  (∃ r, fst (get_next_token env_personal 1000%Q pool_deactivated) = Ok r)
  ∧ (∀ p', ∃ r,
       fst (get_next_token_excluding env_personal 1000%Q (Some "personal-token") p')
       = Ok r).
Proof.
  apply (X14_selection_never_raises env_personal pool_deactivated).
  do 3 apply reach_mark_token_failed.
  apply reach_mark_token_success, reach_initialize, reach_new.
Defined.

(** ** The first initialisation *)

Lemma existsb_refresh_token_true (tok : string) (ts : list TokenInfo) :
  existsb (fun token_info => PyStr.eqb (refresh_token token_info) tok) ts = true →
  tok ∈ refresh_token <$> ts.
Proof.
  induction ts as [|t ts IH]; simpl; [done|].
  intros H. apply orb_true_iff in H as [Ht|Hts].
  - apply eqb_true in Ht. subst. left.
  - right. by apply IH.
Qed.

Lemma add_tokens_spec (E : Platform) (prio : TokenPriority) (toks : list string)
  (p : TokenPool) :
  let p' := foldl (fun q tok => _add_token_internal E tok prio q) p toks in
  ∃ news, _tokens p' = _tokens p ++ news
          ∧ added E prio toks (refresh_token <$> _tokens p) news
          ∧ (∀ tok, tok ∈ toks → tok ∈ refresh_token <$> _tokens p')
          ∧ _initialized p' = _initialized p
          ∧ _failed_tokens p' = _failed_tokens p.
Proof.
  revert p. induction toks as [|tok toks IH]; intros p; simpl.
  { exists []. rewrite app_nil_r. split; [done|]. split; [constructor|].
    split; [|done]. intros tok H. inversion H. }
  destruct (IH (_add_token_internal E tok prio p)) as (news & Htok & Hadd & Hall & Hi & Hf).
  unfold _add_token_internal in Htok, Hadd, Hall, Hi, Hf |- *.
  destruct (existsb _ (_tokens p)) eqn:Hex.
  - exists news. split; [done|]. split; [|split; [|done]].
    + eapply Forall_impl; [exact Hadd|]. intros t (H1 & H2 & H3).
      split; [done|]. split; [by right|done].
    + intros tok' Hin. apply elem_of_cons in Hin as [->|Hin]; [|by apply Hall].
      rewrite Htok, fmap_app. apply elem_of_app. left.
      by apply existsb_refresh_token_true.
  - simpl in *. exists (TokenInfo_new E tok prio :: news).
    rewrite <- app_assoc in Htok. split; [done|]. split; [|split; [|done]].
    + constructor.
      * split; [done|]. split; [left|]. by apply existsb_refresh_token.
      * eapply Forall_impl; [exact Hadd|]. intros t (H1 & H2 & H3).
        split; [done|]. split; [by right|].
        intros Hin. apply H3. rewrite fmap_app. apply elem_of_app. by left.
    + intros tok' Hin. apply elem_of_cons in Hin as [->|Hin]; [|by apply Hall].
      rewrite Htok, fmap_app. apply elem_of_app. right. left.
Qed.

(** X15.  The first initialisation fills the pool in the order of the
    priorities: the anonymous token if there is one, then the shared
    tokens, then the personal ones, every record new.  A token that is
    configured under several priorities is held once, under the first of
    them. *)
Theorem X15_initialize_orders_by_priority (E : Platform) :
  let p0 := initialize E TokenPool_init in
  ∃ a s pe,
    _tokens p0 = a ++ s ++ pe
    ∧ added E ANONYMOUS
        (match _load_anonymous_token E with Some tok => [tok] | None => [] end) [] a
    ∧ added E SHARED (_load_shared_tokens E) (refresh_token <$> a) s
    ∧ added E PERSONAL (_load_personal_tokens E) (refresh_token <$> (a ++ s)) pe
    ∧ (∀ tok, tok ∈ _load_shared_tokens E ∨ tok ∈ _load_personal_tokens E
              ∨ (tok ≠ "" ∧ _load_anonymous_token E = Some tok) →
              tok ∈ refresh_token <$> _tokens p0)
    ∧ _initialized p0 = true
    ∧ _failed_tokens p0 = ∅.
Proof.
  unfold initialize. simpl.
  set (p1 := match _load_anonymous_token E with
             | Some anonymous_token =>
                 if PyStr.nonempty anonymous_token
                 then _add_token_internal E anonymous_token ANONYMOUS TokenPool_init
                 else TokenPool_init
             | None => TokenPool_init
             end).
  assert (H1 : added E ANONYMOUS
                 (match _load_anonymous_token E with Some tok => [tok] | None => [] end)
                 [] (_tokens p1)
               ∧ (∀ tok, tok ≠ "" → _load_anonymous_token E = Some tok →
                         tok ∈ refresh_token <$> _tokens p1)
               ∧ _initialized p1 = false ∧ _failed_tokens p1 = ∅).
  { unfold p1. destruct (_load_anonymous_token E) as [tok|].
    - destruct (PyStr.nonempty tok) eqn:Hne.
      + simpl. split; [|split; [|done]].
        * constructor; [|constructor]. split; [done|]. split; [left|apply not_elem_of_nil].
        * intros tok' _ [= ->]. left.
      + split; [constructor|]. split; [|done].
        intros tok' Hne' [= ->]. destruct tok'; done.
    - split; [constructor|]. split; [|done]. done. }
  destruct H1 as (Ha & Hanon & Hi1 & Hf1).
  destruct (add_tokens_spec E SHARED (_load_shared_tokens E) p1)
    as (s & Hs & Hadds & Halls & Hi2 & Hf2).
  set (p2 := foldl (fun q token => _add_token_internal E token SHARED q) p1
               (_load_shared_tokens E)) in *.
  destruct (add_tokens_spec E PERSONAL (_load_personal_tokens E) p2)
    as (pe & Hpe & Haddp & Hallp & Hi3 & Hf3).
  set (p3 := foldl (fun q token => _add_token_internal E token PERSONAL q) p2
               (_load_personal_tokens E)) in *.
  exists (_tokens p1), s, pe. simpl.
  rewrite Hpe, Hs, <- app_assoc. split; [done|]. split; [done|]. split; [done|].
  split; [by rewrite Hs in Haddp|]. split; [|split; [done|congruence]].
  intros tok [Hin|[Hin|[Hne Hin]]].
  - rewrite app_assoc, <- Hs, fmap_app. apply elem_of_app. left. by apply Halls.
  - rewrite app_assoc, <- Hs, <- Hpe. by apply Hallp.
  - rewrite fmap_app. apply elem_of_app. left. by apply Hanon.
Qed.

(** ** Tokens of the environment *)

Lemma string_app_assoc (s t u : string) : (s +:+ t) +:+ u = s +:+ t +:+ u.
Proof. induction s as [|c s IH]; [done|]. rewrite !append_cons. by rewrite IH. Qed.

Lemma rev_app_app (s t : string) : String.rev_app s t = String.rev s +:+ t.
Proof.
  unfold String.rev. revert t. induction s as [|c s IH]; intros t; [done|].
  cbn [String.rev_app]. rewrite IH, (IH (String c "")).
  by rewrite string_app_assoc, append_cons, append_nil.
Qed.

Lemma rev_cons (c : ascii) (s : string) :
  String.rev (String c s) = String.rev s +:+ String c "".
Proof. unfold String.rev at 1. cbn [String.rev_app]. apply rev_app_app. Qed.

Lemma rev_snoc (c : ascii) (s : string) :
  String.rev (s +:+ String c "") = String c (String.rev s).
Proof.
  induction s as [|d s IH]; [done|].
  rewrite append_cons, !rev_cons, IH. by rewrite append_cons.
Qed.

Lemma rev_involutive (s : string) : String.rev (String.rev s) = s.
Proof.
  induction s as [|c s IH]; [done|]. by rewrite rev_cons, rev_snoc, IH.
Qed.

Lemma lstrip_idempotent (s : string) : PyStr.lstrip (PyStr.lstrip s) = PyStr.lstrip s.
Proof.
  induction s as [|c s IH]; [done|].
  simpl. destruct (PyStr.is_space c) eqn:Hc; [done|]. simpl. by rewrite Hc.
Qed.

Lemma lstrip_snoc (c : ascii) (s : string) :
  PyStr.is_space c = false →
  PyStr.lstrip (s +:+ String c "") = PyStr.lstrip s +:+ String c "".
Proof.
  intros Hc. induction s as [|d s IH].
  - rewrite append_nil. simpl. by rewrite Hc.
  - rewrite append_cons. simpl. destruct (PyStr.is_space d); [done|].
    by rewrite append_cons.
Qed.

Lemma rstrip_cons (c : ascii) (s : string) :
  PyStr.is_space c = false →
  PyStr.rstrip (String c s) = String c (PyStr.rstrip s).
Proof.
  intros Hc. unfold PyStr.rstrip. by rewrite rev_cons, lstrip_snoc, rev_snoc.
Qed.

Lemma rstrip_idempotent (s : string) : PyStr.rstrip (PyStr.rstrip s) = PyStr.rstrip s.
Proof. unfold PyStr.rstrip. by rewrite rev_involutive, lstrip_idempotent. Qed.

Lemma strip_idempotent (s : string) : PyStr.strip (PyStr.strip s) = PyStr.strip s.
Proof.
  unfold PyStr.strip.
  assert (H : ∀ a, PyStr.lstrip a = a → PyStr.lstrip (PyStr.rstrip a) = PyStr.rstrip a).
  { intros [|c a] Ha; [done|]. simpl in Ha.
    destruct (PyStr.is_space c) eqn:Hc.
    - exfalso. assert (String.length (PyStr.lstrip a) <= String.length a)%nat.
      { clear. induction a as [|d a IH]; simpl; [lia|].
        destruct (PyStr.is_space d); simpl; lia. }
      rewrite Ha in H. simpl in H. lia.
    - rewrite rstrip_cons by done. simpl. by rewrite Hc. }
  rewrite H by apply lstrip_idempotent. apply rstrip_idempotent.
Qed.

Lemma nonempty_ne (s : string) : PyStr.nonempty s = true ↔ s ≠ "".
Proof. destruct s; simpl; split; done. Qed.

Lemma trimmed_strip (s : string) :
  PyStr.nonempty (PyStr.strip s) = true → trimmed (PyStr.strip s).
Proof. intros H. split; [by apply nonempty_ne|apply strip_idempotent]. Qed.

Lemma load_loop_trimmed (cond : list string -> string -> bool)
  (fields : list string) (tokens : list string) :
  (∀ ts tok, cond ts tok = true → PyStr.nonempty tok = true) →
  Forall trimmed tokens →
  Forall trimmed
    (foldl (fun tokens token =>
              let token := PyStr.strip token in
              if cond tokens token then tokens ++ [token] else tokens)
       tokens fields).
Proof.
  intros Hcond. revert tokens. induction fields as [|f fields IH]; intros tokens Ht;
    [done|].
  cbn [foldl]. apply IH. cbv zeta.
  destruct (cond tokens (PyStr.strip f)) eqn:Hc; [|done].
  apply Forall_app. split; [done|]. constructor; [|constructor].
  apply trimmed_strip. by eapply Hcond.
Qed.

Lemma load_loop_nodup (cond : list string -> string -> bool)
  (fields : list string) (tokens : list string) :
  (∀ ts tok, cond ts tok = true → tok ∉ ts) →
  NoDup tokens →
  NoDup
    (foldl (fun tokens token =>
              let token := PyStr.strip token in
              if cond tokens token then tokens ++ [token] else tokens)
       tokens fields).
Proof.
  intros Hcond. revert tokens. induction fields as [|f fields IH]; intros tokens Ht;
    [done|].
  cbn [foldl]. apply IH. cbv zeta.
  destruct (cond tokens (PyStr.strip f)) eqn:Hc; [|done].
  apply NoDup_app. split; [done|]. split; [|apply NoDup_singleton].
  intros x Hx Hx'. apply list_elem_of_singleton in Hx'. subst.
  by apply (Hcond _ _ Hc).
Qed.

(** X16.  Every token that [_load_personal_tokens] and
    [_load_shared_tokens] return is not empty and has no white space at
    either end, and [_load_personal_tokens] returns no token twice
    (a shared token can be returned again; the pool itself holds it
    once). *)
Theorem X16_loaded_tokens_are_trimmed (E : Platform) :
  Forall trimmed (_load_personal_tokens E)
  ∧ NoDup (_load_personal_tokens E)
  ∧ Forall trimmed (_load_shared_tokens E).
Proof.
  assert (Hp : Forall trimmed (_load_personal_tokens E)
               ∧ NoDup (_load_personal_tokens E)).
  { unfold _load_personal_tokens.
    set (first := match getenv E "WARP_REFRESH_TOKEN" with
                  | Some personal_token =>
                      if PyStr.nonempty personal_token
                         && PyStr.nonempty (PyStr.strip personal_token)
                         && negb (PyStr.eqb personal_token "your_warp_refresh_token_here")
                      then [PyStr.strip personal_token]
                      else []
                  | None => []
                  end).
    assert (Hfirst : Forall trimmed first ∧ NoDup first).
    { unfold first. destruct (getenv E "WARP_REFRESH_TOKEN") as [tok|];
        [|split; constructor].
      destruct (PyStr.nonempty tok); simpl; [|split; constructor].
      destruct (PyStr.nonempty (PyStr.strip tok)) eqn:Hne; simpl; [|split; constructor].
      destruct (negb _); [|split; constructor].
      split; [|apply NoDup_singleton]. constructor; [|constructor].
      by apply trimmed_strip. }
    destruct Hfirst as [Hf1 Hf2].
    destruct (getenv E "WARP_PERSONAL_TOKENS") as [str|]; [|done].
    destruct (PyStr.nonempty str); [|done].
    pose (cond := fun (ts : list string) (tok : string) =>
                    PyStr.nonempty tok && negb (bool_decide (tok ∈ ts))).
    split.
    - apply (load_loop_trimmed cond); [|done].
      intros ts tok H. by apply andb_true_iff in H as [H _].
    - apply (load_loop_nodup cond); [|done].
      intros ts tok H. apply andb_true_iff in H as [_ H].
      apply negb_true_iff in H. by apply bool_decide_eq_false in H. }
  destruct Hp as [Hp1 Hp2]. split; [done|]. split; [done|].
  unfold _load_shared_tokens.
  destruct (getenv E "WARP_SHARED_TOKENS") as [str|]; [|constructor].
  destruct (PyStr.nonempty str); [|constructor].
  apply (load_loop_trimmed (fun _ tok => PyStr.nonempty tok)); [done|constructor].
Qed.

(** ** The stream loops: lines, events and text *)

(** ** Lines of the stream *)

Lemma sse_lines_ignored (chunk : M sse unit) (pre post : list string) (line : string) :
  ignored line →
  ∀ s, sse_lines chunk (pre ++ line :: post) s = sse_lines chunk (pre ++ post) s.
Proof.
  intros Hline. induction pre as [|l pre IH]; intros s.
  - cbn [app sse_lines]. destruct Hline as [[Hd Hs]|[Hd Hs]]; rewrite Hd.
    + unfold bind at 1, gets.
      assert (PyStr.eqb (PyStr.strip line) "" = false) as -> by (by apply eqb_false).
      done.
    + by rewrite Hs.
  - rewrite <- !app_comm_cons. cbn [sse_lines].
    destruct (PyStr.startswith "data:" l).
    + destruct (negb (PyStr.nonempty (PyStr.strip (PyStr.drop 5 l)))); [apply IH|].
      destruct (PyStr.eqb (PyStr.strip (PyStr.drop 5 l)) "[DONE]"); [done|].
      unfold bind, modify. apply IH.
    + unfold bind at 1 3. unfold gets.
      destruct (PyStr.eqb (PyStr.strip l) "" && PyStr.nonempty (current_data s));
        [|apply IH].
      unfold bind. destruct (chunk s) as [[[]|e] s1]; [apply IH|done].
Qed.

(** X17.  A line of the stream that neither starts with [data:] nor is
    blank (an [event:] field, a comment) and a [data:] line without a
    payload change nothing, wherever they stand: both senders return
    what they return without the line, and such a line does not end the
    chunk that is being put together. *)
Theorem X17_ignored_lines (protobuf_to_dict : list byte -> result pyval)
  (show_all_events : bool) (pre post : list string) (line : string) :
  ignored line →
  read_stream protobuf_to_dict show_all_events (pre ++ line :: post)
  = read_stream protobuf_to_dict show_all_events (pre ++ post)
  ∧ read_stream_parsed protobuf_to_dict (pre ++ line :: post)
    = read_stream_parsed protobuf_to_dict (pre ++ post).
Proof.
  intros Hline. unfold read_stream, read_stream_parsed.
  by rewrite !(sse_lines_ignored _ pre post line Hline).
Qed.

Lemma X17_witness :
  read_stream (fun _ => Ok hello_event) true
    (["data: 0a"] ++ "event: message" :: ["data: 00"; ""])
  = read_stream (fun _ => Ok hello_event) true (["data: 0a"] ++ ["data: 00"; ""])
  ∧ read_stream_parsed (fun _ => Ok hello_event)
      (["data: 0a"] ++ "event: message" :: ["data: 00"; ""])
    = read_stream_parsed (fun _ => Ok hello_event) (["data: 0a"] ++ ["data: 00"; ""]).
Proof.
  apply (X17_ignored_lines (fun _ => Ok hello_event) true ["data: 0a"]
           ["data: 00"; ""] "event: message").
  left. split; [reflexivity|]. vm_compute. discriminate.
Defined.

(** ** Events of the stream *)

Section Kept.

Variable R : sse -> sse -> Prop.
Hypothesis R_refl : ∀ s, R s s.
Hypothesis R_trans : ∀ s1 s2 s3, R s1 s2 → R s2 s3 → R s1 s3.

Lemma kept_ret {A : Type} (a : A) : sse_kept R (ret a).
Proof. intros s. apply R_refl. Qed.

Lemma kept_lift {A : Type} (r : result A) : sse_kept R (lift r).
Proof. intros s. apply R_refl. Qed.

Lemma kept_gets {A : Type} (f : sse -> A) : sse_kept R (gets f).
Proof. intros s. apply R_refl. Qed.

Lemma kept_modify (f : sse -> sse) : (∀ s, R s (f s)) → sse_kept R (modify f).
Proof. intros Hf s. apply Hf. Qed.

Lemma kept_bind {A B : Type} (m : M sse A) (f : A -> M sse B) :
  sse_kept R m → (∀ x, sse_kept R (f x)) → sse_kept R (bind m f).
Proof.
  intros Hm Hf s. unfold bind. specialize (Hm s).
  destruct (m s) as [[a|e] s1]; simpl in *; [|done].
  eapply R_trans; [exact Hm|apply Hf].
Qed.

Lemma kept_try_except {A : Type} (m : M sse A) (h : exn -> M sse A) :
  sse_kept R m → (∀ e, sse_kept R (h e)) → sse_kept R (try_except m h).
Proof.
  intros Hm Hh s. unfold try_except. specialize (Hm s).
  destruct (m s) as [[a|e] s1]; simpl in *; [done|].
  eapply R_trans; [exact Hm|apply Hh].
Qed.

Lemma kept_for_each {A : Type} (l : list A) (body : A -> M sse unit) :
  (∀ x, sse_kept R (body x)) → sse_kept R (for_each l body).
Proof.
  intros Hbody. induction l as [|x l IH]; simpl; [apply kept_ret|].
  apply kept_bind; [apply Hbody|]. intros _. apply IH.
Qed.

End Kept.

Lemma same_events_refl (s : sse) : same_events s s.
Proof. by repeat split. Qed.

Lemma same_events_trans (s1 s2 s3 : sse) :
  same_events s1 s2 → same_events s2 s3 → same_events s1 s3.
Proof. intros (H1 & H2 & H3) (H4 & H5 & H6). repeat split; congruence. Qed.

Lemma same_text_refl (s : sse) : same_text s s.
Proof. by repeat split. Qed.

Lemma same_text_trans (s1 s2 s3 : sse) :
  same_text s1 s2 → same_text s2 s3 → same_text s1 s3.
Proof. intros (H1 & H2 & H3) (H4 & H5 & H6). repeat split; congruence. Qed.

Ltac kept_events :=
  repeat match goal with
    | |- sse_kept _ (bind _ _) =>
        apply (kept_bind same_events same_events_trans); [|intros ?]
    | |- sse_kept _ (ret _) => apply (kept_ret same_events same_events_refl)
    | |- sse_kept _ (lift _) => apply (kept_lift same_events same_events_refl)
    | |- sse_kept _ (gets _) => apply (kept_gets same_events same_events_refl)
    | |- sse_kept _ (modify _) =>
        apply (kept_modify same_events); intros ?; by repeat split
    | |- sse_kept _ (for_each _ _) =>
        apply (kept_for_each same_events same_events_refl same_events_trans);
        intros ?
    end.

Lemma take_text_events (agent_output : pyval) : sse_kept same_events (take_text agent_output).
Proof.
  unfold take_text. kept_events.
  destruct (Py.truthy _); kept_events.
Qed.

Lemma on_message_events (message : pyval) : sse_kept same_events (on_message message).
Proof.
  unfold on_message. kept_events.
  destruct (Py.is_not_none _); [apply take_text_events|kept_events].
Qed.

Lemma on_action_events (action : pyval) : sse_kept same_events (on_action action).
Proof.
  unfold on_action. kept_events.
  - destruct (Py.is_dict _); kept_events. apply take_text_events.
  - destruct (Py.is_dict _); kept_events. apply on_message_events.
Qed.

Lemma on_client_actions_events (event_data : pyval) :
  sse_kept same_events (on_client_actions event_data).
Proof.
  unfold on_client_actions. destruct (Py.is_dict _); kept_events.
  apply on_action_events.
Qed.

Lemma on_init_events (event_data : pyval) : sse_kept same_events (on_init event_data).
Proof. unfold on_init. kept_events. Qed.

Section Parsed.

Variable protobuf_to_dict : list byte -> result pyval.

Lemma numbered_mono (c c' : Z) (evs : list event_entry) :
  c ≤ c' → numbered protobuf_to_dict c evs → numbered protobuf_to_dict c' evs.
Proof.
  intros Hc [Hall Hsorted]. split; [|done].
  eapply Forall_impl; [exact Hall|]. intros e (H1 & H2 & H3). repeat split; try done; lia.
Qed.

Lemma numbered_snoc (c : Z) (evs : list event_entry) (ty : string) (ev : pyval)
  (raw_bytes : list byte) :
  0 ≤ c → numbered protobuf_to_dict c evs →
  _get_event_type ev = Ok ty → protobuf_to_dict raw_bytes = Ok ev →
  numbered protobuf_to_dict (c + 1) (evs ++ [mkEvent (c + 1) ty ev]).
Proof.
  intros Hc [Hall Hsorted] Hty Hraw. split.
  - apply Forall_app. split.
    + eapply Forall_impl; [exact Hall|]. intros e (H1 & H2 & H3).
      repeat split; try done; lia.
    + constructor; [|constructor]. simpl. repeat split; try done; try lia. eauto.
  - apply StronglySorted_app. split; [|split; [done|repeat constructor]].
    intros a b Ha Hb. apply list_elem_of_singleton in Hb as ->. simpl.
    rewrite Forall_forall in Hall. destruct (Hall a Ha) as (H1 & _). lia.
Qed.

Lemma recorded_same_events (s s' : sse) : same_events s s' → recorded protobuf_to_dict s → recorded protobuf_to_dict s'.
Proof. intros (H1 & H2 & _) [Hc Hn]. unfold recorded. by rewrite H1, H2. Qed.

Lemma on_event_parsed_recorded (raw_bytes : list byte) (event_data : pyval) (s : sse) :
  protobuf_to_dict raw_bytes = Ok event_data →
  recorded protobuf_to_dict s → recorded protobuf_to_dict (snd (on_event_parsed event_data s)).
Proof.
  intros Hraw [Hc Hn]. unfold on_event_parsed.
  unfold bind at 1. unfold modify at 1.
  set (s1 := incr_event_count s).
  assert (Hs1 : recorded protobuf_to_dict s1).
  { split; simpl; [lia|]. eapply numbered_mono; [|exact Hn]. lia. }
  unfold bind at 1. unfold lift at 1.
  destruct (_get_event_type event_data) as [ty|e] eqn:Hty; [|done].
  unfold bind at 1. unfold gets at 1.
  unfold bind at 1. unfold modify at 1.
  set (s2 := append_event _ s1).
  assert (Hs2 : recorded protobuf_to_dict s2).
  { split; simpl; [lia|]. by eapply numbered_snoc. }
  eapply recorded_same_events; [|exact Hs2].
  apply (kept_bind same_events same_events_trans);
    [apply (kept_lift same_events same_events_refl)|intros has_init].
  apply (kept_bind same_events same_events_trans);
    [|intros ?; apply on_client_actions_events].
  destruct has_init; [apply on_init_events|apply (kept_ret same_events same_events_refl)].
Qed.

Lemma on_chunk_parsed_recorded (s : sse) :
  recorded protobuf_to_dict s →
  fst (on_chunk_parsed protobuf_to_dict s) = Ok tt
  ∧ recorded protobuf_to_dict (snd (on_chunk_parsed protobuf_to_dict s)).
Proof.
  intros Hs. unfold on_chunk_parsed, bind, gets, modify, try_except, lift, ret.
  set (s1 := set_current_data "" s).
  assert (Hs1 : recorded protobuf_to_dict s1) by done.
  destruct (_parse_payload_bytes2 (current_data s)) as [raw_bytes|];
    [|split; [done|exact Hs1]].
  destruct (protobuf_to_dict raw_bytes) as [event_data|e] eqn:Hraw;
    [|split; [done|exact Hs1]].
  pose proof (on_event_parsed_recorded raw_bytes event_data s1 Hraw Hs1) as H.
  destruct (on_event_parsed event_data s1) as [[[]|e] s2]; split; done.
Qed.

Lemma sse_lines_parsed_recorded (lines : list string) (s : sse) :
  recorded protobuf_to_dict s →
  fst (sse_lines (on_chunk_parsed protobuf_to_dict) lines s) = Ok tt
  ∧ recorded protobuf_to_dict (snd (sse_lines (on_chunk_parsed protobuf_to_dict) lines s)).
Proof.
  revert s. induction lines as [|line lines IH]; intros s Hs; [done|].
  cbn [sse_lines]. destruct (PyStr.startswith "data:" line).
  - destruct (negb (PyStr.nonempty (PyStr.strip (PyStr.drop 5 line)))); [by apply IH|].
    destruct (PyStr.eqb (PyStr.strip (PyStr.drop 5 line)) "[DONE]"); [done|].
    unfold bind, modify. by apply IH.
  - unfold bind at 1 3. unfold gets.
    destruct (PyStr.eqb (PyStr.strip line) "" && PyStr.nonempty (current_data s));
      [|by apply IH].
    unfold bind. destruct (on_chunk_parsed_recorded s Hs) as [Hok Hrec].
    destruct (on_chunk_parsed protobuf_to_dict s) as [[[]|e] s1]; [|done].
    by apply IH.
Qed.

End Parsed.

Lemma join_raises (sep : string) (l : list pyval) (e : exn) :
  Py.join sep l = Raise e → e = TypeError.
Proof.
  revert e. induction l as [|v l IH]; intros e; simpl; [done|].
  destruct v; try (by intros [= <-]).
  destruct l as [|w l]; [done|].
  destruct (Py.join sep (w :: l)) as [r|e'] eqn:Hj; [done|].
  intros [= <-]. by apply IH.
Qed.

(** X18.  In [send_protobuf_to_warp_api_parsed] nothing that an event
    holds can end the stream loop: the loop always runs to the end of the
    lines or to [[DONE]].  The events returned have numbers from 1 on in
    strictly increasing order, each has the type that [_get_event_type] gives
    for its data, and each was returned by the decoder.  The sender can
    raise only a [TypeError], when the texts are joined. *)
Theorem X18_parsed_stream_is_robust (protobuf_to_dict : list byte -> result pyval)
  (lines : list string) :
  fst (sse_lines (on_chunk_parsed protobuf_to_dict) lines sse_init) = Ok tt
  ∧ match read_stream_parsed protobuf_to_dict lines with
    | Ok rep =>
        ∃ evs, events_of rep = Some evs
               ∧ Forall (fun e =>
                           1 ≤ event_number e
                           ∧ _get_event_type (event_payload e) = Ok (event_type e)
                           ∧ ∃ raw_bytes,
                               protobuf_to_dict raw_bytes = Ok (event_payload e)) evs
               ∧ StronglySorted (fun a b => event_number a < event_number b) evs
    | Raise e => e = TypeError
    end.
Proof.
  assert (Hinit : recorded protobuf_to_dict sse_init).
  { split; simpl; [lia|]. split; constructor. }
  destruct (sse_lines_parsed_recorded protobuf_to_dict lines sse_init Hinit)
    as [Hok [_ [Hall Hsorted]]].
  split; [done|]. unfold read_stream_parsed.
  destruct (sse_lines _ lines sse_init) as [r s]. simpl in *. subst r.
  destruct (Py.join "" (complete_response s)) as [full|e] eqn:Hj.
  - exists (events s). simpl. split; [done|]. split; [|done].
    eapply Forall_impl; [exact Hall|]. intros e ((H1 & _) & H2 & H3). done.
  - by eapply join_raises.
Qed.

Section Unparsed.

Variable protobuf_to_dict : list byte -> result pyval.
Hypothesis no_init :
  ∀ raw_bytes event_data,
    protobuf_to_dict raw_bytes = Ok event_data →
    Py.contains "init" event_data ≠ Ok true.

Lemma on_event_same_text (show_all_events : bool) (raw_bytes : list byte)
  (event_data : pyval) :
  protobuf_to_dict raw_bytes = Ok event_data →
  sse_kept same_text (on_event show_all_events event_data).
Proof.
  intros Hraw. unfold on_event.
  apply (kept_bind same_text same_text_trans);
    [apply (kept_modify same_text); intros ?; by repeat split|intros _].
  apply (kept_bind same_text same_text_trans);
    [apply (kept_lift same_text same_text_refl)|intros event_type].
  apply (kept_bind same_text same_text_trans);
    [apply (kept_gets same_text same_text_refl)|intros n].
  apply (kept_bind same_text same_text_trans).
  { destruct show_all_events;
      [apply (kept_modify same_text); intros ?; by repeat split
      |apply (kept_ret same_text same_text_refl)]. }
  intros _. pose proof (no_init _ _ Hraw) as Hno.
  destruct (Py.contains "init" event_data) as [[]|e].
  - done.
  - intros s. apply same_text_refl.
  - intros s. apply same_text_refl.
Qed.

Lemma on_chunk_same_text (show_all_events : bool) :
  sse_kept same_text (on_chunk protobuf_to_dict show_all_events).
Proof.
  unfold on_chunk.
  apply (kept_bind same_text same_text_trans);
    [apply (kept_gets same_text same_text_refl)|intros data].
  apply (kept_bind same_text same_text_trans);
    [apply (kept_modify same_text); intros ?; by repeat split|intros _].
  destruct (_parse_payload_bytes data) as [raw_bytes|];
    [|apply (kept_ret same_text same_text_refl)].
  destruct (protobuf_to_dict raw_bytes) as [event_data|e] eqn:Hraw;
    [|apply (kept_ret same_text same_text_refl)].
  by eapply on_event_same_text.
Qed.

Lemma sse_lines_same_text (chunk : M sse unit) (lines : list string) :
  sse_kept same_text chunk → sse_kept same_text (sse_lines chunk lines).
Proof.
  intros Hchunk. induction lines as [|line lines IH];
    [apply (kept_ret same_text same_text_refl)|].
  cbn [sse_lines]. destruct (PyStr.startswith "data:" line).
  - destruct (negb _); [done|].
    destruct (PyStr.eqb _ _); [apply (kept_ret same_text same_text_refl)|].
    apply (kept_bind same_text same_text_trans);
      [apply (kept_modify same_text); intros ?; by repeat split|done].
  - apply (kept_bind same_text same_text_trans);
      [apply (kept_gets same_text same_text_refl)|intros data].
    destruct (_ && _); [|done].
    by apply (kept_bind same_text same_text_trans).
Qed.

Lemma read_stream_without_init (show_all_events : bool) (lines : list string) :
  match read_stream protobuf_to_dict show_all_events lines with
  | Ok rep => rep = mkReply "Warning: No response content received" PNone PNone None
  | Raise _ => True
  end.
Proof.
  unfold read_stream.
  pose proof (sse_lines_same_text _ lines (on_chunk_same_text show_all_events) sse_init)
    as (Hc & Ht & Hr).
  destruct (sse_lines _ lines sse_init) as [[[]|e] s]; [|done].
  simpl in Hc, Ht, Hr. rewrite Hc, Ht, Hr. done.
Qed.

End Unparsed.

(** X19.  [send_protobuf_to_warp_api] reads text and identifiers only
    from events that hold [init]: on a stream none of whose events holds
    it, the sender returns the warning that no content was received and no
    identifiers, whatever text the events carry. *)
Theorem X19_text_only_from_init_events (protobuf_to_dict : list byte -> result pyval)
  (show_all_events : bool) (lines : list string) :
  (∀ raw_bytes event_data,
     protobuf_to_dict raw_bytes = Ok event_data →
     Py.contains "init" event_data ≠ Ok true) →
  match read_stream protobuf_to_dict show_all_events lines with
  | Ok rep => rep = mkReply "Warning: No response content received" PNone PNone None
  | Raise _ => True
  end.
Proof. intros H. by apply read_stream_without_init. Qed.

Lemma X19_witness :
  read_stream (fun _ => Ok text_event) true ["data: 0a00"; ""]
  = Ok (mkReply "Warning: No response content received" PNone PNone None).
Proof.
  pose proof (X19_text_only_from_init_events (fun _ => Ok text_event) true
                ["data: 0a00"; ""]) as H.
  destruct (read_stream (fun _ => Ok text_event) true ["data: 0a00"; ""])
    as [rep|e] eqn:Heq.
  - rewrite H; [done|]. intros raw_bytes event_data [= <-]. vm_compute. discriminate.
  - vm_compute in Heq. discriminate.
Defined.

(** ** The chunk decoder: base64 texts *)

(** ** Base64 texts of a chunk *)

Lemma is_b64_decode (c : ascii) : is_b64 c = true → urlsafe_decode_char c = c.
Proof. destruct c as [[] [] [] [] [] [] [] []]; vm_compute; congruence. Qed.

Lemma translate_decode_b64 (s : string) :
  all_b64 s = true → translate urlsafe_decode_char s = s.
Proof.
  induction s as [|c s IH]; simpl; [done|].
  intros [Hc Hs]%andb_true_iff. by rewrite is_b64_decode, IH.
Qed.

Lemma rstrip_eq_b64 (s : string) (n : nat) :
  all_b64 s = true → rstrip_eq (s +:+ pad_string n) = s.
Proof.
  induction s as [|c s IH]; [intros _; apply rstrip_eq_pad|].
  rewrite append_cons. simpl. intros [Hc Hs]%andb_true_iff.
  rewrite (IH Hs). destruct (b64_char_facts c Hc) as (-> & _). by destruct s.
Qed.

Lemma string_app_nil_r (s : string) : s +:+ "" = s.
Proof. induction s as [|c s IH]; [done|]. rewrite append_cons. by rewrite IH. Qed.

Lemma string_length_app (s t : string) :
  String.length (s +:+ t) = (String.length s + String.length t)%nat.
Proof. induction s as [|c s IH]; [done|]. rewrite append_cons. simpl. by rewrite IH. Qed.

Lemma length_pad_string (n : nat) : String.length (pad_string n) = n.
Proof. induction n as [|n IH]; simpl; [done|]. by rewrite IH. Qed.

Lemma pad_for_padded (s : string) : pad_for (s +:+ pad_for s) = "".
Proof.
  unfold pad_for at 1. rewrite string_length_app. unfold pad_for.
  rewrite length_pad_string.
  set (n := Z.of_nat (String.length s)).
  assert (0 ≤ n) by lia.
  pose proof (Z.mod_pos_bound n 4). pose proof (Z.mod_pos_bound (4 - n mod 4) 4).
  rewrite Nat2Z.inj_add, Z2Nat.id by lia. fold n.
  assert ((n + (4 - n mod 4) mod 4) mod 4 = 0) as Hz.
  { rewrite Zplus_mod_idemp_r. replace (n + (4 - n mod 4)) with (n - n mod 4 + 1 * 4) by lia.
    rewrite Z_mod_plus_full. rewrite Zminus_mod_idemp_r. by rewrite Z.sub_diag. }
  by rewrite Hz.
Qed.

Lemma string_app_eq_nil (s t : string) : s +:+ t = "" → s = "".
Proof. by destruct s. Qed.

Lemma parse_base64_chars (b : list byte) (t p : string) (data_str : string) :
  b ≠ [] →
  t = b64_chars b ∨ t = translate urlsafe_encode_char (b64_chars b) →
  p = "" ∨ p = pad_for (b64_chars b) →
  PyStr.remove_spaces data_str = t +:+ p →
  fullmatch_hex (PyStr.remove_spaces data_str)
    && Nat.even (String.length (PyStr.remove_spaces data_str)) = false →
  _parse_payload_bytes data_str = Some b.
Proof.
  intros Hb Ht Hp Hs Hhex. unfold _parse_payload_bytes. rewrite Hs in Hhex |- *.
  pose proof (all_b64_b64_chars b) as Hall.
  assert (Hlen : String.length t = String.length (b64_chars b)).
  { destruct Ht as [->| ->]; [done|apply length_translate]. }
  assert (PyStr.nonempty (t +:+ p) = true) as ->.
  { assert (t ≠ "") as Hne.
    { intros ->. destruct b as [|x [|y [|z r]]]; simpl in Hlen; done. }
    destruct t; [done|]. by rewrite append_cons. }
  simpl negb. cbv iota.
  assert ((if fullmatch_hex (t +:+ p) then bytes_fromhex (t +:+ p) else None) = None)
    as ->.
  { destruct (fullmatch_hex (t +:+ p)) eqn:Hf; [|done].
    simpl in Hhex. apply bytes_fromhex_odd; [|done].
    unfold fullmatch_hex in Hf. by apply andb_true_iff in Hf as [_ Hf]. }
  assert (Hpad : pad_for t = pad_for (b64_chars b)).
  { unfold pad_for. by rewrite Hlen. }
  assert ((t +:+ p) +:+ pad_for (t +:+ p) = t +:+ pad_for (b64_chars b)) as ->.
  { destruct Hp as [->| ->].
    - by rewrite string_app_nil_r, Hpad.
    - rewrite <- Hpad, pad_for_padded. by rewrite string_app_nil_r. }
  assert (urlsafe_b64decode (t +:+ pad_for (b64_chars b)) = Some b) as ->; [|done].
  unfold urlsafe_b64decode, b64decode, pad_for.
  destruct Ht as [->| ->].
  - rewrite is_ascii_b64 by done.
    rewrite translate_app, translate_decode_pad, translate_decode_b64 by done.
    rewrite is_ascii_b64 by done. apply a2b_base64_b64_chars.
  - rewrite is_ascii_encode by done.
    rewrite translate_app, translate_decode_pad, translate_decode_encode by done.
    rewrite is_ascii_b64 by done. apply a2b_base64_b64_chars.
Qed.

(** X20.  The chunk decoder gives a non-empty byte string back from any
    of its base64 texts, in the standard or in the URL-safe alphabet, with
    the padding or without it, and with white space anywhere in the text,
    whenever the text without the white space is not itself a string of
    hex digits of even length. *)
Theorem X20_base64_texts_decode (b : list byte) (data_str : string) :
  b ≠ [] →
  base64_text_of b (PyStr.remove_spaces data_str) →
  fullmatch_hex (PyStr.remove_spaces data_str)
    && Nat.even (String.length (PyStr.remove_spaces data_str)) = false →
  _parse_payload_bytes data_str = Some b
  ∧ _parse_payload_bytes2 data_str = Some b.
Proof.
  intros Hb Htext Hhex.
  pose proof (all_b64_b64_chars b) as Hall.
  assert (_parse_payload_bytes data_str = Some b) as H; [|by split].
  destruct Htext as [Hs|[Hs|[Hs|Hs]]].
  - apply (parse_base64_chars b (b64_chars b) (pad_for (b64_chars b))); auto.
  - unfold urlsafe_b64encode, b64encode, pad_for in Hs.
    rewrite translate_app, translate_encode_pad in Hs.
    apply (parse_base64_chars b (translate urlsafe_encode_char (b64_chars b))
             (pad_for (b64_chars b))); auto.
  - unfold b64encode, pad_for in Hs. rewrite rstrip_eq_b64 in Hs by done.
    apply (parse_base64_chars b (b64_chars b) ""); auto.
    by rewrite string_app_nil_r.
  - rewrite urlsafe_b64encode_nopad_chars in Hs.
    apply (parse_base64_chars b (translate urlsafe_encode_char (b64_chars b)) "");
      auto.
    by rewrite string_app_nil_r.
Qed.

Lemma X20_witness :
  _parse_payload_bytes "/+ A=" = Some [xff; xe0]
  ∧ _parse_payload_bytes2 "/+ A=" = Some [xff; xe0].
Proof.
  apply (X20_base64_texts_decode [xff; xe0] "/+ A=").
  - discriminate.
  - left. vm_compute. reflexivity.
  - vm_compute. reflexivity.
Defined.

(** ** The request loops: errors and rotation *)

(** ** Errors of the upstream *)

Lemma yields_ret {S A : Type} (P : A -> Prop) (a : A) : P a → yields (S := S) P (ret a).
Proof. intros Ha s a' s' [= <- _]. done. Qed.

Lemma yields_bind {S A B : Type} (P : B -> Prop) (m : M S A) (f : A -> M S B) :
  (∀ x, yields P (f x)) → yields P (bind m f).
Proof.
  intros Hf s b s'. unfold bind. destruct (m s) as [[a|e] s1]; [|done].
  apply Hf.
Qed.

Lemma yields_bind_with {S A B : Type} (Q : A -> Prop) (P : B -> Prop)
  (m : M S A) (f : A -> M S B) :
  yields Q m → (∀ x, Q x → yields P (f x)) → yields P (bind m f).
Proof.
  intros Hm Hf s b s'. unfold bind. destruct (m s) as [[a|e] s1] eqn:Hms; [|done].
  apply Hf. by eapply Hm.
Qed.

Lemma yields_try_except {S A : Type} (P : A -> Prop) (m : M S A) (h : exn -> M S A) :
  yields P m → (∀ e, yields P (h e)) → yields P (try_except m h).
Proof.
  intros Hm Hh s a s'. unfold try_except. destruct (m s) as [[a'|e] s1] eqn:Hms.
  - intros [= <- _]. by eapply Hm.
  - apply Hh.
Qed.

Section Errors.

Variable E : Platform.
Context {W : Type}.
Variable U : Upstream W.

Lemma rotate_on_quota_yields (parsed : bool) (status : Z) (content : string)
  (cur : option string) :
  yields (rotation_end parsed status content)
    (rotate_on_quota E U parsed status content cur).
Proof.
  unfold rotate_on_quota.
  apply yields_bind. intros _. apply yields_bind. intros _.
  apply yields_bind. intros cur'. apply yields_bind. intros [i|].
  - apply yields_bind. intros t.
    destruct (PyStr.nonempty (last_jwt t)).
    { apply yields_ret. right. left. eauto. }
    apply yields_bind. intros [access_token|].
    + apply yields_bind. intros t'. apply yields_ret. right. left. eauto.
    + destruct parsed; [|apply yields_ret; by left].
      apply yields_bind. intros new_jwt.
      destruct (PyStr.nonempty new_jwt); apply yields_ret;
        [right; left; eauto|by left].
  - apply (yields_bind_with (fun f => f = Fall ∨ ∃ j c, f = Continue j c)).
    + apply yields_try_except; [|intros e; apply yields_ret; by left].
      apply yields_bind. intros new_jwt.
      destruct (PyStr.nonempty new_jwt); apply yields_ret; [right; eauto|by left].
    + intros f [->|(j & c & ->)]; apply yields_ret.
      * right. by right.
      * right. left. eauto.
Qed.

Lemma rotate_on_server_error_yields (cur : option string) :
  yields (fun f => f = Fall ∨ ∃ j c, f = Continue j c)
    (rotate_on_server_error E U cur).
Proof.
  unfold rotate_on_server_error.
  apply yields_bind. intros _. apply yields_bind. intros cur'.
  apply yields_bind. intros [i|]; [|apply yields_ret; by left].
  apply yields_bind. intros t. apply yields_bind.
  intros [access_token|]; apply yields_ret; [right; eauto|by left].
Qed.

Lemma attempt_body_after_error (parsed show_all_events : bool)
  (protobuf_bytes : list byte) (attempt : Z) (jwt : string) (cur : option string)
  (s : cstate W) (resp : response) (w : W) (content : string) :
  stream_post U jwt protobuf_bytes (world s) = (Ok resp, w) →
  status_code resp ≠ 200 →
  error_content_of E (body resp) = Ok content →
  ∃ f s',
    attempt_body E U parsed show_all_events protobuf_bytes attempt jwt cur s
    = (Ok f, s')
    ∧ (f = Return (error_reply parsed (status_code resp) content)
       ∨ (retried attempt (status_code resp) content = true
          ∧ ∃ j c, f = Continue j c))
    ∧ (retried attempt (status_code resp) content = false →
       s' = mkCstate w (pool s) (log s ++ [CallPost jwt])).
Proof.
  intros Hpost Hst Hbody. unfold attempt_body.
  rewrite (bind_ok _ _ _ _ _ (post_eq U jwt protobuf_bytes s _ w Hpost)).
  assert (negb (status_code resp =? 200) = true) as ->.
  { apply negb_true_iff. by apply Z.eqb_neq. }
  rewrite Hbody. unfold lift at 1. unfold bind at 1. unfold retried.
  set (s1 := mkCstate w (pool s) (log s ++ [CallPost jwt])).
  set (err := error_reply parsed (status_code resp) content).
  destruct (status_code resp =? 429) eqn:H429; cbn [andb orb].
  - destruct (attempt =? 0) eqn:Hatt; cbn [andb].
    + destruct (is_quota_message content) eqn:Hq; cbn [andb orb].
      * unfold bind, try_except.
        destruct (rotate_on_quota E U parsed (status_code resp) content cur s1)
          as [[f|e] s2] eqn:Hrot.
        -- destruct (rotate_on_quota_yields _ _ _ _ _ _ _ Hrot)
             as [->|[(j & c & ->)| ->]].
           ++ exists (Return err), s2. split; [done|]. split; [by left|done].
           ++ exists (Continue j c), s2. split; [done|]. split; [|done].
              right. split; [done|eauto].
           ++ exists (Return err), s2. split; [done|]. split; [by left|done].
        -- exists (Return err), s2. split; [done|]. split; [by left|done].
      * assert ((status_code resp =? 500) = false) as ->.
        { apply Z.eqb_eq in H429. rewrite H429. done. }
        cbn [andb]. exists (Return err), s1. split; [done|]. split; [by left|done].
    + assert ((status_code resp =? 500) && false = false) as -> by apply andb_false_r.
      exists (Return err), s1. split; [done|]. split; [by left|done].
  - destruct (attempt =? 0) eqn:Hatt; cbn [andb].
    + destruct (status_code resp =? 500) eqn:H500; cbn [andb].
      * unfold bind, try_except.
        destruct (rotate_on_server_error E U cur s1) as [[f|e] s2] eqn:Hrot.
        -- destruct (rotate_on_server_error_yields _ _ _ _ Hrot) as [->|(j & c & ->)].
           ++ exists (Return err), s2. split; [done|]. split; [by left|done].
           ++ exists (Continue j c), s2. split; [done|]. split; [|done].
              right. split; [done|eauto].
        -- exists (Return err), s2. split; [done|]. split; [by left|done].
      * exists (Return err), s1. split; [done|]. split; [by left|done].
    + assert ((status_code resp =? 500) && false = false) as -> by apply andb_false_r.
      exists (Return err), s1. split; [done|]. split; [by left|done].
Qed.

End Errors.

Lemma attempts_error (E : Platform) (W : Type) (U : Upstream W)
  (parsed show_all_events : bool) (protobuf_bytes : list byte) (attempt : Z)
  (rest : list Z) (jwt : string) (cur : option string) (s : cstate W)
  (resp : response) (w : W) (content : string) :
  stream_post U jwt protobuf_bytes (world s) = (Ok resp, w) →
  status_code resp ≠ 200 →
  error_content_of E (body resp) = Ok content →
  retried attempt (status_code resp) content = false →
  attempts E U parsed show_all_events protobuf_bytes (attempt :: rest) jwt cur s
  = (Ok (Some (error_reply parsed (status_code resp) content)),
     mkCstate w (pool s) (log s ++ [CallPost jwt])).
Proof.
  intros Hpost Hst Hbody Hno.
  destruct (attempt_body_after_error E U parsed show_all_events protobuf_bytes
              attempt jwt cur s resp w content Hpost Hst Hbody)
    as (f & s' & Hbody' & Hf & Hs').
  cbn [attempts]. rewrite (bind_ok _ _ _ _ _ Hbody'). rewrite (Hs' Hno).
  destruct Hf as [->|[Hyes _]]; [done|congruence].
Qed.

(** X21.  A response of the upstream that is not a 200 ends the request
    at once unless it comes in the first pass and is a 429 that tells of
    a used-up quota or a 500: the sender returns the error text with the
    status and the body, after this one POST and without turning to the
    pool or to the functions that get credentials.  In the second pass
    this holds for every status, so no request makes a third attempt. *)
Theorem X21_errors_without_retry (E : Platform) (W : Type) (U : Upstream W)
  (parsed show_all_events : bool) (protobuf_bytes : list byte) (attempt : Z)
  (rest : list Z) (jwt : string) (cur : option string) (s : cstate W)
  (resp : response) (w : W) (content : string) :
  stream_post U jwt protobuf_bytes (world s) = (Ok resp, w) →
  status_code resp ≠ 200 →
  error_content_of E (body resp) = Ok content →
  (attempt = 0 →
   (status_code resp ≠ 429 ∨ is_quota_message content = false)
   ∧ status_code resp ≠ 500) →
  let answer :=
    (Ok (Some (error_reply parsed (status_code resp) content)),
     mkCstate w (pool s) (log s ++ [CallPost jwt])) in
  attempts E U parsed show_all_events protobuf_bytes (attempt :: rest) jwt cur s
  = answer
  ∧ (attempt = 0 →
     ∀ s0, select_initial E U s0 = (Ok (jwt, cur), s) →
           (if parsed
            then send_protobuf_to_warp_api_parsed E U protobuf_bytes s0
            else send_protobuf_to_warp_api E U protobuf_bytes show_all_events s0)
           = answer).
Proof.
  intros Hpost Hst Hbody Hcond answer.
  assert (Hno : retried attempt (status_code resp) content = false).
  { unfold retried. destruct (Z.eqb_spec attempt 0) as [Ha|Ha]; [|done].
    destruct (Hcond Ha) as [[H429|Hq] H500]; cbn [andb].
    - apply Z.eqb_neq in H429, H500. by rewrite H429, H500.
    - apply Z.eqb_neq in H500. rewrite Hq, H500. by rewrite andb_false_r. }
  split; [by apply attempts_error|].
  intros -> s0 Hsel. destruct parsed.
  - unfold send_protobuf_to_warp_api_parsed. rewrite (bind_ok _ _ _ _ _ Hsel).
    by apply attempts_error.
  - unfold send_protobuf_to_warp_api. rewrite (bind_ok _ _ _ _ _ Hsel).
    by apply attempts_error.
Qed.

Lemma X21_witness :
  let answer :=
    (Ok (Some (error_reply false 503 "No error content")),
     mkCstate tt pool_cached [CallPost "cached-jwt"]) in
  attempts env_personal (upstream_answering 503) false true [] [1] "cached-jwt" None
    (mkCstate tt pool_cached [])
  = answer
  ∧ (1 = 0 →
     ∀ s0, select_initial env_personal (upstream_answering 503) s0
           = (Ok ("cached-jwt", None), mkCstate tt pool_cached []) →
           send_protobuf_to_warp_api env_personal (upstream_answering 503) [] true s0
           = answer).
Proof.
  apply (X21_errors_without_retry env_personal unit (upstream_answering 503) false
           true [] 1 [] "cached-jwt" None (mkCstate tt pool_cached [])
           (mkResponse 503 [] ["data: 0a00"; ""]) tt "No error content").
  - reflexivity.
  - simpl. lia.
  - reflexivity.
  - intros H. lia.
Defined.

(** X22.  No [Exception] that is raised while a sender looks for
    another credential leaves the sender: after a response that is not a
    200 and whose body can be decoded, a pass ends with the error text of
    the upstream or, in the first pass only, with a credential for the
    second, whichever [Exception] the pool or the functions that get
    credentials raise.  When the body cannot be decoded, the sender
    raises the error of the decoding after this one POST.  What is no
    [Exception], such as the cancellation of the task at an [await], is
    not caught by these handlers and is not spoken of here. *)
Theorem X22_rotation_failures_do_not_escape (E : Platform) (W : Type) (U : Upstream W)
  (parsed show_all_events : bool) (protobuf_bytes : list byte) (attempt : Z)
  (jwt : string) (cur : option string) (s : cstate W) (resp : response) (w : W) :
  stream_post U jwt protobuf_bytes (world s) = (Ok resp, w) →
  status_code resp ≠ 200 →
  match error_content_of E (body resp) with
  | Ok content =>
      ∃ f, fst (attempt_body E U parsed show_all_events protobuf_bytes attempt jwt
                  cur s) = Ok f
           ∧ (f = Return (error_reply parsed (status_code resp) content)
              ∨ (attempt = 0 ∧ ∃ j c, f = Continue j c))
  | Raise e =>
      attempt_body E U parsed show_all_events protobuf_bytes attempt jwt cur s
      = (Raise e, mkCstate w (pool s) (log s ++ [CallPost jwt]))
  end.
Proof.
  intros Hpost Hst.
  destruct (error_content_of E (body resp)) as [content|e] eqn:Hbody.
  - destruct (attempt_body_after_error E U parsed show_all_events protobuf_bytes
                attempt jwt cur s resp w content Hpost Hst Hbody)
      as (f & s' & -> & Hf & _).
    exists f. split; [done|]. destruct Hf as [->|[Hyes Hc]]; [by left|right].
    split; [|done]. unfold retried in Hyes.
    apply andb_true_iff in Hyes as [Ha _]. by apply Z.eqb_eq.
  - unfold attempt_body.
    rewrite (bind_ok _ _ _ _ _ (post_eq U jwt protobuf_bytes s _ w Hpost)).
    assert (negb (status_code resp =? 200) = true) as ->.
    { apply negb_true_iff. by apply Z.eqb_neq. }
    rewrite Hbody. done.
Qed.

Lemma X22_witness :
  ∃ f, fst (attempt_body env_personal (upstream_answering 500) false true [] 0
              "cached-jwt" (Some "personal-token") (mkCstate tt pool_cached []))
       = Ok f
       ∧ (f = Return (error_reply false 500 "No error content")
          ∨ (0 = 0 ∧ ∃ j c, f = Continue j c)).
Proof.
  apply (X22_rotation_failures_do_not_escape env_personal unit (upstream_answering 500)
           false true [] 0 "cached-jwt" (Some "personal-token")
           (mkCstate tt pool_cached []) (mkResponse 500 [] ["data: 0a00"; ""]) tt).
  - reflexivity.
  - simpl. lia.
Defined.

Section Rotation.

Variable E : Platform.
Context {W : Type}.
Variable U : Upstream W.

Lemma rotate_on_server_error_refreshes (tok : string) (s : cstate W) (i : nat)
  (p1 : TokenPool) (t : TokenInfo) :
  get_next_token_excluding E (time_time U (world s)) (Some tok)
    (get_token_pool E (pool s)) = (Ok (Some i), p1) →
  _tokens p1 !! i = Some t →
  log (snd (rotate_on_server_error E U (Some tok) s)) = log s ++ [CallRefresh i].
Proof.
  intros Hget Hi. unfold rotate_on_server_error, the_pool. rewrite bind_modify.
  unfold or_last_used. rewrite bind_ret.
  set (s0 := mkCstate (world s) (get_token_pool E (pool s)) (log s)).
  rewrite (bind_ok _ _ _ _ _ (next_token_excluding_eq E U (Some tok) s0 _ p1 Hget)).
  rewrite (bind_ok _ _ _ _ _ (token_eq i (mkCstate (world s) p1 (log s)) t Hi)).
  unfold bind.
  pose proof (refresh_log U i (mkCstate (world s) p1 (log s))) as Hlog.
  destruct (refresh U i _) as [[[a|]|e] s1]; simpl in *; done.
Qed.

Lemma rotate_on_quota_refreshes (parsed : bool) (status : Z) (content tok : string)
  (s : cstate W) (i : nat) (p1 : TokenPool) (t : TokenInfo) :
  get_next_token_excluding E (time_time U (world s)) (Some tok)
    (get_token_pool E (pool s)) = (Ok (Some i), p1) →
  _tokens p1 !! i = Some t →
  last_jwt t = "" →
  ∃ l, log (snd (rotate_on_quota E U parsed status content (Some tok) s))
       = log s ++ CallRefresh i :: l.
Proof.
  intros Hget Hi Hjwt. unfold rotate_on_quota, the_pool. rewrite bind_modify.
  rewrite bind_gets. unfold or_last_used. rewrite bind_ret.
  set (s0 := mkCstate (world s) (get_token_pool E (pool s)) (log s)).
  rewrite (bind_ok _ _ _ _ _ (next_token_excluding_eq E U (Some tok) s0 _ p1 Hget)).
  rewrite (bind_ok _ _ _ _ _ (token_eq i (mkCstate (world s) p1 (log s)) t Hi)).
  rewrite Hjwt. change (PyStr.nonempty "") with false. cbv iota.
  set (s1' := mkCstate (world s) p1 (log s)).
  unfold bind at 1.
  pose proof (refresh_log U i s1') as Hlog.
  destruct (refresh U i s1') as [[[a|]|e] s1]; simpl in Hlog.
  - assert (Htok : snd (token i s1) = s1).
    { unfold token. by destruct (_tokens (pool s1) !! i). }
    unfold bind. destruct (token i s1) as [[t'|e] s2]; simpl in Htok; subst s2;
      exists []; done.
  - destruct parsed.
    + unfold bind, acquire.
      destruct (acquire_anonymous_access_token U (pool s1) (world s1)) as [[[j|e] p2] w2].
      * exists [CallAcquireAnonymous].
        destruct (PyStr.nonempty j); simpl; rewrite Hlog; by rewrite <- app_assoc.
      * exists [CallAcquireAnonymous]. simpl. rewrite Hlog. by rewrite <- app_assoc.
    + exists []. done.
  - exists []. done.
Qed.

End Rotation.

(** X23.  When a sender turns to another record after a 429 that tells
    of a used-up quota, it takes the credential cached on that record as
    it is, without looking at its expiry and without any call; only when
    the record has no credential does it refresh the record.  After a 500
    it always refreshes the record it turns to. *)
Theorem X23_rotation_and_cached_credentials (E : Platform) (W : Type) (U : Upstream W)
  (parsed : bool) (status : Z) (content tok : string) (s : cstate W) (i : nat)
  (p1 : TokenPool) (t : TokenInfo) :
  get_next_token_excluding E (time_time U (world s)) (Some tok)
    (get_token_pool E (pool s)) = (Ok (Some i), p1) →
  _tokens p1 !! i = Some t →
  (last_jwt t ≠ "" →
   rotate_on_quota E U parsed status content (Some tok) s
   = (Ok (Continue (last_jwt t) (Some (refresh_token t))),
      mkCstate (world s) p1 (log s)))
  ∧ (last_jwt t = "" →
     ∃ l, log (snd (rotate_on_quota E U parsed status content (Some tok) s))
          = log s ++ CallRefresh i :: l)
  ∧ log (snd (rotate_on_server_error E U (Some tok) s)) = log s ++ [CallRefresh i].
Proof.
  intros Hget Hi. split; [|split].
  - intros Hjwt. by eapply rotate_on_quota_cached.
  - intros Hjwt. by eapply rotate_on_quota_refreshes.
  - by eapply rotate_on_server_error_refreshes.
Qed.

Lemma X23_witness :
  rotate_on_quota env_two_shared (upstream_answering 429) false 429
    "No remaining quota" (Some "first") (mkCstate tt pool_expired_jwt [])
  = (Ok (Continue "old-jwt" (Some "second")),
     mkCstate tt
       (snd (get_next_token_excluding env_two_shared 1000%Q (Some "first")
               pool_expired_jwt)) []).
Proof.
  pose proof (X23_rotation_and_cached_credentials env_two_shared unit
                (upstream_answering 429) false 429 "No remaining quota" "first"
                (mkCstate tt pool_expired_jwt []) 1
                (snd (get_next_token_excluding env_two_shared 1000%Q (Some "first")
                        pool_expired_jwt))
                (mkTokenInfo "second" SHARED "SHARED_0000" 1000%Q 0 true "old-jwt" 10%Q))
    as H.
  destruct H as [H _].
  - vm_compute. reflexivity.
  - vm_compute. reflexivity.
  - apply H. discriminate.
Defined.

(** ** Server message data ([server.py]) *)

(** ** Server message data *)

Lemma byte_to_of_Z (n : Z) : 0 ≤ n < 256 → byte_to_Z (byte_of_Z n) = n.
Proof.
  intros Hn. unfold byte_to_Z, byte_of_Z, byte_of_N.
  rewrite N.mod_small by lia.
  destruct (Byte.of_N (Z.to_N n)) as [b|] eqn:Hb.
  - apply Byte.to_of_N in Hb. rewrite Hb. lia.
  - apply Byte.of_N_None_iff in Hb. lia.
Qed.

Lemma byte_to_Z_bounds (b : byte) : 0 ≤ byte_to_Z b < 256.
Proof. unfold byte_to_Z. pose proof (Byte.to_N_bounded b). lia. Qed.

Lemma land_127_bounds (v : Z) : 0 ≤ Z.land v 127 < 128.
Proof.
  change 127 with (Z.ones 7). rewrite Z.land_ones by lia.
  apply Z.mod_pos_bound. lia.
Qed.

Lemma lor_128_bounds (x : Z) : 0 ≤ x < 128 → Z.lor x 128 = x + 128.
Proof.
  intros Hx. rewrite <- Z.add_nocarry_lor; [done|].
  apply Z.bits_inj'. intros n Hn. rewrite Z.land_spec, Z.bits_0.
  destruct (Z.lt_ge_cases n 7).
  - change 128 with (2 ^ 7). rewrite (Z.pow2_bits_false 7 n) by lia.
    apply andb_false_r.
  - rewrite (Z.bits_above_log2 x n); [done|lia|].
    destruct (Z.eq_dec x 0) as [->|]; [simpl; lia|].
    assert (Z.log2 x < 7); [|lia]. apply Z.log2_lt_pow2; lia.
Qed.

Lemma continuation_byte (v : Z) :
  let b := byte_of_Z (Z.lor (Z.land v 127) 128) in
  Z.land (byte_to_Z b) 127 = Z.land v 127 ∧ Z.land (byte_to_Z b) 128 ≠ 0.
Proof.
  intros b. unfold b. pose proof (land_127_bounds v) as Hb.
  rewrite byte_to_of_Z by (rewrite lor_128_bounds by done; lia).
  rewrite lor_128_bounds by done.
  split.
  - change 127 with (Z.ones 7) at 2. rewrite Z.land_ones by lia.
    change (Z.land v 127 + 128) with (Z.land v 127 + 1 * 2 ^ 7).
    rewrite Z_mod_plus_full. apply Z.mod_small. simpl. lia.
  - rewrite <- lor_128_bounds by done. rewrite Z.land_lor_distr_l.
    change (Z.land 128 128) with 128.
    intros H. apply Z.lor_eq_0_iff in H as [_ H]. done.
Qed.

Lemma final_byte (v : Z) :
  let b := byte_of_Z (Z.land v 127) in
  Z.land (byte_to_Z b) 127 = Z.land v 127 ∧ Z.land (byte_to_Z b) 128 = 0.
Proof.
  intros b. unfold b. pose proof (land_127_bounds v) as Hb.
  rewrite byte_to_of_Z by lia. split.
  - rewrite <- Z.land_assoc. reflexivity.
  - rewrite <- Z.land_assoc. change (Z.land 127 128) with 0. apply Z.land_0_r.
Qed.

Lemma split_low_seven (v s : Z) :
  0 ≤ s →
  Z.lor (Z.shiftl (Z.land v 127) s) (Z.shiftl (Z.shiftr v 7) (s + 7)) = Z.shiftl v s.
Proof.
  intros Hs. rewrite (Z.add_comm s 7), <- Z.shiftl_shiftl by lia.
  rewrite <- Z.shiftl_lor. f_equal.
  apply Z.bits_inj'. intros n Hn.
  rewrite Z.lor_spec, Z.land_spec. change 127 with (Z.ones 7).
  destruct (Z.lt_ge_cases n 7).
  - rewrite Z.ones_spec_low by lia. rewrite Z.shiftl_spec_low by lia.
    by rewrite andb_true_r, orb_false_r.
  - rewrite Z.ones_spec_high by lia. rewrite Z.shiftl_spec by lia.
    rewrite Z.shiftr_spec by lia. rewrite andb_false_r. simpl.
    f_equal. lia.
Qed.

Lemma write_varint_negative (fuel : nat) (v : Z) : v < 0 → _write_varint fuel v = None.
Proof.
  revert v. induction fuel as [|fuel IH]; intros v Hv; [done|].
  simpl. assert (Z.shiftr v 7 < 0) as Hneg by (by apply Z.shiftr_neg).
  destruct (Z.eqb_spec (Z.shiftr v 7) 0) as [H0|_]; [lia|].
  simpl. by rewrite IH.
Qed.

Lemma write_varint_returns (fuel : nat) (v : Z) :
  (1 <= fuel)%nat → 0 ≤ v < 2 ^ (7 * Z.of_nat fuel) →
  ∃ bs, _write_varint fuel v = Some bs ∧ (1 <= length bs <= fuel)%nat.
Proof.
  revert v. induction fuel as [|fuel IH]; intros v Hfuel Hv; [lia|].
  simpl. destruct (Z.eqb_spec (Z.shiftr v 7) 0) as [H0|Hne]; simpl.
  - eexists. split; [done|]. simpl. lia.
  - assert (Hdiv : 0 ≤ Z.shiftr v 7 < 2 ^ (7 * Z.of_nat fuel)).
    { rewrite Z.shiftr_div_pow2 by lia. split; [apply Z.div_pos; lia|].
      apply Z.div_lt_upper_bound; [lia|].
      rewrite <- Z.pow_add_r by lia.
      replace (7 + 7 * Z.of_nat fuel) with (7 * Z.of_nat (S fuel)) by lia. lia. }
    destruct (IH (Z.shiftr v 7)) as (bs & -> & Hlen); [|done|].
    + destruct fuel; [|lia]. simpl in Hdiv. lia.
    + eexists. split; [done|]. simpl. lia.
Qed.

Lemma write_varint_more_fuel (fuel extra : nat) (v : Z) (bs : list byte) :
  _write_varint fuel v = Some bs → _write_varint (fuel + extra) v = Some bs.
Proof.
  revert v bs. induction fuel as [|fuel IH]; intros v bs; [done|].
  simpl. destruct (negb (Z.shiftr v 7 =? 0)); [|done].
  destruct (_write_varint fuel (Z.shiftr v 7)) as [bs'|] eqn:Hw; [|done].
  simpl. intros [= <-]. by rewrite (IH _ _ Hw).
Qed.

Lemma read_written_varint (fuel : nat) (v : Z) (bs post : list byte) (i : nat)
  (shift val : Z) :
  0 ≤ shift →
  _write_varint fuel v = Some bs →
  shift + 7 * (Z.of_nat (length bs) - 1) ≤ 63 →
  _read_varint_loop (bs ++ post) i shift val
  = Ok (Z.lor val (Z.shiftl v shift), (i + length bs)%nat).
Proof.
  revert v bs i shift val. induction fuel as [|fuel IH];
    intros v bs i shift val Hs Hw Hlen; [done|].
  simpl in Hw. destruct (Z.eqb_spec (Z.shiftr v 7) 0) as [H0|Hne]; simpl in Hw.
  - injection Hw as <-. simpl.
    destruct (final_byte v) as [-> ->]. simpl.
    rewrite <- (split_low_seven v shift) by done.
    rewrite H0, Z.shiftl_0_l, Z.lor_0_r. do 2 f_equal. lia.
  - destruct (_write_varint fuel (Z.shiftr v 7)) as [bs'|] eqn:Hw'; [|done].
    injection Hw as <-. simpl in Hlen |- *.
    destruct (continuation_byte v) as [-> Hc].
    apply Z.eqb_neq in Hc. rewrite Hc.
    assert (1 <= length bs')%nat.
    { destruct fuel; [done|]. simpl in Hw'.
      destruct (negb _); [|by injection Hw' as <-].
      destruct (_write_varint fuel _); [|done]. injection Hw' as <-. simpl. lia. }
    destruct (Z.ltb_spec 63 (shift + 7)) as [Hbig|_]; [lia|].
    rewrite (IH (Z.shiftr v 7) bs' (S i) (shift + 7)) by (done || lia).
    rewrite <- Z.lor_assoc, split_low_seven by done.
    do 2 f_equal. lia.
Qed.

(** X24.  Varints go through: for every [v] from 0 up to but not
    including [2^70], [_write_varint] returns within ten passes, with one
    to ten bytes, and [_read_varint] at the place of these bytes in any
    buffer gives [v] back and the position after them. *)
Theorem X24_varint_round_trip (fuel : nat) (v : Z) (pre post : list byte) :
  0 ≤ v < 2 ^ 70 → (10 <= fuel)%nat →
  ∃ bs, _write_varint fuel v = Some bs
        ∧ (1 <= length bs <= 10)%nat
        ∧ _read_varint (pre ++ bs ++ post) (length pre)
          = Ok (v, (length pre + length bs)%nat).
Proof.
  intros Hv Hfuel.
  destruct (write_varint_returns 10 v) as (bs & Hw & Hlen); [lia|simpl; lia|].
  exists bs. split.
  { replace fuel with (10 + (fuel - 10))%nat by lia. by apply write_varint_more_fuel. }
  split; [done|].
  unfold _read_varint. rewrite drop_app_length.
  rewrite (read_written_varint 10 v bs post (length pre) 0 0); [|lia|done|lia].
  by rewrite Z.shiftl_0_r.
Qed.

Lemma X24_witness :
  ∃ bs, _write_varint 10 300 = Some bs
        ∧ (1 <= length bs <= 10)%nat
        ∧ _read_varint ([x08] ++ bs ++ [x10]) (length [x08])
          = Ok (300, (length [x08] + length bs)%nat).
Proof. apply (X24_varint_round_trip 10 300 [x08] [x10]); lia. Defined.

(** X25.  [_write_varint] does not return for a negative value: the
    value that is left after each pass stays negative and so is never 0.
    [_encode_timestamp] with negative seconds or nanos therefore does not
    return either. *)
Theorem X25_write_varint_negative (fuel : nat) (v : Z) (other : option Z) :
  v < 0 →
  _write_varint fuel v = None
  ∧ _encode_timestamp fuel (Some v) other = None
  ∧ _encode_timestamp fuel other (Some v) = None.
Proof.
  intros Hv. pose proof (write_varint_negative fuel v Hv) as Hw.
  split; [done|]. unfold _encode_timestamp. rewrite Hw. split.
  - by destruct (_make_key fuel 1 0).
  - destruct other as [o|]; simpl.
    + destruct (_make_key fuel 1 0); simpl; [|done].
      destruct (_write_varint fuel o); simpl; [|done].
      by destruct (_make_key fuel 2 0).
    + by destruct (_make_key fuel 2 0).
Qed.

Lemma X25_witness :
  _write_varint 1000 (-1) = None
  ∧ _encode_timestamp 1000 (Some (-1)) (Some 5) = None
  ∧ _encode_timestamp 1000 (Some 5) (Some (-1)) = None.
Proof. apply (X25_write_varint_negative 1000 (-1) (Some 5)). lia. Defined.

Lemma b64url_decode_encode (b : list byte) :
  _b64url_decode_padded (_b64url_encode_nopad b) = Some b.
Proof.
  unfold _b64url_decode_padded, _b64url_encode_nopad.
  fold (urlsafe_b64encode_nopad b). rewrite urlsafe_b64encode_nopad_chars.
  pose proof (all_b64_b64_chars b) as Hall.
  rewrite translate_decode_encode by done.
  set (chars := b64_chars b) in *.
  assert (Hpad : (- Z.of_nat (String.length chars)) mod 4
                 = (4 - Z.of_nat (String.length chars) mod 4) mod 4).
  { replace (- Z.of_nat (String.length chars))
      with (0 - Z.of_nat (String.length chars)) by lia.
    rewrite <- Zminus_mod_idemp_r.
    rewrite <- (Zminus_mod_idemp_l 4). done. }
  assert ((if (- Z.of_nat (String.length chars)) mod 4 =? 0 then chars
           else chars +:+ pad_string (Z.to_nat ((- Z.of_nat (String.length chars)) mod 4)))
          = chars +:+ pad_for chars) as ->.
  { unfold pad_for. rewrite <- Hpad.
    destruct (Z.eqb_spec ((- Z.of_nat (String.length chars)) mod 4) 0) as [->|]; [|done].
    simpl. by rewrite string_app_nil_r. }
  unfold b64decode, pad_for. rewrite is_ascii_b64 by done.
  apply a2b_base64_b64_chars.
Qed.

Lemma b64url_decode_padded_text (b : list byte) :
  _b64url_decode_padded (urlsafe_b64encode b) = Some b.
Proof.
  unfold _b64url_decode_padded, urlsafe_b64encode, b64encode.
  pose proof (all_b64_b64_chars b) as Hall.
  set (chars := b64_chars b) in *.
  rewrite translate_app. unfold pad_for.
  rewrite translate_encode_pad, translate_app, translate_decode_pad.
  fold (pad_for chars).
  rewrite translate_decode_encode by done.
  assert ((- Z.of_nat (String.length (chars +:+ pad_for chars))) mod 4 = 0) as ->.
  { pose proof (pad_for_padded chars) as Hpad. unfold pad_for at 1 in Hpad.
    apply (f_equal String.length) in Hpad. rewrite length_pad_string in Hpad.
    simpl in Hpad.
    set (n := Z.of_nat (String.length (chars +:+ pad_for chars))) in *.
    pose proof (Z.mod_pos_bound n 4 ltac:(lia)).
    pose proof (Z.mod_pos_bound (4 - n mod 4) 4 ltac:(lia)).
    assert ((4 - n mod 4) mod 4 = 0) as Hz by lia.
    apply Z.mod_divide in Hz; [|lia]. apply Z.mod_divide; [lia|].
    destruct Hz as [k Hk]. exists (- (n / 4) - 1 + k).
    pose proof (Z.div_mod n 4 ltac:(lia)). lia. }
  rewrite Z.eqb_refl. unfold b64decode, pad_for. rewrite is_ascii_b64 by done.
  apply a2b_base64_b64_chars.
Qed.

(** X26.  [_b64url_decode_padded] gives every byte string back from
    the text that [_b64url_encode_nopad] makes of it, the empty one
    included, and as well from that text with its padding left on. *)
Theorem X26_b64url_round_trip (b : list byte) :
  _b64url_decode_padded (_b64url_encode_nopad b) = Some b
  ∧ _b64url_decode_padded (urlsafe_b64encode b) = Some b.
Proof. split; [apply b64url_decode_encode|apply b64url_decode_padded_text]. Qed.

Lemma read_varint_at (fuel : nat) (v : Z) (bs pre post : list byte) :
  _write_varint fuel v = Some bs → (length bs <= 10)%nat →
  _read_varint (pre ++ bs ++ post) (length pre)
  = Ok (v, (length pre + length bs)%nat).
Proof.
  intros Hw Hlen. unfold _read_varint. rewrite drop_app_length.
  rewrite (read_written_varint fuel v bs post (length pre) 0 0); [|lia|done|lia].
  by rewrite Z.shiftl_0_r.
Qed.

Lemma read_varint_loop_advances (rest : list byte) (i : nat) (shift val v : Z)
  (i' : nat) :
  _read_varint_loop rest i shift val = Ok (v, i') → (i < i' <= i + length rest)%nat.
Proof.
  revert i shift val. induction rest as [|b rest IH]; intros i shift val; [done|].
  simpl. destruct (Z.land (byte_to_Z b) 128 =? 0).
  - intros [= _ <-]. lia.
  - destruct (63 <? shift + 7); [done|]. intros H. apply IH in H. lia.
Qed.

Lemma read_varint_advances (buf : list byte) (i : nat) (v : Z) (i' : nat) :
  _read_varint buf i = Ok (v, i') → (i < i')%nat.
Proof. intros H. apply read_varint_loop_advances in H. lia. Qed.

Lemma decode_timestamp_loop_fuel (fuel extra : nat) (buf : list byte) (i : nat)
  (seconds nanos : option Z) :
  (length buf - i <= fuel)%nat →
  _decode_timestamp_loop (fuel + extra) buf i seconds nanos
  = _decode_timestamp_loop fuel buf i seconds nanos.
Proof.
  revert i seconds nanos. induction fuel as [|fuel IH]; intros i seconds nanos Hfuel.
  { simpl. destruct extra as [|extra]; [done|]. simpl.
    destruct (Nat.ltb_spec i (length buf)); [lia|done]. }
  simpl. destruct (Nat.ltb_spec i (length buf)) as [Hi|Hi]; [|done].
  destruct (_read_varint buf i) as [[key i1]|e] eqn:Hkey; [|done].
  apply read_varint_advances in Hkey.
  destruct (Z.land key 7 =? 0).
  { destruct (_read_varint buf i1) as [[val i2]|e] eqn:Hval; [|done].
    apply read_varint_advances in Hval.
    destruct (Z.shiftr key 3 =? 1); [apply IH; lia|].
    destruct (Z.shiftr key 3 =? 2); apply IH; lia. }
  destruct (Z.land key 7 =? 2).
  { destruct (_read_varint buf i1) as [[ln i2]|e] eqn:Hval; [|done].
    apply read_varint_advances in Hval. apply IH. lia. }
  destruct (Z.land key 7 =? 1); [apply IH; lia|].
  destruct (Z.land key 7 =? 5); [apply IH; lia|done].
Qed.

Lemma decode_timestamp_varint_field (fuel fuel_w : nat) (pre bs post : list byte)
  (field v : Z) (seconds nanos : option Z) :
  field = 1 ∨ field = 2 →
  _write_varint fuel_w v = Some bs → (length bs <= 10)%nat →
  _decode_timestamp_loop (S fuel) (pre ++ byte_of_Z (8 * field) :: bs ++ post)
    (length pre) seconds nanos
  = _decode_timestamp_loop fuel (pre ++ byte_of_Z (8 * field) :: bs ++ post)
      (length pre + 1 + length bs)
      (if field =? 1 then Some v else seconds)
      (if field =? 1 then nanos else Some v).
Proof.
  intros Hfield Hw Hlen.
  set (buf := pre ++ byte_of_Z (8 * field) :: bs ++ post).
  assert (Hkey : _read_varint buf (length pre) = Ok (8 * field, S (length pre))).
  { unfold _read_varint, buf. rewrite drop_app_length. simpl.
    rewrite byte_to_of_Z by lia. destruct Hfield as [-> | ->]; simpl; done. }
  assert (Hval : _read_varint buf (S (length pre))
                 = Ok (v, (length pre + 1 + length bs)%nat)).
  { unfold buf. rewrite (cons_middle (byte_of_Z (8 * field))), app_assoc.
    replace (S (length pre)) with (length (pre ++ [byte_of_Z (8 * field)]))
      by (rewrite length_app; simpl; lia).
    rewrite (read_varint_at fuel_w v bs _ post Hw Hlen).
    rewrite length_app. simpl. done. }
  cbn [_decode_timestamp_loop].
  assert ((length pre <? length buf)%nat = true) as ->.
  { apply Nat.ltb_lt. unfold buf. rewrite length_app. simpl. lia. }
  rewrite Hkey.
  assert (Z.land (8 * field) 7 = 0) as -> by (destruct Hfield as [-> | ->]; done).
  assert (Z.shiftr (8 * field) 3 = field) as -> by (destruct Hfield as [-> | ->]; done).
  simpl (0 =? 0). cbv iota. rewrite Hval.
  destruct Hfield as [-> | ->]; done.
Qed.

Lemma decode_timestamp_loop_end (fuel : nat) (buf : list byte) (i : nat)
  (seconds nanos : option Z) :
  (length buf <= i)%nat →
  _decode_timestamp_loop fuel buf i seconds nanos = Ok (seconds, nanos).
Proof.
  intros Hi. destruct fuel as [|fuel]; [done|]. simpl.
  destruct (Nat.ltb_spec i (length buf)); [lia|done].
Qed.

Lemma make_key_small (fuel : nat) (field_no wire_type : Z) :
  (1 <= fuel)%nat → 0 ≤ Z.lor (Z.shiftl field_no 3) wire_type < 128 →
  _make_key fuel field_no wire_type
  = Some [byte_of_Z (Z.lor (Z.shiftl field_no 3) wire_type)].
Proof.
  intros Hfuel Hk. unfold _make_key. destruct fuel as [|fuel]; [lia|].
  set (k := Z.lor (Z.shiftl field_no 3) wire_type) in *. simpl.
  assert (Z.shiftr k 7 = 0) as ->.
  { rewrite Z.shiftr_div_pow2 by lia. apply Z.div_small. simpl. lia. }
  simpl. do 3 f_equal. change 127 with (Z.ones 7). rewrite Z.land_ones by lia.
  apply Z.mod_small. simpl. lia.
Qed.

Lemma written_varint (fuel : nat) (v : Z) :
  (10 <= fuel)%nat → 0 ≤ v < 2 ^ 70 →
  ∃ bs, _write_varint fuel v = Some bs ∧ (1 <= length bs <= 10)%nat.
Proof.
  intros Hfuel Hv.
  destruct (write_varint_returns 10 v) as (bs & Hw & Hlen); [lia|simpl; lia|].
  exists bs. split; [|done].
  replace fuel with (10 + (fuel - 10))%nat by lia. by apply write_varint_more_fuel.
Qed.

Lemma timestamp_round_trip (fuel : nat) (seconds nanos : option Z) :
  (10 <= fuel)%nat →
  (∀ v, seconds = Some v ∨ nanos = Some v → 0 ≤ v < 2 ^ 70) →
  ∃ buf, _encode_timestamp fuel seconds nanos = Some buf
         ∧ _decode_timestamp buf = Ok (seconds, nanos)
         ∧ (length buf <= 22)%nat.
Proof.
  intros Hfuel Hrange. unfold _encode_timestamp.
  rewrite !make_key_small by first [lia | (cbv; split; congruence)].
  change (Z.lor (Z.shiftl 1 3) 0) with (8 * 1).
  change (Z.lor (Z.shiftl 2 3) 0) with (8 * 2).
  unfold _decode_timestamp.
  destruct seconds as [s|], nanos as [n|]; simpl.
  - destruct (written_varint fuel s Hfuel) as (vs & Hs & Hls); [apply Hrange; eauto|].
    destruct (written_varint fuel n Hfuel) as (vn & Hn & Hln); [apply Hrange; eauto|].
    rewrite Hs, Hn. simpl. eexists. split; [done|]. split.
    + set (buf := byte_of_Z (8 * 1) :: vs ++ byte_of_Z (8 * 2) :: vn).
      rewrite <- (decode_timestamp_loop_fuel (length buf) 2) by lia.
      replace (length buf + 2)%nat with (S (S (length buf))) by lia.
      assert (buf = [] ++ byte_of_Z (8 * 1) :: vs ++ byte_of_Z (8 * 2) :: vn) as Hb1
        by done.
      rewrite Hb1 at 2.
      rewrite (decode_timestamp_varint_field _ fuel [] vs _ 1 s) by (auto; lia).
      simpl app.
      assert (byte_of_Z (8 * 1) :: vs ++ byte_of_Z (8 * 2) :: vn
              = (byte_of_Z (8 * 1) :: vs) ++ byte_of_Z (8 * 2) :: vn ++ []) as ->.
      { by rewrite app_nil_r. }
      replace (length [] + 1 + length vs)%nat with (length (byte_of_Z (8 * 1) :: vs))
        by (simpl; lia).
      rewrite (decode_timestamp_varint_field _ fuel _ vn [] 2 n) by (auto; lia).
      apply decode_timestamp_loop_end.
      rewrite !length_app. simpl. rewrite length_app. simpl. lia.
    + simpl. rewrite length_app. simpl. lia.
  - destruct (written_varint fuel s Hfuel) as (vs & Hs & Hls); [apply Hrange; eauto|].
    rewrite Hs. simpl. eexists. split; [done|]. split.
    + set (buf := byte_of_Z (8 * 1) :: vs ++ []).
      rewrite <- (decode_timestamp_loop_fuel (length buf) 1) by lia.
      replace (length buf + 1)%nat with (S (length buf)) by lia.
      assert (buf = [] ++ byte_of_Z (8 * 1) :: vs ++ []) as Hb1 by done.
      rewrite Hb1 at 2.
      rewrite (decode_timestamp_varint_field _ fuel [] vs [] 1 s) by (auto; lia).
      apply decode_timestamp_loop_end. simpl. rewrite length_app. simpl. lia.
    + simpl. rewrite length_app. simpl. lia.
  - destruct (written_varint fuel n Hfuel) as (vn & Hn & Hln); [apply Hrange; eauto|].
    rewrite Hn. simpl. eexists. split; [done|]. split.
    + set (buf := byte_of_Z (8 * 2) :: vn).
      rewrite <- (decode_timestamp_loop_fuel (length buf) 1) by lia.
      replace (length buf + 1)%nat with (S (length buf)) by lia.
      assert (buf = [] ++ byte_of_Z (8 * 2) :: vn ++ []) as Hb1
        by (by rewrite app_nil_r).
      rewrite Hb1 at 2.
      rewrite (decode_timestamp_varint_field _ fuel [] vn [] 2 n) by (auto; lia).
      apply decode_timestamp_loop_end. simpl. rewrite length_app. simpl. lia.
    + simpl. lia.
  - exists []. repeat split; simpl; lia.
Qed.

(** X27.  Timestamps go through: for seconds and nanos that are absent
    or from 0 up to but not including [2^70], [_decode_timestamp] gives
    back what [_encode_timestamp] was given, an absent part as absent.
    The loop of [_decode_timestamp] ends within as many passes as the
    buffer has bytes, whatever the buffer holds. *)
Theorem X27_timestamp_round_trip (fuel : nat) (seconds nanos : option Z) :
  (10 <= fuel)%nat →
  (∀ v, seconds = Some v ∨ nanos = Some v → 0 ≤ v < 2 ^ 70) →
  (∃ buf, _encode_timestamp fuel seconds nanos = Some buf
          ∧ _decode_timestamp buf = Ok (seconds, nanos))
  ∧ (∀ buf extra,
       _decode_timestamp_loop (length buf + extra) buf 0 None None
       = _decode_timestamp buf).
Proof.
  intros Hfuel Hrange. split.
  - destruct (timestamp_round_trip fuel seconds nanos Hfuel Hrange)
      as (buf & H1 & H2 & _).
    eauto.
  - intros buf extra. apply decode_timestamp_loop_fuel. lia.
Qed.

Lemma X27_witness :
  (∃ buf, _encode_timestamp 10 (Some 1700000000) (Some 5) = Some buf
          ∧ _decode_timestamp buf = Ok (Some 1700000000, Some 5))
  ∧ (∀ buf extra,
       _decode_timestamp_loop (length buf + extra) buf 0 None None
       = _decode_timestamp buf).
Proof.
  apply (X27_timestamp_round_trip 10 (Some 1700000000) (Some 5)); [lia|].
  intros v [[= <-]|[= <-]]; lia.
Defined.

Section ServerMessageDataFacts.

Variable encode_utf8 : string -> list byte.
Variable decode_utf8 : list byte -> option string.

Lemma decode_loop_end (fuel : nat) (raw : list byte) (i : nat) (uuid : option string)
  (seconds nanos : option Z) :
  (length raw <= i)%nat →
  decode_server_message_data_loop decode_utf8 fuel raw i uuid seconds nanos
  = Ok (uuid, seconds, nanos).
Proof.
  intros Hi. destruct fuel as [|fuel]; [done|]. simpl.
  destruct (Nat.ltb_spec i (length raw)); [lia|done].
Qed.

Lemma decode_loop_fuel (fuel extra : nat) (raw : list byte) (i : nat)
  (uuid : option string) (seconds nanos : option Z) :
  (length raw - i <= fuel)%nat →
  decode_server_message_data_loop decode_utf8 (fuel + extra) raw i uuid seconds nanos
  = decode_server_message_data_loop decode_utf8 fuel raw i uuid seconds nanos.
Proof.
  revert i uuid seconds nanos.
  induction fuel as [|fuel IH]; intros i uuid seconds nanos Hfuel.
  { simpl. destruct extra as [|extra]; [done|]. simpl.
    destruct (Nat.ltb_spec i (length raw)); [lia|done]. }
  simpl. destruct (Nat.ltb_spec i (length raw)) as [Hi|Hi]; [|done].
  destruct (_read_varint raw i) as [[key i1]|e] eqn:Hkey; [|done].
  apply read_varint_advances in Hkey.
  destruct (Z.land key 7 =? 2).
  { destruct (_read_varint raw i1) as [[ln i2]|e] eqn:Hval; [|done].
    apply read_varint_advances in Hval.
    destruct (Z.shiftr key 3 =? 1); [apply IH; lia|].
    destruct (Z.shiftr key 3 =? 3); [|apply IH; lia].
    destruct (_decode_timestamp _) as [[s n]|e]; [apply IH; lia|done]. }
  destruct (Z.land key 7 =? 0).
  { destruct (_read_varint raw i1) as [[ln i2]|e] eqn:Hval; [|done].
    apply read_varint_advances in Hval. apply IH. lia. }
  destruct (Z.land key 7 =? 1); [apply IH; lia|].
  destruct (Z.land key 7 =? 5); [apply IH; lia|done].
Qed.

(** One pass over a field that holds [data] with its length in front. *)
Lemma decode_loop_field (fuel fuel_w : nat) (pre len data post : list byte)
  (field : Z) (uuid : option string) (seconds nanos : option Z) :
  field = 1 ∨ field = 3 →
  _write_varint fuel_w (Z.of_nat (length data)) = Some len → (length len <= 10)%nat →
  let raw := pre ++ byte_of_Z (8 * field + 2) :: len ++ data ++ post in
  decode_server_message_data_loop decode_utf8 (S fuel) raw (length pre) uuid seconds
    nanos
  = if field =? 1 then
      decode_server_message_data_loop decode_utf8 fuel raw
        (length pre + 1 + length len + length data) (decode_utf8 data) seconds nanos
    else
      match _decode_timestamp data with
      | Raise e => Raise e
      | Ok (seconds, nanos) =>
          decode_server_message_data_loop decode_utf8 fuel raw
            (length pre + 1 + length len + length data) uuid seconds nanos
      end.
Proof.
  intros Hfield Hw Hlen raw.
  assert (Hkey : _read_varint raw (length pre) = Ok (8 * field + 2, S (length pre))).
  { unfold _read_varint, raw. rewrite drop_app_length. simpl.
    rewrite byte_to_of_Z by lia. destruct Hfield as [-> | ->]; simpl; done. }
  assert (Hval : _read_varint raw (S (length pre))
                 = Ok (Z.of_nat (length data), (length pre + 1 + length len)%nat)).
  { unfold raw. rewrite (cons_middle (byte_of_Z (8 * field + 2))), app_assoc.
    replace (S (length pre)) with (length (pre ++ [byte_of_Z (8 * field + 2)]))
      by (rewrite length_app; simpl; lia).
    rewrite (read_varint_at fuel_w _ len _ (data ++ post) Hw Hlen).
    rewrite length_app. simpl. done. }
  assert (Hdata : take (Z.to_nat (Z.of_nat (length data)))
                    (drop (length pre + 1 + length len) raw) = data).
  { unfold raw. rewrite (cons_middle (byte_of_Z (8 * field + 2))), !app_assoc.
    rewrite <- (app_assoc _ data post).
    replace (length pre + 1 + length len)%nat
      with (length ((pre ++ [byte_of_Z (8 * field + 2)]) ++ len))
      by (rewrite !length_app; simpl; lia).
    rewrite drop_app_length, Nat2Z.id. by rewrite take_app_length. }
  cbn [decode_server_message_data_loop].
  assert ((length pre <? length raw)%nat = true) as ->.
  { apply Nat.ltb_lt. unfold raw. rewrite length_app. simpl. lia. }
  rewrite Hkey.
  assert (Z.land (8 * field + 2) 7 = 2) as -> by (destruct Hfield as [-> | ->]; done).
  assert (Z.shiftr (8 * field + 2) 3 = field) as ->
    by (destruct Hfield as [-> | ->]; done).
  simpl (2 =? 2). cbv iota. rewrite Hval. cbv zeta. rewrite Hdata, Nat2Z.id.
  destruct Hfield as [-> | ->]; done.
Qed.

End ServerMessageDataFacts.

Section RoundTrip.

Variable encode_utf8 : string -> list byte.

(** The field of the identifier, when there is one to write. *)
Lemma uuid_field (fuel : nat) (u : string) :
  (10 <= fuel)%nat → Z.of_nat (length (encode_utf8 u)) < 2 ^ 70 →
  ∃ len, (key ← _make_key fuel 1 2;
          len ← _write_varint fuel (Z.of_nat (length (encode_utf8 u)));
          Some (key ++ len ++ encode_utf8 u))
         = Some (byte_of_Z (8 * 1 + 2) :: len ++ encode_utf8 u)
         ∧ _write_varint fuel (Z.of_nat (length (encode_utf8 u))) = Some len
         ∧ (length len <= 10)%nat.
Proof.
  intros Hfuel Hlen.
  rewrite make_key_small by first [lia | (cbv; split; congruence)].
  destruct (written_varint fuel (Z.of_nat (length (encode_utf8 u))) Hfuel)
    as (len & Hw & Hl); [lia|].
  exists len. rewrite Hw. simpl. split; [done|]. split; [done|lia].
Qed.

(** The field of the timestamp, when there is one to write. *)
Lemma timestamp_field (fuel : nat) (seconds nanos : option Z) :
  (10 <= fuel)%nat →
  (∀ v, seconds = Some v ∨ nanos = Some v → 0 ≤ v < 2 ^ 70) →
  ∃ ts len, (ts ← _encode_timestamp fuel seconds nanos;
             key ← _make_key fuel 3 2;
             len ← _write_varint fuel (Z.of_nat (length ts));
             Some (key ++ len ++ ts))
            = Some (byte_of_Z (8 * 3 + 2) :: len ++ ts)
            ∧ _write_varint fuel (Z.of_nat (length ts)) = Some len
            ∧ (length len <= 10)%nat
            ∧ _decode_timestamp ts = Ok (seconds, nanos).
Proof.
  intros Hfuel Hrange.
  destruct (timestamp_round_trip fuel seconds nanos Hfuel Hrange)
    as (ts & Henc & Hdec & Hlen).
  rewrite Henc. simpl.
  rewrite make_key_small by first [lia | (cbv; split; congruence)].
  destruct (written_varint fuel (Z.of_nat (length ts)) Hfuel) as (len & Hw & Hl).
  { split; [lia|]. assert (Z.of_nat (length ts) ≤ 22) by lia.
    assert (22 < 2 ^ 70) by done. lia. }
  exists ts, len. rewrite Hw. simpl. split; [done|]. split; [done|]. split; [lia|done].
Qed.

End RoundTrip.

(** X28.  [decode_server_message_data] reads back what
    [encode_server_message_data] wrote: the seconds and nanos as given,
    and the identifier unless it was the empty string, which is written
    as no field at all and so comes back as absent.  This holds for
    numbers from 0 up to 70 bits and an identifier that UTF-8 decoding
    gives back. *)
Theorem X28_server_message_data_round_trip (encode_utf8 : string -> list byte)
  (decode_utf8 : list byte -> option string) (fuel : nat) (uuid : option string)
  (seconds nanos : option Z) :
  (10 <= fuel)%nat →
  (∀ v, seconds = Some v ∨ nanos = Some v → 0 ≤ v < 2 ^ 70) →
  (∀ u, uuid = Some u →
        decode_utf8 (encode_utf8 u) = Some u
        ∧ Z.of_nat (length (encode_utf8 u)) < 2 ^ 70) →
  ∃ text,
    encode_server_message_data encode_utf8 fuel uuid seconds nanos = Some text
    ∧ decode_server_message_data decode_utf8 text
      = Ok (Decoded (if truthy_opt uuid then uuid else None) seconds nanos).
Proof.
  intros Hfuel Hrange Hutf.
  unfold encode_server_message_data, decode_server_message_data.
  assert (Hts : (seconds = None ∧ nanos = None)
                ∨ ∃ ts len,
                    match seconds, nanos with
                    | None, None => Some []
                    | _, _ =>
                        ts ← _encode_timestamp fuel seconds nanos;
                        key ← _make_key fuel 3 2;
                        len ← _write_varint fuel (Z.of_nat (length ts));
                        Some (key ++ len ++ ts)
                    end = Some (byte_of_Z (8 * 3 + 2) :: len ++ ts)
                    ∧ _write_varint fuel (Z.of_nat (length ts)) = Some len
                    ∧ (length len <= 10)%nat
                    ∧ _decode_timestamp ts = Ok (seconds, nanos)).
  { destruct (timestamp_field fuel seconds nanos Hfuel Hrange) as (ts & len & H).
    destruct seconds, nanos; eauto. }
  destruct (truthy_opt uuid) eqn:Htruthy.
  - destruct uuid as [u|]; [|done]. simpl default.
    destruct (Hutf u eq_refl) as [Hround Hlen].
    destruct (uuid_field encode_utf8 fuel u Hfuel Hlen) as (lu & -> & Hwu & Hlu).
    destruct Hts as [[-> ->]|(ts & lt & -> & Hwt & Hlt & Hdec)]; simpl.
    + eexists. split; [done|]. rewrite b64url_decode_encode. rewrite app_nil_r.
      set (raw := byte_of_Z (8 * 1 + 2) :: lu ++ encode_utf8 u).
      rewrite <- (decode_loop_fuel decode_utf8 (length raw) 1) by lia.
      replace (length raw + 1)%nat with (S (length raw)) by lia.
      assert (raw = [] ++ byte_of_Z (8 * 1 + 2) :: lu ++ encode_utf8 u ++ []) as Hraw
        by (by rewrite app_nil_r).
      rewrite Hraw at 2.
      rewrite (decode_loop_field decode_utf8 _ fuel [] lu (encode_utf8 u) [] 1)
        by (auto; lia).
      simpl (1 =? 1). cbv iota. rewrite decode_loop_end; [by rewrite Hround|].
      rewrite <- Hraw. unfold raw. simpl. rewrite length_app. lia.
    + eexists. split; [done|]. rewrite b64url_decode_encode.
      set (raw := byte_of_Z (8 * 1 + 2)
                  :: (lu ++ encode_utf8 u) ++ byte_of_Z (8 * 3 + 2) :: lt ++ ts).
      rewrite <- (decode_loop_fuel decode_utf8 (length raw) 2) by lia.
      replace (length raw + 2)%nat with (S (S (length raw))) by lia.
      assert (raw = [] ++ byte_of_Z (8 * 1 + 2) :: lu ++ encode_utf8 u
                       ++ (byte_of_Z (8 * 3 + 2) :: lt ++ ts)) as Hraw.
      { unfold raw. simpl. by rewrite <- app_assoc. }
      rewrite Hraw at 2.
      rewrite (decode_loop_field decode_utf8 _ fuel [] lu (encode_utf8 u) _ 1)
        by (auto; lia).
      simpl (1 =? 1). cbv iota. rewrite <- Hraw.
      assert (raw = (byte_of_Z (8 * 1 + 2) :: lu ++ encode_utf8 u)
                    ++ byte_of_Z (8 * 3 + 2) :: lt ++ ts ++ []) as Hraw2.
      { unfold raw. by rewrite app_nil_r. }
      replace (length [] + 1 + length lu + length (encode_utf8 u))%nat
        with (length (byte_of_Z (8 * 1 + 2) :: lu ++ encode_utf8 u))
        by (simpl; rewrite length_app; lia).
      rewrite Hraw2 at 2.
      rewrite (decode_loop_field decode_utf8 _ fuel _ lt ts [] 3) by (auto; lia).
      simpl (3 =? 1). cbv iota. rewrite Hdec.
      rewrite decode_loop_end; [by rewrite Hround|].
      rewrite !length_app. simpl. rewrite !length_app. simpl. lia.
  - assert ((if truthy_opt uuid then uuid else None) = None) as Hnone
      by (by rewrite Htruthy).
    destruct Hts as [[-> ->]|(ts & lt & -> & Hwt & Hlt & Hdec)]; simpl.
    + eexists. split; [done|]. by rewrite b64url_decode_encode.
    + eexists. split; [done|]. rewrite b64url_decode_encode.
      set (raw := byte_of_Z (8 * 3 + 2) :: lt ++ ts).
      rewrite <- (decode_loop_fuel decode_utf8 (length raw) 1) by lia.
      replace (length raw + 1)%nat with (S (length raw)) by lia.
      assert (raw = [] ++ byte_of_Z (8 * 3 + 2) :: lt ++ ts ++ []) as Hraw
        by (by rewrite app_nil_r).
      rewrite Hraw at 2.
      rewrite (decode_loop_field decode_utf8 _ fuel [] lt ts [] 3) by (auto; lia).
      simpl (3 =? 1). cbv iota. rewrite Hdec.
      rewrite decode_loop_end; [done|].
      rewrite <- Hraw. unfold raw. simpl. rewrite length_app. lia.
Qed.

Lemma X28_witness :
  ∃ text,
    encode_server_message_data String.list_byte_of_string 10 (Some "ab")
      (Some 1700000000) None = Some text
    ∧ decode_server_message_data (λ b, Some (String.string_of_list_byte b)) text
      = Ok (Decoded (Some "ab") (Some 1700000000) None).
Proof.
  apply (X28_server_message_data_round_trip String.list_byte_of_string
           (λ b, Some (String.string_of_list_byte b)) 10 (Some "ab")
           (Some 1700000000) None).
  - lia.
  - intros v [[= <-]|[=]]. lia.
  - intros u [= <-]. split; [reflexivity|]. simpl. lia.
Defined.
